(** * Text layout of KoSvgTextShape

    A shallow embedding of the layout code of
    [libs/flake/text/KoSvgTextShape.cpp]: the per-character result
    record, line chunks and line boxes, the two line engines
    ([breakLines] and [flowTextInShapes]) with the helpers they share
    ([addWordToLine], [finalizeLine], ...), the [textLength] stage, the
    placement of one character on a path, and the parts of [relayout]
    that prepare the text for the shaper, synthesize italics and commit
    the result; further [applyAnchoring], [clearAssociatedOutlines],
    the text rendering mode as a string, and the node and orthogonal
    snap strategies.

    [qreal] arithmetic is kept abstract: every definition is generic in
    an interface [QReal] of the operations the code uses, so that what is
    proved holds for any arithmetic that implements it.  An instance
    over [Q] is used to run the definitions on concrete inputs. *)

From Stdlib Require Import ZArith QArith Qround Qabs Bool List Lia Lqa.
From stdpp Require Import base list sorting gmap strings.
Import ListNotations.

Set Default Proof Using "Type".
Local Open Scope Z_scope.

(** ** [qreal] *)

(** The operations on [qreal] used by the layout code.  [r_abs] is the
    unqualified [abs] called in the line engines, [r_fabs] is [fabs];
    [r_hypot] gives the length of a [QLineF] from its two deltas. *)
Class QReal (R : Type) := {
  r_ofQ : Q -> R;
  r_ofZ : Z -> R;
  r_add : R -> R -> R;
  r_sub : R -> R -> R;
  r_mul : R -> R -> R;
  r_div : R -> R -> R;
  r_neg : R -> R;
  r_ltb : R -> R -> bool;
  r_leb : R -> R -> bool;
  r_eqb : R -> R -> bool;
  r_fabs : R -> R;
  r_abs : R -> R;
  r_qRound : R -> Z;
  r_fmod : R -> R -> R;
  r_hypot : R -> R -> R
}.

Declare Scope qreal_scope.
Delimit Scope qreal_scope with qr.
Infix "+" := r_add : qreal_scope.
Infix "-" := r_sub : qreal_scope.
Infix "*" := r_mul : qreal_scope.
Infix "/" := r_div : qreal_scope.
Notation "- x" := (r_neg x) : qreal_scope.
Infix "<?" := r_ltb : qreal_scope.
Infix "<=?" := r_leb : qreal_scope.
Infix "=?" := r_eqb : qreal_scope.
Notation "x >? y" := (r_ltb y x) : qreal_scope.
Notation "x >=? y" := (r_leb y x) : qreal_scope.

(** Exact rational arithmetic as an implementation of [QReal], to run
    the examples in; it agrees with [double] on their small dyadic
    values, and on nothing else is it meant to: [QqRound] has no 32-bit
    range, a division by zero gives [0] and not an infinity, and
    [Qhypot] is exact on axis-aligned segments only.  No theorem about
    an arbitrary [qreal] relies on it. *)
Definition Qltb (a b : Q) : bool := negb (Qle_bool b a).

Definition QqRound (d : Q) : Z :=
  if Qle_bool 0 d then Qfloor (d + (1 # 2)) else Qceiling (d - (1 # 2)).

Definition Qfmod (a b : Q) : Q :=
  if Qeq_bool b 0 then a
  else Qred (a - b * inject_Z (Z.quot (Qnum (a / b)) (Zpos (Qden (a / b))))).

Definition Qhypot (dx dy : Q) : Q :=
  if Qeq_bool dy 0 then Qabs dx
  else if Qeq_bool dx 0 then Qabs dy
  else Qred (Qabs dx + Qabs dy).

#[export] Instance Q_QReal : QReal Q := {|
  r_ofQ := fun q => q;
  r_ofZ := inject_Z;
  r_add := fun a b => Qred (a + b);
  r_sub := fun a b => Qred (a - b);
  r_mul := fun a b => Qred (a * b);
  r_div := fun a b => Qred (a / b);
  r_neg := fun a => Qred (- a);
  r_ltb := Qltb;
  r_leb := Qle_bool;
  r_eqb := Qeq_bool;
  r_fabs := Qabs;
  r_abs := Qabs;
  r_qRound := QqRound;
  r_fmod := Qfmod;
  r_hypot := Qhypot
|}.

(** ** Enumerations *)

Inductive BreakType := NoBreak | SoftBreak | HardBreak.

Inductive LineEdgeBehaviour :=
  | NoChange           (* Do nothing special. *)
  | Collapse           (* Collapse if first or last in line. *)
  | HangBehaviour      (* Hang at the start or end of line. *)
  | ForceHang          (* Force hanging at the end of line. *)
  | ConditionallyHang. (* Only hang if necessary. *)

(** [KoSvgText] enumerations read by the layout code. *)
Inductive TextAnchor := AnchorStart | AnchorMiddle | AnchorEnd.
Inductive Direction := DirectionLeftToRight | DirectionRightToLeft.
Inductive WritingMode := HorizontalTB | VerticalRL | VerticalLR.
Inductive TextAlign :=
  AlignLastAuto | AlignStart | AlignEnd | AlignLeft | AlignRight
  | AlignCenter | AlignJustify.
Inductive LengthAdjust := LengthAdjustSpacing | LengthAdjustSpacingAndGlyphs.
Inductive FontStyle := StyleNormal | StyleItalic | StyleOblique.

#[export] Instance BreakType_eq_dec : EqDecision BreakType.
Proof. solve_decision. Defined.
#[export] Instance LineEdgeBehaviour_eq_dec : EqDecision LineEdgeBehaviour.
Proof. solve_decision. Defined.
#[export] Instance TextAnchor_eq_dec : EqDecision TextAnchor.
Proof. solve_decision. Defined.
#[export] Instance Direction_eq_dec : EqDecision Direction.
Proof. solve_decision. Defined.
#[export] Instance WritingMode_eq_dec : EqDecision WritingMode.
Proof. solve_decision. Defined.
#[export] Instance TextAlign_eq_dec : EqDecision TextAlign.
Proof. solve_decision. Defined.
#[export] Instance LengthAdjust_eq_dec : EqDecision LengthAdjust.
Proof. solve_decision. Defined.
#[export] Instance FontStyle_eq_dec : EqDecision FontStyle.
Proof. solve_decision. Defined.

(** ** Qt geometry

    [QPointF], [QLineF] and [QRectF] with the member functions the layout
    code calls, following Qt's definitions of them. *)

Section Geometry.
Context {R : Type} `{!QReal R}.
Local Open Scope qreal_scope.

Definition r0 : R := r_ofQ 0.
Definition r1 : R := r_ofQ 1.
Definition rhalf : R := r_ofQ (1 # 2).

(** [qMax(a, b)] is [(a < b) ? b : a], [qMin(a, b)] is [(a < b) ? a : b]. *)
Definition qMax (a b : R) : R := if a <? b then b else a.
Definition qMin (a b : R) : R := if a <? b then a else b.

Record QPointF := mkQPointF { px : R; py : R }.

(** [QPointF()] *)
Definition QPointF0 : QPointF := mkQPointF r0 r0.
Definition padd (a b : QPointF) : QPointF := mkQPointF (px a + px b) (py a + py b).
Definition psub (a b : QPointF) : QPointF := mkQPointF (px a - px b) (py a - py b).
Definition pneg (a : QPointF) : QPointF := mkQPointF (- px a) (- py a).
Definition pmul (a : QPointF) (c : R) : QPointF := mkQPointF (px a * c) (py a * c).
Definition setX (a : QPointF) (v : R) : QPointF := mkQPointF v (py a).
Definition setY (a : QPointF) (v : R) : QPointF := mkQPointF (px a) v.

Record QLineF := mkQLineF { p1 : QPointF; p2 : QPointF }.

(** [QLineF()] *)
Definition QLineF0 : QLineF := mkQLineF QPointF0 QPointF0.
Definition line_length (l : QLineF) : R :=
  r_hypot (px (p2 l) - px (p1 l)) (py (p2 l) - py (p1 l)).
Definition line_center (l : QLineF) : QPointF :=
  mkQPointF (rhalf * px (p1 l) + rhalf * px (p2 l))
            (rhalf * py (p1 l) + rhalf * py (p2 l)).
Definition line_translated (l : QLineF) (d : QPointF) : QLineF :=
  mkQLineF (padd (p1 l) d) (padd (p2 l) d).
Definition setP1 (l : QLineF) (p : QPointF) : QLineF := mkQLineF p (p2 l).
Definition setP2 (l : QLineF) (p : QPointF) : QLineF := mkQLineF (p1 l) p.

Record QRectF := mkQRectF { xp : R; yp : R; rw : R; rh : R }.

(** [QRectF()] *)
Definition QRectF0 : QRectF := mkQRectF r0 r0 r0 r0.
Definition rect_of_points (tl br : QPointF) : QRectF :=
  mkQRectF (px tl) (py tl) (px br - px tl) (py br - py tl).
Definition rect_left (r : QRectF) : R := xp r.
Definition rect_top (r : QRectF) : R := yp r.
Definition rect_right (r : QRectF) : R := xp r + rw r.
Definition rect_bottom (r : QRectF) : R := yp r + rh r.
Definition rect_width (r : QRectF) : R := rw r.
Definition rect_height (r : QRectF) : R := rh r.
Definition topLeft (r : QRectF) : QPointF := mkQPointF (xp r) (yp r).
Definition topRight (r : QRectF) : QPointF := mkQPointF (xp r + rw r) (yp r).
Definition bottomLeft (r : QRectF) : QPointF := mkQPointF (xp r) (yp r + rh r).
Definition bottomRight (r : QRectF) : QPointF := mkQPointF (xp r + rw r) (yp r + rh r).
Definition rect_center (r : QRectF) : QPointF :=
  mkQPointF (xp r + rw r / r_ofQ 2) (yp r + rh r / r_ofQ 2).
Definition rect_isNull (r : QRectF) : bool := (rw r =? r0) && (rh r =? r0).
Definition rect_isEmpty (r : QRectF) : bool := (rw r <=? r0) || (rh r <=? r0).
Definition rect_translated (r : QRectF) (d : QPointF) : QRectF :=
  mkQRectF (xp r + px d) (yp r + py d) (rw r) (rh r).
Definition rect_normalized (r : QRectF) : QRectF :=
  let '(x, w) := if rw r <? r0 then (xp r + rw r, - rw r) else (xp r, rw r) in
  let '(y, h) := if rh r <? r0 then (yp r + rh r, - rh r) else (yp r, rh r) in
  mkQRectF x y w h.
Definition setTop (r : QRectF) (pos : R) : QRectF :=
  let diff := pos - yp r in mkQRectF (xp r) (yp r + diff) (rw r) (rh r - diff).
Definition setBottom (r : QRectF) (pos : R) : QRectF :=
  mkQRectF (xp r) (yp r) (rw r) (pos - yp r).
Definition setLeft (r : QRectF) (pos : R) : QRectF :=
  let diff := pos - xp r in mkQRectF (xp r + diff) (yp r) (rw r - diff) (rh r).
Definition setRight (r : QRectF) (pos : R) : QRectF :=
  mkQRectF (xp r) (yp r) (pos - xp r) (rh r).

(** [QRectF::contains(const QPointF &)] *)
Definition rect_contains (r : QRectF) (p : QPointF) : bool :=
  let '(l, rr) := if rw r <? r0 then (xp r + rw r, xp r) else (xp r, xp r + rw r) in
  let '(t, b) := if rh r <? r0 then (yp r + rh r, yp r) else (yp r, yp r + rh r) in
  if l =? rr then false
  else if (px p <? l) || (px p >? rr) then false
  else if t =? b then false
  else if (py p <? t) || (py p >? b) then false
  else true.

(** [QRectF::operator|]: the bounding rectangle of the two; a null
    rectangle is the neutral element. *)
Definition rect_united (a b : QRectF) : QRectF :=
  if rect_isNull a then b
  else if rect_isNull b then a
  else
    let '(l, r) := if rw a <? r0 then (xp a + rw a, xp a) else (xp a, xp a + rw a) in
    let '(l, r) := if rw b <? r0 then (qMin l (xp b + rw b), qMax r (xp b))
                   else (qMin l (xp b), qMax r (xp b + rw b)) in
    let '(t, u) := if rh a <? r0 then (yp a + rh a, yp a) else (yp a, yp a + rh a) in
    let '(t, u) := if rh b <? r0 then (qMin t (yp b + rh b), qMax u (yp b))
                   else (qMin t (yp b), qMax u (yp b + rh b)) in
    mkQRectF l t (r - l) (u - t).

End Geometry.

Arguments QPointF R : clear implicits.
Arguments QLineF R : clear implicits.
Arguments QRectF R : clear implicits.

(** ** Qt painting types and geometry queries

    [QPainterPath], [QImage] and [QBrush] are opaque to the layout code;
    it only calls the functions below on them.  [path_scaled sx sy p] is
    [QTransform::fromScale(sx, sy).map(p)]; a polygon is the list of its
    points; [line_intersects] is [QLineF::intersects] with the point it
    writes; [std_sort] is [std::sort] with the given less-than. *)
Inductive IntersectType :=
  NoIntersection | BoundedIntersection | UnboundedIntersection.

#[export] Instance IntersectType_eq_dec : EqDecision IntersectType.
Proof. solve_decision. Defined.

Class QtPaint (R Path Image Brush : Type) := {
  path_null : Path;
  path_isEmpty : Path -> bool;
  path_boundingRect : Path -> QRectF R;
  path_contains : Path -> QPointF R -> bool;
  path_containsRect : Path -> QRectF R -> bool;
  path_toFillPolygons : Path -> list (list (QPointF R));
  path_toFillPolygon : Path -> list (QPointF R);
  path_scaled : R -> R -> Path -> Path;
  image_null : Image;
  polygon_boundingRect : list (QPointF R) -> QRectF R;
  line_angle : QLineF R -> R;
  line_intersects : QLineF R -> QLineF R -> IntersectType * QPointF R;
  qpoint_eqb : QPointF R -> QPointF R -> bool;
  kisDistanceToLine : QPointF R -> QLineF R -> R;
  qCos : R -> R;
  qSin : R -> R;
  qDegreesToRadians : R -> R;
  std_sort : (QPointF R -> QPointF R -> bool) -> list (QPointF R) -> list (QPointF R)
}.

(** ** [QMap] and [QVector]

    A [QMap<int, int>] is a finite map; [keys()] and [values()] list its
    keys and values in ascending key order. *)
Definition QMap_keys `{Countable K} {V} (le : relation K) `{!RelDecision le}
    (m : gmap K V) : list K :=
  merge_sort le (elements (dom m)).

Definition QMap_values `{Countable K} {V} (le : relation K) `{!RelDecision le}
    (m : gmap K V) : list V :=
  omap (fun k => m !! k) (QMap_keys le m).

(** [QVector::value(i)]: the element, or a default-constructed one when
    [i] is out of bounds.  [QVector::at(i)] and [operator[]] require [i]
    in bounds; they are modelled by the same total function. *)
Definition value_ {A} (d : A) (l : list A) (i : Z) : A :=
  if (0 <=? i) && (i <? Z.of_nat (length l)) then nth (Z.to_nat i) l d else d.

(** [QList::first()] and [QList::last()], compared with an element. *)
Definition is_first (j : nat) (l : list nat) : bool :=
  match l with
  | [] => false
  | x :: _ => Nat.eqb j x
  end.

Definition is_last (j : nat) (l : list nat) : bool :=
  match last l with
  | None => false
  | Some x => Nat.eqb j x
  end.

(** ** The data model *)

Section Model.
Context {R Path Image Brush : Type} `{!QReal R} `{!QtPaint R Path Image Brush}.
Local Open Scope qreal_scope.

Record CharacterResult := mkCharacterResult {
  finalPosition : QPointF R;
  rotate : R;
  hidden : bool;
  addressable : bool;
  middle : bool;
  anchored_chunk : bool;
  path : Path;
  image : Image;
  colorLayers : list Path;
  colorLayerColors : list Brush;
  replaceWithForeGroundColor : list bool;
  boundingBox : QRectF R;
  visualIndex : Z;
  cssPosition : QPointF R;
  advance : QPointF R;
  breakType : BreakType;
  lineEnd : LineEdgeBehaviour;
  lineStart : LineEdgeBehaviour;
  justifyBefore : bool;
  justifyAfter : bool;
  isHanging : bool;
  textLengthApplied : bool;
  overflowWrap : bool;
  halfLeading : R;
  ascent : R;
  descent : R;
  fontStyle : FontStyle;
  fontWeight : Z;
  anchor : TextAnchor;
  direction : Direction
}.

Definition set_finalPosition (v : QPointF R) (cr : CharacterResult) : CharacterResult :=
  mkCharacterResult v (rotate cr) (hidden cr) (addressable cr) (middle cr)
    (anchored_chunk cr) (path cr) (image cr) (colorLayers cr)
    (colorLayerColors cr) (replaceWithForeGroundColor cr) (boundingBox cr)
    (visualIndex cr) (cssPosition cr) (advance cr) (breakType cr)
    (lineEnd cr) (lineStart cr) (justifyBefore cr) (justifyAfter cr)
    (isHanging cr) (textLengthApplied cr) (overflowWrap cr) (halfLeading cr)
    (ascent cr) (descent cr) (fontStyle cr) (fontWeight cr) (anchor cr)
    (direction cr).
Definition set_rotate (v : R) (cr : CharacterResult) : CharacterResult :=
  mkCharacterResult (finalPosition cr) v (hidden cr) (addressable cr)
    (middle cr) (anchored_chunk cr) (path cr) (image cr) (colorLayers cr)
    (colorLayerColors cr) (replaceWithForeGroundColor cr) (boundingBox cr)
    (visualIndex cr) (cssPosition cr) (advance cr) (breakType cr)
    (lineEnd cr) (lineStart cr) (justifyBefore cr) (justifyAfter cr)
    (isHanging cr) (textLengthApplied cr) (overflowWrap cr) (halfLeading cr)
    (ascent cr) (descent cr) (fontStyle cr) (fontWeight cr) (anchor cr)
    (direction cr).
Definition set_hidden (v : bool) (cr : CharacterResult) : CharacterResult :=
  mkCharacterResult (finalPosition cr) (rotate cr) v (addressable cr)
    (middle cr) (anchored_chunk cr) (path cr) (image cr) (colorLayers cr)
    (colorLayerColors cr) (replaceWithForeGroundColor cr) (boundingBox cr)
    (visualIndex cr) (cssPosition cr) (advance cr) (breakType cr)
    (lineEnd cr) (lineStart cr) (justifyBefore cr) (justifyAfter cr)
    (isHanging cr) (textLengthApplied cr) (overflowWrap cr) (halfLeading cr)
    (ascent cr) (descent cr) (fontStyle cr) (fontWeight cr) (anchor cr)
    (direction cr).
Definition set_addressable (v : bool) (cr : CharacterResult) : CharacterResult :=
  mkCharacterResult (finalPosition cr) (rotate cr) (hidden cr) v (middle cr)
    (anchored_chunk cr) (path cr) (image cr) (colorLayers cr)
    (colorLayerColors cr) (replaceWithForeGroundColor cr) (boundingBox cr)
    (visualIndex cr) (cssPosition cr) (advance cr) (breakType cr)
    (lineEnd cr) (lineStart cr) (justifyBefore cr) (justifyAfter cr)
    (isHanging cr) (textLengthApplied cr) (overflowWrap cr) (halfLeading cr)
    (ascent cr) (descent cr) (fontStyle cr) (fontWeight cr) (anchor cr)
    (direction cr).
Definition set_middle (v : bool) (cr : CharacterResult) : CharacterResult :=
  mkCharacterResult (finalPosition cr) (rotate cr) (hidden cr)
    (addressable cr) v (anchored_chunk cr) (path cr) (image cr)
    (colorLayers cr) (colorLayerColors cr) (replaceWithForeGroundColor cr)
    (boundingBox cr) (visualIndex cr) (cssPosition cr) (advance cr)
    (breakType cr) (lineEnd cr) (lineStart cr) (justifyBefore cr)
    (justifyAfter cr) (isHanging cr) (textLengthApplied cr)
    (overflowWrap cr) (halfLeading cr) (ascent cr) (descent cr)
    (fontStyle cr) (fontWeight cr) (anchor cr) (direction cr).
Definition set_anchored_chunk (v : bool) (cr : CharacterResult) : CharacterResult :=
  mkCharacterResult (finalPosition cr) (rotate cr) (hidden cr)
    (addressable cr) (middle cr) v (path cr) (image cr) (colorLayers cr)
    (colorLayerColors cr) (replaceWithForeGroundColor cr) (boundingBox cr)
    (visualIndex cr) (cssPosition cr) (advance cr) (breakType cr)
    (lineEnd cr) (lineStart cr) (justifyBefore cr) (justifyAfter cr)
    (isHanging cr) (textLengthApplied cr) (overflowWrap cr) (halfLeading cr)
    (ascent cr) (descent cr) (fontStyle cr) (fontWeight cr) (anchor cr)
    (direction cr).
Definition set_path (v : Path) (cr : CharacterResult) : CharacterResult :=
  mkCharacterResult (finalPosition cr) (rotate cr) (hidden cr)
    (addressable cr) (middle cr) (anchored_chunk cr) v (image cr)
    (colorLayers cr) (colorLayerColors cr) (replaceWithForeGroundColor cr)
    (boundingBox cr) (visualIndex cr) (cssPosition cr) (advance cr)
    (breakType cr) (lineEnd cr) (lineStart cr) (justifyBefore cr)
    (justifyAfter cr) (isHanging cr) (textLengthApplied cr)
    (overflowWrap cr) (halfLeading cr) (ascent cr) (descent cr)
    (fontStyle cr) (fontWeight cr) (anchor cr) (direction cr).
Definition set_image (v : Image) (cr : CharacterResult) : CharacterResult :=
  mkCharacterResult (finalPosition cr) (rotate cr) (hidden cr)
    (addressable cr) (middle cr) (anchored_chunk cr) (path cr) v
    (colorLayers cr) (colorLayerColors cr) (replaceWithForeGroundColor cr)
    (boundingBox cr) (visualIndex cr) (cssPosition cr) (advance cr)
    (breakType cr) (lineEnd cr) (lineStart cr) (justifyBefore cr)
    (justifyAfter cr) (isHanging cr) (textLengthApplied cr)
    (overflowWrap cr) (halfLeading cr) (ascent cr) (descent cr)
    (fontStyle cr) (fontWeight cr) (anchor cr) (direction cr).
Definition set_boundingBox (v : QRectF R) (cr : CharacterResult) : CharacterResult :=
  mkCharacterResult (finalPosition cr) (rotate cr) (hidden cr)
    (addressable cr) (middle cr) (anchored_chunk cr) (path cr) (image cr)
    (colorLayers cr) (colorLayerColors cr) (replaceWithForeGroundColor cr) v
    (visualIndex cr) (cssPosition cr) (advance cr) (breakType cr)
    (lineEnd cr) (lineStart cr) (justifyBefore cr) (justifyAfter cr)
    (isHanging cr) (textLengthApplied cr) (overflowWrap cr) (halfLeading cr)
    (ascent cr) (descent cr) (fontStyle cr) (fontWeight cr) (anchor cr)
    (direction cr).
Definition set_visualIndex (v : Z) (cr : CharacterResult) : CharacterResult :=
  mkCharacterResult (finalPosition cr) (rotate cr) (hidden cr)
    (addressable cr) (middle cr) (anchored_chunk cr) (path cr) (image cr)
    (colorLayers cr) (colorLayerColors cr) (replaceWithForeGroundColor cr)
    (boundingBox cr) v (cssPosition cr) (advance cr) (breakType cr)
    (lineEnd cr) (lineStart cr) (justifyBefore cr) (justifyAfter cr)
    (isHanging cr) (textLengthApplied cr) (overflowWrap cr) (halfLeading cr)
    (ascent cr) (descent cr) (fontStyle cr) (fontWeight cr) (anchor cr)
    (direction cr).
Definition set_cssPosition (v : QPointF R) (cr : CharacterResult) : CharacterResult :=
  mkCharacterResult (finalPosition cr) (rotate cr) (hidden cr)
    (addressable cr) (middle cr) (anchored_chunk cr) (path cr) (image cr)
    (colorLayers cr) (colorLayerColors cr) (replaceWithForeGroundColor cr)
    (boundingBox cr) (visualIndex cr) v (advance cr) (breakType cr)
    (lineEnd cr) (lineStart cr) (justifyBefore cr) (justifyAfter cr)
    (isHanging cr) (textLengthApplied cr) (overflowWrap cr) (halfLeading cr)
    (ascent cr) (descent cr) (fontStyle cr) (fontWeight cr) (anchor cr)
    (direction cr).
Definition set_advance (v : QPointF R) (cr : CharacterResult) : CharacterResult :=
  mkCharacterResult (finalPosition cr) (rotate cr) (hidden cr)
    (addressable cr) (middle cr) (anchored_chunk cr) (path cr) (image cr)
    (colorLayers cr) (colorLayerColors cr) (replaceWithForeGroundColor cr)
    (boundingBox cr) (visualIndex cr) (cssPosition cr) v (breakType cr)
    (lineEnd cr) (lineStart cr) (justifyBefore cr) (justifyAfter cr)
    (isHanging cr) (textLengthApplied cr) (overflowWrap cr) (halfLeading cr)
    (ascent cr) (descent cr) (fontStyle cr) (fontWeight cr) (anchor cr)
    (direction cr).
Definition set_breakType (v : BreakType) (cr : CharacterResult) : CharacterResult :=
  mkCharacterResult (finalPosition cr) (rotate cr) (hidden cr)
    (addressable cr) (middle cr) (anchored_chunk cr) (path cr) (image cr)
    (colorLayers cr) (colorLayerColors cr) (replaceWithForeGroundColor cr)
    (boundingBox cr) (visualIndex cr) (cssPosition cr) (advance cr) v
    (lineEnd cr) (lineStart cr) (justifyBefore cr) (justifyAfter cr)
    (isHanging cr) (textLengthApplied cr) (overflowWrap cr) (halfLeading cr)
    (ascent cr) (descent cr) (fontStyle cr) (fontWeight cr) (anchor cr)
    (direction cr).
Definition set_lineEnd (v : LineEdgeBehaviour) (cr : CharacterResult) : CharacterResult :=
  mkCharacterResult (finalPosition cr) (rotate cr) (hidden cr)
    (addressable cr) (middle cr) (anchored_chunk cr) (path cr) (image cr)
    (colorLayers cr) (colorLayerColors cr) (replaceWithForeGroundColor cr)
    (boundingBox cr) (visualIndex cr) (cssPosition cr) (advance cr)
    (breakType cr) v (lineStart cr) (justifyBefore cr) (justifyAfter cr)
    (isHanging cr) (textLengthApplied cr) (overflowWrap cr) (halfLeading cr)
    (ascent cr) (descent cr) (fontStyle cr) (fontWeight cr) (anchor cr)
    (direction cr).
Definition set_lineStart (v : LineEdgeBehaviour) (cr : CharacterResult) : CharacterResult :=
  mkCharacterResult (finalPosition cr) (rotate cr) (hidden cr)
    (addressable cr) (middle cr) (anchored_chunk cr) (path cr) (image cr)
    (colorLayers cr) (colorLayerColors cr) (replaceWithForeGroundColor cr)
    (boundingBox cr) (visualIndex cr) (cssPosition cr) (advance cr)
    (breakType cr) (lineEnd cr) v (justifyBefore cr) (justifyAfter cr)
    (isHanging cr) (textLengthApplied cr) (overflowWrap cr) (halfLeading cr)
    (ascent cr) (descent cr) (fontStyle cr) (fontWeight cr) (anchor cr)
    (direction cr).
Definition set_justifyBefore (v : bool) (cr : CharacterResult) : CharacterResult :=
  mkCharacterResult (finalPosition cr) (rotate cr) (hidden cr)
    (addressable cr) (middle cr) (anchored_chunk cr) (path cr) (image cr)
    (colorLayers cr) (colorLayerColors cr) (replaceWithForeGroundColor cr)
    (boundingBox cr) (visualIndex cr) (cssPosition cr) (advance cr)
    (breakType cr) (lineEnd cr) (lineStart cr) v (justifyAfter cr)
    (isHanging cr) (textLengthApplied cr) (overflowWrap cr) (halfLeading cr)
    (ascent cr) (descent cr) (fontStyle cr) (fontWeight cr) (anchor cr)
    (direction cr).
Definition set_justifyAfter (v : bool) (cr : CharacterResult) : CharacterResult :=
  mkCharacterResult (finalPosition cr) (rotate cr) (hidden cr)
    (addressable cr) (middle cr) (anchored_chunk cr) (path cr) (image cr)
    (colorLayers cr) (colorLayerColors cr) (replaceWithForeGroundColor cr)
    (boundingBox cr) (visualIndex cr) (cssPosition cr) (advance cr)
    (breakType cr) (lineEnd cr) (lineStart cr) (justifyBefore cr) v
    (isHanging cr) (textLengthApplied cr) (overflowWrap cr) (halfLeading cr)
    (ascent cr) (descent cr) (fontStyle cr) (fontWeight cr) (anchor cr)
    (direction cr).
Definition set_isHanging (v : bool) (cr : CharacterResult) : CharacterResult :=
  mkCharacterResult (finalPosition cr) (rotate cr) (hidden cr)
    (addressable cr) (middle cr) (anchored_chunk cr) (path cr) (image cr)
    (colorLayers cr) (colorLayerColors cr) (replaceWithForeGroundColor cr)
    (boundingBox cr) (visualIndex cr) (cssPosition cr) (advance cr)
    (breakType cr) (lineEnd cr) (lineStart cr) (justifyBefore cr)
    (justifyAfter cr) v (textLengthApplied cr) (overflowWrap cr)
    (halfLeading cr) (ascent cr) (descent cr) (fontStyle cr) (fontWeight cr)
    (anchor cr) (direction cr).
Definition set_textLengthApplied (v : bool) (cr : CharacterResult) : CharacterResult :=
  mkCharacterResult (finalPosition cr) (rotate cr) (hidden cr)
    (addressable cr) (middle cr) (anchored_chunk cr) (path cr) (image cr)
    (colorLayers cr) (colorLayerColors cr) (replaceWithForeGroundColor cr)
    (boundingBox cr) (visualIndex cr) (cssPosition cr) (advance cr)
    (breakType cr) (lineEnd cr) (lineStart cr) (justifyBefore cr)
    (justifyAfter cr) (isHanging cr) v (overflowWrap cr) (halfLeading cr)
    (ascent cr) (descent cr) (fontStyle cr) (fontWeight cr) (anchor cr)
    (direction cr).
Definition set_overflowWrap (v : bool) (cr : CharacterResult) : CharacterResult :=
  mkCharacterResult (finalPosition cr) (rotate cr) (hidden cr)
    (addressable cr) (middle cr) (anchored_chunk cr) (path cr) (image cr)
    (colorLayers cr) (colorLayerColors cr) (replaceWithForeGroundColor cr)
    (boundingBox cr) (visualIndex cr) (cssPosition cr) (advance cr)
    (breakType cr) (lineEnd cr) (lineStart cr) (justifyBefore cr)
    (justifyAfter cr) (isHanging cr) (textLengthApplied cr) v
    (halfLeading cr) (ascent cr) (descent cr) (fontStyle cr) (fontWeight cr)
    (anchor cr) (direction cr).
Definition set_anchor (v : TextAnchor) (cr : CharacterResult) : CharacterResult :=
  mkCharacterResult (finalPosition cr) (rotate cr) (hidden cr)
    (addressable cr) (middle cr) (anchored_chunk cr) (path cr) (image cr)
    (colorLayers cr) (colorLayerColors cr) (replaceWithForeGroundColor cr)
    (boundingBox cr) (visualIndex cr) (cssPosition cr) (advance cr)
    (breakType cr) (lineEnd cr) (lineStart cr) (justifyBefore cr)
    (justifyAfter cr) (isHanging cr) (textLengthApplied cr)
    (overflowWrap cr) (halfLeading cr) (ascent cr) (descent cr)
    (fontStyle cr) (fontWeight cr) v (direction cr).
Definition set_direction (v : Direction) (cr : CharacterResult) : CharacterResult :=
  mkCharacterResult (finalPosition cr) (rotate cr) (hidden cr)
    (addressable cr) (middle cr) (anchored_chunk cr) (path cr) (image cr)
    (colorLayers cr) (colorLayerColors cr) (replaceWithForeGroundColor cr)
    (boundingBox cr) (visualIndex cr) (cssPosition cr) (advance cr)
    (breakType cr) (lineEnd cr) (lineStart cr) (justifyBefore cr)
    (justifyAfter cr) (isHanging cr) (textLengthApplied cr)
    (overflowWrap cr) (halfLeading cr) (ascent cr) (descent cr)
    (fontStyle cr) (fontWeight cr) (anchor cr) v.

Definition set_halfLeading (v : R) (cr : CharacterResult) : CharacterResult :=
  mkCharacterResult (finalPosition cr) (rotate cr) (hidden cr) (addressable cr)
    (middle cr) (anchored_chunk cr) (path cr) (image cr) (colorLayers cr)
    (colorLayerColors cr) (replaceWithForeGroundColor cr) (boundingBox cr)
    (visualIndex cr) (cssPosition cr) (advance cr) (breakType cr)
    (lineEnd cr) (lineStart cr) (justifyBefore cr) (justifyAfter cr)
    (isHanging cr) (textLengthApplied cr) (overflowWrap cr) v
    (ascent cr) (descent cr) (fontStyle cr) (fontWeight cr) (anchor cr)
    (direction cr).
Definition set_ascent (v : R) (cr : CharacterResult) : CharacterResult :=
  mkCharacterResult (finalPosition cr) (rotate cr) (hidden cr) (addressable cr)
    (middle cr) (anchored_chunk cr) (path cr) (image cr) (colorLayers cr)
    (colorLayerColors cr) (replaceWithForeGroundColor cr) (boundingBox cr)
    (visualIndex cr) (cssPosition cr) (advance cr) (breakType cr)
    (lineEnd cr) (lineStart cr) (justifyBefore cr) (justifyAfter cr)
    (isHanging cr) (textLengthApplied cr) (overflowWrap cr) (halfLeading cr)
    v (descent cr) (fontStyle cr) (fontWeight cr) (anchor cr)
    (direction cr).
Definition set_descent (v : R) (cr : CharacterResult) : CharacterResult :=
  mkCharacterResult (finalPosition cr) (rotate cr) (hidden cr) (addressable cr)
    (middle cr) (anchored_chunk cr) (path cr) (image cr) (colorLayers cr)
    (colorLayerColors cr) (replaceWithForeGroundColor cr) (boundingBox cr)
    (visualIndex cr) (cssPosition cr) (advance cr) (breakType cr)
    (lineEnd cr) (lineStart cr) (justifyBefore cr) (justifyAfter cr)
    (isHanging cr) (textLengthApplied cr) (overflowWrap cr) (halfLeading cr)
    (ascent cr) v (fontStyle cr) (fontWeight cr) (anchor cr)
    (direction cr).
Definition set_fontStyle (v : FontStyle) (cr : CharacterResult) : CharacterResult :=
  mkCharacterResult (finalPosition cr) (rotate cr) (hidden cr) (addressable cr)
    (middle cr) (anchored_chunk cr) (path cr) (image cr) (colorLayers cr)
    (colorLayerColors cr) (replaceWithForeGroundColor cr) (boundingBox cr)
    (visualIndex cr) (cssPosition cr) (advance cr) (breakType cr)
    (lineEnd cr) (lineStart cr) (justifyBefore cr) (justifyAfter cr)
    (isHanging cr) (textLengthApplied cr) (overflowWrap cr) (halfLeading cr)
    (ascent cr) (descent cr) v (fontWeight cr) (anchor cr)
    (direction cr).
Definition set_fontWeight (v : Z) (cr : CharacterResult) : CharacterResult :=
  mkCharacterResult (finalPosition cr) (rotate cr) (hidden cr) (addressable cr)
    (middle cr) (anchored_chunk cr) (path cr) (image cr) (colorLayers cr)
    (colorLayerColors cr) (replaceWithForeGroundColor cr) (boundingBox cr)
    (visualIndex cr) (cssPosition cr) (advance cr) (breakType cr)
    (lineEnd cr) (lineStart cr) (justifyBefore cr) (justifyAfter cr)
    (isHanging cr) (textLengthApplied cr) (overflowWrap cr) (halfLeading cr)
    (ascent cr) (descent cr) (fontStyle cr) v (anchor cr)
    (direction cr).

(** A default-constructed [CharacterResult]. *)
Definition CharacterResult0 : CharacterResult :=
  mkCharacterResult QPointF0 r0 false true false false path_null image_null
    [] [] [] QRectF0 (-1)%Z QPointF0 QPointF0 NoBreak NoChange NoChange
    false false false false false r0 r0 r0 StyleNormal 400%Z AnchorStart
    DirectionLeftToRight.

(** [result.at(j)] and [result[j] = cr]. *)
Definition at_ (result : list CharacterResult) (j : nat) : CharacterResult :=
  nth j result CharacterResult0.

Definition upd (j : nat) (f : CharacterResult -> CharacterResult)
    (result : list CharacterResult) : list CharacterResult :=
  <[j := f (at_ result j)]> result.

Record LineChunk := mkLineChunk {
  chunkLength : QLineF R;        (* [length] *)
  chunkIndices : list nat;
  chunkBoundingBox : QRectF R    (* [boundingBox] *)
}.

Definition LineChunk0 : LineChunk := mkLineChunk QLineF0 [] QRectF0.

Record LineBox := mkLineBox {
  chunks : list LineChunk;
  currentChunk : Z;
  expectedLineTop : R;
  actualLineTop : R;
  actualLineBottom : R;
  baselineTop : QPointF R;
  baselineBottom : QPointF R;
  textIndent : QPointF R;
  firstLine : bool;
  lastLine : bool;
  lineFinalized : bool;
  justifyLine : bool
}.

Definition set_chunks (v : list LineChunk) (lb : LineBox) : LineBox :=
  mkLineBox v (currentChunk lb) (expectedLineTop lb) (actualLineTop lb)
    (actualLineBottom lb) (baselineTop lb) (baselineBottom lb)
    (textIndent lb) (firstLine lb) (lastLine lb) (lineFinalized lb)
    (justifyLine lb).
Definition set_currentChunk (v : Z) (lb : LineBox) : LineBox :=
  mkLineBox (chunks lb) v (expectedLineTop lb) (actualLineTop lb)
    (actualLineBottom lb) (baselineTop lb) (baselineBottom lb)
    (textIndent lb) (firstLine lb) (lastLine lb) (lineFinalized lb)
    (justifyLine lb).
Definition set_expectedLineTop (v : R) (lb : LineBox) : LineBox :=
  mkLineBox (chunks lb) (currentChunk lb) v (actualLineTop lb)
    (actualLineBottom lb) (baselineTop lb) (baselineBottom lb)
    (textIndent lb) (firstLine lb) (lastLine lb) (lineFinalized lb)
    (justifyLine lb).
Definition set_actualLineTop (v : R) (lb : LineBox) : LineBox :=
  mkLineBox (chunks lb) (currentChunk lb) (expectedLineTop lb) v
    (actualLineBottom lb) (baselineTop lb) (baselineBottom lb)
    (textIndent lb) (firstLine lb) (lastLine lb) (lineFinalized lb)
    (justifyLine lb).
Definition set_actualLineBottom (v : R) (lb : LineBox) : LineBox :=
  mkLineBox (chunks lb) (currentChunk lb) (expectedLineTop lb)
    (actualLineTop lb) v (baselineTop lb) (baselineBottom lb)
    (textIndent lb) (firstLine lb) (lastLine lb) (lineFinalized lb)
    (justifyLine lb).
Definition set_baselineTop (v : QPointF R) (lb : LineBox) : LineBox :=
  mkLineBox (chunks lb) (currentChunk lb) (expectedLineTop lb)
    (actualLineTop lb) (actualLineBottom lb) v (baselineBottom lb)
    (textIndent lb) (firstLine lb) (lastLine lb) (lineFinalized lb)
    (justifyLine lb).
Definition set_baselineBottom (v : QPointF R) (lb : LineBox) : LineBox :=
  mkLineBox (chunks lb) (currentChunk lb) (expectedLineTop lb)
    (actualLineTop lb) (actualLineBottom lb) (baselineTop lb) v
    (textIndent lb) (firstLine lb) (lastLine lb) (lineFinalized lb)
    (justifyLine lb).
Definition set_textIndent (v : QPointF R) (lb : LineBox) : LineBox :=
  mkLineBox (chunks lb) (currentChunk lb) (expectedLineTop lb)
    (actualLineTop lb) (actualLineBottom lb) (baselineTop lb)
    (baselineBottom lb) v (firstLine lb) (lastLine lb) (lineFinalized lb)
    (justifyLine lb).
Definition set_firstLine (v : bool) (lb : LineBox) : LineBox :=
  mkLineBox (chunks lb) (currentChunk lb) (expectedLineTop lb)
    (actualLineTop lb) (actualLineBottom lb) (baselineTop lb)
    (baselineBottom lb) (textIndent lb) v (lastLine lb) (lineFinalized lb)
    (justifyLine lb).
Definition set_lastLine (v : bool) (lb : LineBox) : LineBox :=
  mkLineBox (chunks lb) (currentChunk lb) (expectedLineTop lb)
    (actualLineTop lb) (actualLineBottom lb) (baselineTop lb)
    (baselineBottom lb) (textIndent lb) (firstLine lb) v (lineFinalized lb)
    (justifyLine lb).
Definition set_justifyLine (v : bool) (lb : LineBox) : LineBox :=
  mkLineBox (chunks lb) (currentChunk lb) (expectedLineTop lb)
    (actualLineTop lb) (actualLineBottom lb) (baselineTop lb)
    (baselineBottom lb) (textIndent lb) (firstLine lb) (lastLine lb)
    (lineFinalized lb) v.

(** [LineBox()] *)
Definition LineBox0 : LineBox :=
  mkLineBox [] (-1)%Z r0 r0 r0 QPointF0 QPointF0 QPointF0 false false false false.

(** [LineBox(QPointF start, QPointF end)] *)
Definition LineBox_of_points (start end_ : QPointF R) : LineBox :=
  set_currentChunk 0%Z
    (set_chunks [mkLineChunk (mkQLineF start end_) [] QRectF0] LineBox0).

(** [LineBox(QVector<QLineF> lineWidths, bool ltr, QPointF indent)]: for
    right-to-left text every line is reversed and inserted at the front. *)
Definition LineBox_of_lines (lineWidths : list (QLineF R)) (ltr : bool)
    (indent : QPointF R) : LineBox :=
  let cs :=
    if ltr then map (fun line => mkLineChunk line [] QRectF0) lineWidths
    else rev (map (fun line => mkLineChunk (mkQLineF (p2 line) (p1 line)) [] QRectF0)
                  lineWidths) in
  set_currentChunk (match lineWidths with [] => (-1)%Z | _ => 0%Z end)
    (set_chunks cs (set_textIndent indent LineBox0)).

(** [LineBox::chunk()] *)
Definition chunk (lb : LineBox) : LineChunk :=
  value_ LineChunk0 (chunks lb) (currentChunk lb).

(** [LineBox::setCurrentChunk] *)
Definition setCurrentChunk (c : LineChunk) (lb : LineBox) : LineBox :=
  let cur := Z.max (currentChunk lb) 0 in
  let lb := set_currentChunk cur lb in
  if (cur <? Z.of_nat (length (chunks lb)))%Z
  then set_chunks (<[Z.to_nat cur := c]> (chunks lb)) lb
  else set_chunks (chunks lb ++ [c]) lb.

(** [LineBox::clearAndAdjust] *)
Definition clearAndAdjust (isHorizontal : bool) (current indent : QPointF R)
    (lb : LineBox) : LineBox :=
  let lb := set_actualLineBottom r0 lb in
  let lb := set_actualLineTop r0 lb in
  let lb := set_textIndent indent lb in
  let length := chunkLength (value_ LineChunk0 (chunks lb) (currentChunk lb)) in
  let length :=
    if isHorizontal then
      let length := setP1 length (mkQPointF (px (p1 length)) (py current)) in
      setP2 length (mkQPointF (px (p2 length)) (py current))
    else
      let length := setP1 length (mkQPointF (px current) (py (p1 length))) in
      setP2 length (mkQPointF (px current) (py (p2 length))) in
  let lb := set_currentChunk 0%Z lb in
  let lb := set_chunks [mkLineChunk length [] QRectF0] lb in
  set_firstLine false lb.

(** [LineBox::setCurrentChunkForPos]: the first chunk whose extent holds
    [pos]; [currentChunk] is left as it is when there is none. *)
Fixpoint findChunkForPos (pos : QPointF R) (isHorizontal : bool)
    (cs : list LineChunk) (i : Z) : option Z :=
  match cs with
  | [] => None
  | c :: cs' =>
      let l := chunkLength c in
      let hit :=
        if isHorizontal then
          (px pos <? qMax (px (p1 l)) (px (p2 l)))
          && (px pos >=? qMin (px (p1 l)) (px (p2 l)))
        else
          (py pos <? qMax (py (p1 l)) (py (p2 l)))
          && (py pos >=? qMin (py (p1 l)) (py (p2 l))) in
      if hit then Some i else findChunkForPos pos isHorizontal cs' (i + 1)%Z
  end.

Definition setCurrentChunkForPos (pos : QPointF R) (isHorizontal : bool)
    (lb : LineBox) : LineBox :=
  match findChunkForPos pos isHorizontal (chunks lb) 0%Z with
  | Some i => set_currentChunk i lb
  | None => lb
  end.

(** [LineBox::isEmpty] *)
Definition isEmpty (lb : LineBox) : bool :=
  match chunks lb with
  | [] => true
  | _ => match chunkIndices (value_ LineChunk0 (chunks lb) (currentChunk lb)) with
         | [] => true
         | _ => false
         end
  end.

(** ** Helpers shared by the two line engines *)

(** The variables [addWordToLine] updates while it walks a word. *)
Record WordState := mkWordState {
  ws_result : list CharacterResult;
  ws_currentPos : QPointF R;
  ws_lineAdvance : QPointF R;
  ws_chunk : LineChunk;
  ws_line : LineBox
}.

(** One iteration of the loop of [addWordToLine] over [wordIndices]. *)
Definition addWordToLine_step (wordIndices : list nat) (ltr : bool)
    (s : WordState) (j : nat) : WordState :=
  let result := ws_result s in
  let currentPos := ws_currentPos s in
  let currentChunk := ws_chunk s in
  let currentLine := ws_line s in
  let cr := at_ result j in
  let atStart := rect_isEmpty (chunkBoundingBox currentChunk) && is_first j wordIndices in
  if atStart && bool_decide (lineStart (at_ result j) = Collapse) then
    (* continue *)
    mkWordState (upd j (fun c => set_hidden true (set_addressable false c)) result)
                currentPos (ws_lineAdvance s) currentChunk currentLine
  else
    let '(cr, currentPos) :=
      if atStart then
        let cr := set_anchored_chunk true cr in
        if bool_decide (lineStart (at_ result j) = HangBehaviour) && firstLine currentLine
        then (set_isHanging true cr,
              if ltr then psub currentPos (advance cr) else padd currentPos (advance cr))
        else (cr, currentPos)
      else (cr, currentPos) in
    let cr := set_cssPosition currentPos cr in
    let currentPos := padd currentPos (advance cr) in
    let lineAdvance := currentPos in
    let result := <[j := cr]> result in
    let currentChunk :=
      mkLineChunk (chunkLength currentChunk) (chunkIndices currentChunk)
        (rect_united (chunkBoundingBox currentChunk)
                     (rect_translated (boundingBox cr) (cssPosition cr))) in
    let currentLine :=
      set_actualLineTop
        (qMax (r_fabs (ascent cr - halfLeading cr)) (actualLineTop currentLine))
        currentLine in
    let currentLine :=
      set_actualLineBottom
        (qMax (r_fabs (descent cr + halfLeading cr)) (actualLineBottom currentLine))
        currentLine in
    mkWordState result currentPos lineAdvance currentChunk currentLine.

(** [addWordToLine]: adds the word to the current chunk of the current
    line.  Returns the updated [result], [currentPos], [wordIndices]
    (cleared) and [currentLine]. *)
Definition addWordToLine (result : list CharacterResult) (currentPos : QPointF R)
    (wordIndices : list nat) (currentLine : LineBox) (ltr : bool)
    : list CharacterResult * QPointF R * list nat * LineBox :=
  let s0 := mkWordState result currentPos currentPos (chunk currentLine) currentLine in
  let s := fold_left (addWordToLine_step wordIndices ltr) wordIndices s0 in
  let currentPos := ws_lineAdvance s in
  let currentChunk :=
    mkLineChunk (chunkLength (ws_chunk s))
                (chunkIndices (ws_chunk s) ++ wordIndices)
                (chunkBoundingBox (ws_chunk s)) in
  (ws_result s, currentPos, [], setCurrentChunk currentChunk (ws_line s)).

(** All character indices of a line, chunk by chunk. *)
Definition lineIndicesOf (lb : LineBox) : list nat :=
  concat (map chunkIndices (chunks lb)).

(** [lineHeightOffset]: offsets the characters of the line by its ascent
    and returns the line's descent.  The chunks the source translates are
    copies made by the iteration, so the line keeps its chunks. *)
Definition lineHeightOffset (writingMode : WritingMode)
    (result : list CharacterResult) (currentLine : LineBox) (firstLine_ : bool)
    : QPointF R * list CharacterResult * LineBox :=
  match chunks currentLine with
  | [] => (QPointF0, result, currentLine)
  | c0 :: rest =>
    let currentLine :=
      if bool_decide (rest = []) && (actualLineTop currentLine =? r0)
         && (actualLineBottom currentLine =? r0) then
        match chunkIndices c0 with
        | [] => currentLine
        | first :: _ =>
            let cr := at_ result first in
            let currentLine :=
              set_actualLineTop
                (qMax (r_fabs (ascent cr - halfLeading cr)) (actualLineTop currentLine))
                currentLine in
            set_actualLineBottom
              (qMax (r_fabs (descent cr + halfLeading cr)) (actualLineBottom currentLine))
              currentLine
        end
      else currentLine in
    let expectedLineTop_ := qMax (expectedLineTop currentLine) (actualLineTop currentLine) in
    let '(lineTop, lineBottom, correctionOffset, currentLine) :=
      match writingMode with
      | HorizontalTB =>
          let lineTop := mkQPointF r0 (actualLineTop currentLine) in
          let lineBottom := mkQPointF r0 (actualLineBottom currentLine) in
          (lineTop, lineBottom, mkQPointF r0 expectedLineTop_,
           set_baselineBottom lineBottom (set_baselineTop (pneg lineTop) currentLine))
      | VerticalLR =>
          let lineTop := mkQPointF (actualLineTop currentLine) r0 in
          let lineBottom := mkQPointF (actualLineBottom currentLine) r0 in
          (lineTop, lineBottom, mkQPointF expectedLineTop_ r0,
           set_baselineBottom (pneg lineBottom) (set_baselineTop lineTop currentLine))
      | VerticalRL =>
          let lineTop := mkQPointF (- actualLineTop currentLine) r0 in
          let lineBottom := mkQPointF (- actualLineBottom currentLine) r0 in
          (lineTop, lineBottom, mkQPointF (- expectedLineTop_) r0,
           set_baselineBottom (pneg lineBottom) (set_baselineTop lineTop currentLine))
      end in
    let returnDescent := firstLine_ in
    let offset := padd lineTop lineBottom in
    let correctionOffset := psub correctionOffset lineTop in
    if negb returnDescent then
      let result :=
        fold_left (fun res j =>
                     let res := upd j (fun c => set_cssPosition (padd (cssPosition c) lineTop) c) res in
                     upd j (fun c => set_finalPosition (cssPosition c) c) res)
                  (lineIndicesOf currentLine) result in
      (offset, result, currentLine)
    else
      let offset := psub lineBottom correctionOffset in
      let result :=
        fold_left (fun res j =>
                     let res := upd j (fun c => set_cssPosition (psub (cssPosition c) correctionOffset) c) res in
                     upd j (fun c => set_finalPosition (cssPosition c) c) res)
                  (lineIndicesOf currentLine) result in
      (offset, result, currentLine)
  end.

(** The loop of [handleCollapseAndHang], over the indices of the chunk
    from the last one backwards; it stops at the first character that
    does not collapse. *)
Fixpoint handleCollapseAndHang_loop (endPos : QPointF R) (inlineSize ltr atEnd : bool)
    (backwards : list nat) (result : list CharacterResult) : list CharacterResult :=
  match backwards with
  | [] => result
  | lastIndex :: more =>
      let hang res :=
        let pos := if negb ltr then psub endPos (advance (at_ res lastIndex)) else endPos in
        let res := upd lastIndex (set_cssPosition pos) res in
        let res := upd lastIndex (set_finalPosition pos) res in
        upd lastIndex (set_isHanging true) res in
      let result :=
        if bool_decide (lineEnd (at_ result lastIndex) = Collapse) then
          upd lastIndex (set_hidden true)
            (upd lastIndex (set_addressable false) result)
        else if bool_decide (lineEnd (at_ result lastIndex) = ForceHang) && inlineSize then
          hang result
        else if bool_decide (lineEnd (at_ result lastIndex) = HangBehaviour)
                && inlineSize && atEnd then
          hang result
        else result in
      if bool_decide (lineEnd (at_ result lastIndex) ≠ Collapse) then result
      else handleCollapseAndHang_loop endPos inlineSize ltr atEnd more result
  end.

Definition handleCollapseAndHang (result : list CharacterResult) (chunk_ : LineChunk)
    (inlineSize ltr atEnd : bool) : list CharacterResult :=
  let lineIndices := chunkIndices chunk_ in
  let endPos := p2 (chunkLength chunk_) in
  handleCollapseAndHang_loop endPos inlineSize ltr atEnd (rev lineIndices) result.


(** [applyInlineSizeAnchoring] *)
Definition applyInlineSizeAnchoring (result : list CharacterResult) (chunk_ : LineChunk)
    (anchor_ : TextAnchor) (anchorPoint : QPointF R) (ltr isHorizontal : bool)
    (textIndent_ : QPointF R) : list CharacterResult :=
  let lineIndices := chunkIndices chunk_ in
  let startPos := anchorPoint in
  let shift := if isHorizontal then px startPos else py startPos in
  let aStartPos := p1 (chunkLength chunk_) in
  let inlineWidth := psub aStartPos (p2 (chunkLength chunk_)) in
  let aEndPos := psub aStartPos inlineWidth in
  let '(a, b) :=
    fold_left
      (fun '(a, b) i =>
         if negb (addressable (at_ result i)) || isHanging (at_ result i) then (a, b)
         else
           let pos := if isHorizontal then px (finalPosition (at_ result i))
                      else py (finalPosition (at_ result i)) in
           let adv := if isHorizontal then px (advance (at_ result i))
                      else py (advance (at_ result i)) in
           if is_first i lineIndices
           then (qMin pos (pos + adv), qMax pos (pos + adv))
           else (qMin a (qMin pos (pos + adv)), qMax b (qMax pos (pos + adv))))
      lineIndices (r0, r0) in
  let '(a, b) :=
    if bool_decide (anchor_ = AnchorStart) then
      let indent := if isHorizontal then px textIndent_ else py textIndent_ in
      if ltr then (a - indent, b) else (a, b + indent)
    else (a, b) in
  let '(aStartPos, aEndPos) :=
    if bool_decide (anchor_ = AnchorEnd)
    then (padd aStartPos inlineWidth, aStartPos)
    else (aStartPos, aEndPos) in
  let '(shift, aStartPos, aEndPos) :=
    if (bool_decide (anchor_ = AnchorStart) && ltr)
       || (bool_decide (anchor_ = AnchorEnd) && negb ltr) then
      (shift - a, aStartPos, aEndPos)
    else if (bool_decide (anchor_ = AnchorEnd) && ltr)
            || (bool_decide (anchor_ = AnchorStart) && negb ltr) then
      (shift - b, aStartPos, aEndPos)
    else
      let aEndPos := pmul (padd startPos aEndPos) rhalf in
      let aStartPos := psub startPos aEndPos in
      (shift - ((a + b) * rhalf), aStartPos, aEndPos) in
  let shiftP := if isHorizontal then mkQPointF shift r0 else mkQPointF r0 shift in
  fold_left
    (fun res j =>
       if negb (isHanging (at_ res j)) then
         let res := upd j (fun c => set_cssPosition (padd (cssPosition c) shiftP) c) res in
         upd j (fun c => set_finalPosition (cssPosition c) c) res
       else if anchored_chunk (at_ res j) then
         let shift := aStartPos in
         let shift := if ltr then psub shift (advance (at_ res j)) else shift in
         let res := upd j (set_cssPosition shift) res in
         upd j (fun c => set_finalPosition (cssPosition c) c) res
       else if bool_decide (lineEnd (at_ res j) ≠ NoChange) then
         let shift := aEndPos in
         let shift := if ltr then shift else psub shift (advance (at_ res j)) in
         let res := upd j (set_cssPosition shift) res in
         upd j (fun c => set_finalPosition (cssPosition c) c) res
       else res)
    lineIndices result.

(** The body of the loop of [finalizeLine] over the chunks of the line:
    collapse and hang at the line edges, distribute the justification
    offsets, assign positions in visual order, anchor. *)
Definition finalizeChunk (currentLine : LineBox) (lineOffset : QPointF R)
    (anchor_ : TextAnchor) (ltr isHorizontal inlineSize textInShape : bool)
    (st : list CharacterResult * QPointF R) (currentChunk_ : LineChunk)
    : list CharacterResult * QPointF R :=
  let '(result, _) := st in
  let visualToLogical : gmap Z nat :=
    fold_left (fun m j => <[visualIndex (at_ result j) := j]> m)
              (chunkIndices currentChunk_) ∅ in
  let currentPos := lineOffset in
  let result :=
    handleCollapseAndHang result currentChunk_ inlineSize ltr (lastLine currentLine) in
  let values := QMap_values Z.le visualToLogical in
  let justifyOffset :=
    if justifyLine currentLine then
      let justificationCount :=
        fold_left
          (fun (n : Z) j =>
             if negb (addressable (at_ result j)) || isHanging (at_ result j) then n
             else
               let n := if justifyBefore (at_ result j) && negb (is_first j values)
                        then (n + 1)%Z else n in
               if justifyAfter (at_ result j) && negb (is_last j values)
               then (n + 1)%Z else n)
          values 0%Z in
      if (0 <? justificationCount)%Z then
        if isHorizontal then
          let val := line_length (chunkLength currentChunk_)
                     - rect_width (chunkBoundingBox currentChunk_) in
          mkQPointF (val / r_ofZ justificationCount) r0
        else
          let val := line_length (chunkLength currentChunk_)
                     - rect_height (chunkBoundingBox currentChunk_) in
          mkQPointF r0 (val / r_ofZ justificationCount)
      else QPointF0
    else QPointF0 in
  let '(result, currentPos) :=
    fold_left
      (fun '(res, pos) j =>
         if negb (addressable (at_ res j)) || isHanging (at_ res j) then (res, pos)
         else
           let pos := if justifyBefore (at_ res j) then padd pos justifyOffset else pos in
           let res := upd j (set_cssPosition pos) res in
           let res := upd j (set_finalPosition pos) res in
           let pos := padd pos (advance (at_ res j)) in
           let pos := if justifyAfter (at_ res j) then padd pos justifyOffset else pos in
           (res, pos))
      values (result, currentPos) in
  let result :=
    if inlineSize then
      let anchorPoint :=
        if textInShape then
          match anchor_ with
          | AnchorMiddle => line_center (chunkLength currentChunk_)
          | AnchorEnd => p2 (chunkLength currentChunk_)
          | AnchorStart => p1 (chunkLength currentChunk_)
          end
        else p1 (chunkLength currentChunk_) in
      applyInlineSizeAnchoring result currentChunk_ anchor_ anchorPoint ltr isHorizontal
        (textIndent currentLine)
    else result in
  (result, currentPos).

(** [finalizeLine]: returns the updated [result], [currentPos],
    [currentLine] and [lineOffset]. *)
Definition finalizeLine (result : list CharacterResult) (currentPos : QPointF R)
    (currentLine : LineBox) (lineOffset : QPointF R) (anchor_ : TextAnchor)
    (writingMode : WritingMode) (ltr inlineSize textInShape : bool)
    : list CharacterResult * QPointF R * LineBox * QPointF R :=
  let isHorizontal := bool_decide (writingMode = HorizontalTB) in
  let firstLine_ := if textInShape then true else firstLine currentLine in
  let '(result, currentPos) :=
    fold_left
      (finalizeChunk currentLine lineOffset anchor_ ltr isHorizontal inlineSize textInShape)
      (chunks currentLine) (result, currentPos) in
  let '(off, result, currentLine) :=
    lineHeightOffset writingMode result currentLine firstLine_ in
  let lineOffset := padd lineOffset off in
  let currentPos := lineOffset in
  (result, currentPos, currentLine, lineOffset).


(** ** Text properties read by the line engines *)

(** [KoSvgText::AutoValue] *)
Record AutoValue := mkAutoValue { isAuto : bool; customValue : R }.

(** [KoSvgText::TextIndentInfo] *)
Record TextIndentInfo := mkTextIndentInfo {
  indentValue : R;        (* [value] *)
  isPercentage : bool;
  hanging : bool;
  eachLine : bool
}.

(** The entries of [KoSvgTextProperties] the line engines look up. *)
Record KoSvgTextProperties := mkKoSvgTextProperties {
  WritingModeId : WritingMode;
  DirectionId : Direction;
  InlineSizeId : AutoValue;
  TextAnchorId : TextAnchor;
  TextIndentId : TextIndentInfo;
  TextAlignAllId : TextAlign;
  TextAlignLastId : TextAlign
}.

(** ** Simple line breaking: [breakLines] *)

(** The variables of the loop of [breakLines]. *)
Record BreakState := mkBreakState {
  bs_result : list CharacterResult;
  bs_lineBoxes : list LineBox;
  bs_currentLine : LineBox;
  bs_wordIndices : list nat;
  bs_wordAdvance : QPointF R;
  bs_currentPos : QPointF R;
  bs_lineOffset : QPointF R
}.

Section BreakLines.
Variable properties : KoSvgTextProperties.
Variable startPos : QPointF R.

Let writingMode := WritingModeId properties.
Let inlineSize := InlineSizeId properties.
Let anchor_ := TextAnchorId properties.
Let ltr := bool_decide (DirectionId properties = DirectionLeftToRight).
Let isHorizontal := bool_decide (writingMode = HorizontalTB).
Let textIndentInfo := TextIndentId properties.

(** [textIndent] and [endPos] as computed before the loop. *)
Definition breakLines_textIndent : QPointF R :=
  let textIndent_ := QPointF0 in
  if negb (isAuto inlineSize) then
    let textIdentValue := indentValue textIndentInfo in
    (* scaled for a percentage, then overwritten all the same *)
    let textIndent_ :=
      if isPercentage textIndentInfo then pmul textIndent_ (customValue inlineSize)
      else textIndent_ in
    if isHorizontal then mkQPointF textIdentValue r0 else mkQPointF r0 textIdentValue
  else textIndent_.

Definition breakLines_endPos : QPointF R :=
  if negb (isAuto inlineSize) then
    if isHorizontal then
      if ltr then mkQPointF (px startPos + customValue inlineSize) r0
      else mkQPointF (px startPos - customValue inlineSize) r0
    else
      if ltr then mkQPointF r0 (py startPos + customValue inlineSize)
      else mkQPointF r0 (py startPos - customValue inlineSize)
  else QPointF0.

Let textIndent_ := breakLines_textIndent.

(** The state before the first character. *)
Definition breakLines_init (result : list CharacterResult) : BreakState :=
  let currentLine := set_firstLine true (LineBox_of_points startPos breakLines_endPos) in
  let currentPos := startPos in
  let '(currentLine, currentPos) :=
    if negb (hanging textIndentInfo) && negb (isAuto inlineSize) then
      let currentLine := set_textIndent textIndent_ currentLine in
      (currentLine, padd currentPos (textIndent currentLine))
    else (currentLine, currentPos) in
  mkBreakState result [] currentLine [] QPointF0 currentPos startPos.

(** Finalize the current line, append it to the line boxes and start the
    next one with [clearAndAdjust]; the three places of [breakLines] that
    do so differ in the indent they pass. *)
Definition finalizeAndStartLine (indent : QPointF R) (s : BreakState) : BreakState :=
  let '(result, currentPos, currentLine, lineOffset) :=
    finalizeLine (bs_result s) (bs_currentPos s) (bs_currentLine s) (bs_lineOffset s)
                 anchor_ writingMode ltr (negb (isAuto inlineSize)) false in
  let lineBoxes := bs_lineBoxes s ++ [currentLine] in
  let currentLine := clearAndAdjust isHorizontal lineOffset indent currentLine in
  let currentPos :=
    if negb (isAuto inlineSize) then padd currentPos (textIndent currentLine)
    else currentPos in
  mkBreakState result lineBoxes currentLine (bs_wordIndices s) (bs_wordAdvance s)
               currentPos lineOffset.

(** [addWordToLine] on the word of the state. *)
Definition addWord (s : BreakState) : BreakState :=
  let '(result, currentPos, wordIndices, currentLine) :=
    addWordToLine (bs_result s) (bs_currentPos s) (bs_wordIndices s)
                  (bs_currentLine s) ltr in
  mkBreakState result (bs_lineBoxes s) currentLine wordIndices (bs_wordAdvance s)
               currentPos (bs_lineOffset s).

(** The loop that splits a word wider than [inline-size] into parts that
    fit (overflow-wrap); the second component is [partialWord]. *)
Definition overflowWrap_step (st : BreakState * list nat) (i : nat)
    : BreakState * list nat :=
  let '(s, partialWord) := st in
  let wordAdvance := padd (bs_wordAdvance s) (advance (at_ (bs_result s) i)) in
  let wordLength := if isHorizontal then px wordAdvance else py wordAdvance in
  let s := mkBreakState (bs_result s) (bs_lineBoxes s) (bs_currentLine s)
             (bs_wordIndices s) wordAdvance (bs_currentPos s) (bs_lineOffset s) in
  if wordLength <=? customValue inlineSize then (s, partialWord ++ [i])
  else
    let '(result, currentPos, partialWord, currentLine) :=
      addWordToLine (bs_result s) (bs_currentPos s) partialWord (bs_currentLine s) ltr in
    let s := mkBreakState result (bs_lineBoxes s) currentLine (bs_wordIndices s)
               (bs_wordAdvance s) currentPos (bs_lineOffset s) in
    let s := finalizeAndStartLine
               (if hanging textIndentInfo then textIndent_ else QPointF0) s in
    let s := mkBreakState (bs_result s) (bs_lineBoxes s) (bs_currentLine s)
               (bs_wordIndices s) (advance (at_ (bs_result s) i))
               (bs_currentPos s) (bs_lineOffset s) in
    (s, partialWord ++ [i]).

(** The block run when the word does not fit the line ([softBreak]). *)
Definition softBreakBlock (charResult : CharacterResult) (s : BreakState) : BreakState :=
  let firstLine_ := firstLine (bs_currentLine s) in
  let s :=
    if negb (isEmpty (bs_currentLine s)) then
      finalizeAndStartLine (if hanging textIndentInfo then textIndent_ else QPointF0) s
    else s in
  let s :=
    if overflowWrap charResult then
      let wordLength := if isHorizontal then px (bs_wordAdvance s)
                        else py (bs_wordAdvance s) in
      if negb (isAuto inlineSize) && (wordLength >? customValue inlineSize) then
        let s := mkBreakState (bs_result s) (bs_lineBoxes s)
                   (set_firstLine firstLine_ (bs_currentLine s))
                   (bs_wordIndices s) QPointF0 (bs_currentPos s) (bs_lineOffset s) in
        let '(s, partialWord) :=
          fold_left overflowWrap_step (bs_wordIndices s) (s, []) in
        mkBreakState (bs_result s) (bs_lineBoxes s) (bs_currentLine s)
          partialWord (bs_wordAdvance s) (bs_currentPos s) (bs_lineOffset s)
      else s
    else s in
  addWord s.

(** The block run for a character whose break type is [HardBreak]. *)
Definition hardBreakBlock (s : BreakState) : BreakState :=
  let indentLine := if hanging textIndentInfo then false else eachLine textIndentInfo in
  finalizeAndStartLine (if indentLine then textIndent_ else QPointF0) s.

(** The block run for the last character: the pending word joins the
    line, which is finalized and appended. *)
Definition lastLineBlock (s : BreakState) : BreakState :=
  let s := match bs_wordIndices s with [] => s | _ => addWord s end in
  let '(result, currentPos, currentLine, lineOffset) :=
    finalizeLine (bs_result s) (bs_currentPos s) (bs_currentLine s) (bs_lineOffset s)
                 anchor_ writingMode ltr (negb (isAuto inlineSize)) false in
  mkBreakState result (bs_lineBoxes s ++ [currentLine]) currentLine
    (bs_wordIndices s) (bs_wordAdvance s) currentPos lineOffset.

(** The first part of an iteration: the character joins the word and the
    word is either added to the line or a soft break is asked for. *)
Definition wordBlock (index : nat) (hasNext : bool) (charResult : CharacterResult)
    (s : BreakState) : BreakState * bool :=
  let currentLine := bs_currentLine s in
  let wordIndices := bs_wordIndices s in
  let doNotCountAdvance :=
    bool_decide (lineEnd charResult ≠ NoChange)
    && negb (isEmpty currentLine && bool_decide (wordIndices = [])) in
  let wordAdvance :=
    if negb doNotCountAdvance then
      match wordIndices with
      | [] => advance charResult
      | _ => padd (bs_wordAdvance s) (advance charResult)
      end
    else bs_wordAdvance s in
  let wordIndices := wordIndices ++ [index] in
  let currentLine := set_lastLine (negb hasNext) currentLine in
  let s := mkBreakState (bs_result s) (bs_lineBoxes s) currentLine wordIndices
             wordAdvance (bs_currentPos s) (bs_lineOffset s) in
  if bool_decide (breakType charResult ≠ NoBreak) || lastLine currentLine then
    let lineLength :=
      if isHorizontal then px (padd (psub (bs_currentPos s) startPos) wordAdvance)
      else py (padd (psub (bs_currentPos s) startPos) wordAdvance) in
    if negb (isAuto inlineSize) then
      if (0 <? r_qRound (r_abs lineLength - customValue inlineSize)%qr)%Z
      then (s, true)
      else (addWord s, false)
    else (addWord s, false)
  else (s, false).

(** One iteration of the loop of [breakLines], for the key [index];
    [hasNext] tells whether more keys follow. *)
Definition breakLines_step (index : nat) (hasNext : bool) (s : BreakState) : BreakState :=
  let charResult := at_ (bs_result s) index in
  if negb (addressable charResult) then s  (* continue *)
  else
    let '(s, softBreak) := wordBlock index hasNext charResult s in
    let s := if softBreak then softBreakBlock charResult s else s in
    let s := if bool_decide (breakType charResult = HardBreak) then hardBreakBlock s else s in
    if lastLine (bs_currentLine s) then lastLineBlock s else s.

Fixpoint breakLines_loop (keys : list nat) (s : BreakState) : BreakState :=
  match keys with
  | [] => s
  | index :: rest =>
      breakLines_loop rest
        (breakLines_step index (match rest with [] => false | _ => true end) s)
  end.

(** [breakLines]: the line boxes, and [result] as the function leaves it. *)
Definition breakLines (logicalToVisual : gmap nat Z)
    (result : list CharacterResult) : list LineBox * list CharacterResult :=
  let s := breakLines_loop (QMap_keys le logicalToVisual) (breakLines_init result) in
  (bs_lineBoxes s, bs_result s).

End BreakLines.


(** ** Shape flowing: [flowTextInShapes] and its helpers *)

(** The edges of a polygon: [QLineF(polygon.at(i), polygon.at(i+1))] for
    [i] from [0] to [polygon.size() - 2]. *)
Fixpoint polygon_edges (polygon : list (QPointF R)) : list (QLineF R) :=
  match polygon with
  | a :: (b :: _) as rest => mkQLineF a b :: polygon_edges rest
  | _ => []
  end.

(** The two offset lines [getFirstPosition] derives from one edge. *)
Definition offsetLines (word : QRectF R) (precision : R) (line : QLineF R)
    : list (QLineF R) :=
  if (line_angle line =? r0) || (line_angle line =? r_ofQ 180) then
    let offset := py (rect_center word) + precision in
    [line_translated line (mkQPointF r0 offset);
     line_translated line (mkQPointF r0 (- offset))]
  else if (line_angle line =? r_ofQ 90) || (line_angle line =? r_ofQ 270) then
    let offset := px (rect_center word) + precision in
    [line_translated line (mkQPointF offset r0);
     line_translated line (mkQPointF (- offset) r0)]
  else
    let tAngle := r_fmod (line_angle line) (r_ofQ 180) in
    let cPos :=
      if tAngle >? r_ofQ 90
      then padd (line_center line)
                (mkQPointF (- px (rect_center word)) (py (rect_center word)))
      else padd (line_center line) (rect_center word) in
    let offset := kisDistanceToLine cPos line + precision in
    let vectorT := mkQPointF (qCos (qDegreesToRadians tAngle))
                             (- qSin (qDegreesToRadians tAngle)) in
    let vectorN := mkQPointF (- py vectorT) (px vectorT) in
    let offsetP := padd (psub QPointF0 (pmul vectorT r0)) (pmul vectorN offset) in
    [line_translated line offsetP; line_translated line (pneg offsetP)].

(** The candidate positions one pair of offset lines contributes. *)
Definition addCandidate (p : Path) (word : QRectF R) (line line2 : QLineF R)
    (candidatePositions : list (QPointF R)) : list (QPointF R) :=
  let '(intersect, intersectPoint) := line_intersects line line2 in
  if bool_decide (intersect ≠ NoIntersection) then
    if negb (path_contains p intersectPoint) then candidatePositions
    else if negb (path_containsRect p
                    (rect_translated word (psub intersectPoint (rect_center word))))
    then candidatePositions
    else if negb (existsb (qpoint_eqb intersectPoint) candidatePositions)
    then candidatePositions ++ [intersectPoint]
    else candidatePositions
  else candidatePositions.

(** The loops over [i] and [j >= i] of the offset lines. *)
Fixpoint intersectOffsetLines (p : Path) (word : QRectF R) (offsetPoly : list (QLineF R))
    (candidatePositions : list (QPointF R)) : list (QPointF R) :=
  match offsetPoly with
  | [] => candidatePositions
  | line :: rest =>
      intersectOffsetLines p word rest
        (fold_left (fun cands line2 => addCandidate p word line line2 cands)
                   offsetPoly candidatePositions)
  end.

(** The body of the loop of [getFirstPosition] over the fill polygons;
    the state is [terminatorAdjusted] and [candidatePositions]. *)
Definition getFirstPosition_polygon (p : Path) (word : QRectF R) (precision : R)
    (terminator : QPointF R) (writingMode : WritingMode)
    (st : QPointF R * list (QPointF R)) (polygon : list (QPointF R))
    : QPointF R * list (QPointF R) :=
  let '(_, candidatePositions) := st in
  let offsetPoly := flat_map (offsetLines word precision) (polygon_edges polygon) in
  let bound := polygon_boundingRect polygon in
  let '(terminatorAdjusted, top) :=
    match writingMode with
    | HorizontalTB =>
        let terminatorAdjusted := padd terminator (rect_center word) in
        (terminatorAdjusted,
         line_translated (mkQLineF (topLeft bound) (topRight bound))
                         (mkQPointF r0 (py terminatorAdjusted)))
    | VerticalRL =>
        let terminatorAdjusted := psub terminator (rect_center word) in
        (terminatorAdjusted,
         mkQLineF (mkQPointF (px terminatorAdjusted) (rect_top bound))
                  (mkQPointF (px terminatorAdjusted) (rect_bottom bound)))
    | VerticalLR =>
        let terminatorAdjusted := padd terminator (rect_center word) in
        (terminatorAdjusted,
         mkQLineF (mkQPointF (px terminatorAdjusted) (rect_top bound))
                  (mkQPointF (px terminatorAdjusted) (rect_bottom bound)))
    end in
  let offsetPoly := offsetPoly ++ [top] in
  (terminatorAdjusted, intersectOffsetLines p word offsetPoly candidatePositions).

(** The choice among the candidates: the one nearest to the start of the
    block flow past the terminator, then nearest to the inline start. *)
Definition chooseCandidate (writingMode : WritingMode) (ltr : bool) (precision : R)
    (terminatorAdjusted : QPointF R) (firstPointC candidate : QPointF R) : QPointF R :=
  match writingMode with
  | HorizontalTB =>
      if py terminatorAdjusted - py candidate <? precision then
        if py firstPointC - py candidate >? precision then candidate
        else if py firstPointC - py candidate >? - precision then
          if ltr then (if px candidate <? px firstPointC then candidate else firstPointC)
          else (if px candidate >? px firstPointC then candidate else firstPointC)
        else firstPointC
      else firstPointC
  | VerticalRL =>
      if px terminatorAdjusted - px candidate >=? - precision then
        if px firstPointC - px candidate <? - precision then candidate
        else if px firstPointC - px candidate <? precision then
          if ltr then (if py candidate <? py firstPointC then candidate else firstPointC)
          else (if py candidate >? py firstPointC then candidate else firstPointC)
        else firstPointC
      else firstPointC
  | VerticalLR =>
      if px terminatorAdjusted - px candidate <? precision then
        if px firstPointC - px candidate >? precision then candidate
        else if px firstPointC - px candidate >? - precision then
          if ltr then (if py candidate <? py firstPointC then candidate else firstPointC)
          else (if py candidate >? py firstPointC then candidate else firstPointC)
        else firstPointC
      else firstPointC
  end.

(** [getFirstPosition]: [Some firstPoint] when the function returns
    [true], [None] when it returns [false] (and leaves [firstPoint]). *)
Definition getFirstPosition (p : Path) (wordBox : QRectF R) (terminator : QPointF R)
    (writingMode : WritingMode) (ltr : bool) : option (QPointF R) :=
  let word := rect_normalized wordBox in
  let precision := r1 in
  let word := rect_translated word (pneg (topLeft wordBox)) in
  let '(terminatorAdjusted, candidatePositions) :=
    fold_left (getFirstPosition_polygon p word precision terminator writingMode)
              (path_toFillPolygons p) (terminator, []) in
  match candidatePositions with
  | [] => None
  | _ =>
      let firstPointC :=
        if bool_decide (writingMode = VerticalRL)
        then bottomLeft (path_boundingRect p)
        else bottomRight (path_boundingRect p) in
      let firstPointC :=
        fold_left (chooseCandidate writingMode ltr precision terminatorAdjusted)
                  candidatePositions firstPointC in
      if negb (path_contains p firstPointC) then None
      else
        let firstPointC := psub firstPointC (rect_center word) in
        let firstPointC := psub firstPointC (topLeft wordBox) in
        Some firstPointC
  end.

Definition pointLessThan (a b : QPointF R) : bool := px a <? px b.
Definition pointLessThanVertical (a b : QPointF R) : bool := py a <? py b.


(** The intersections of the top and bottom probe lines with one edge of
    the fill polygon, appended to [intersects]. *)
Definition probeEdge (topLine bottomLine : QLineF R) (lineTop lineBottom : QPointF R)
    (intersects : list (QPointF R)) (line : QLineF R) : list (QPointF R) :=
  let '(intersects, addedA, intersectA) :=
    let '(ty, intersect) := line_intersects topLine line in
    if bool_decide (ty = BoundedIntersection) then
      let intersectA := psub intersect lineTop in
      (intersects ++ [intersectA], true, intersectA)
    else (intersects, false, QPointF0) in
  let '(ty, intersect) := line_intersects bottomLine line in
  if bool_decide (ty = BoundedIntersection) then
    let intersectB := psub intersect lineBottom in
    if negb (qpoint_eqb intersectA intersectB) || negb addedA
    then intersects ++ [intersectB]
    else intersects
  else intersects.

(** Consecutive pairs [intersects.at(i), intersects.at(i+1)]. *)
Fixpoint consecutive (l : list (QPointF R)) : list (QPointF R * QPointF R) :=
  match l with
  | a :: (b :: _) as rest => (a, b) :: consecutive rest
  | _ => []
  end.

(** The body of the second loop of [findLineBoxesForFirstPos]: the line
    between two neighbouring intersections, trimmed to the nearest
    vertices inside its box and merged with the previous line when they
    meet. *)
Definition lineBoxSegment (shape : Path) (polygon : list (QPointF R))
    (lineTop lineBottom : QPointF R) (writingMode : WritingMode)
    (lines : list (QLineF R)) (pr : QPointF R * QPointF R) : list (QLineF R) :=
  let line := mkQLineF (fst pr) (snd pr) in
  if negb (path_contains shape (line_center (line_translated line lineTop))
           && path_contains shape (line_center (line_translated line lineBottom)))
     || (line_length line =? r0)
  then lines
  else
    let lineBox := rect_normalized
                     (rect_of_points (padd (p1 line) lineTop) (padd (p2 line) lineBottom)) in
    let relevant := filter (fun pt => rect_contains lineBox pt = true)
                           (removelast polygon) in
    let isH := bool_decide (writingMode = HorizontalTB) in
    let start := if isH then rect_left lineBox else rect_top lineBox in
    let end_ := if isH then rect_right lineBox else rect_bottom lineBox in
    let '(start, end_) :=
      fold_left
        (fun '(start, end_) current =>
           if isH then
             if px current <? px (line_center line) then (qMax (px current) start, end_)
             else if px current >? px (line_center line) then (start, qMin (px current) end_)
             else (start, end_)
           else
             if py current <? py (line_center line) then (qMax (py current) start, end_)
             else if py current >? py (line_center line) then (start, qMin (py current) end_)
             else (start, end_))
        relevant (start, end_) in
    let newLine :=
      if isH then mkQLineF (mkQPointF start (py (p1 line))) (mkQPointF end_ (py (p2 line)))
      else mkQLineF (mkQPointF (px (p1 line)) start) (mkQPointF (px (p2 line)) end_) in
    match last lines with
    | Some l =>
        if qpoint_eqb (p2 l) (fst pr)
        then removelast lines ++ [setP1 newLine (p1 l)]
        else lines ++ [newLine]
    | None => lines ++ [newLine]
    end.

(** [findLineBoxesForFirstPos] *)
Definition findLineBoxesForFirstPos (shape : Path) (firstPos : QPointF R)
    (wordBox : QRectF R) (writingMode : WritingMode) : list (QLineF R) :=
  let bound := path_boundingRect shape in
  let '(baseLine, lineTop, lineBottom) :=
    match writingMode with
    | HorizontalTB =>
        (mkQLineF (mkQPointF (rect_left bound - r_ofQ 5) (py firstPos))
                  (mkQPointF (rect_right bound + r_ofQ 5) (py firstPos)),
         mkQPointF r0 (rect_top wordBox), mkQPointF r0 (rect_bottom wordBox))
    | VerticalRL =>
        (mkQLineF (mkQPointF (px firstPos) (rect_top bound - r_ofQ 5))
                  (mkQPointF (px firstPos) (rect_bottom bound + r_ofQ 5)),
         mkQPointF (rect_left wordBox) r0, mkQPointF (rect_right wordBox) r0)
    | VerticalLR =>
        (mkQLineF (mkQPointF (px firstPos) (rect_top bound - r_ofQ 5))
                  (mkQPointF (px firstPos) (rect_bottom bound + r_ofQ 5)),
         mkQPointF (rect_right wordBox) r0, mkQPointF (rect_left wordBox) r0)
    end in
  let polygon := path_toFillPolygon shape in
  let topLine := line_translated baseLine lineTop in
  let bottomLine := line_translated baseLine lineBottom in
  let intersects :=
    fold_left (probeEdge topLine bottomLine lineTop lineBottom)
              (polygon_edges polygon) [] in
  let intersects :=
    match intersects with
    | [] => intersects
    | _ => intersects ++ [p1 baseLine; p2 baseLine]
    end in
  let intersects :=
    if bool_decide (writingMode = HorizontalTB)
    then std_sort pointLessThan intersects
    else std_sort pointLessThanVertical intersects in
  fold_left (lineBoxSegment shape polygon lineTop lineBottom writingMode)
            (consecutive intersects) [].

(** The loop of [getEstimatedHeight] over the characters from [index]
    on; it stops when the advance exceeds the extent of the shape. *)
Fixpoint getEstimatedHeight_loop (isHorizontal : bool) (boundingBox_ : QRectF R)
    (rest : list CharacterResult) (totalAdvance : QPointF R) (maxAscent maxDescent : R)
    : R * R :=
  match rest with
  | [] => (maxAscent, maxDescent)
  | cr :: rest' =>
      if negb (addressable cr) || hidden cr then
        getEstimatedHeight_loop isHorizontal boundingBox_ rest' totalAdvance
                                maxAscent maxDescent
      else
        let totalAdvance := padd totalAdvance (advance cr) in
        if ((px totalAdvance >? rect_width boundingBox_) && isHorizontal)
           || ((py totalAdvance >? rect_height boundingBox_) && negb isHorizontal)
        then (maxAscent, maxDescent)
        else
          getEstimatedHeight_loop isHorizontal boundingBox_ rest' totalAdvance
            (qMax (r_fabs (ascent cr - halfLeading cr)) maxAscent)
            (qMax (r_fabs (descent cr + halfLeading cr)) maxDescent)
  end.

(** [getEstimatedHeight]: the new [wordBox]. *)
Definition getEstimatedHeight (result : list CharacterResult) (index : nat)
    (wordBox boundingBox_ : QRectF R) (writingMode : WritingMode) : QRectF R :=
  let isHorizontal := bool_decide (writingMode = HorizontalTB) in
  let totalAdvance := psub (bottomRight wordBox) (topLeft wordBox) in
  let maxAscent := if isHorizontal then r_fabs (rect_top wordBox)
                   else r_fabs (rect_right wordBox) in
  let maxDescent := if isHorizontal then r_fabs (rect_bottom wordBox)
                    else r_fabs (rect_left wordBox) in
  let '(maxAscent, maxDescent) :=
    getEstimatedHeight_loop isHorizontal boundingBox_ (drop index result)
                            totalAdvance maxAscent maxDescent in
  if bool_decide (writingMode = HorizontalTB)
  then setBottom (setTop wordBox (- maxAscent)) maxDescent
  else setLeft (setRight wordBox maxAscent) (- maxDescent).

(** [textAnchorForTextAlign] *)
Definition textAnchorForTextAlign (align alignLast : TextAlign) (ltr : bool) : TextAnchor :=
  let compare := if bool_decide (align = AlignJustify) then alignLast else align in
  match compare with
  | AlignStart => AnchorStart
  | AlignCenter => AnchorMiddle
  | AlignEnd => AnchorEnd
  | AlignLeft => if ltr then AnchorStart else AnchorEnd
  | AlignRight => if ltr then AnchorEnd else AnchorStart
  | _ => if bool_decide (align = AlignJustify) then AnchorMiddle else AnchorStart
  end.


(** The variables of the loop of [flowTextInShapes]; [fs_shapesIt] holds
    the shapes the iterator has not handed out yet. *)
Record FlowState := mkFlowState {
  fs_result : list CharacterResult;
  fs_lineBoxes : list LineBox;
  fs_currentLine : LineBox;
  fs_wordIndices : list nat;
  fs_wordBox : QRectF R;
  fs_wordAdvance : QPointF R;
  fs_firstLine : bool;
  fs_indentLine : bool;
  fs_currentPos : QPointF R;
  fs_lineOffset : QPointF R;
  fs_textIndent : QPointF R;
  fs_shapesIt : list Path;
  fs_currentShape : Path
}.

Section FlowTextInShapes.
Variable properties : KoSvgTextProperties.

Let writingMode := WritingModeId properties.
Let ltr := bool_decide (DirectionId properties = DirectionLeftToRight).
Let isHorizontal := bool_decide (writingMode = HorizontalTB).
Let align := TextAlignAllId properties.
Let alignLast := TextAlignLastId properties.
Let anchor_ := textAnchorForTextAlign align alignLast ltr.
Let textIndentInfo := TextIndentId properties.

(** [finalizeLine] on the current line, which is then appended to the
    line boxes. *)
Definition flow_finalizeAndAppend (s : FlowState) : FlowState :=
  let '(result, currentPos, currentLine, lineOffset) :=
    finalizeLine (fs_result s) (fs_currentPos s) (fs_currentLine s) (fs_lineOffset s)
                 anchor_ writingMode ltr true true in
  mkFlowState result (fs_lineBoxes s ++ [currentLine]) currentLine (fs_wordIndices s)
    (fs_wordBox s) (fs_wordAdvance s) (fs_firstLine s) (fs_indentLine s)
    currentPos lineOffset (fs_textIndent s) (fs_shapesIt s) (fs_currentShape s).

(** [addWordToLine] on the word of the state. *)
Definition flow_addWord (s : FlowState) : FlowState :=
  let '(result, currentPos, wordIndices, currentLine) :=
    addWordToLine (fs_result s) (fs_currentPos s) (fs_wordIndices s)
                  (fs_currentLine s) ltr in
  mkFlowState result (fs_lineBoxes s) currentLine wordIndices
    (fs_wordBox s) (fs_wordAdvance s) (fs_firstLine s) (fs_indentLine s)
    currentPos (fs_lineOffset s) (fs_textIndent s) (fs_shapesIt s) (fs_currentShape s).

Definition flow_setLine (currentLine : LineBox) (s : FlowState) : FlowState :=
  mkFlowState (fs_result s) (fs_lineBoxes s) currentLine (fs_wordIndices s)
    (fs_wordBox s) (fs_wordAdvance s) (fs_firstLine s) (fs_indentLine s)
    (fs_currentPos s) (fs_lineOffset s) (fs_textIndent s) (fs_shapesIt s)
    (fs_currentShape s).

Definition flow_setPos (currentPos : QPointF R) (s : FlowState) : FlowState :=
  mkFlowState (fs_result s) (fs_lineBoxes s) (fs_currentLine s) (fs_wordIndices s)
    (fs_wordBox s) (fs_wordAdvance s) (fs_firstLine s) (fs_indentLine s)
    currentPos (fs_lineOffset s) (fs_textIndent s) (fs_shapesIt s)
    (fs_currentShape s).

(** The loop that looks for a chunk of the current line the word fits
    in, from [currentChunk] on.  [n] counts the iterations left when no
    [break] is met; the result carries [softBreak]. *)
Fixpoint fitInChunks (n : nat) (i : Z) (s : FlowState) (softBreak : bool)
    : FlowState * bool :=
  match n with
  | O => (s, softBreak)
  | S n' =>
      let '(i, s) :=
        if (i =? -1)%Z
        then (0%Z, flow_setLine (set_currentChunk 0%Z (fs_currentLine s)) s)
        else (i, s) in
      let currentLine := fs_currentLine s in
      let currentPos := fs_currentPos s in
      let line := chunkLength (value_ LineChunk0 (chunks currentLine) i) in
      let lineLength :=
        if isHorizontal
        then px (padd (psub currentPos (p1 line)) (fs_wordAdvance s))
        else py (padd (psub currentPos (p1 line)) (fs_wordAdvance s)) in
      if (0 <? r_qRound (r_abs lineLength - line_length line)%qr)%Z then
        if (i =? Z.of_nat (length (chunks currentLine)) - 1)%Z then (s, true)  (* break *)
        else
          let nextLine := chunkLength (value_ LineChunk0 (chunks currentLine) (i + 1)%Z) in
          let currentPos :=
            if isHorizontal then
              setX currentPos (if ltr then qMax (px (p1 nextLine)) (px currentPos)
                               else qMin (px (p1 nextLine)) (px currentPos))
            else setY currentPos (py (p1 nextLine)) in
          fitInChunks n' (i + 1)%Z (flow_setPos currentPos s) softBreak
      else
        (flow_addWord (flow_setLine (set_currentChunk i currentLine) s), softBreak)
  end.

(** The first chunk longer than the word, if any. *)
Fixpoint firstLongerChunk (length_ : R) (cs : list LineChunk) (i : Z) : option Z :=
  match cs with
  | [] => None
  | c :: cs' =>
      if line_length (chunkLength c) >? length_ then Some i
      else firstLongerChunk length_ cs' (i + 1)%Z
  end.

(** The variables of the [while (!foundFirst)] loop. *)
Record SeekState := mkSeekState {
  ss_currentPos : QPointF R;
  ss_lineOffset : QPointF R;
  ss_textIndent : QPointF R;
  ss_indent : QPointF R;
  ss_shapesIt : list Path;
  ss_currentShape : Path
}.

(** The [while (!foundFirst)] loop: [getFirstPosition] on the current
    shape, then on the shapes that follow, until one admits the word or
    none is left. *)
Fixpoint seekFirstPosition (wordBox : QRectF R) (indentLine : bool)
    (shapesIt : list Path) (st : SeekState) : bool * SeekState :=
  match getFirstPosition (ss_currentShape st) wordBox (ss_lineOffset st) writingMode ltr with
  | Some firstPoint =>
      (true, mkSeekState firstPoint (ss_lineOffset st) (ss_textIndent st) (ss_indent st)
                         shapesIt (ss_currentShape st))
  | None =>
      match shapesIt with
      | [] => (false, mkSeekState (ss_currentPos st) (ss_lineOffset st) (ss_textIndent st)
                                  (ss_indent st) [] (ss_currentShape st))
      | currentShape :: shapesIt' =>
          let textIdentValue := indentValue textIndentInfo in
          let textIndent_ := ss_textIndent st in
          let textIndent_ :=
            if isHorizontal then
              (* scaled for a percentage, then overwritten all the same *)
              let textIndent_ :=
                if isPercentage textIndentInfo
                then pmul textIndent_ (rect_width (path_boundingRect currentShape))
                else textIndent_ in
              mkQPointF textIdentValue r0
            else
              let textIndent_ :=
                if isPercentage textIndentInfo
                then pmul textIndent_ (rect_height (path_boundingRect currentShape))
                else textIndent_ in
              mkQPointF r0 textIdentValue in
          let ind := if hanging textIndentInfo then negb indentLine else indentLine in
          let indent := if ind then textIndent_ else QPointF0 in
          let currentPos :=
            if bool_decide (writingMode = VerticalRL)
            then topRight (path_boundingRect currentShape)
            else topLeft (path_boundingRect currentShape) in
          seekFirstPosition wordBox indentLine shapesIt'
            (mkSeekState currentPos currentPos textIndent_ indent shapesIt' currentShape)
      end
  end.

(** The block run when a new line has to be found for the word
    ([softBreak]); [index] is the character being handled. *)
Definition flow_softBreakBlock (index : nat) (s : FlowState) : FlowState :=
  let s :=
    if negb (isEmpty (fs_currentLine s)) then
      let s := flow_finalizeAndAppend s in
      mkFlowState (fs_result s) (fs_lineBoxes s) (fs_currentLine s) (fs_wordIndices s)
        (fs_wordBox s) (fs_wordAdvance s) false false
        (fs_currentPos s) (fs_lineOffset s) (fs_textIndent s) (fs_shapesIt s)
        (fs_currentShape s)
    else s in
  let indentLine := fs_indentLine s in
  let ind := if hanging textIndentInfo then negb indentLine else indentLine in
  let indent := if ind then fs_textIndent s else QPointF0 in
  let wordBox :=
    getEstimatedHeight (fs_result s) index (fs_wordBox s)
                       (path_boundingRect (fs_currentShape s)) writingMode in
  let currentShape := fs_currentShape s in
  let '(currentPos, currentLine, foundFirst, needNewLine) :=
    if negb (path_isEmpty currentShape) then
      let currentPos :=
        psub (fs_currentPos s)
             (if bool_decide (writingMode = VerticalRL) then topRight wordBox
              else topLeft wordBox) in
      let currentLine :=
        LineBox_of_lines (findLineBoxesForFirstPos currentShape currentPos wordBox writingMode)
                         ltr indent in
      let length_ := if isHorizontal then rect_width wordBox else rect_height wordBox in
      match firstLongerChunk length_ (chunks currentLine) 0%Z with
      | Some i => (currentPos, set_currentChunk i currentLine, true, false)
      | None => (currentPos, currentLine, false, true)
      end
    else (fs_currentPos s, fs_currentLine s, false, true) in
  let '(foundFirst, st) :=
    if foundFirst
    then (true, mkSeekState currentPos (fs_lineOffset s) (fs_textIndent s) indent
                            (fs_shapesIt s) currentShape)
    else seekFirstPosition wordBox indentLine (fs_shapesIt s)
           (mkSeekState currentPos (fs_lineOffset s) (fs_textIndent s) indent
                        (fs_shapesIt s) currentShape) in
  let currentPos := ss_currentPos st in
  let currentShape := ss_currentShape st in
  let indent := ss_indent st in
  if foundFirst then
    let currentLine :=
      if needNewLine then
        setCurrentChunkForPos currentPos isHorizontal
          (LineBox_of_lines
             (findLineBoxesForFirstPos currentShape currentPos wordBox writingMode)
             ltr indent)
      else currentLine in
    let currentLine := set_firstLine (fs_firstLine s) currentLine in
    let currentLine :=
      set_expectedLineTop
        (if isHorizontal then r_fabs (rect_top wordBox)
         else if bool_decide (writingMode = VerticalRL) then r_fabs (rect_right wordBox)
         else r_fabs (rect_left wordBox))
        currentLine in
    let currentLine := set_justifyLine (bool_decide (align = AlignJustify)) currentLine in
    let currentPos := padd (p1 (chunkLength (chunk currentLine))) indent in
    let lineOffset := currentPos in
    flow_addWord
      (mkFlowState (fs_result s) (fs_lineBoxes s) currentLine (fs_wordIndices s)
         wordBox (fs_wordAdvance s) (fs_firstLine s) (fs_indentLine s)
         currentPos lineOffset (ss_textIndent st) (ss_shapesIt st) currentShape)
  else
    let result :=
      fold_left (fun res j => upd j (set_hidden true) res) (fs_wordIndices s) (fs_result s) in
    mkFlowState result (fs_lineBoxes s) LineBox0 (fs_wordIndices s)
      wordBox (fs_wordAdvance s) (fs_firstLine s) (fs_indentLine s)
      currentPos (ss_lineOffset st) (ss_textIndent st) (ss_shapesIt st) currentShape.

(** The block run for a character whose break type is [HardBreak]. *)
Definition flow_hardBreakBlock (s : FlowState) : FlowState :=
  let s := flow_finalizeAndAppend s in
  mkFlowState (fs_result s) (fs_lineBoxes s) LineBox0 (fs_wordIndices s)
    (fs_wordBox s) (fs_wordAdvance s) (fs_firstLine s)
    (if hanging textIndentInfo then false else eachLine textIndentInfo)
    (fs_currentPos s) (fs_lineOffset s) (fs_textIndent s) (fs_shapesIt s)
    (fs_currentShape s).

(** The first part of an iteration: the character joins the word, which
    is then tried on the chunks of the current line. *)
Definition flow_wordBlock (index : nat) (hasNext : bool) (charResult : CharacterResult)
    (s : FlowState) : FlowState * bool :=
  let currentLine := fs_currentLine s in
  let wordIndices := fs_wordIndices s in
  let doNotCountAdvance :=
    bool_decide (lineEnd charResult ≠ NoChange)
    && negb (isEmpty currentLine && bool_decide (wordIndices = [])) in
  let '(wordBox, wordAdvance) :=
    if negb doNotCountAdvance then
      match wordIndices with
      | [] => (boundingBox charResult, advance charResult)
      | _ => (rect_united (fs_wordBox s)
                          (rect_translated (boundingBox charResult) (fs_wordAdvance s)),
              padd (fs_wordAdvance s) (advance charResult))
      end
    else (fs_wordBox s, fs_wordAdvance s) in
  let wordIndices := wordIndices ++ [index] in
  let currentLine := set_lastLine (negb hasNext) currentLine in
  let currentLine :=
    if lastLine currentLine
    then set_justifyLine (bool_decide (alignLast = AlignJustify)) currentLine
    else currentLine in
  let s := mkFlowState (fs_result s) (fs_lineBoxes s) currentLine wordIndices
             wordBox wordAdvance (fs_firstLine s) (fs_indentLine s)
             (fs_currentPos s) (fs_lineOffset s) (fs_textIndent s) (fs_shapesIt s)
             (fs_currentShape s) in
  if bool_decide (breakType charResult ≠ NoBreak) || lastLine currentLine then
    let softBreak :=
      match chunks currentLine with [] => true | _ => lastLine currentLine end in
    let i := currentChunk currentLine in
    let size := Z.of_nat (length (chunks currentLine)) in
    let n := Z.to_nat (if (i =? -1)%Z then Z.max size 1 else (size - i)%Z) in
    fitInChunks n i s softBreak
  else (s, false).

(** One iteration of the loop of [flowTextInShapes]. *)
Definition flow_step (index : nat) (hasNext : bool) (s : FlowState) : FlowState :=
  let charResult := at_ (fs_result s) index in
  if negb (addressable charResult) then s  (* continue *)
  else
    let '(s, softBreak) := flow_wordBlock index hasNext charResult s in
    let s := if softBreak then flow_softBreakBlock index s else s in
    if bool_decide (breakType charResult = HardBreak) then flow_hardBreakBlock s else s.

Fixpoint flow_loop (keys : list nat) (s : FlowState) : FlowState :=
  match keys with
  | [] => s
  | index :: rest =>
      flow_loop rest (flow_step index (match rest with [] => false | _ => true end) s)
  end.

(** The state before the first character; [shape0] is [shapes.at(0)]. *)
Definition flow_init (result : list CharacterResult) (shape0 : Path) (shapes : list Path)
    : FlowState :=
  let currentPos :=
    if bool_decide (writingMode = VerticalRL)
    then topRight (path_boundingRect shape0)
    else topLeft (path_boundingRect shape0) in
  mkFlowState result [] LineBox0 [] QRectF0 QPointF0 true true currentPos currentPos
              QPointF0 shapes path_null.

(** [flowTextInShapes]: the line boxes, and [result] as the function
    leaves it.  The source reads [shapes.at(0)] for the start position
    before it tests whether [shapes] is empty; on an empty list that
    read is outside the list and the source says nothing of what
    follows.  Here the read is left out for the empty list and the
    function returns at the test, with no line box and [result] as it
    was; of the empty list the theorems say what this return value
    gives, and nothing of the read. *)
Definition flowTextInShapes (logicalToVisual : gmap nat Z)
    (result : list CharacterResult) (shapes : list Path)
    : list LineBox * list CharacterResult :=
  match shapes with
  | [] => ([], result)
  | shape0 :: _ =>
      let s := flow_loop (QMap_keys le logicalToVisual) (flow_init result shape0 shapes) in
      let s := flow_finalizeAndAppend s in
      (fs_lineBoxes s, fs_result s)
  end.

End FlowTextInShapes.


(** ** The [textLength] stage: [applyTextLength] *)

(** The shape tree as [applyTextLength] sees it: a text chunk shape with
    what its layout interface reports ([numChars(true)], [textLength()],
    [lengthAdjust()]) and its child shapes, or a shape of another kind,
    for which the [dynamic_cast] fails. *)
#[local] Unset Elimination Schemes.
Inductive KoShape :=
  | OtherShape
  | TextChunkShape (numChars : nat) (textLength : AutoValue)
                   (lengthAdjust : LengthAdjust) (shapes : list KoShape).
#[local] Set Elimination Schemes.

(** [QTransform::fromScale(sx, sy).mapRect(r)] *)
Definition rect_mapScale (sx sy : R) (r : QRectF R) : QRectF R :=
  let x := sx * xp r in
  let y := sy * yp r in
  let w := sx * rw r in
  let h := sy * rh r in
  let '(x, w) := if w <? r0 then (x - (- w), - w) else (x, w) in
  let '(y, h) := if h <? r0 then (y - (- h), - h) else (y, h) in
  mkQRectF x y w h.

(** The extent [a], [b] of the run and the number [n] of characters the
    length is spread over; the characters are also entered in
    [visualToLogical]. *)
Definition textLength_measure (isHorizontal : bool) (result : list CharacterResult)
    (i : nat) (st : gmap Z nat * R * R * Z) (k : nat) : gmap Z nat * R * R * Z :=
  let '(visualToLogical, a, b, n) := st in
  if addressable (at_ result k) then
    let visualToLogical :=
      if (-1 <? visualIndex (at_ result k))%Z
      then <[visualIndex (at_ result k) := k]> visualToLogical
      else visualToLogical in
    let pos := if isHorizontal then px (finalPosition (at_ result k))
               else py (finalPosition (at_ result k)) in
    let adv := if isHorizontal then px (advance (at_ result k))
               else py (advance (at_ result k)) in
    let '(a, b) :=
      if Nat.eqb k i then (qMin pos (pos + adv), qMax pos (pos + adv))
      else (qMin a (qMin pos (pos + adv)), qMax b (qMax pos (pos + adv))) in
    let n := if negb (textLengthApplied (at_ result k)) then (n + 1)%Z else n in
    (visualToLogical, a, b, n)
  else st.

(** The loop that shifts (and, for spacing-and-glyphs, scales) the
    characters of the run in visual order; the state is [result], [shift]
    and [secondTextLengthApplied]. *)
Definition textLength_adjust (spacingAndGlyphs : bool) (d : QPointF R)
    (visualToLogical : gmap Z nat) (lastKey : option Z)
    (st : list CharacterResult * QPointF R * bool) (k : Z)
    : list CharacterResult * QPointF R * bool :=
  let '(result, shift, secondTextLengthApplied) := st in
  let idx := default 0%nat (visualToLogical !! k) in
  let cr := at_ result idx in
  if addressable cr then
    let cr := set_finalPosition (padd (finalPosition cr) shift) cr in
    let cr :=
      if spacingAndGlyphs then
        let sx := if negb (px d =? r0) then px d / px (advance cr) + r1 else r1 in
        let sy := if negb (py d =? r0) then py d / py (advance cr) + r1 else r1 in
        let cr := set_path (path_scaled sx sy (path cr)) cr in
        let cr := set_advance (mkQPointF (sx * px (advance cr)) (sy * py (advance cr))) cr in
        set_boundingBox (rect_mapScale sx sy (boundingBox cr)) cr
      else cr in
    let last_ := if spacingAndGlyphs then false else bool_decide (Some k = lastKey) in
    let shift :=
      if negb (textLengthApplied cr && secondTextLengthApplied) && negb last_
      then padd shift d else shift in
    let secondTextLengthApplied := textLengthApplied cr in
    let cr := set_textLengthApplied true cr in
    (<[idx := cr]> result, shift, secondTextLengthApplied)
  else (<[idx := cr]> result, shift, secondTextLengthApplied).

(** Characters after the run, up to the next anchored chunk. *)
Fixpoint textLength_forward (result : list CharacterResult) (k : nat)
    (rest : list CharacterResult) (m : gmap Z nat) : gmap Z nat :=
  match rest with
  | [] => m
  | cr :: rest' =>
      if anchored_chunk cr then m
      else textLength_forward result (S k) rest' (<[visualIndex cr := k]> m)
  end.

(** Characters from the start of the run backwards, down to the one that
    starts its anchored chunk. *)
Fixpoint textLength_backward (result : list CharacterResult) (k : nat)
    (m : gmap Z nat) : gmap Z nat :=
  let m := <[visualIndex (at_ result k) := k]> m in
  if anchored_chunk (at_ result k) then m
  else match k with
       | O => m
       | S k' => textLength_backward result k' m
       end.

(** The part of [applyTextLength] run for a chunk whose [textLength] is
    set, after its children.  The source takes [keys().last()] of the
    local map, which has no key when the run has no addressable
    character with a glyph; [QList::last] is not defined there, and
    [0] stands for that read here. *)
Definition applyTextLength_own (textLength : AutoValue) (lengthAdjust : LengthAdjust)
    (isHorizontal : bool) (i j : nat) (resolvedChildren : Z)
    (result : list CharacterResult) : list CharacterResult :=
  let '(visualToLogical, a, b, n) :=
    fold_left (textLength_measure isHorizontal result i) (seq i (j - i))
              (∅, r0, r0, 0%Z) in
  let n := (n + resolvedChildren)%Z in
  let spacingAndGlyphs := bool_decide (lengthAdjust = LengthAdjustSpacingAndGlyphs) in
  let n := if negb spacingAndGlyphs then (n - 1)%Z else n in
  let delta := customValue textLength - (b - a) in
  let d := if isHorizontal then mkQPointF (delta / r_ofZ n) r0
           else mkQPointF r0 (delta / r_ofZ n) in
  let keys := QMap_keys Z.le visualToLogical in
  let '(result, shift, _) :=
    fold_left (textLength_adjust spacingAndGlyphs d visualToLogical (last keys))
              keys (result, QPointF0, false) in
  let lastVisualValue := default 0%Z (last keys) in
  let visualToLogical := textLength_forward result j (drop j result) ∅ in
  let visualToLogical := textLength_backward result i visualToLogical in
  fold_left
    (fun res k =>
       if (lastVisualValue <? k)%Z then
         upd (default 0%nat (visualToLogical !! k))
             (fun c => set_finalPosition (padd (finalPosition c) shift) c) res
       else res)
    (QMap_keys Z.le visualToLogical) result.

(** [applyTextLength]: the state is [result], [currentIndex] and the
    caller's [resolvedDescendentNodes]. *)
Fixpoint applyTextLength (rootShape : KoShape) (isHorizontal : bool)
    (st : list CharacterResult * nat * Z) : list CharacterResult * nat * Z :=
  match rootShape with
  | OtherShape => st
  | TextChunkShape numChars textLength lengthAdjust shapes =>
      let '(result, currentIndex, resolvedDescendentNodes) := st in
      let i := currentIndex in
      let j := (i + numChars)%nat in
      let '(result, currentIndex, resolvedChildren) :=
        fold_left (fun st child => applyTextLength child isHorizontal st)
                  shapes (result, currentIndex, 0%Z) in
      let '(result, resolvedDescendentNodes) :=
        if negb (isAuto textLength) then
          (applyTextLength_own textLength lengthAdjust isHorizontal i j
                               resolvedChildren result,
           (resolvedDescendentNodes + 1)%Z)
        else (result, resolvedDescendentNodes) in
      (result, j, resolvedDescendentNodes)
  end.

(** ** Placing a character on a path: [characterResultOnPath] *)

(** Returns [mid] and the character with its [hidden] flag updated. *)
Definition characterResultOnPath (cr : CharacterResult) (length_ offset : R)
    (isHorizontal isClosed : bool) : R * CharacterResult :=
  let rtl := bool_decide (direction cr = DirectionRightToLeft) in
  let mid :=
    if negb isHorizontal
    then py (finalPosition cr) + (py (advance cr) * rhalf) + offset
    else px (finalPosition cr) + (px (advance cr) * rhalf) + offset in
  if isClosed then
    let cr :=
      if (bool_decide (anchor cr = AnchorStart) && negb rtl)
         || (bool_decide (anchor cr = AnchorEnd) && rtl) then
        if (mid - offset <? r0) || (mid - offset >? length_)
        then set_hidden true cr else cr
      else if (bool_decide (anchor cr = AnchorEnd) && negb rtl)
              || (bool_decide (anchor cr = AnchorStart) && rtl) then
        if (mid - offset <? - length_) || (mid - offset >? r0)
        then set_hidden true cr else cr
      else
        if (mid - offset <? - (length_ * rhalf)) || (mid - offset >? length_ * rhalf)
        then set_hidden true cr else cr in
    let mid := if mid <? r0 then mid + length_ else mid in
    let mid := r_fmod mid length_ in
    (mid, cr)
  else
    let cr := if (mid <? r0) || (mid >? length_) then set_hidden true cr else cr in
    (mid, cr).


(** ** [relayout]: preparing the text for the shaper *)

(** A UTF-16 code unit of the text. *)
Definition QChar := Z.
Definition QChar_Space : QChar := 32%Z.
Definition QChar_Tabulation : QChar := 9%Z.

Inductive TextWrap := Wrap | NoWrap | Balance | Stable | Pretty.
Inductive WordBreak := WordBreakNormal | WordBreakKeepAll | WordBreakBreakAll.
Inductive LineBreak :=
  LineBreakAuto | LineBreakLoose | LineBreakNormal | LineBreakStrict | LineBreakAnywhere.
Inductive HangingPunctuation := HangFirst | HangLast | HangEnd | HangForce.

#[export] Instance TextWrap_eq_dec : EqDecision TextWrap.
Proof. solve_decision. Defined.
#[export] Instance WordBreak_eq_dec : EqDecision WordBreak.
Proof. solve_decision. Defined.
#[export] Instance LineBreak_eq_dec : EqDecision LineBreak.
Proof. solve_decision. Defined.

(** [KoSvgText::TabSizeInfo] *)
Record TabSizeInfo := mkTabSizeInfo {
  tabValue : R;           (* [value] *)
  tabIsNumber : bool;     (* [isNumber] *)
  extraSpacing : R
}.

(** What the font loop of [relayout] stores for the characters of one
    face: the ascender and descender of the face and the leading worked
    out from its line gap and the line height of the chunk. *)
Record FaceMetrics := mkFaceMetrics {
  fm_ascender : R;
  fm_descender : R;
  fm_leading : R
}.

(** A sub chunk as the setup loop reads it: the size of its text, the
    properties of its shape, and the lengths and metrics of the faces the
    font registry returns for it. *)
Record SubChunk := mkSubChunk {
  sc_text : list QChar;             (* [chunk.text] *)
  sc_firstTextInPath : bool;
  sc_anchor : TextAnchor;
  sc_direction : Direction;
  sc_wordBreak : WordBreak;
  sc_hang : HangingPunctuation -> bool;     (* [hang.testFlag] *)
  sc_tabSize : TabSizeInfo;
  sc_letterSpacing : AutoValue;
  sc_wordSpacing : AutoValue;
  sc_overflowWrap : bool;           (* [OverflowWrapId != OverflowWrapNormal] *)
  sc_fontStyle : FontStyle;
  sc_fontWeight : Z;
  sc_faces : list (nat * FaceMetrics)       (* [lengths] and the metrics of [faces] *)
}.

(** [chunk.text.size()] *)
Definition sc_size (chunk_ : SubChunk) : nat := length (sc_text chunk_).

Section Setup.
(** The values libunibreak writes for a mandatory break, an allowed
    break and a grapheme break. *)
Variables LINEBREAK_MUSTBREAK LINEBREAK_ALLOWBREAK GRAPHEMEBREAK_BREAK : Z.
(** [KoCssTextUtils::collapseLastSpace] for the collapse mode of the text
    and [KoCssTextUtils::characterCanHang]. *)
Variable collapseLastSpace : QChar -> bool.
Variable characterCanHang : QChar -> HangingPunctuation -> bool.

(** The loop that puts a space in place of every mandatory break before
    the text goes to the bidi algorithm. *)
Definition replaceHardBreaks (text : list QChar) (lineBreaks : list Z) : list QChar :=
  fold_left
    (fun text i =>
       if bool_decide (lineBreaks !! i = Some LINEBREAK_MUSTBREAK)
       then <[i := QChar_Space]> text else text)
    (seq 0 (length text)) text.

Variable wrap : TextWrap.
Variable linebreakStrictness : LineBreak.
Variable text : list QChar.               (* after [replaceHardBreaks] *)
Variable lineBreaks : list Z.
Variable graphemeBreaks : list Z.
Variable justify : list (bool * bool).

(** The body of the loop over the characters of a sub chunk, for the
    character at [start + i]. *)
Definition setupCharacter (chunk_ : SubChunk) (start i : nat)
    (cr : CharacterResult) : CharacterResult :=
  let c := default 0%Z (text !! (start + i)%nat) in
  let cr := set_anchor (sc_anchor chunk_) cr in
  let cr := set_direction (sc_direction chunk_) cr in
  let canJustify := default (false, false) (justify !! (start + i)%nat) in
  let cr := set_justifyBefore (fst canJustify) cr in
  let cr := set_justifyAfter (snd canJustify) cr in
  let cr := set_overflowWrap (sc_overflowWrap chunk_) cr in
  let cr :=
    if bool_decide (lineBreaks !! (start + i)%nat = Some LINEBREAK_MUSTBREAK) then
      set_lineStart Collapse (set_lineEnd Collapse (set_breakType HardBreak cr))
    else if bool_decide (lineBreaks !! (start + i)%nat = Some LINEBREAK_ALLOWBREAK)
            && bool_decide (wrap ≠ NoWrap) then
      let cr := set_breakType SoftBreak cr in
      if collapseLastSpace c
      then set_lineStart Collapse (set_lineEnd Collapse cr)
      else cr
    else cr in
  let cr :=
    if (bool_decide (sc_wordBreak chunk_ = WordBreakBreakAll)
        || bool_decide (linebreakStrictness = LineBreakAnywhere))
       && bool_decide (wrap ≠ NoWrap) then
      if bool_decide (graphemeBreaks !! (start + i)%nat = Some GRAPHEMEBREAK_BREAK)
         && bool_decide (breakType cr = NoBreak)
      then set_breakType SoftBreak cr else cr
    else cr in
  let cr :=
    if bool_decide (lineStart cr ≠ Collapse) && sc_hang chunk_ HangFirst then
      set_lineStart (if characterCanHang c HangFirst then HangBehaviour else lineEnd cr) cr
    else cr in
  let cr :=
    if bool_decide (lineEnd cr ≠ Collapse) then
      let cr :=
        if sc_hang chunk_ HangLast then
          set_lineEnd (if characterCanHang c HangLast then HangBehaviour else lineEnd cr) cr
        else cr in
      if sc_hang chunk_ HangEnd then
        let edge := if sc_hang chunk_ HangForce then ForceHang else ConditionallyHang in
        set_lineEnd (if characterCanHang c HangEnd then edge else lineEnd cr) cr
      else cr
    else cr in
  if sc_firstTextInPath chunk_ && Nat.eqb i 0 then set_anchored_chunk true cr else cr.

(** The state of the loop over the sub chunks: [result], [start] and
    [tabSizeInfo]. *)
Definition setupFace (chunk_ : SubChunk)
    (st : list CharacterResult * nat) (face : nat * FaceMetrics)
    : list CharacterResult * nat :=
  let '(result, start) := st in
  let '(length_, m) := face in
  let result :=
    fold_left
      (fun res j =>
         upd j (fun c =>
                  set_fontWeight (sc_fontWeight chunk_)
                    (set_fontStyle (sc_fontStyle chunk_)
                       (set_halfLeading (fm_leading m * rhalf)
                          (set_descent (fm_descender m)
                             (set_ascent (fm_ascender m) c))))) res)
      (seq start length_) result in
  (result, (start + length_)%nat).

Definition setupChunk (st : list CharacterResult * nat * gmap nat TabSizeInfo)
    (chunk_ : SubChunk) : list CharacterResult * nat * gmap nat TabSizeInfo :=
  let '(result, start, tabSizeInfo) := st in
  let tabInfo := sc_tabSize chunk_ in
  let tabInfo :=
    if negb (isAuto (sc_letterSpacing chunk_))
    then mkTabSizeInfo (tabValue tabInfo) (tabIsNumber tabInfo)
           (extraSpacing tabInfo + customValue (sc_letterSpacing chunk_))
    else tabInfo in
  let tabInfo :=
    if negb (isAuto (sc_wordSpacing chunk_))
    then mkTabSizeInfo (tabValue tabInfo) (tabIsNumber tabInfo)
           (extraSpacing tabInfo + customValue (sc_wordSpacing chunk_))
    else tabInfo in
  let '(result, tabSizeInfo) :=
    fold_left
      (fun '(res, tabs) i =>
         let tabs :=
           if bool_decide (text !! (start + i)%nat = Some QChar_Tabulation)
           then <[(start + i)%nat := tabInfo]> tabs else tabs in
         (upd (start + i) (setupCharacter chunk_ start i) res, tabs))
      (seq 0 (sc_size chunk_)) (result, tabSizeInfo) in
  let '(result, start) := fold_left (setupFace chunk_) (sc_faces chunk_) (result, start) in
  (result, start, tabSizeInfo).

(** The setup of [result] up to the call of the shaper: the loop over
    the sub chunks, run when raqm accepts the text, and the anchored
    chunk at the very first character. *)
Definition setupResult (raqm_set_text_ok : bool) (textChunks : list SubChunk)
    : list CharacterResult * gmap nat TabSizeInfo :=
  let result := replicate (length text) CharacterResult0 in
  let '(result, _, tabSizeInfo) :=
    if raqm_set_text_ok
    then fold_left setupChunk textChunks (result, 0%nat, ∅)
    else (result, 0%nat, ∅) in
  let result :=
    match result with
    | [] => result
    | _ => upd 0 (set_anchored_chunk true) result
    end in
  (result, tabSizeInfo).

End Setup.

(** The loop after the glyphs are placed: characters without a glyph of
    their own become the middle of the cluster before them, hand their
    break and line-edge classes to its first character, and pass on the
    start of an anchored chunk. *)
Definition markMiddle_step (st : list CharacterResult * nat * bool) (i : nat)
    : list CharacterResult * nat * bool :=
  let '(result, firstCluster, setAnchoredChunk) := st in
  if addressable (at_ result i) && bool_decide (visualIndex (at_ result i) ≠ (-1)%Z) then
    if setAnchoredChunk
    then (upd i (set_anchored_chunk true) result, i, false)
    else (result, i, setAnchoredChunk)
  else
    let result :=
      if bool_decide (breakType (at_ result firstCluster) ≠ HardBreak)
      then upd firstCluster (set_breakType (breakType (at_ result i))) result
      else result in
    let result :=
      if bool_decide (lineStart (at_ result firstCluster) = NoChange)
      then upd firstCluster (set_lineStart (lineStart (at_ result i))) result
      else result in
    let result :=
      if bool_decide (lineEnd (at_ result firstCluster) = NoChange)
      then upd firstCluster (set_lineEnd (lineEnd (at_ result i))) result
      else result in
    let setAnchoredChunk :=
      if anchored_chunk (at_ result i) then true else setAnchoredChunk in
    let result := upd i (set_middle true) result in
    let result := upd i (set_addressable false) result in
    (result, firstCluster, setAnchoredChunk).

Definition markMiddle (result : list CharacterResult) : list CharacterResult :=
  fst (fst (fold_left markMiddle_step (seq 0 (length result)) (result, 0%nat, false))).


(** ** [relayout]: synthesizing italics *)

(** A [QTransform] as the expression that builds it. *)
Inductive QTransform :=
  | TfIdentity                                   (* [QTransform()] *)
  | TfTranslate (dx dy : R)                      (* [QTransform::fromTranslate] *)
  | TfScale (sx sy : R)                          (* [QTransform::fromScale] *)
  | TfShear (sh sv : R) (t : QTransform)         (* [t.shear(sh, sv)] *)
  | TfMul (a b : QTransform).                    (* [a * b] *)

Inductive GlyphFormat :=
  FT_GLYPH_FORMAT_OUTLINE | FT_GLYPH_FORMAT_BITMAP | FT_GLYPH_FORMAT_OTHER.

(** FreeType's [FT_STYLE_FLAG_ITALIC], bit 0 of [style_flags]. *)
Definition FT_STYLE_FLAG_ITALIC : Z := 1.

(** For [oblique], lack of an angle represents 14deg. *)
Definition SLANT_14DEG : Q := 0.24932800284318069162403993780486.
(** For a bitmap glyph, a nice round number. *)
Definition SLANT_BITMAP : Q := 0.25.

(** What the glyph loop works out for italic synthesis: the oblique
    matrix and the combined transform of an outline glyph, and for a
    sheared bitmap glyph its transform. *)
Record ItalicSynthesis := mkItalicSynthesis {
  glyphObliqueTf : QTransform;
  outlineGlyphTf : QTransform;
  bitmapTf : option QTransform
}.

(** The test made for outline and for bitmap glyphs alike. *)
Definition needsSyntheticItalic (fontStyle_ : FontStyle) (style_flags : Z) : bool :=
  bool_decide (fontStyle_ ≠ StyleNormal)
  && negb (bool_decide (Z.land style_flags FT_STYLE_FLAG_ITALIC ≠ 0%Z)).

(** The part of the glyph loop between loading the glyph and reading its
    colour layers, as far as the transforms go.  [bitmap_top] and
    [imageWidth] are integers. *)
Definition synthesizeItalic (format : GlyphFormat) (fontStyle_ : FontStyle)
    (style_flags : Z) (isHorizontal : bool) (x_offset y_offset : R)
    (ftTF : QTransform) (bitmap_top imageWidth : Z) : ItalicSynthesis :=
  match format with
  | FT_GLYPH_FORMAT_OUTLINE =>
      let outlineGlyphTf_ := TfTranslate x_offset y_offset in
      let '(glyphObliqueTf_, outlineGlyphTf_) :=
        if needsSyntheticItalic fontStyle_ style_flags then
          let glyphObliqueTf_ :=
            if isHorizontal then TfShear (r_ofQ SLANT_14DEG) r0 TfIdentity
            else TfShear r0 (- r_ofQ SLANT_14DEG) TfIdentity in
          (glyphObliqueTf_, TfMul outlineGlyphTf_ glyphObliqueTf_)
        else (TfIdentity, outlineGlyphTf_) in
      mkItalicSynthesis glyphObliqueTf_ (TfMul outlineGlyphTf_ ftTF) None
  | FT_GLYPH_FORMAT_BITMAP =>
      if needsSyntheticItalic fontStyle_ style_flags then
        let '(bitmapTf_, shearAt) :=
          if isHorizontal
          then (TfShear (- r_ofQ SLANT_BITMAP) r0 TfIdentity, (0%Z, bitmap_top))
          else (TfShear r0 (r_ofQ SLANT_BITMAP) TfIdentity, ((imageWidth ÷ 2)%Z, 0%Z)) in
        let bitmapTf_ :=
          TfMul (TfMul (TfTranslate (r_ofZ (- fst shearAt)) (r_ofZ (- snd shearAt)))
                       bitmapTf_)
                (TfTranslate (r_ofZ (fst shearAt)) (r_ofZ (snd shearAt))) in
        mkItalicSynthesis TfIdentity TfIdentity (Some bitmapTf_)
      else mkItalicSynthesis TfIdentity TfIdentity None
  | FT_GLYPH_FORMAT_OTHER => mkItalicSynthesis TfIdentity TfIdentity None
  end.

(** Whether a transform was built with a call of [shear]. *)
Fixpoint sheared (t : QTransform) : bool :=
  match t with
  | TfShear _ _ _ => true
  | TfMul a b => sheared a || sheared b
  | _ => false
  end.


(** ** [relayout]: the pass as a whole *)

Inductive TextRendering :=
  Auto | OptimizeSpeed | OptimizeLegibility | GeometricPrecision.

(** [KoSvgTextShape::Private]; [d_result] and [d_lineBoxes] are its
    members [result] and [lineBoxes], the layout kept between passes. *)
Record Private {Shape : Type} := mkPrivate {
  textRendering : TextRendering;
  xRes : Z;
  yRes : Z;
  shapesInside : list Shape;
  shapesSubtract : list Shape;
  d_result : list CharacterResult;
  d_lineBoxes : list LineBox
}.
Arguments Private : clear implicits.
Arguments mkPrivate {Shape}.

(** [KoSvgText::CharTransformation] *)
Record CharTransformation := mkCharTransformation {
  xPos : option R;
  yPos : option R;
  dxPos : option R;
  dyPos : option R;
  ct_rotate : option R        (* [rotate] *)
}.

(** The text shape: the tree of chunk shapes it is the root of (with the
    outlines and decorations associated to them) and its private data. *)
Record KoSvgTextShape {Tree Shape : Type} := mkKoSvgTextShape {
  tree : Tree;
  d : Private Shape
}.
Arguments KoSvgTextShape : clear implicits.
Arguments mkKoSvgTextShape {Tree Shape}.

(** What [relayout] calls outside this file: the layout interface of the
    chunk shapes, [KoCssTextUtils], libunibreak, raqm and FreeType, and
    the members of [Private] defined further down in the source. *)
Record Collaborators {Tree Shape Glyph : Type} := mkCollaborators {
  clearAssociatedOutlines : Tree -> Tree;
  textProperties : Tree -> KoSvgTextProperties;
  textWrap : Tree -> TextWrap;
  lineBreakStrictness : Tree -> LineBreak;
  collectSubChunks : Tree -> list SubChunk;
  collapseSpaces : Tree -> list QChar -> list QChar * list bool;
  collapseLastSpace_ : Tree -> QChar -> bool;
  characterCanHang_ : QChar -> HangingPunctuation -> bool;
  set_linebreaks_utf16 : Tree -> list QChar -> list Z;
  set_graphemebreaks_utf16 : Tree -> list QChar -> list Z;
  justificationOpportunities : Tree -> list QChar -> list (bool * bool);
  raqm_set_text_utf16 : list QChar -> bool;
  raqm_get_glyphs : TextRendering -> Z -> KoSvgTextProperties -> list QChar ->
                    list SubChunk -> option (list Glyph);
  placeGlyphs : TextRendering -> Z -> bool -> list Glyph -> list bool ->
                gmap nat TabSizeInfo -> list CharacterResult ->
                list CharacterResult * gmap nat Z;
  resolveTransforms : Tree -> bool -> list bool -> nat -> list CharTransformation;
  absolutePos : CharTransformation -> QPointF R;
  hasRelativeOffset : CharTransformation -> bool;
  relativeOffset : CharTransformation -> QPointF R;
  startsNewChunk : CharTransformation -> bool;
  getShapes : list Shape -> list Shape -> KoSvgTextProperties -> list Path;
  computeFontMetrics : Tree -> list CharacterResult -> list LineBox -> Z -> bool ->
                       list CharacterResult;
  rootShape : Tree -> KoShape;
  applyAnchoring : list CharacterResult -> bool -> list CharacterResult;
  computeTextDecorations : Tree -> list CharacterResult -> gmap nat Z -> bool -> bool ->
                           bool -> Tree;
  applyTextPath : Tree -> list CharacterResult -> bool -> list CharacterResult;
  addCharacterRects : Tree -> list SubChunk -> list CharacterResult -> Tree
}.
Arguments Collaborators : clear implicits.
Arguments mkCollaborators {Tree Shape Glyph}.

Section Relayout.
Context {Tree Shape Glyph : Type}.
Variable env : Collaborators Tree Shape Glyph.
Variables LINEBREAK_MUSTBREAK LINEBREAK_ALLOWBREAK GRAPHEMEBREAK_BREAK : Z.

(** Step 4, adjust positions by [dx], [dy]. *)
Definition adjustRelative (resolvedTransforms : list CharTransformation)
    (st : list CharacterResult * QPointF R) (i : nat) : list CharacterResult * QPointF R :=
  let '(result, shift) := st in
  if addressable (at_ result i) then
    let transform := nth i resolvedTransforms (mkCharTransformation None None None None None) in
    let shift := if hasRelativeOffset env transform
                 then padd shift (relativeOffset env transform) else shift in
    let charResult := at_ result i in
    let charResult :=
      match ct_rotate transform with
      | Some r => set_rotate r charResult
      | None => charResult
      end in
    let charResult := set_finalPosition (padd (cssPosition charResult) shift) charResult in
    let charResult :=
      if startsNewChunk env transform then set_anchored_chunk true charResult
      else charResult in
    (<[i := charResult]> result, shift)
  else st.

(** Step 6, adjust positions by [x], [y]. *)
Definition adjustAbsolute (resolvedTransforms : list CharTransformation)
    (st : list CharacterResult * QPointF R) (i : nat) : list CharacterResult * QPointF R :=
  let '(result, shift) := st in
  if addressable (at_ result i) then
    let transform := nth i resolvedTransforms (mkCharTransformation None None None None None) in
    let charResult := at_ result i in
    let shift :=
      match xPos transform with
      | Some x =>
          let delta := default r0 (dxPos transform) in
          setX shift (x + (delta - px (finalPosition charResult)))
      | None => shift
      end in
    let shift :=
      match yPos transform with
      | Some y =>
          let delta := default r0 (dyPos transform) in
          setY shift (y + (delta - py (finalPosition charResult)))
      | None => shift
      end in
    let charResult := set_finalPosition (padd (finalPosition charResult) shift) charResult in
    (<[i := charResult]> result, shift)
  else st.

(** The text [relayout] collects from the sub chunks, with its spaces
    collapsed, and the break classes libunibreak gives for it. *)
Definition collectedText (tree_ : Tree) : list QChar * list bool :=
  collapseSpaces env tree_ (concat (map sc_text (collectSubChunks env tree_))).

Definition lineBreaksOf (tree_ : Tree) : list Z :=
  match fst (collectedText tree_) with
  | [] => []
  | text => set_linebreaks_utf16 env tree_ text
  end.

(** The text handed to raqm: mandatory breaks are spaces in it. *)
Definition shapedText (tree_ : Tree) : list QChar :=
  replaceHardBreaks LINEBREAK_MUSTBREAK (fst (collectedText tree_)) (lineBreaksOf tree_).

(** The glyph array raqm returns for the shape, if any. *)
Definition glyphsOf (self : KoSvgTextShape Tree Shape) : option (list Glyph) :=
  let tree_ := clearAssociatedOutlines env (tree self) in
  raqm_get_glyphs env (textRendering (d self)) (Z.min (xRes (d self)) (yRes (d self)))
    (textProperties env tree_) (shapedText tree_) (collectSubChunks env tree_).

(** [KoSvgTextShape::relayout] *)
Definition relayout (self : KoSvgTextShape Tree Shape) : KoSvgTextShape Tree Shape :=
  let tree_ := clearAssociatedOutlines env (tree self) in
  let d_ := d self in
  let properties := textProperties env tree_ in
  let writingMode := WritingModeId properties in
  let direction_ := DirectionId properties in
  let inlineSize := InlineSizeId properties in
  let isHorizontal := bool_decide (writingMode = HorizontalTB) in
  let finalRes := Z.min (xRes d_) (yRes d_) in
  let textChunks := collectSubChunks env tree_ in
  let collapseChars := snd (collectedText tree_) in
  let lineBreaks := lineBreaksOf tree_ in
  let '(graphemeBreaks, justify) :=
    match fst (collectedText tree_) with
    | [] => ([], [])
    | text => (set_graphemebreaks_utf16 env tree_ text,
               justificationOpportunities env tree_ text)
    end in
  let text := shapedText tree_ in
  let '(result, tabSizeInfo) :=
    setupResult LINEBREAK_MUSTBREAK LINEBREAK_ALLOWBREAK GRAPHEMEBREAK_BREAK
      (collapseLastSpace_ env tree_) (characterCanHang_ env)
      (textWrap env tree_) (lineBreakStrictness env tree_)
      text lineBreaks graphemeBreaks justify
      (raqm_set_text_utf16 env text) textChunks in
  match raqm_get_glyphs env (textRendering d_) finalRes properties text textChunks with
  | None => mkKoSvgTextShape tree_ d_      (* return *)
  | Some glyphs =>
      let '(result, logicalToVisual) :=
        placeGlyphs env (textRendering d_) finalRes isHorizontal glyphs collapseChars
                    tabSizeInfo result in
      let result := markMiddle result in
      let resolvedTransforms :=
        resolveTransforms env tree_ isHorizontal collapseChars (length text) in
      let startPos :=
        absolutePos env
          (nth 0 resolvedTransforms (mkCharTransformation None None None None None)) in
      let '(lineBoxes, result) :=
        match shapesInside d_ with
        | _ :: _ =>
            let shapes := getShapes env (shapesInside d_) (shapesSubtract d_) properties in
            flowTextInShapes properties logicalToVisual result shapes
        | [] => breakLines properties startPos logicalToVisual result
        end in
      let d_ := mkPrivate (textRendering d_) (xRes d_) (yRes d_) (shapesInside d_)
                  (shapesSubtract d_) (d_result d_) lineBoxes in
      let result := computeFontMetrics env tree_ result (d_lineBoxes d_) finalRes isHorizontal in
      let ltr := bool_decide (direction_ = DirectionLeftToRight) in
      let '(result, tree_) :=
        if isAuto inlineSize && bool_decide (shapesInside d_ = []) then
          let '(result, _) :=
            fold_left (adjustRelative resolvedTransforms) (seq 0 (length result))
                      (result, QPointF0) in
          let '(result, _, _) :=
            applyTextLength (rootShape env tree_) isHorizontal (result, 0%nat, 0%Z) in
          let '(result, _) :=
            fold_left (adjustAbsolute resolvedTransforms) (seq 0 (length result))
                      (result, QPointF0) in
          let result := applyAnchoring env result isHorizontal in
          let tree_ :=
            computeTextDecorations env tree_ result logicalToVisual isHorizontal ltr false in
          (applyTextPath env tree_ result isHorizontal, tree_)
        else
          (result,
           computeTextDecorations env tree_ result logicalToVisual isHorizontal ltr true) in
      let d_ := mkPrivate (textRendering d_) (xRes d_) (yRes d_) (shapesInside d_)
                  (shapesSubtract d_) result (d_lineBoxes d_) in
      mkKoSvgTextShape (addCharacterRects env tree_ textChunks result) d_
  end.

End Relayout.

End Model.

Arguments Private {R Path Image Brush} Shape.
Arguments mkPrivate {R Path Image Brush Shape}.
Arguments KoSvgTextShape {R Path Image Brush} Tree Shape.
Arguments mkKoSvgTextShape {R Path Image Brush Tree Shape}.
Arguments Collaborators {R Path Image Brush} Tree Shape Glyph.
Arguments mkCollaborators {R Path Image Brush Tree Shape Glyph}.

(** ** Members of the text shape outside [relayout] *)

Module Members.
Section Members.
Context {R Path Image Brush : Type} `{!QReal R} `{!QtPaint R Path Image Brush}.
Local Open Scope qreal_scope.

Local Abbreviation CharacterResult := (@CharacterResult R Path Image Brush).
Local Abbreviation KoSvgTextShape := (@KoSvgTextShape R Path Image Brush).

(** [setTextRenderingFromString]: any other string gives [Auto]. *)
Definition setTextRenderingFromString {Tree Shape : Type} (textRendering_ : string)
    (self : KoSvgTextShape Tree Shape) : KoSvgTextShape Tree Shape :=
  let d_ := d self in
  let mode :=
    if String.eqb textRendering_ "optimizeSpeed" then OptimizeSpeed
    else if String.eqb textRendering_ "optimizeLegibility" then OptimizeLegibility
    else if String.eqb textRendering_ "geometricPrecision" then GeometricPrecision
    else Auto in
  mkKoSvgTextShape (tree self)
    (mkPrivate mode (xRes d_) (yRes d_) (shapesInside d_) (shapesSubtract d_)
       (d_result d_) (d_lineBoxes d_)).

(** [textRenderingString] *)
Definition textRenderingString {Tree Shape : Type} (self : KoSvgTextShape Tree Shape)
    : string :=
  match textRendering (d self) with
  | OptimizeSpeed => "optimizeSpeed"
  | OptimizeLegibility => "optimizeLegibility"
  | GeometricPrecision => "geometricPrecision"
  | Auto => "auto"
  end.

(** The inner [for] loop of [applyAnchoring], from index [i] on, with
    [rest] the characters from [i]: it skips characters that are not
    addressable, stops at the first addressable character after [start]
    that starts an anchored chunk, and gives back the index it stopped
    at and the extent [a], [b] of the chunk. *)
Fixpoint applyAnchoring_scan (isHorizontal : bool) (start : nat)
    (rest : list CharacterResult) (i : nat) (a b : R) : nat * R * R :=
  match rest with
  | [] => (i, a, b)
  | cr :: rest' =>
      if negb (addressable cr) then
        applyAnchoring_scan isHorizontal start rest' (S i) a b
      else if anchored_chunk cr && (start <? i)%nat then (i, a, b)
      else
        let pos := if isHorizontal then px (finalPosition cr) else py (finalPosition cr) in
        let adv := if isHorizontal then px (advance cr) else py (advance cr) in
        let '(a, b) :=
          if anchored_chunk cr
          then (qMin pos (pos + adv), qMax pos (pos + adv))
          else (qMin a (qMin pos (pos + adv)), qMax b (qMax pos (pos + adv))) in
        applyAnchoring_scan isHorizontal start rest' (S i) a b
  end.

(** The body of the [while] loop of [applyAnchoring]: the chunk that
    starts at [start] is shifted as its anchor asks; gives back the new
    [result] and the new [start]. *)
Definition applyAnchoring_chunk (isHorizontal : bool) (result : list CharacterResult)
    (start : nat) : list CharacterResult * nat :=
  let '(i, a, b) :=
    applyAnchoring_scan isHorizontal start (drop start result) start r0 r0 in
  let rtl := bool_decide (direction (at_ result start) = DirectionRightToLeft) in
  let shift := if isHorizontal then px (finalPosition (at_ result start))
               else py (finalPosition (at_ result start)) in
  let shift :=
    if (bool_decide (anchor (at_ result start) = AnchorStart) && negb rtl)
       || (bool_decide (anchor (at_ result start) = AnchorEnd) && rtl) then
      shift - a
    else if (bool_decide (anchor (at_ result start) = AnchorEnd) && negb rtl)
            || (bool_decide (anchor (at_ result start) = AnchorStart) && rtl) then
      shift - b
    else shift - (a + b) * rhalf in
  let shiftP := if isHorizontal then mkQPointF shift r0 else mkQPointF r0 shift in
  let result :=
    fold_left
      (fun res j => upd j (fun c => set_finalPosition (padd (finalPosition c) shiftP) c) res)
      (seq start (i - start)) result in
  (result, i).

(** The [while] loop, with [fuel] iterations at most; [None] when they
    do not suffice. *)
Fixpoint applyAnchoring_loop (fuel : nat) (isHorizontal : bool)
    (result : list CharacterResult) (start : nat) : option (list CharacterResult) :=
  if (start <? length result)%nat then
    match fuel with
    | O => None
    | S fuel' =>
        let '(result, i) := applyAnchoring_chunk isHorizontal result start in
        applyAnchoring_loop fuel' isHorizontal result i
    end
  else Some result.

(** [applyAnchoring]; every iteration of the loop moves [start] on, so
    one iteration per character is enough. *)
Definition applyAnchoring (result : list CharacterResult) (isHorizontal : bool)
    : option (list CharacterResult) :=
  applyAnchoring_loop (length result) isHorizontal result 0.

End Members.
End Members.

(** ** Snapping to the nodes of shapes: [NodeSnapStrategy] *)

Module NodeSnapStrategy.
Section Snap.
Context {R : Type} `{!QReal R}.
Local Open Scope qreal_scope.

Inductive SnapType := ToPoint | ToLine.

(** [KoSnapStrategy::squareDistance] and [KoSnapStrategy::scalarProduct] *)
Definition squareDistance (p1 p2 : QPointF R) : R :=
  let dx := px p1 - px p2 in
  let dy := py p1 - py p2 in
  dx * dx + dy * dy.

Definition scalarProduct (p1 p2 : QPointF R) : R :=
  px p1 * px p2 + py p1 * py p2.

(** [QRectF::moveCenter] *)
Definition moveCenter (r : QRectF R) (p : QPointF R) : QRectF R :=
  mkQRectF (px p - rw r / r_ofZ 2%Z) (py p - rh r / r_ofZ 2%Z) (rw r) (rh r).

(** One iteration of the loop over the points; [minDistance] starts at
    [HUGE_VAL], for which [None] stands: a distance below [maxDistance]
    is finite and so below [HUGE_VAL]. *)
Definition snap_step (mousePosition : QPointF R) (maxDistance : R)
    (st : QPointF R * option R) (point : QPointF R) : QPointF R * option R :=
  let '(snappedPoint, minDistance) := st in
  let distance := squareDistance mousePosition point in
  if (distance <? maxDistance)
     && match minDistance with
        | None => true
        | Some m => distance <? m
        end
  then (point, Some distance)
  else (snappedPoint, minDistance).

(** [NodeSnapStrategy::snap]: the value returned, and the position and
    type given to [setSnappedPosition].  [pointsInRect] is
    [KoSnapProxy::pointsInRect]. *)
Definition snap (pointsInRect : QRectF R -> bool -> list (QPointF R))
    (mousePosition : QPointF R) (maxSnapDistance : R) : bool * QPointF R * SnapType :=
  let maxDistance := maxSnapDistance * maxSnapDistance in
  let rect :=
    moveCenter (mkQRectF (- maxSnapDistance) (- maxSnapDistance)
                  maxSnapDistance maxSnapDistance) mousePosition in
  let points := pointsInRect rect false in
  let '(snappedPoint, minDistance) :=
    fold_left (snap_step mousePosition maxDistance) points (mousePosition, None) in
  (bool_decide (minDistance ≠ None), snappedPoint, ToPoint).

End Snap.
End NodeSnapStrategy.

(** ** Snapping to the axes through the nodes of shapes: [OrthogonalSnapStrategy] *)

Module OrthogonalSnapStrategy.
Section Snap.
Context {R : Type} `{!QReal R}.
Local Open Scope qreal_scope.

(** The variables of the loops of [snap]; the two minima start at
    [HUGE_VAL], for which [None] stands. *)
Record SnapState := mkSnapState {
  horzSnap : QPointF R;
  vertSnap : QPointF R;
  minVertDist : option R;
  minHorzDist : option R
}.

(** [x < min], with [None] for [HUGE_VAL]: the test is only of
    consequence together with [x < maxSnapDistance], which makes [x]
    finite. *)
Definition below (x : R) (min : option R) : bool :=
  match min with
  | None => true
  | Some m => x <? m
  end.

(** The body of the loop over the points of a shape. *)
Definition snap_point (mousePosition : QPointF R) (maxSnapDistance : R)
    (st : SnapState) (point : QPointF R) : SnapState :=
  let dx := r_fabs (px point - px mousePosition) in
  let st :=
    if below dx (minHorzDist st) && (dx <? maxSnapDistance)
    then mkSnapState point (vertSnap st) (minVertDist st) (Some dx)
    else st in
  let dy := r_fabs (py point - py mousePosition) in
  if below dy (minVertDist st) && (dy <? maxSnapDistance)
  then mkSnapState (horzSnap st) point (Some dy) (minHorzDist st)
  else st.

(** What [snap] leaves behind: the value it returns, the position and
    the type given to [setSnappedPosition], and the two guide lines. *)
Record Snapped := mkSnapped {
  found : bool;
  snappedPosition : QPointF R;
  snappedType : NodeSnapStrategy.SnapType;
  m_hLine : QLineF R;
  m_vLine : QLineF R
}.

(** [OrthogonalSnapStrategy::snap]; [shapes] is [proxy->shapes(true)]
    and [pointsFromShape] is [KoSnapProxy::pointsFromShape]. *)
Definition snap {Shape : Type} (shapes : list Shape)
    (pointsFromShape : Shape -> list (QPointF R))
    (mousePosition : QPointF R) (maxSnapDistance : R) : Snapped :=
  let st :=
    fold_left
      (fun st shape =>
         fold_left (snap_point mousePosition maxSnapDistance) (pointsFromShape shape) st)
      shapes (mkSnapState QPointF0 QPointF0 None None) in
  let hasHorz := bool_decide (minHorzDist st ≠ None) in
  let hasVert := bool_decide (minVertDist st ≠ None) in
  let snappedPoint := mousePosition in
  let snappedType_ := NodeSnapStrategy.ToPoint in
  let snappedPoint :=
    if hasHorz then setX snappedPoint (px (horzSnap st)) else snappedPoint in
  let snappedPoint :=
    if hasVert then setY snappedPoint (py (vertSnap st)) else snappedPoint in
  let '(hLine, snappedType_) :=
    if hasHorz then (mkQLineF (horzSnap st) snappedPoint, snappedType_)
    else (QLineF0, NodeSnapStrategy.ToLine) in
  let '(vLine, snappedType_) :=
    if hasVert then (mkQLineF (vertSnap st) snappedPoint, snappedType_)
    else (QLineF0, NodeSnapStrategy.ToLine) in
  mkSnapped (hasHorz || hasVert) snappedPoint snappedType_ hLine vLine.

End Snap.
End OrthogonalSnapStrategy.

(** ** [KoSvgTextShape::Private::clearAssociatedOutlines] *)

Module Outlines.
Section Outlines.
Context {R : Type}.

(** The tree of shapes as [clearAssociatedOutlines] walks it: a text
    chunk shape with the outline its layout interface keeps, as the
    rectangles added to it, its own sub chunks and its child shapes; or
    a shape of another kind, for which the [dynamic_cast] fails. *)
#[local] Unset Elimination Schemes.
Inductive ChunkShape :=
  | NotAChunk
  | Chunk (associatedOutline : list (QRectF R)) (subChunks : list (@SubChunk R))
          (shapes : list ChunkShape).
#[local] Set Elimination Schemes.

(** [clearAssociatedOutlines]: the outline of the shape is cleared, then
    those of its children; for a shape that is no text chunk shape the
    assert fails and the function returns. *)
Fixpoint clearAssociatedOutlines (rootShape : ChunkShape) : ChunkShape :=
  match rootShape with
  | NotAChunk => NotAChunk
  | Chunk _ subChunks shapes => Chunk [] subChunks (map clearAssociatedOutlines shapes)
  end.

End Outlines.
End Outlines.

(** ** A small world to run the definitions in

    Rational arithmetic, and paths that are axis-aligned rectangles (or
    empty).  The edges of a rectangle are horizontal or vertical, so the
    functions [getFirstPosition] calls for slanted edges are never
    reached; they are given the value [0]. *)

Inductive RectPath := NoPath | Rect (r : QRectF Q).

Definition RectPath_polygon (p : RectPath) : list (QPointF Q) :=
  match p with
  | NoPath => []
  | Rect r => [topLeft r; topRight r; bottomRight r; bottomLeft r; topLeft r]
  end.

Definition Q_polygon_boundingRect (pts : list (QPointF Q)) : QRectF Q :=
  match pts with
  | [] => QRectF0
  | p :: rest =>
      let l := fold_left (fun m q => qMin m (px q)) rest (px p) in
      let r := fold_left (fun m q => qMax m (px q)) rest (px p) in
      let t := fold_left (fun m q => qMin m (py q)) rest (py p) in
      let b := fold_left (fun m q => qMax m (py q)) rest (py p) in
      mkQRectF l t (r - l)%qr (b - t)%qr
  end.

(** Whether [inner] lies inside [outer], both normalized. *)
Definition Q_rect_inside (outer inner : QRectF Q) : bool :=
  let o := rect_normalized outer in
  let i := rect_normalized inner in
  (rect_left o <=? rect_left i)%qr && (rect_right i <=? rect_right o)%qr
  && (rect_top o <=? rect_top i)%qr && (rect_bottom i <=? rect_bottom o)%qr.

(** [QLineF::angle] of a horizontal or vertical line, in degrees. *)
Definition Q_line_angle (l : QLineF Q) : Q :=
  let dx := (px (p2 l) - px (p1 l))%qr in
  let dy := (py (p2 l) - py (p1 l))%qr in
  if (dy =? 0%Q)%qr then (if (dx <? 0%Q)%qr then 180%Q else 0%Q)
  else if (dx =? 0%Q)%qr then (if (dy <? 0%Q)%qr then 90%Q else 270%Q)
  else 45%Q.

(** [QLineF::intersects] *)
Definition Q_line_intersects (l m : QLineF Q) : IntersectType * QPointF Q :=
  let a := psub (p2 l) (p1 l) in
  let b := psub (p1 m) (p2 m) in
  let c := psub (p1 l) (p1 m) in
  let denominator := (py a * px b - px a * py b)%qr in
  if (denominator =? 0%Q)%qr then (NoIntersection, QPointF0)
  else
    let reciprocal := (1%Q / denominator)%qr in
    let na := ((py b * px c - px b * py c) * reciprocal)%qr in
    let pt := padd (p1 l) (pmul a na) in
    if (na <? 0%Q)%qr || (na >? 1%Q)%qr then (UnboundedIntersection, pt)
    else
      let nb := ((px a * py c - py a * px c) * reciprocal)%qr in
      if (nb <? 0%Q)%qr || (nb >? 1%Q)%qr then (UnboundedIntersection, pt)
      else (BoundedIntersection, pt).

Fixpoint Q_sort_insert (lt : QPointF Q -> QPointF Q -> bool) (x : QPointF Q)
    (l : list (QPointF Q)) : list (QPointF Q) :=
  match l with
  | [] => [x]
  | y :: l' => if lt x y then x :: l else y :: Q_sort_insert lt x l'
  end.

(** [QPainterPath::contains(const QPointF &)] for a rectangle: by the
    winding of its outline, which takes in the points of the left and
    the top edge and leaves out those of the right and the bottom one. *)
Definition RectPath_contains (r : QRectF Q) (pt : QPointF Q) : bool :=
  let n := rect_normalized r in
  (rect_left n <=? px pt)%qr && (px pt <? rect_right n)%qr
  && (rect_top n <=? py pt)%qr && (py pt <? rect_bottom n)%qr.

#[export] Instance RectPath_QtPaint : QtPaint Q RectPath unit unit := {|
  path_null := NoPath;
  path_isEmpty := fun p => match p with NoPath => true | Rect _ => false end;
  path_boundingRect := fun p => match p with NoPath => QRectF0 | Rect r => r end;
  path_contains :=
    fun p pt => match p with NoPath => false | Rect r => RectPath_contains r pt end;
  path_containsRect :=
    fun p box => match p with NoPath => false | Rect r => Q_rect_inside r box end;
  path_toFillPolygons :=
    fun p => match p with NoPath => [] | Rect _ => [RectPath_polygon p] end;
  path_toFillPolygon := RectPath_polygon;
  path_scaled :=
    fun sx sy p => match p with NoPath => NoPath | Rect r => Rect (rect_mapScale sx sy r) end;
  image_null := tt;
  polygon_boundingRect := Q_polygon_boundingRect;
  line_angle := Q_line_angle;
  line_intersects := Q_line_intersects;
  qpoint_eqb := fun a b => (px a =? px b)%qr && (py a =? py b)%qr;
  kisDistanceToLine := fun _ _ => 0%Q;
  qCos := fun _ => 0%Q;
  qSin := fun _ => 0%Q;
  qDegreesToRadians := fun _ => 0%Q;
  std_sort := fun lt l => fold_right (Q_sort_insert lt) [] l
|}.

(** A character ten units wide, with the given break class, line-edge
    classes and visual index. *)
Definition ex_char (bt : BreakType) (edge : LineEdgeBehaviour) (vi : Z)
    : @CharacterResult Q RectPath unit unit :=
  set_visualIndex vi
    (set_lineStart edge
       (set_lineEnd edge
          (set_breakType bt
             (set_advance (mkQPointF 10%Q 0%Q)
                (set_boundingBox (mkQRectF 0%Q (-8)%Q 10%Q 10%Q) CharacterResult0))))).

(** Horizontal left-to-right text with the given [inline-size]. *)
Definition ex_props (inlineSize : @AutoValue Q) : @KoSvgTextProperties Q :=
  mkKoSvgTextProperties HorizontalTB DirectionLeftToRight inlineSize AnchorStart
    (mkTextIndentInfo 0%Q false false false) AlignStart AlignStart.

Definition ex_auto : @AutoValue Q := mkAutoValue true 0%Q.

(** The text "AB", a line feed, "CD": the line feed is a hard break that
    collapses at the line edges, as [setupCharacter] classifies it. *)
Definition ex_ABnCD : list (@CharacterResult Q RectPath unit unit) :=
  [ex_char NoBreak NoChange 0; ex_char NoBreak NoChange 1; ex_char HardBreak Collapse 2;
   ex_char NoBreak NoChange 3; ex_char NoBreak NoChange 4].

(** The text "ABC", one word. *)
Definition ex_ABC : list (@CharacterResult Q RectPath unit unit) :=
  [ex_char NoBreak NoChange 0; ex_char NoBreak NoChange 1; ex_char NoBreak NoChange 2].

(** Every character has a glyph of its own, in logical order. *)
Definition ex_logicalToVisual (n : nat) : gmap nat Z :=
  list_to_map (map (fun i => (i, Z.of_nat i)) (seq 0 n)).


(** The text "AB", a line feed, "CD" as [relayout] collects it, with the
    break classes libunibreak gives: [0] is a mandatory break, [1] an
    allowed break, [2] no break. *)
Definition ex_text : list QChar := [65; 66; 10; 67; 68]%Z.
Definition ex_lineBreaks : list Z := [2; 2; 0; 2; 1]%Z.

(** One sub chunk with the given text and one face for all of it. *)
Definition ex_subChunk (text : list QChar) : @SubChunk Q :=
  mkSubChunk text false AnchorStart DirectionLeftToRight WordBreakNormal
    (fun _ => false) (mkTabSizeInfo 8%Q true 0%Q) ex_auto ex_auto false
    StyleNormal 400%Z [(length text, mkFaceMetrics 8%Q (-2)%Q 0%Q)].

(** Collaborators for a tree that is the list of its sub chunks: no
    space collapses, a line feed is the only mandatory break, the shaper
    returns one glyph per character or, with [shaper = false], no glyph
    array, every glyph is ten units wide, and the later stages leave
    [result] and the tree as they are. *)
Definition ex_env (shaper : bool)
    : @Collaborators Q RectPath unit unit (list (@SubChunk Q)) RectPath unit :=
  mkCollaborators
    (fun t => t)
    (fun _ => ex_props ex_auto)
    (fun _ => Wrap)
    (fun _ => LineBreakAuto)
    (fun t => t)
    (fun _ text => (text, map (fun _ => false) text))
    (fun _ c => (c =? QChar_Space)%Z)
    (fun _ _ => false)
    (fun _ text => map (fun c => if (c =? 10)%Z then 0%Z else 2%Z) text)
    (fun _ text => map (fun _ => 0%Z) text)
    (fun _ text => map (fun _ => (false, false)) text)
    (fun _ => true)
    (fun _ _ _ text _ => if shaper then Some (map (fun _ => tt) text) else None)
    (fun _ _ _ _ _ _ result =>
       (imap (fun i c =>
                set_visualIndex (Z.of_nat i)
                  (set_advance (mkQPointF 10%Q 0%Q)
                     (set_boundingBox (mkQRectF 0%Q (-8)%Q 10%Q 10%Q) c))) result,
        ex_logicalToVisual (length result)))
    (fun _ _ _ n => replicate n (mkCharTransformation None None None None None))
    (fun _ => mkQPointF 0%Q 0%Q)
    (fun _ => false)
    (fun _ => mkQPointF 0%Q 0%Q)
    (fun _ => false)
    (fun inside _ _ => inside)
    (fun _ result _ _ _ => result)
    (fun _ => OtherShape)
    (fun result _ => result)
    (fun t _ _ _ _ _ => t)
    (fun _ result _ => result)
    (fun t _ _ => t).

(** The text shape of "AB", a line feed, "CD" with the given cached
    layout, at 72 dpi and with no shape to flow in. *)
Definition ex_shape (result : list (@CharacterResult Q RectPath unit unit))
    (lineBoxes : list (@LineBox Q))
    : @KoSvgTextShape Q RectPath unit unit (list (@SubChunk Q)) RectPath :=
  mkKoSvgTextShape [ex_subChunk ex_text] (mkPrivate Auto 72 72 [] [] result lineBoxes).

(** The state of [breakLines] after "AB" of "AB", line feed, "CD", with
    no [inline-size]. *)
Definition ex_afterAB : @BreakState Q RectPath unit unit :=
  breakLines_step (ex_props ex_auto) (mkQPointF 0%Q 0%Q) 1 true
    (breakLines_step (ex_props ex_auto) (mkQPointF 0%Q 0%Q) 0 true
       (breakLines_init (ex_props ex_auto) (mkQPointF 0%Q 0%Q) ex_ABnCD)).

(** A square of side 20, too narrow for the word "ABC", which is 30
    wide, and the state of [flowTextInShapes] when "ABC" is to be
    flowed into it and the search for its line starts. *)
Definition ex_square : RectPath := Rect (mkQRectF 0%Q 0%Q 20%Q 20%Q).

Definition ex_flowABC : @FlowState Q RectPath unit unit :=
  let s := flow_init (ex_props ex_auto) ex_ABC ex_square [ex_square] in
  let s := flow_step (ex_props ex_auto) 0 true s in
  let s := flow_step (ex_props ex_auto) 1 true s in
  fst (flow_wordBlock (ex_props ex_auto) 2 false (at_ (fs_result s) 2) s).

(** A collapsed space that starts an anchored chunk and has no glyph of
    its own, in front of a letter. *)
Definition ex_collapsed : list (@CharacterResult Q RectPath unit unit) :=
  [set_anchored_chunk true (ex_char NoBreak NoChange (-1)); ex_char NoBreak NoChange 0].

(** The chunk of a line that holds "AB" and the line feed after it. *)
Definition ex_chunkABn : @LineChunk Q :=
  mkLineChunk (mkQLineF (mkQPointF 0%Q 0%Q) (mkQPointF 100%Q 0%Q)) [0; 1; 2]%nat
    (mkQRectF 0%Q (-8)%Q 30%Q 10%Q).

(** A run of three characters with a [textLength] of forty, spread by
    spacing. *)
Definition ex_run : @KoShape Q :=
  TextChunkShape 3 (mkAutoValue false 40%Q) LengthAdjustSpacing [].

(** Two nodes near the origin, the second one closer. *)
Definition ex_nodes : list (QPointF Q) := [mkQPointF 3%Q 0%Q; mkQPointF 1%Q 1%Q].

(** The letters "A" and "B" with a collapsed space between them, which
    has no glyph of its own and is not addressable, and the map of the
    two glyphs. *)
Definition ex_AsB : list (@CharacterResult Q RectPath unit unit) :=
  [ex_char NoBreak NoChange 0;
   set_addressable false (ex_char NoBreak Collapse (-1));
   ex_char NoBreak NoChange 1].

Definition ex_glyphsAB : gmap nat Z := <[0%nat := 0%Z]> (<[2%nat := 1%Z]> ∅).

(** A square of side 100, wide enough for the words of the examples. *)
Definition ex_wide : RectPath := Rect (mkQRectF 0%Q 0%Q 100%Q 100%Q).

(** The sub chunks and the outlines of a tree of chunk shapes, parents
    first. *)
Fixpoint ex_subChunksOf (t : @Outlines.ChunkShape Q) : list (@SubChunk Q) :=
  match t with
  | Outlines.NotAChunk => []
  | Outlines.Chunk _ subChunks shapes => subChunks ++ concat (map ex_subChunksOf shapes)
  end.

Fixpoint ex_outlinesOf (t : @Outlines.ChunkShape Q) : list (QRectF Q) :=
  match t with
  | Outlines.NotAChunk => []
  | Outlines.Chunk outline _ shapes => outline ++ concat (map ex_outlinesOf shapes)
  end.

(** The same collaborators for a tree of chunk shapes that carry their
    outlines: the pass clears them with [clearAssociatedOutlines], and
    its last loop adds the bounding box of every character that is
    addressable and not hidden, moved to its final position; the
    example adds them to the root. *)
Definition ex_env_outlines (shaper : bool)
    : @Collaborators Q RectPath unit unit (@Outlines.ChunkShape Q) RectPath unit :=
  mkCollaborators
    Outlines.clearAssociatedOutlines
    (fun _ => ex_props ex_auto)
    (fun _ => Wrap)
    (fun _ => LineBreakAuto)
    ex_subChunksOf
    (fun _ text => (text, map (fun _ => false) text))
    (fun _ c => (c =? QChar_Space)%Z)
    (fun _ _ => false)
    (fun _ text => map (fun c => if (c =? 10)%Z then 0%Z else 2%Z) text)
    (fun _ text => map (fun _ => 0%Z) text)
    (fun _ text => map (fun _ => (false, false)) text)
    (fun _ => true)
    (fun _ _ _ text _ => if shaper then Some (map (fun _ => tt) text) else None)
    (fun _ _ _ _ _ _ result =>
       (imap (fun i c =>
                set_visualIndex (Z.of_nat i)
                  (set_advance (mkQPointF 10%Q 0%Q)
                     (set_boundingBox (mkQRectF 0%Q (-8)%Q 10%Q 10%Q) c))) result,
        ex_logicalToVisual (length result)))
    (fun _ _ _ n => replicate n (mkCharTransformation None None None None None))
    (fun _ => mkQPointF 0%Q 0%Q)
    (fun _ => false)
    (fun _ => mkQPointF 0%Q 0%Q)
    (fun _ => false)
    (fun inside _ _ => inside)
    (fun _ result _ _ _ => result)
    (fun _ => OtherShape)
    (fun result _ => result)
    (fun t _ _ _ _ _ => t)
    (fun _ result _ => result)
    (fun t _ result =>
       match t with
       | Outlines.NotAChunk => Outlines.NotAChunk
       | Outlines.Chunk outline subChunks shapes =>
           Outlines.Chunk
             (outline
              ++ map (fun c => rect_translated (boundingBox c) (finalPosition c))
                     (filter (fun c => addressable c && negb (hidden c) = true) result))
             subChunks shapes
       end).

(** The text shape of "AB", a line feed, "CD" with the given cached
    layout: a root chunk shape with the text, over a child chunk shape
    without text and a shape of another kind; the root and the child
    carry the given outlines. *)
Definition ex_outlined (outlines : list (QRectF Q))
    (result : list (@CharacterResult Q RectPath unit unit))
    (lineBoxes : list (@LineBox Q))
    : @KoSvgTextShape Q RectPath unit unit (@Outlines.ChunkShape Q) RectPath :=
  mkKoSvgTextShape
    (Outlines.Chunk outlines [ex_subChunk ex_text]
       [Outlines.Chunk outlines [] []; Outlines.NotAChunk])
    (mkPrivate Auto 72 72 [] [] result lineBoxes).

(** The state of [flowTextInShapes] when "ABC" is to be flowed into the
    wide square and the search for its line starts. *)
Definition ex_flowABC_wide : @FlowState Q RectPath unit unit :=
  let s := flow_init (ex_props ex_auto) ex_ABC ex_wide [ex_wide] in
  let s := flow_step (ex_props ex_auto) 0 true s in
  let s := flow_step (ex_props ex_auto) 1 true s in
  fst (flow_wordBlock (ex_props ex_auto) 2 false (at_ (fs_result s) 2) s).

(** The text "AB", a line feed, "CD" with an ascent of 8 and a descent
    of 2 for every character, and the state of [breakLines] after "AB"
    of it, with no [inline-size]. *)
Definition ex_tallABnCD : list (@CharacterResult Q RectPath unit unit) :=
  map (fun c => set_ascent 8%Q (set_descent (-2)%Q c)) ex_ABnCD.

Definition ex_afterTallAB : @BreakState Q RectPath unit unit :=
  breakLines_step (ex_props ex_auto) (mkQPointF 0%Q 0%Q) 1 true
    (breakLines_step (ex_props ex_auto) (mkQPointF 0%Q 0%Q) 0 true
       (breakLines_init (ex_props ex_auto) (mkQPointF 0%Q 0%Q) ex_tallABnCD)).

(** A shaper that refuses a text with a line feed in it, and returns one
    glyph per character otherwise. *)
Definition ex_noLineFeed (text : list QChar) : bool :=
  forallb (fun c => negb (c =? 10)%Z) text.

Definition ex_fussyGlyphs (textRendering_ : TextRendering) (finalRes : Z)
    (properties : @KoSvgTextProperties Q) (text : list QChar)
    (textChunks : list (@SubChunk Q)) : option (list unit) :=
  if ex_noLineFeed text then Some (map (fun _ => tt) text) else None.
(** * The vocabulary of the properties *)

Section Vocabulary.
Context {R Path Image Brush : Type} `{!QReal R} `{!QtPaint R Path Image Brush}.

Local Abbreviation CR := (@CharacterResult R Path Image Brush).
Local Abbreviation LB := (@LineBox R).
Local Abbreviation BS := (@BreakState R Path Image Brush).
Local Abbreviation FS := (@FlowState R Path Image Brush).
Local Abbreviation Props := (@KoSvgTextProperties R).

(** [result'] agrees with [result] at every index outside [l]. *)
Definition unchanged_outside (l : list nat) (result result' : list CR) : Prop :=
  forall k, k ∉ l -> at_ result' k = at_ result k.

(** Two line boxes with the same chunks, current chunk and last-line
    flag: what the steps of a line engine tell them apart by. *)
Definition same_chunks (a b : LB) : Prop :=
  chunks a = chunks b /\ currentChunk a = currentChunk b /\ lastLine a = lastLine b.

(** The lines of [breakLines] have one chunk, which is the current one. *)
Definition single (lb : LB) : Prop :=
  exists c, chunks lb = [c] /\ currentChunk lb = 0%Z.

(** The characters placed so far, in the finished lines and in the
    current one, and with the pending word all the characters consumed. *)
Definition placed (s : BS) : list nat :=
  concat (map lineIndicesOf (bs_lineBoxes s)) ++ lineIndicesOf (bs_currentLine s).

Definition consumed (s : BS) : list nat := placed s ++ bs_wordIndices s.

(** The line [finalizeLine] makes of the current line of the state. *)
Definition finalizedLine (properties : Props) (s : BS) : LB :=
  snd (fst (finalizeLine (bs_result s) (bs_currentPos s) (bs_currentLine s)
              (bs_lineOffset s) (TextAnchorId properties) (WritingModeId properties)
              (bool_decide (DirectionId properties = DirectionLeftToRight))
              (negb (isAuto (InlineSizeId properties))) false)).

(** A step from [s] to [s'] that places the characters [moved]: they
    join the placed ones in this order, the current line keeps one chunk
    and its last-line flag, finished lines are only added, and no
    character outside the placed ones is touched. *)
Definition places (s s' : BS) (moved : list nat) : Prop :=
  single (bs_currentLine s')
  /\ placed s' = placed s ++ moved
  /\ lastLine (bs_currentLine s') = lastLine (bs_currentLine s)
  /\ unchanged_outside (placed s ++ moved) (bs_result s) (bs_result s')
  /\ exists added, bs_lineBoxes s' = bs_lineBoxes s ++ added.

(** One more line box. *)
Definition extends (before after : list LB) : Prop :=
  exists added, after = before ++ added.

(** A character collapsed at a line edge: hidden and no longer
    addressable. *)
Definition collapsedAway (cr : CR) : Prop :=
  hidden cr = true /\ addressable cr = false.

(** [result'] has the length of [result], and the characters collapsed
    away in [result] are so in [result']. *)
Definition staysAway (result result' : list CR) : Prop :=
  length result' = length result
  /\ forall k, collapsedAway (at_ result k) -> collapsedAway (at_ result' k).

(** The baselines [lineHeightOffset] gives a line that has a chunk, from
    its ascent and descent. *)
Definition baselinesSet (writingMode : WritingMode) (lb : LB) : Prop :=
  match writingMode with
  | HorizontalTB =>
      baselineTop lb = pneg (mkQPointF r0 (actualLineTop lb))
      /\ baselineBottom lb = mkQPointF r0 (actualLineBottom lb)
  | VerticalLR =>
      baselineTop lb = mkQPointF (actualLineTop lb) r0
      /\ baselineBottom lb = pneg (mkQPointF (actualLineBottom lb) r0)
  | VerticalRL =>
      baselineTop lb = mkQPointF (- actualLineTop lb)%qr r0
      /\ baselineBottom lb = pneg (mkQPointF (- actualLineBottom lb)%qr r0)
  end.

(** What a hard break does in one iteration of [breakLines], from the
    state [s] to the state [s'] the iteration leaves.  With [s1] the
    state when the block for hard breaks is entered and [s2] the state
    it leaves: the current line of [s1], which holds the character, is
    finalized and appended to the line boxes, and the next line starts
    with one empty chunk and no pending word; for the last character of
    the text that line is finalized and appended in turn.  Finalizing
    shows: the line has its baselines set; every character of the line
    has its final position, which is its CSS position; the hard break
    itself, when it collapses at the end of a line, is hidden and no
    longer addressable; and the next character is placed at the offset
    of the new line, moved by its text indent when [inline-size] is
    set. *)
Definition hard_break_finalizes (properties : Props) (startPos : QPointF R)
    (index : nat) (hasNext : bool) (s : BS) : Prop :=
  exists s1 : BS,
    let s2 := hardBreakBlock properties s1 in
    let s' := breakLines_step properties startPos index hasNext s in
    let line := finalizedLine properties s1 in
    s' = (if hasNext then s2 else lastLineBlock properties s2)
    /\ extends (bs_lineBoxes s) (bs_lineBoxes s1)
    /\ bs_lineBoxes s2 = bs_lineBoxes s1 ++ [line]
    /\ index ∈ lineIndicesOf line
    /\ map chunkIndices (chunks (bs_currentLine s2)) = [[]]
    /\ bs_wordIndices s2 = []
    (* what finalizing does *)
    /\ baselinesSet (WritingModeId properties) line
    /\ length (bs_result s') = length (bs_result s)
    /\ (forall j, j ∈ lineIndicesOf line -> (j < length (bs_result s))%nat ->
          finalPosition (at_ (bs_result s') j) = cssPosition (at_ (bs_result s') j))
    /\ (lineEnd (at_ (bs_result s) index) = Collapse -> (index < length (bs_result s))%nat ->
        collapsedAway (at_ (bs_result s') index))
    /\ bs_currentPos s2
       = (if isAuto (InlineSizeId properties) then bs_lineOffset s2
          else padd (bs_lineOffset s2) (textIndent (bs_currentLine s2))).

(** All the character indices of the chunks of all the line boxes, in
    order. *)
Definition allChunkIndices (lineBoxes : list LB) : list nat :=
  concat (map lineIndicesOf lineBoxes).

(** The inline-axis midpoint of a character, moved by the start offset:
    the value [mid] that [characterResultOnPath] starts from. *)
Definition onPathMid (cr : CR) (offset : R) (isHorizontal : bool) : R :=
  (if negb isHorizontal
   then py (finalPosition cr) + (py (advance cr) * rhalf) + offset
   else px (finalPosition cr) + (px (advance cr) * rhalf) + offset)%qr.

(** [x] lies outside the interval from [lo] to [hi]. *)
Definition outsideInterval (lo hi x : R) : bool := ((x <? lo) || (x >? hi))%qr.

(** [textLength] is unset on the run and on every run below it. *)
Fixpoint textLengthUnset (shape : @KoShape R) : bool :=
  match shape with
  | OtherShape => true
  | TextChunkShape _ textLength _ shapes =>
      isAuto textLength && forallb textLengthUnset shapes
  end.

(** The face has a native italic style. *)
Definition nativeItalic (style_flags : Z) : Prop :=
  Z.land style_flags FT_STYLE_FLAG_ITALIC ≠ 0%Z.



(** The collaborators with raqm replaced: [set_text] for
    [raqm_set_text_utf16] and [get_glyphs] for the glyph array. *)
Definition withShaper {Tree Shape Glyph : Type}
    (env : @Collaborators R Path Image Brush Tree Shape Glyph)
    (set_text : list QChar -> bool)
    (get_glyphs : TextRendering -> Z -> Props -> list QChar -> list (@SubChunk R) ->
                  option (list Glyph))
    : @Collaborators R Path Image Brush Tree Shape Glyph :=
  mkCollaborators (clearAssociatedOutlines env) (textProperties env) (textWrap env)
    (lineBreakStrictness env) (collectSubChunks env) (collapseSpaces env)
    (collapseLastSpace_ env) (characterCanHang_ env) (set_linebreaks_utf16 env)
    (set_graphemebreaks_utf16 env) (justificationOpportunities env)
    set_text get_glyphs
    (placeGlyphs env) (resolveTransforms env) (absolutePos env) (hasRelativeOffset env)
    (relativeOffset env) (startsNewChunk env) (getShapes env) (computeFontMetrics env)
    (rootShape env) (applyAnchoring env) (computeTextDecorations env) (applyTextPath env)
    (addCharacterRects env).

(** The per-character results as the setup loop of [relayout] leaves
    them, and the tab sizes: set up from the text handed to raqm and the
    break classes of libunibreak. *)
Definition setupOf {Tree Shape Glyph : Type}
    (env : @Collaborators R Path Image Brush Tree Shape Glyph) (MUST ALLOW GB : Z)
    (tree_ : Tree) : list CR * gmap nat (@TabSizeInfo R) :=
  let '(graphemeBreaks, justify) :=
    match fst (collectedText env tree_) with
    | [] => ([], [])
    | text => (set_graphemebreaks_utf16 env tree_ text,
               justificationOpportunities env tree_ text)
    end in
  setupResult MUST ALLOW GB (collapseLastSpace_ env tree_) (characterCanHang_ env)
    (textWrap env tree_) (lineBreakStrictness env tree_)
    (shapedText env MUST tree_) (lineBreaksOf env tree_) graphemeBreaks justify
    (raqm_set_text_utf16 env (shapedText env MUST tree_)) (collectSubChunks env tree_).

(** What [relayout] hands to line breaking when raqm has returned
    [glyphs]: the results of the setup loop, filled in by the glyph
    loop and with the middles of clusters marked, and the map of the
    glyphs. *)
Definition lineBreakingInput {Tree Shape Glyph : Type}
    (env : @Collaborators R Path Image Brush Tree Shape Glyph) (MUST ALLOW GB : Z)
    (self : @KoSvgTextShape R Path Image Brush Tree Shape) (glyphs : list Glyph)
    : list CR * gmap nat Z :=
  let tree_ := clearAssociatedOutlines env (tree self) in
  let properties := textProperties env tree_ in
  let isHorizontal := bool_decide (WritingModeId properties = HorizontalTB) in
  let placed :=
    placeGlyphs env (textRendering (d self)) (Z.min (xRes (d self)) (yRes (d self)))
      isHorizontal glyphs (snd (collectedText env tree_))
      (snd (setupOf env MUST ALLOW GB tree_)) (fst (setupOf env MUST ALLOW GB tree_)) in
  (markMiddle (fst placed), snd placed).

(** The line breaking of [relayout] on [input]: shape flowing when the
    text has shapes to flow in, simple line breaking from the start
    position otherwise. *)
Definition lineBreakingOf {Tree Shape Glyph : Type}
    (env : @Collaborators R Path Image Brush Tree Shape Glyph) (MUST : Z)
    (self : @KoSvgTextShape R Path Image Brush Tree Shape)
    (input : list CR * gmap nat Z) : list LB * list CR :=
  let tree_ := clearAssociatedOutlines env (tree self) in
  let properties := textProperties env tree_ in
  let isHorizontal := bool_decide (WritingModeId properties = HorizontalTB) in
  let resolvedTransforms :=
    resolveTransforms env tree_ isHorizontal (snd (collectedText env tree_))
      (length (shapedText env MUST tree_)) in
  let startPos :=
    absolutePos env
      (nth 0 resolvedTransforms (mkCharTransformation None None None None None)) in
  match shapesInside (d self) with
  | _ :: _ =>
      flowTextInShapes properties (snd input) (fst input)
        (getShapes env (shapesInside (d self)) (shapesSubtract (d self)) properties)
  | [] => breakLines properties startPos (snd input) (fst input)
  end.

(** The glyph loop keeps the number of characters and the break class of
    each. *)
Definition glyphLoopKeepsBreaks {Tree Shape Glyph : Type}
    (env : @Collaborators R Path Image Brush Tree Shape Glyph) : Prop :=
  forall textRendering_ finalRes isHorizontal glyphs collapseChars tabSizeInfo result,
    length (fst (placeGlyphs env textRendering_ finalRes isHorizontal glyphs collapseChars
                   tabSizeInfo result))
    = length result
    /\ forall k,
         breakType (at_ (fst (placeGlyphs env textRendering_ finalRes isHorizontal glyphs
                                collapseChars tabSizeInfo result)) k)
         = breakType (at_ result k).

(** The lengths of the faces of a sub chunk add up to the size of its
    text, as the font registry returns them. *)
Definition facesCover (chunk_ : @SubChunk R) : Prop :=
  sum_list (map fst (sc_faces chunk_)) = sc_size chunk_.

(** The sizes of the texts of the sub chunks together. *)
Definition chunksSize (textChunks : list (@SubChunk R)) : nat :=
  sum_list (map sc_size textChunks).

(** The word box as [getFirstPosition] tries it: normalized, with its
    top left corner moved to the origin. *)
Definition wordAtOrigin (wordBox : QRectF R) : QRectF R :=
  rect_translated (rect_normalized wordBox) (pneg (topLeft wordBox)).

(** No translate of the word box lies inside the shape. *)
Definition fitsNowhere (p : Path) (wordBox : QRectF R) : Prop :=
  forall q : QPointF R,
    path_containsRect p (rect_translated (wordAtOrigin wordBox) q) = false.

(** The state of [flowTextInShapes] when the search for a new line
    starts: a current line that holds characters has been finalized and
    appended to the line boxes. *)
Definition closeLine (properties : Props) (s : FS) : FS :=
  if negb (isEmpty (fs_currentLine s)) then
    let s := flow_finalizeAndAppend properties s in
    mkFlowState (fs_result s) (fs_lineBoxes s) (fs_currentLine s) (fs_wordIndices s)
      (fs_wordBox s) (fs_wordAdvance s) false false
      (fs_currentPos s) (fs_lineOffset s) (fs_textIndent s) (fs_shapesIt s)
      (fs_currentShape s)
  else s.

(** The word box the search works with, as [getEstimatedHeight] leaves it. *)
Definition seekWordBox (properties : Props) (index : nat) (s : FS) : QRectF R :=
  let s := closeLine properties s in
  getEstimatedHeight (fs_result s) index (fs_wordBox s)
    (path_boundingRect (fs_currentShape s)) (WritingModeId properties).

(** The first attempt of the search: the first chunk longer than the
    word among the chunks found in the current shape at the current
    position, if the shape is not empty. *)
Definition firstTry (properties : Props) (index : nat) (s : FS) : option Z :=
  let wordBox := seekWordBox properties index s in
  let s := closeLine properties s in
  let writingMode := WritingModeId properties in
  let indentLine := fs_indentLine s in
  let ind := if hanging (TextIndentId properties) then negb indentLine else indentLine in
  let indent := if ind then fs_textIndent s else QPointF0 in
  if negb (path_isEmpty (fs_currentShape s)) then
    let currentPos :=
      psub (fs_currentPos s)
           (if bool_decide (writingMode = VerticalRL) then topRight wordBox
            else topLeft wordBox) in
    let currentLine :=
      LineBox_of_lines
        (findLineBoxesForFirstPos (fs_currentShape s) currentPos wordBox writingMode)
        (bool_decide (DirectionId properties = DirectionLeftToRight)) indent in
    firstLongerChunk
      (if bool_decide (writingMode = HorizontalTB)
       then rect_width wordBox else rect_height wordBox)
      (chunks currentLine) 0%Z
  else None.

(** The state the loop over the shapes starts in when the first attempt
    has failed: at the current position, moved by the corner of the word
    box when there is a current shape. *)
Definition seekStart (properties : Props) (index : nat) (s : FS) : SeekState :=
  let wordBox := seekWordBox properties index s in
  let s := closeLine properties s in
  let writingMode := WritingModeId properties in
  let indentLine := fs_indentLine s in
  let ind := if hanging (TextIndentId properties) then negb indentLine else indentLine in
  let indent := if ind then fs_textIndent s else QPointF0 in
  let currentPos :=
    if negb (path_isEmpty (fs_currentShape s)) then
      psub (fs_currentPos s)
           (if bool_decide (writingMode = VerticalRL) then topRight wordBox
            else topLeft wordBox)
    else fs_currentPos s in
  mkSeekState currentPos (fs_lineOffset s) (fs_textIndent s) indent (fs_shapesIt s)
    (fs_currentShape s).

(** Whether the search finds a line for the word, the [foundFirst] of
    the source: the first attempt finds a chunk longer than the word,
    or [getFirstPosition] finds a position for the word box in the
    current shape or in one of the shapes left. *)
Definition lineFound (properties : Props) (index : nat) (s : FS) : bool :=
  match firstTry properties index s with
  | Some _ => true
  | None =>
      fst (seekFirstPosition properties (seekWordBox properties index s)
             (fs_indentLine (closeLine properties s))
             (fs_shapesIt (closeLine properties s))
             (seekStart properties index s))
  end.

(** The two ways the search for a new line ends, from the state [s] it
    starts in to the state [s'] it leaves.  Hidden: the current line is
    the empty line box, and every character of the word is hidden; the
    word stays pending. *)
Definition wordHidden (s s' : FS) : Prop :=
  fs_currentLine s' = LineBox0
  /\ fs_wordIndices s' = fs_wordIndices s
  /\ fs_lineBoxes s' = fs_lineBoxes s
  /\ forall j, j ∈ fs_wordIndices s -> (j < length (fs_result s))%nat ->
       hidden (at_ (fs_result s') j) = true.

(** Placed: the whole word is at the end of one chunk of the current
    line, whatever the length of the chunk, and no character is hidden
    that was not, but the first of the word when it collapses at the
    start of a line. *)
Definition wordPlaced (s s' : FS) : Prop :=
  fs_wordIndices s' = []
  /\ fs_lineBoxes s' = fs_lineBoxes s
  /\ (exists c before, c ∈ chunks (fs_currentLine s')
                       /\ chunkIndices c = before ++ fs_wordIndices s)
  /\ forall j, hidden (at_ (fs_result s') j) = hidden (at_ (fs_result s) j)
               \/ (lineStart (at_ (fs_result s) j) = Collapse
                   /\ is_first j (fs_wordIndices s) = true).

(** The current chunk of a line is one of its chunks, or stands where
    the next chunk is appended; only a line without chunks has none. *)
Definition wf_line (lb : LB) : Prop :=
  (-1 <= currentChunk lb <= Z.of_nat (length (chunks lb)))%Z
  /\ (currentChunk lb = (-1)%Z -> chunks lb = []).

(** A line that holds characters holds some in its current chunk, so
    [isEmpty] does not take it for empty. *)
Definition line_ok (lb : LB) : Prop :=
  wf_line lb /\ (lineIndicesOf lb ≠ [] -> isEmpty lb = false).

(** The characters [flowTextInShapes] has put in chunks so far. *)
Definition fplaced (s : FS) : list nat :=
  allChunkIndices (fs_lineBoxes s) ++ lineIndicesOf (fs_currentLine s).

(** What holds between the iterations of [flowTextInShapes], with
    [result0] the characters on entry and [seen] the addressable
    characters taken so far: each is in a chunk or in the pending word,
    and no other character was touched. *)
Definition flowInv (result0 : list CR) (seen : list nat) (s : FS) : Prop :=
  line_ok (fs_currentLine s)
  /\ fplaced s ++ fs_wordIndices s ≡ₚ seen
  /\ unchanged_outside seen result0 (fs_result s)
  /\ length (fs_result s) = length result0.

(** The loop of [flowTextInShapes] over characters that are not the
    last: each of them has a next one. *)
Definition flow_loop_open (properties : Props) (keys : list nat) (s : FS) : FS :=
  fold_left (fun s index => flow_step properties index true s) keys s.

(** The state in which the search for a line starts at the last shaped
    character [k], after the shaped characters [before]: the loop has
    run over [before], and [k] has joined the word, which was tried on
    the chunks of the current line. *)
Definition flow_lastWord (properties : Props) (result : list CR) (shape0 : Path)
    (shapes : list Path) (before : list nat) (k : nat) : FS :=
  let s := flow_loop_open properties before (flow_init properties result shape0 shapes) in
  fst (flow_wordBlock properties k false (at_ (fs_result s) k) s).

(** The characters of the pending word are hidden. *)
Definition pendingHidden (s : FS) : Prop :=
  forall j, j ∈ fs_wordIndices s -> (j < length (fs_result s))%nat ->
    hidden (at_ (fs_result s) j) = true.

(** The number of hard breaks among the characters [keys]. *)
Definition hardBreaks (result : list CR) (keys : list nat) : nat :=
  length (filter (fun k => breakType (at_ result k) = HardBreak) keys).

(** What [breakLines] keeps between its steps: the current line and the
    finished ones have one chunk each, and [result] has [n] characters. *)
Definition oneChunkEach (n : nat) (s : BS) : Prop :=
  single (bs_currentLine s)
  /\ Forall single (bs_lineBoxes s)
  /\ length (bs_result s) = n.

(** A character that has a glyph of its own after shaping. *)
Definition hasGlyph (cr : CR) : bool :=
  addressable cr && bool_decide (visualIndex cr ≠ (-1)%Z).

(** What the marking loop has established when it reaches index [k]. *)
Definition markInv (result0 : list CR) (k : nat) (st : list CR * nat * bool) : Prop :=
  length (fst (fst st)) = length result0
  /\ forall i,
       visualIndex (at_ (fst (fst st)) i) = visualIndex (at_ result0 i)
       /\ ((i < k)%nat ->
           addressable (at_ (fst (fst st)) i) = hasGlyph (at_ result0 i)
           /\ middle (at_ (fst (fst st)) i)
              = middle (at_ result0 i) || negb (hasGlyph (at_ result0 i)))
       /\ ((k <= i)%nat ->
           addressable (at_ (fst (fst st)) i) = addressable (at_ result0 i)
           /\ middle (at_ (fst (fst st)) i) = middle (at_ result0 i)).


(** Character [i] starts an anchored chunk, has no glyph of its own, and
    no character after it and before [k] has one. *)
Definition anchorPending (result0 : list CR) (i k : nat) : Prop :=
  (i < k)%nat
  /\ anchored_chunk (at_ result0 i) = true
  /\ hasGlyph (at_ result0 i) = false
  /\ forall m, (i < m < k)%nat -> hasGlyph (at_ result0 m) = false.

(** What the marking loop has established about anchored chunks when it
    reaches index [k]. *)
Definition anchorInv (result0 : list CR) (k : nat) (st : list CR * nat * bool) : Prop :=
  (forall i, anchored_chunk (at_ result0 i) = true ->
             anchored_chunk (at_ (fst (fst st)) i) = true)
  /\ (forall i, (k <= i)%nat ->
                anchored_chunk (at_ (fst (fst st)) i) = anchored_chunk (at_ result0 i))
  /\ ((exists i, anchorPending result0 i k) -> snd st = true)
  /\ (forall i j, (j < k)%nat -> anchorPending result0 i j ->
                  hasGlyph (at_ result0 j) = true ->
                  anchored_chunk (at_ (fst (fst st)) j) = true).

(** The characters of [back] collapsed one after the other, as the loop
    of [handleCollapseAndHang] does while it walks backwards. *)
Definition collapseAll (back : list nat) (result : list CR) : list CR :=
  fold_left (fun res k => upd k (set_hidden true) (upd k (set_addressable false) res))
    back result.

(** No run of the tree asks for its glyphs to be stretched: wherever
    [textLength] is set, [lengthAdjust] is [spacing]. *)
Fixpoint spacingOnly (shape : @KoShape R) : bool :=
  match shape with
  | OtherShape => true
  | TextChunkShape _ textLength lengthAdjust shapes =>
      (isAuto textLength || bool_decide (lengthAdjust = LengthAdjustSpacing))
      && forallb spacingOnly shapes
  end.

(** A character with its final position and its [textLengthApplied] flag
    blanked, and with its outline, advance and bounding box blanked as
    well: two characters that agree after blanking differ in the blanked
    fields only. *)
Definition blankPosition (cr : CR) : CR :=
  set_finalPosition QPointF0 (set_textLengthApplied false cr).

Definition blankGlyph (cr : CR) : CR :=
  set_boundingBox QRectF0 (set_advance QPointF0 (set_path path_null (blankPosition cr))).

(** [result'] has the length of [result] and its characters agree with
    those of [result] under [N]. *)
Definition keepsN {X : Type} (N : CR -> X) (result result' : list CR) : Prop :=
  length result' = length result
  /\ forall k, N (at_ result' k) = N (at_ result k).


(** Character [m] is addressable and starts an anchored chunk: the loop
    of [applyAnchoring] ends a chunk in front of it. *)
Definition chunkStart (result : list CR) (m : nat) : bool :=
  addressable (at_ result m) && anchored_chunk (at_ result m).

(** A character moved by [shiftP]. *)
Definition shiftBy (shiftP : QPointF R) (cr : CR) : CR :=
  set_finalPosition (padd (finalPosition cr) shiftP) cr.

(** A character with its final position blanked. *)
Definition blankFinal (cr : CR) : CR := set_finalPosition QPointF0 cr.

(** What the loop of [applyAnchoring] has established when the chunk
    that starts at [start] is next: the characters from [start] on are
    untouched, [start] is the first character of a chunk, only final
    positions have changed, and two characters with no start of a chunk
    between them have moved by the same vector. *)
Definition anchoringInv (result : list CR) (start : nat) (cur : list CR) : Prop :=
  length cur = length result
  /\ (start <= length result)%nat
  /\ (start = 0%nat \/ start = length result \/ chunkStart result start = true)
  /\ (forall k, (start <= k)%nat -> at_ cur k = at_ result k)
  /\ (forall k, blankFinal (at_ cur k) = blankFinal (at_ result k))
  /\ (forall j1 j2, (j1 <= j2 < start)%nat ->
        (forall m, (j1 < m <= j2)%nat -> chunkStart result m = false) ->
        exists shiftP,
          finalPosition (at_ cur j1) = padd (finalPosition (at_ result j1)) shiftP
          /\ finalPosition (at_ cur j2) = padd (finalPosition (at_ result j2)) shiftP).

(** What the loop of [NodeSnapStrategy::snap] has established after the
    points [seen]: without a minimum nothing was in range and the
    snapped point is still the mouse position; with one it is the
    square distance of the snapped point, which was seen and is in
    range, and, when [<] is a strict order, no point in range is
    closer. *)
Definition snapInv (mousePosition : QPointF R) (maxDistance : R)
    (seen : list (QPointF R)) (st : QPointF R * option R) : Prop :=
  match snd st with
  | None =>
      fst st = mousePosition
      /\ forall p, p ∈ seen ->
           (NodeSnapStrategy.squareDistance mousePosition p <? maxDistance)%qr = false
  | Some m =>
      fst st ∈ seen
      /\ m = NodeSnapStrategy.squareDistance mousePosition (fst st)
      /\ (m <? maxDistance)%qr = true
      /\ ((forall x : R, (x <? x)%qr = false) ->
          (forall x y z : R, (x <? y)%qr = true -> (y <? z)%qr = true -> (x <? z)%qr = true) ->
          forall p, p ∈ seen ->
            (NodeSnapStrategy.squareDistance mousePosition p <? maxDistance)%qr = true ->
            (NodeSnapStrategy.squareDistance mousePosition p <? m)%qr = false)
  end.

(** A character with what the line engines write blanked: the CSS and
    the final position and the flags [hidden], [addressable],
    [anchored_chunk] and [isHanging]. *)
Definition blankLayout (cr : CR) : CR :=
  set_cssPosition QPointF0
    (set_finalPosition QPointF0
       (set_hidden false
          (set_addressable false
             (set_anchored_chunk false (set_isHanging false cr))))).

(** What the loops of [OrthogonalSnapStrategy::snap] have established
    for one axis after the points [seen], with [dist] the distance of a
    point to the mouse along the axis: without a minimum no point was
    in range; with one it is the distance of the point kept for the
    axis, which was seen and is in range. *)
Definition axisInv (dist : QPointF R -> R) (maxSnapDistance : R)
    (seen : list (QPointF R)) (kept : QPointF R) (min : option R) : Prop :=
  match min with
  | None => forall p, p ∈ seen -> (dist p <? maxSnapDistance)%qr = false
  | Some m => kept ∈ seen /\ m = dist kept /\ (m <? maxSnapDistance)%qr = true
  end.

(** One of [points] is closer than [maxSnapDistance], by [dist]. *)
Definition inRange (dist : QPointF R -> R) (maxSnapDistance : R)
    (points : list (QPointF R)) : Prop :=
  exists p, p ∈ points /\ (dist p <? maxSnapDistance)%qr = true.

End Vocabulary.

(** * Properties *)

Ltac bs_simpl :=
  cbn [bs_result bs_lineBoxes bs_currentLine bs_wordIndices bs_wordAdvance
       bs_currentPos bs_lineOffset fst snd] in *.

Section Properties.
Context {R Path Image Brush : Type} `{!QReal R} `{!QtPaint R Path Image Brush}.

Local Abbreviation CR := (@CharacterResult R Path Image Brush).
Local Abbreviation LB := (@LineBox R).
Local Abbreviation BS := (@BreakState R Path Image Brush).
Local Abbreviation FS := (@FlowState R Path Image Brush).
Local Abbreviation Props := (@KoSvgTextProperties R).

(** ** Reading and writing [result] *)

Lemma at_insert_ne (result : list CR) (j k : nat) (x : CR) :
  k ≠ j -> at_ (<[j := x]> result) k = at_ result k.
Proof.
  intros Hne. unfold at_. rewrite !nth_lookup.
  by rewrite list_lookup_insert_ne.
Qed.

Lemma at_insert_eq (result : list CR) (j : nat) (x : CR) :
  (j < length result)%nat -> at_ (<[j := x]> result) j = x.
Proof.
  intros Hlt. unfold at_. rewrite nth_lookup.
  by rewrite list_lookup_insert_eq.
Qed.

Lemma at_upd_ne (result : list CR) (j k : nat) (f : CR -> CR) :
  k ≠ j -> at_ (upd j f result) k = at_ result k.
Proof. apply at_insert_ne. Qed.

Lemma at_upd_eq (result : list CR) (j : nat) (f : CR -> CR) :
  (j < length result)%nat -> at_ (upd j f result) j = f (at_ result j).
Proof. apply at_insert_eq. Qed.

Lemma at_upd_oob (result : list CR) (j k : nat) (f : CR -> CR) :
  (length result <= j)%nat -> at_ (upd j f result) k = at_ result k.
Proof. intros Hge. unfold upd. by rewrite list_insert_ge. Qed.

Lemma length_upd (result : list CR) (j : nat) (f : CR -> CR) :
  length (upd j f result) = length result.
Proof. apply length_insert. Qed.

(** A property of characters that the update [f] keeps is kept by
    [upd j f] at every index. *)
Lemma at_upd_keeps {A} (proj : CR -> A) (result : list CR) (j k : nat) (f : CR -> CR) :
  (forall c, proj (f c) = proj c) ->
  proj (at_ (upd j f result) k) = proj (at_ result k).
Proof.
  intros Hf. destruct (decide (k = j)) as [->|Hne].
  - destruct (decide (j < length result)%nat).
    + by rewrite at_upd_eq.
    + rewrite at_upd_oob; [done | lia].
  - by rewrite at_upd_ne.
Qed.

Lemma unchanged_refl l result : unchanged_outside l result result.
Proof. by intros k _. Qed.

Lemma unchanged_trans l r1 r2 r3 :
  unchanged_outside l r1 r2 -> unchanged_outside l r2 r3 -> unchanged_outside l r1 r3.
Proof. intros H12 H23 k Hk. rewrite H23, H12; done. Qed.

Lemma unchanged_mono l l' r1 r2 :
  l ⊆ l' -> unchanged_outside l r1 r2 -> unchanged_outside l' r1 r2.
Proof. intros Hsub H k Hk. apply H. intros Hin. apply Hk, Hsub, Hin. Qed.

Lemma unchanged_upd l result j f :
  j ∈ l -> unchanged_outside l result (upd j f result).
Proof.
  intros Hj k Hk. apply at_upd_ne. intros ->. by apply Hk.
Qed.

Lemma unchanged_insert l (result : list CR) j x :
  j ∈ l -> unchanged_outside l result (<[j := x]> result).
Proof.
  intros Hj k Hk. apply at_insert_ne. intros ->. by apply Hk.
Qed.

(** A loop whose every step leaves [result] unchanged outside [l] does so
    as a whole. *)
Lemma unchanged_fold_left {S A} (get : S -> list CR) (step : S -> A -> S)
    (l : list nat) (visit : list A) :
  (forall s j, j ∈ visit -> unchanged_outside l (get s) (get (step s j))) ->
  forall s, unchanged_outside l (get s) (get (fold_left step visit s)).
Proof.
  induction visit as [|j visit IH]; intros Hstep s; simpl.
  - apply unchanged_refl.
  - eapply unchanged_trans.
    + apply (Hstep s j). by left.
    + apply IH. intros s' x Hx. apply Hstep. by right.
Qed.


(** ** [addWordToLine] *)


Lemma same_chunks_refl (a : LB) : same_chunks a a.
Proof. by repeat split. Qed.

Lemma same_chunks_trans (a b c : LB) :
  same_chunks a b -> same_chunks b c -> same_chunks a c.
Proof. intros (?&?&?) (?&?&?). repeat split; congruence. Qed.

Lemma same_chunks_lineIndicesOf (a b : LB) :
  same_chunks a b -> lineIndicesOf a = lineIndicesOf b.
Proof. intros (Hc&_&_). unfold lineIndicesOf. by rewrite Hc. Qed.

Lemma addWordToLine_step_spec (wordIndices : list nat) (ltr : bool)
    (s : WordState) (j : nat) :
  let s' := addWordToLine_step wordIndices ltr s j in
  same_chunks (ws_line s) (ws_line s')
  /\ chunkIndices (ws_chunk s') = chunkIndices (ws_chunk s)
  /\ chunkLength (ws_chunk s') = chunkLength (ws_chunk s)
  /\ unchanged_outside [j] (ws_result s) (ws_result s').
Proof.
  unfold addWordToLine_step.
  repeat case_match; simpl; repeat split; try done;
    try (apply unchanged_upd; by left);
    try (apply unchanged_insert; by left).
Qed.

Lemma addWordToLine_fold_spec (wordIndices : list nat) (ltr : bool) (visit : list nat)
    (s : WordState) :
  let s' := fold_left (addWordToLine_step wordIndices ltr) visit s in
  same_chunks (ws_line s) (ws_line s')
  /\ chunkIndices (ws_chunk s') = chunkIndices (ws_chunk s)
  /\ chunkLength (ws_chunk s') = chunkLength (ws_chunk s)
  /\ unchanged_outside visit (ws_result s) (ws_result s').
Proof.
  revert s. induction visit as [|j visit IH]; intros s; simpl.
  - by repeat split.
  - destruct (addWordToLine_step_spec wordIndices ltr s j) as (H1 & H2 & H3 & H4).
    destruct (IH (addWordToLine_step wordIndices ltr s j)) as (I1 & I2 & I3 & I4).
    split; [|split; [|split]].
    + eapply same_chunks_trans; eauto.
    + congruence.
    + congruence.
    + eapply unchanged_trans.
      * eapply unchanged_mono; [|exact H4].
        intros x Hx. apply list_elem_of_singleton in Hx as ->. by left.
      * eapply unchanged_mono; [|exact I4]. intros x Hx. by right.
Qed.

(** What [setCurrentChunk] does to the chunks of a line. *)
Lemma setCurrentChunk_spec (c : LineChunk) (lb : LB) :
  let cur := Z.max (currentChunk lb) 0 in
  currentChunk (setCurrentChunk c lb) = cur
  /\ lastLine (setCurrentChunk c lb) = lastLine lb
  /\ chunks (setCurrentChunk c lb)
     = if (cur <? Z.of_nat (length (chunks lb)))%Z
       then <[Z.to_nat cur := c]> (chunks lb)
       else chunks lb ++ [c].
Proof.
  unfold setCurrentChunk. simpl. case_match; simpl; done.
Qed.

Lemma setCurrentChunk_elem (c : LineChunk) (lb : LB) :
  c ∈ chunks (setCurrentChunk c lb).
Proof.
  destruct (setCurrentChunk_spec c lb) as (_ & _ & ->).
  case_match eqn:Hlt.
  - apply Z.ltb_lt in Hlt.
    apply list_elem_of_lookup. exists (Z.to_nat (Z.max (currentChunk lb) 0)).
    apply list_lookup_insert_eq. lia.
  - apply elem_of_app. right. by left.
Qed.

Lemma elem_of_concat {A} (x : A) (ls : list (list A)) :
  x ∈ concat ls <-> exists l, l ∈ ls /\ x ∈ l.
Proof.
  rewrite list_elem_of_In, in_concat. split.
  - intros (l & Hl & Hx). exists l. by rewrite !list_elem_of_In.
  - intros (l & Hl & Hx). exists l. by rewrite <- !list_elem_of_In.
Qed.

Lemma elem_of_map {A B} (f : A -> B) (l : list A) (x : A) :
  x ∈ l -> f x ∈ map f l.
Proof. rewrite !list_elem_of_In. apply in_map. Qed.

Lemma elem_of_lineIndicesOf (lb : LB) (c : LineChunk) (j : nat) :
  c ∈ chunks lb -> j ∈ chunkIndices c -> j ∈ lineIndicesOf lb.
Proof.
  intros Hc Hj. unfold lineIndicesOf. apply elem_of_concat.
  exists (chunkIndices c). split; [|done]. by apply elem_of_map.
Qed.

(** [addWordToLine]: the word is cleared, it is now part of the line, and
    only its own characters were touched. *)
Lemma addWordToLine_spec (result : list CR) (currentPos : QPointF R)
    (wordIndices : list nat) (currentLine : LB) (ltr : bool) :
  match addWordToLine result currentPos wordIndices currentLine ltr with
  | (result', _, wordIndices', currentLine') =>
      wordIndices' = []
      /\ unchanged_outside wordIndices result result'
      /\ lastLine currentLine' = lastLine currentLine
      /\ (exists c, chunkIndices c = chunkIndices (chunk currentLine) ++ wordIndices
                    /\ chunkLength c = chunkLength (chunk currentLine)
                    /\ chunks currentLine' = chunks (setCurrentChunk c currentLine)
                    /\ currentChunk currentLine'
                       = currentChunk (setCurrentChunk c currentLine))
      /\ (forall j, j ∈ wordIndices -> j ∈ lineIndicesOf currentLine')
  end.
Proof.
  unfold addWordToLine.
  destruct (addWordToLine_fold_spec wordIndices ltr wordIndices
              (mkWordState result currentPos currentPos (chunk currentLine) currentLine))
    as (Hsame & Hidx & Hlen & Hres).
  simpl in *.
  set (s := fold_left _ _ _) in *.
  split; [done|]. split; [done|].
  destruct Hsame as (Hc & Hcur & Hlast).
  split.
  { destruct (setCurrentChunk_spec
                (mkLineChunk (chunkLength (ws_chunk s)) (chunkIndices (ws_chunk s) ++ wordIndices)
                             (chunkBoundingBox (ws_chunk s))) (ws_line s)) as (_ & -> & _).
    done. }
  split.
  { exists (mkLineChunk (chunkLength (ws_chunk s))
                         (chunkIndices (ws_chunk s) ++ wordIndices)
                         (chunkBoundingBox (ws_chunk s))).
    split; [simpl; by rewrite Hidx|]. split; [simpl; by rewrite Hlen|].
    unfold setCurrentChunk. simpl. rewrite <- Hc, <- Hcur.
    split; case_match; done. }
  intros j Hj. eapply elem_of_lineIndicesOf.
  - apply setCurrentChunk_elem.
  - simpl. apply elem_of_app. by right.
Qed.


(** ** [finalizeLine] *)

Lemma handleCollapseAndHang_loop_unchanged (endPos : QPointF R) (inlineSize ltr atEnd : bool)
    (backwards : list nat) (result : list CR) :
  unchanged_outside backwards result
    (handleCollapseAndHang_loop endPos inlineSize ltr atEnd backwards result).
Proof.
  revert result. induction backwards as [|j more IH]; intros result; simpl.
  - apply unchanged_refl.
  - set (result' := if bool_decide (lineEnd (at_ result j) = Collapse) then _ else _).
    assert (Hstep : unchanged_outside (j :: more) result result').
    { subst result'. repeat case_match;
        repeat (first [ apply unchanged_refl
                      | eapply unchanged_trans; [|apply unchanged_upd; by left] ]). }
    case_match.
    + done.
    + eapply unchanged_trans; [exact Hstep|].
      eapply unchanged_mono; [|apply IH]. intros x Hx. by right.
Qed.

Lemma handleCollapseAndHang_unchanged (result : list CR) (chunk_ : LineChunk)
    (inlineSize ltr atEnd : bool) :
  unchanged_outside (chunkIndices chunk_) result
    (handleCollapseAndHang result chunk_ inlineSize ltr atEnd).
Proof.
  unfold handleCollapseAndHang.
  eapply unchanged_mono; [|apply handleCollapseAndHang_loop_unchanged].
  intros x Hx. apply list_elem_of_In. apply list_elem_of_In in Hx. by apply in_rev.
Qed.

Lemma applyInlineSizeAnchoring_unchanged (result : list CR) (chunk_ : LineChunk)
    (anchor_ : TextAnchor) (anchorPoint : QPointF R) (ltr isHorizontal : bool)
    (textIndent_ : QPointF R) :
  unchanged_outside (chunkIndices chunk_) result
    (applyInlineSizeAnchoring result chunk_ anchor_ anchorPoint ltr isHorizontal textIndent_).
Proof.
  unfold applyInlineSizeAnchoring.
  repeat case_match;
    (apply (unchanged_fold_left (fun r => r)); intros s j Hj;
     repeat case_match;
     repeat (first [ apply unchanged_refl
                   | eapply unchanged_trans; [|apply unchanged_upd; exact Hj] ])).
Qed.

(** The values of the local map [visualToLogical] are characters of the
    chunk. *)
Lemma visualToLogical_values (f : nat -> Z) (l : list nat) (m0 : gmap Z nat) (k : Z) (v : nat) :
  fold_left (fun m j => <[f j := j]> m) l m0 !! k = Some v ->
  v ∈ l \/ m0 !! k = Some v.
Proof.
  revert m0. induction l as [|j l IH]; intros m0 Hk; simpl in *.
  - by right.
  - apply IH in Hk as [Hin | Hk].
    + left. by right.
    + apply lookup_insert_Some in Hk as [[_ <-] | [_ Hk]].
      * left. by left.
      * by right.
Qed.

Lemma QMap_values_elem `{Countable K} {V} (le : relation K) `{!RelDecision le}
    (m : gmap K V) (v : V) :
  v ∈ QMap_values le m -> exists k, m !! k = Some v.
Proof.
  unfold QMap_values. intros Hv. apply list_elem_of_omap in Hv as (k & _ & Hk). eauto.
Qed.

Lemma finalizeChunk_unchanged (currentLine : LB) (lineOffset : QPointF R)
    (anchor_ : TextAnchor) (ltr isHorizontal inlineSize textInShape : bool)
    (st : list CR * QPointF R) (c : LineChunk) :
  unchanged_outside (chunkIndices c) (fst st)
    (fst (finalizeChunk currentLine lineOffset anchor_ ltr isHorizontal inlineSize
                        textInShape st c)).
Proof.
  destruct st as [result pos0]. unfold finalizeChunk. simpl.
  set (v2l := fold_left _ (chunkIndices c) ∅).
  set (result1 := handleCollapseAndHang _ _ _ _ _).
  set (justifyOffset := if justifyLine currentLine then _ else _).
  set (posLoop := fold_left _ (QMap_values Z.le v2l) (result1, lineOffset)).
  assert (H1 : unchanged_outside (chunkIndices c) result result1)
    by apply handleCollapseAndHang_unchanged.
  assert (H2 : unchanged_outside (chunkIndices c) result1 (fst posLoop)).
  { subst posLoop.
    apply (unchanged_fold_left (S:=list CR * QPointF R) fst).
    intros [res pos] j Hj. simpl.
    assert (Hin : j ∈ chunkIndices c).
    { apply QMap_values_elem in Hj as (k & Hk).
      apply visualToLogical_values in Hk as [Hin | Hk]; [done|].
      by rewrite lookup_empty in Hk. }
    case_match; simpl; [apply unchanged_refl|].
    eapply unchanged_trans; [apply unchanged_upd; exact Hin|].
    apply unchanged_upd; exact Hin. }
  destruct posLoop as [result2 pos2]. simpl in *.
  case_match; simpl.
  - eapply unchanged_trans; [exact H1|]. eapply unchanged_trans; [exact H2|].
    apply applyInlineSizeAnchoring_unchanged.
  - eapply unchanged_trans; eauto.
Qed.

Lemma lineHeightOffset_spec (writingMode : WritingMode) (result : list CR)
    (currentLine : LB) (firstLine_ : bool) :
  match lineHeightOffset writingMode result currentLine firstLine_ with
  | (_, result', currentLine') =>
      same_chunks currentLine currentLine'
      /\ unchanged_outside (lineIndicesOf currentLine) result result'
  end.
Proof.
  unfold lineHeightOffset.
  destruct (chunks currentLine) as [|c0 rest] eqn:Hchunks.
  - split; [apply same_chunks_refl | apply unchanged_refl].
  - set (line1 := if _ && _ && _ then _ else currentLine).
    assert (Hs1 : same_chunks currentLine line1).
    { subst line1. repeat case_match; by repeat split. }
    assert (Hidx : forall lb : LB, same_chunks currentLine lb ->
              forall (f : list CR -> nat -> list CR),
                (forall res j, j ∈ lineIndicesOf currentLine ->
                               unchanged_outside (lineIndicesOf currentLine) res (f res j)) ->
                unchanged_outside (lineIndicesOf currentLine) result
                  (fold_left f (lineIndicesOf lb) result)).
    { intros lb Hlb f Hf. rewrite <- (same_chunks_lineIndicesOf _ _ Hlb).
      apply (unchanged_fold_left (fun r => r)). intros s j Hj. by apply Hf. }
    destruct writingMode; simpl; destruct firstLine_; simpl;
      (split;
       [ eapply same_chunks_trans; [exact Hs1|]; by repeat split
       | apply Hidx;
         [ eapply same_chunks_trans; [exact Hs1|]; by repeat split
         | intros res j Hj;
           eapply unchanged_trans; apply unchanged_upd; exact Hj ] ]).
Qed.

(** [finalizeLine] keeps the chunks of the line and touches only the
    characters in them. *)
Lemma finalizeLine_spec (result : list CR) (currentPos : QPointF R) (currentLine : LB)
    (lineOffset : QPointF R) (anchor_ : TextAnchor) (writingMode : WritingMode)
    (ltr inlineSize textInShape : bool) :
  match finalizeLine result currentPos currentLine lineOffset anchor_ writingMode
                     ltr inlineSize textInShape with
  | (result', _, currentLine', _) =>
      same_chunks currentLine currentLine'
      /\ unchanged_outside (lineIndicesOf currentLine) result result'
  end.
Proof.
  unfold finalizeLine.
  set (loop := fold_left _ (chunks currentLine) (result, currentPos)).
  assert (Hloop : unchanged_outside (lineIndicesOf currentLine) result (fst loop)).
  { subst loop.
    apply (unchanged_fold_left (S:=list CR * QPointF R) fst).
    intros st c Hc.
    eapply unchanged_mono; [|apply finalizeChunk_unchanged].
    intros j Hj. by eapply elem_of_lineIndicesOf. }
  destruct loop as [result1 pos1]. simpl in Hloop.
  pose proof (lineHeightOffset_spec writingMode result1 currentLine
                (if textInShape then true else firstLine currentLine)) as Hoff.
  destruct (lineHeightOffset _ _ _ _) as [[off result2] line2].
  destruct Hoff as [Hsame Hres]. split; [done|].
  eapply unchanged_trans; eauto.
Qed.


(** ** The blocks of [breakLines] *)





Lemma single_lineIndicesOf (lb : LB) (c : LineChunk) :
  chunks lb = [c] -> lineIndicesOf lb = chunkIndices c.
Proof. intros Hc. unfold lineIndicesOf. rewrite Hc. simpl. apply app_nil_r. Qed.

Lemma same_chunks_single (a b : LB) : same_chunks a b -> single a -> single b.
Proof. intros (Hc & Hcur & _) (c & H1 & H2). exists c. split; congruence. Qed.

Lemma clearAndAdjust_spec (isHorizontal : bool) (current indent : QPointF R) (lb : LB) :
  let lb' := clearAndAdjust isHorizontal current indent lb in
  map chunkIndices (chunks lb') = [[]]
  /\ currentChunk lb' = 0%Z
  /\ lastLine lb' = lastLine lb.
Proof. unfold clearAndAdjust. by case_match. Qed.

Lemma clearAndAdjust_single (isHorizontal : bool) (current indent : QPointF R) (lb : LB) :
  single (clearAndAdjust isHorizontal current indent lb)
  /\ lineIndicesOf (clearAndAdjust isHorizontal current indent lb) = [].
Proof.
  unfold clearAndAdjust, single, lineIndicesOf. case_match; simpl; eauto.
Qed.

Section BreakLinesBlocks.
Variable properties : Props.
Variable startPos : QPointF R.

Lemma finalizeAndStartLine_spec (indent : QPointF R) (s : BS) :
  let s' := finalizeAndStartLine properties indent s in
  bs_lineBoxes s' = bs_lineBoxes s ++ [finalizedLine properties s]
  /\ same_chunks (bs_currentLine s) (finalizedLine properties s)
  /\ map chunkIndices (chunks (bs_currentLine s')) = [[]]
  /\ single (bs_currentLine s')
  /\ lastLine (bs_currentLine s') = lastLine (bs_currentLine s)
  /\ bs_wordIndices s' = bs_wordIndices s
  /\ unchanged_outside (lineIndicesOf (bs_currentLine s)) (bs_result s) (bs_result s').
Proof.
  unfold finalizeAndStartLine, finalizedLine.
  pose proof (finalizeLine_spec (bs_result s) (bs_currentPos s) (bs_currentLine s)
                (bs_lineOffset s) (TextAnchorId properties) (WritingModeId properties)
                (bool_decide (DirectionId properties = DirectionLeftToRight))
                (negb (isAuto (InlineSizeId properties))) false) as Hfin.
  destruct (finalizeLine _ _ _ _ _ _ _ _ _) as [[[result' pos'] line'] off'].
  destruct Hfin as [Hsame Hres]. simpl.
  split; [done|]. split; [done|].
  destruct (clearAndAdjust_spec
              (bool_decide (WritingModeId properties = HorizontalTB)) off'
              indent line') as (H1 & H2 & H3).
  split; [done|]. split; [apply clearAndAdjust_single|].
  split; [|by split]. etransitivity; [exact H3|]. symmetry. apply Hsame.
Qed.

Lemma finalizeAndStartLine_placed (indent : QPointF R) (s : BS) :
  placed (finalizeAndStartLine properties indent s) = placed s.
Proof.
  destruct (finalizeAndStartLine_spec indent s) as (Hl & Hsame & Hc & _).
  unfold placed. rewrite Hl, map_app, concat_app. simpl.
  rewrite (same_chunks_lineIndicesOf _ _ Hsame).
  unfold lineIndicesOf at 3. rewrite Hc. simpl. by rewrite !app_nil_r.
Qed.


Lemma places_refl (s : BS) : single (bs_currentLine s) -> places s s [].
Proof.
  intros Hs. split; [done|]. split; [by rewrite app_nil_r|]. split; [done|].
  split; [apply unchanged_refl|]. exists []. by rewrite app_nil_r.
Qed.

Lemma places_trans (s1 s2 s3 : BS) (m1 m2 : list nat) :
  places s1 s2 m1 -> places s2 s3 m2 -> places s1 s3 (m1 ++ m2).
Proof.
  intros (_ & Hp1 & Hl1 & Hu1 & a1 & Ha1) (Hs2 & Hp2 & Hl2 & Hu2 & a2 & Ha2).
  split; [done|]. split; [by rewrite Hp2, Hp1, app_assoc|]. split; [congruence|].
  split.
  - eapply unchanged_trans.
    + eapply unchanged_mono; [|exact Hu1]. intros x Hx.
      rewrite app_assoc. apply elem_of_app. by left.
    + rewrite Hp1 in Hu2. by rewrite app_assoc.
  - exists (a1 ++ a2). by rewrite Ha2, Ha1, app_assoc.
Qed.

Lemma addWordToLine_single (result : list CR) (currentPos : QPointF R)
    (wordIndices : list nat) (currentLine : LB) (ltr : bool) :
  single currentLine ->
  match addWordToLine result currentPos wordIndices currentLine ltr with
  | (result', _, wordIndices', currentLine') =>
      wordIndices' = []
      /\ single currentLine'
      /\ lineIndicesOf currentLine' = lineIndicesOf currentLine ++ wordIndices
      /\ lastLine currentLine' = lastLine currentLine
      /\ unchanged_outside wordIndices result result'
  end.
Proof.
  intros (c0 & Hc0 & Hcur0).
  pose proof (addWordToLine_spec result currentPos wordIndices currentLine ltr) as Hadd.
  destruct (addWordToLine _ _ _ _ _) as [[[result' pos'] word'] line'].
  destruct Hadd as (Hw & Hres & Hlast & (c & Hci & _ & Hch & Hcur) & Hin).
  assert (Hchunk : chunk currentLine = c0).
  { unfold chunk, value_. rewrite Hc0, Hcur0. reflexivity. }
  assert (Hnew : chunks line' = [c]).
  { rewrite Hch. unfold setCurrentChunk. rewrite Hcur0. simpl. rewrite Hc0. reflexivity. }
  split; [done|]. split.
  { exists c. split; [done|]. rewrite Hcur. unfold setCurrentChunk.
    rewrite Hcur0. simpl. rewrite Hc0. reflexivity. }
  split; [|done].
  rewrite (single_lineIndicesOf _ _ Hnew), (single_lineIndicesOf _ _ Hc0).
  by rewrite Hci, Hchunk.
Qed.

Lemma addWord_places (s : BS) :
  single (bs_currentLine s) ->
  places s (addWord properties s) (bs_wordIndices s)
  /\ bs_wordIndices (addWord properties s) = []
  /\ bs_lineBoxes (addWord properties s) = bs_lineBoxes s.
Proof.
  intros Hs. unfold addWord.
  pose proof (addWordToLine_single (bs_result s) (bs_currentPos s) (bs_wordIndices s)
                (bs_currentLine s)
                (bool_decide (DirectionId properties = DirectionLeftToRight)) Hs) as Hadd.
  destruct (addWordToLine _ _ _ _ _) as [[[result' pos'] word'] line'].
  destruct Hadd as (Hw & Hsingle & Hidx & Hlast & Hres).
  split; [|by split].
  split; [done|]. split.
  { unfold placed. simpl. by rewrite Hidx, app_assoc. }
  split; [done|]. split.
  { eapply unchanged_mono; [|exact Hres]. intros x Hx. apply elem_of_app. by right. }
  exists []. simpl. by rewrite app_nil_r.
Qed.

Lemma finalizeAndStartLine_places (indent : QPointF R) (s : BS) :
  places s (finalizeAndStartLine properties indent s) []
  /\ bs_wordIndices (finalizeAndStartLine properties indent s) = bs_wordIndices s
  /\ bs_lineBoxes (finalizeAndStartLine properties indent s)
     = bs_lineBoxes s ++ [finalizedLine properties s].
Proof.
  pose proof (finalizeAndStartLine_placed indent s) as Hp.
  destruct (finalizeAndStartLine_spec indent s) as (Hl & Hsame & Hc & Hs & Hlast & Hw & Hu).
  split; [|by split].
  split; [done|]. split; [by rewrite app_nil_r|]. split; [done|]. split.
  - eapply unchanged_mono; [|exact Hu]. intros x Hx.
    rewrite app_nil_r. unfold placed. apply elem_of_app. by right.
  - eauto.
Qed.


(** A state rebuilt with the same result, line boxes and current line. *)
Lemma places_same (s s' : BS) :
  single (bs_currentLine s) ->
  bs_result s' = bs_result s -> bs_lineBoxes s' = bs_lineBoxes s ->
  bs_currentLine s' = bs_currentLine s ->
  places s s' [].
Proof.
  intros Hs Hr Hl Hc. unfold places, placed. rewrite Hr, Hl, Hc.
  split; [done|]. split; [by rewrite app_nil_r|]. split; [done|].
  split; [apply unchanged_refl|]. exists []. by rewrite app_nil_r.
Qed.

Lemma places_consumed (s s' : BS) (moved : list nat) :
  places s s' moved ->
  bs_wordIndices s = moved ++ bs_wordIndices s' ->
  consumed s' = consumed s
  /\ unchanged_outside (consumed s) (bs_result s) (bs_result s').
Proof.
  intros (_ & Hp & _ & Hu & _) Hw. unfold consumed. rewrite Hp, Hw. split.
  - by rewrite app_assoc.
  - eapply unchanged_mono; [|exact Hu]. intros x Hx.
    rewrite app_assoc. apply elem_of_app. by left.
Qed.

Lemma overflowWrap_step_places (s : BS) (partialWord : list nat) (i : nat) :
  single (bs_currentLine s) ->
  exists moved,
    places s (fst (overflowWrap_step properties (s, partialWord) i)) moved
    /\ moved ++ snd (overflowWrap_step properties (s, partialWord) i)
       = partialWord ++ [i].
Proof.
  intros Hs. unfold overflowWrap_step. case_match.
  - exists []. split; [by apply places_same|done].
  - bs_simpl.
    pose proof (addWordToLine_single (bs_result s) (bs_currentPos s) partialWord
                  (bs_currentLine s)
                  (bool_decide (DirectionId properties = DirectionLeftToRight)) Hs) as Hadd.
    destruct (addWordToLine _ _ _ _ _) as [[[result' pos'] word'] line'].
    destruct Hadd as (Hw & Hsingle & Hidx & Hlast & Hres). subst word'.
    bs_simpl.
    exists partialWord. split; [|done].
    match goal with
    | |- context [finalizeAndStartLine properties ?ind ?st] =>
        set (indent := ind); set (s1 := st)
    end.
    assert (H1 : places s s1 partialWord).
    { split; [done|]. split; [unfold placed; simpl; by rewrite Hidx, app_assoc|].
      split; [done|]. split.
      - eapply unchanged_mono; [|exact Hres]. intros x Hx. apply elem_of_app. by right.
      - exists []. simpl. by rewrite app_nil_r. }
    destruct (finalizeAndStartLine_places indent s1) as (H2 & _ & _).
    set (s2 := finalizeAndStartLine properties indent s1) in *.
    assert (H3 : places s s2 (partialWord ++ [])) by (eapply places_trans; eauto).
    rewrite app_nil_r in H3.
    eapply places_trans with (m2 := []) in H3; [rewrite app_nil_r in H3; exact H3|].
    apply places_same; try done. apply H2.
Qed.

Lemma overflowWrap_fold_places (l : list nat) (s : BS) (partialWord : list nat) :
  single (bs_currentLine s) ->
  exists moved,
    places s (fst (fold_left (overflowWrap_step properties) l (s, partialWord))) moved
    /\ moved ++ snd (fold_left (overflowWrap_step properties) l (s, partialWord))
       = partialWord ++ l.
Proof.
  revert s partialWord. induction l as [|i l IH]; intros s pw Hs; cbn [fold_left].
  - exists []. split; [by apply places_refl|by rewrite app_nil_r].
  - destruct (overflowWrap_step_places s pw i Hs) as (m1 & H1 & E1).
    destruct (overflowWrap_step properties (s, pw) i) as [s1 pw1] eqn:Hstep.
    cbn [fst snd] in *.
    destruct (IH s1 pw1) as (m2 & H2 & E2); [apply H1|].
    exists (m1 ++ m2). split; [eapply places_trans; eauto|].
    rewrite <- (app_assoc m1 m2), E2, (app_assoc m1 pw1 l), E1.
    by rewrite <- app_assoc.
Qed.

Lemma softBreakBlock_places (charResult : CR) (s : BS) :
  single (bs_currentLine s) ->
  places s (softBreakBlock properties charResult s) (bs_wordIndices s)
  /\ bs_wordIndices (softBreakBlock properties charResult s) = [].
Proof.
  intros Hs. unfold softBreakBlock.
  set (indent := if hanging _ then _ else _).
  set (s1 := if negb (isEmpty (bs_currentLine s)) then _ else s).
  assert (H1 : places s s1 [] /\ bs_wordIndices s1 = bs_wordIndices s).
  { subst s1. case_match.
    - destruct (finalizeAndStartLine_places indent s) as (Hp & Hw & _). by split.
    - split; [by apply places_refl|done]. }
  destruct H1 as [H1 Hw1].
  set (s2 := if overflowWrap charResult then _ else s1).
  assert (H2 : exists moved, places s1 s2 moved /\ moved ++ bs_wordIndices s2 = bs_wordIndices s1).
  { subst s2. case_match; [case_match|].
    - set (s1' := mkBreakState _ _ (set_firstLine _ _) _ _ _ _).
      assert (Hs1' : single (bs_currentLine s1')).
      { destruct H1 as ((c & Hc & Hcur) & _). exists c. by split. }
      destruct (overflowWrap_fold_places (bs_wordIndices s1') s1' [] Hs1')
        as (moved & Hp & He).
      destruct (fold_left _ _ _) as [s3 pw3]. simpl in *.
      exists moved. split; [|done].
      assert (Hp0 : places s1 s1' []).
      { split; [done|]. split; [|split; [done|split; [apply unchanged_refl|]]].
        - unfold placed. simpl. rewrite app_nil_r. f_equal.
        - exists []. simpl. by rewrite app_nil_r. }
      pose proof (places_trans _ _ _ _ _ Hp0 Hp) as Hp1. simpl in Hp1.
      eapply places_trans with (m2 := []) in Hp1;
        [rewrite app_nil_r in Hp1; exact Hp1|].
      apply places_same; try done. apply Hp.
    - exists []. split; [|done]. apply places_refl. apply H1.
    - exists []. split; [|done]. apply places_refl. apply H1. }
  destruct H2 as (moved & H2 & He).
  destruct (addWord_places s2) as (H3 & Hw3 & _); [apply H2|].
  split; [|done].
  pose proof (places_trans _ _ _ _ _ H1 (places_trans _ _ _ _ _ H2 H3)) as H.
  simpl in H. by rewrite He, Hw1 in H.
Qed.

Lemma hardBreakBlock_places (s : BS) :
  places s (hardBreakBlock properties s) []
  /\ bs_wordIndices (hardBreakBlock properties s) = bs_wordIndices s
  /\ bs_lineBoxes (hardBreakBlock properties s)
     = bs_lineBoxes s ++ [finalizedLine properties s].
Proof. unfold hardBreakBlock. apply finalizeAndStartLine_places. Qed.


Lemma wordBlock_spec (index : nat) (hasNext : bool) (charResult : CR) (s : BS) :
  single (bs_currentLine s) ->
  match wordBlock properties startPos index hasNext charResult s with
  | (s', softBreak) =>
      single (bs_currentLine s')
      /\ consumed s' = consumed s ++ [index]
      /\ lastLine (bs_currentLine s') = negb hasNext
      /\ unchanged_outside (consumed s ++ [index]) (bs_result s) (bs_result s')
      /\ bs_lineBoxes s' = bs_lineBoxes s
      /\ (isAuto (InlineSizeId properties) = true -> softBreak = false)
  end.
Proof.
  intros Hs. unfold wordBlock.
  match goal with
  | |- context [addWord properties ?st] => set (s0 := st)
  end.
  assert (Hs0 : single (bs_currentLine s0)).
  { destruct Hs as (c & Hc & Hcur). exists c. by split. }
  assert (Hc0 : consumed s0 = consumed s ++ [index]).
  { unfold consumed, placed. simpl. by rewrite !app_assoc. }
  assert (Hadd : let s' := addWord properties s0 in
            single (bs_currentLine s')
            /\ consumed s' = consumed s ++ [index]
            /\ lastLine (bs_currentLine s') = negb hasNext
            /\ unchanged_outside (consumed s ++ [index]) (bs_result s) (bs_result s')
            /\ bs_lineBoxes s' = bs_lineBoxes s).
  { destruct (addWord_places s0 Hs0) as (Hp & Hw & Hl).
    destruct (places_consumed _ _ _ Hp) as [Hc Hu]; [by rewrite Hw, app_nil_r|].
    split; [apply Hp|]. split; [congruence|]. split; [by destruct Hp as (_ & _ & -> & _)|].
    split; [by rewrite <- Hc0|done]. }
  assert (Hkeep : single (bs_currentLine s0)
            /\ consumed s0 = consumed s ++ [index]
            /\ lastLine (bs_currentLine s0) = negb hasNext
            /\ unchanged_outside (consumed s ++ [index]) (bs_result s) (bs_result s0)
            /\ bs_lineBoxes s0 = bs_lineBoxes s).
  { split; [done|]. split; [done|]. split; [done|]. split; [apply unchanged_refl|done]. }
  destruct (isAuto (InlineSizeId properties)) eqn:Hauto; simpl;
    repeat case_match; simplify_eq; split_and!; try done;
    try apply Hadd; try apply Hkeep.
Qed.

Lemma lastLineBlock_spec (s : BS) :
  single (bs_currentLine s) ->
  let s' := lastLineBlock properties s in
  (exists L, bs_lineBoxes s' = bs_lineBoxes s ++ [L])
  /\ concat (map lineIndicesOf (bs_lineBoxes s')) = consumed s
  /\ unchanged_outside (consumed s) (bs_result s) (bs_result s').
Proof.
  intros Hs. unfold lastLineBlock.
  set (s1 := match bs_wordIndices s with [] => s | _ => addWord properties s end).
  assert (H1 : places s s1 (bs_wordIndices s) /\ bs_wordIndices s1 = []
               /\ bs_lineBoxes s1 = bs_lineBoxes s).
  { subst s1. destruct (bs_wordIndices s) eqn:Hw.
    - split; [by apply places_refl|done].
    - rewrite <- Hw. by apply addWord_places. }
  destruct H1 as (Hp & Hw1 & Hl1).
  pose proof (finalizeLine_spec (bs_result s1) (bs_currentPos s1) (bs_currentLine s1)
                (bs_lineOffset s1) (TextAnchorId properties) (WritingModeId properties)
                (bool_decide (DirectionId properties = DirectionLeftToRight))
                (negb (isAuto (InlineSizeId properties))) false) as Hfin.
  destruct (finalizeLine _ _ _ _ _ _ _ _ _) as [[[result' pos'] line'] off'].
  destruct Hfin as [Hsame Hres]. bs_simpl.
  destruct Hp as (_ & Hpl & _ & Hu & _).
  split; [rewrite Hl1; eauto|]. split.
  - rewrite map_app, concat_app. simpl. rewrite app_nil_r.
    rewrite <- (same_chunks_lineIndicesOf _ _ Hsame). exact Hpl.
  - eapply unchanged_trans; [exact Hu|].
    eapply unchanged_mono; [|exact Hres]. intros x Hx.
    unfold consumed. rewrite <- Hpl. unfold placed. apply elem_of_app. by right.
Qed.

(** One iteration of [breakLines] for a character that is addressable:
    it joins the consumed characters, and only consumed characters are
    touched.  After the last character every consumed character is in
    a finished line. *)
Lemma breakLines_step_spec (index : nat) (hasNext : bool) (s : BS) :
  single (bs_currentLine s) ->
  addressable (at_ (bs_result s) index) = true ->
  let s' := breakLines_step properties startPos index hasNext s in
  unchanged_outside (consumed s ++ [index]) (bs_result s) (bs_result s')
  /\ (if hasNext
      then single (bs_currentLine s') /\ consumed s' = consumed s ++ [index]
      else concat (map lineIndicesOf (bs_lineBoxes s')) = consumed s ++ [index]).
Proof.
  intros Hs Haddr. unfold breakLines_step. rewrite Haddr. cbn [negb].
  pose proof (wordBlock_spec index hasNext (at_ (bs_result s) index) s Hs) as Hw.
  destruct (wordBlock _ _ _ _ _ _) as [s1 softBreak].
  destruct Hw as (Hs1 & Hc1 & Hl1 & Hu1 & _ & _).
  set (s2 := if softBreak then _ else s1).
  assert (H2 : places s1 s2 (if softBreak then bs_wordIndices s1 else [])
               /\ bs_wordIndices s1
                  = (if softBreak then bs_wordIndices s1 else []) ++ bs_wordIndices s2).
  { subst s2. destruct softBreak.
    - destruct (softBreakBlock_places (at_ (bs_result s) index) s1 Hs1) as [Hp ->].
      split; [done|by rewrite app_nil_r].
    - split; [by apply places_refl|done]. }
  destruct H2 as [Hp2 Hw2].
  destruct (places_consumed _ _ _ Hp2 Hw2) as [Hc2 Hu2].
  set (s3 := if bool_decide _ then _ else s2).
  assert (H3 : places s2 s3 [] /\ bs_wordIndices s3 = bs_wordIndices s2).
  { subst s3. destruct (bool_decide (breakType _ = HardBreak)).
    - destruct (hardBreakBlock_places s2) as (Hp & Hw & _). by split.
    - split; [apply places_refl, Hp2|done]. }
  destruct H3 as [Hp3 Hw3].
  destruct (places_consumed _ _ _ Hp3) as [Hc3 Hu3]; [by rewrite Hw3|].
  assert (Hl3 : lastLine (bs_currentLine s3) = negb hasNext).
  { destruct Hp3 as (_ & _ & -> & _). destruct Hp2 as (_ & _ & -> & _). done. }
  assert (Hu : unchanged_outside (consumed s ++ [index]) (bs_result s) (bs_result s3)).
  { eapply unchanged_trans; [exact Hu1|]. rewrite <- Hc1.
    eapply unchanged_trans; [exact Hu2|]. by rewrite <- Hc2. }
  rewrite Hl3. destruct hasNext; cbn [negb].
  - split; [done|]. split; [apply Hp3|]. congruence.
  - destruct (lastLineBlock_spec s3) as (_ & Hc4 & Hu4); [apply Hp3|].
    split; [|congruence].
    eapply unchanged_trans; [exact Hu|]. rewrite <- Hc1, <- Hc2, <- Hc3. exact Hu4.
Qed.

(** The loop of [breakLines] over keys that are distinct, not yet
    consumed and addressable. *)
Lemma breakLines_loop_spec (keys : list nat) (s : BS) :
  keys ≠ [] ->
  single (bs_currentLine s) ->
  NoDup keys ->
  (forall k, k ∈ keys -> k ∉ consumed s) ->
  (forall k, k ∈ keys -> addressable (at_ (bs_result s) k) = true) ->
  let s' := breakLines_loop properties startPos keys s in
  concat (map lineIndicesOf (bs_lineBoxes s')) = consumed s ++ keys
  /\ unchanged_outside (consumed s ++ keys) (bs_result s) (bs_result s').
Proof.
  revert s. induction keys as [|k keys IH]; intros s Hne Hs Hnd Hfresh Haddr; [done|].
  cbn [breakLines_loop].
  destruct (breakLines_step_spec k (match keys with [] => false | _ => true end) s Hs)
    as [Hu Hstep]; [apply Haddr; by left|].
  destruct keys as [|k' keys'].
  - cbn [breakLines_loop]. by split.
  - destruct Hstep as [Hs1 Hc1].
    set (s1 := breakLines_step properties startPos k true s) in *.
    apply NoDup_cons in Hnd as [Hk Hnd].
    destruct (IH s1) as [Hc Hu']; [done|done|done| | |].
    + intros x Hx. rewrite Hc1. intros Hin. apply elem_of_app in Hin as [Hin|Hin].
      * apply (Hfresh x); [by right|done].
      * apply list_elem_of_singleton in Hin as ->. done.
    + intros x Hx. rewrite Hu.
      * apply Haddr. by right.
      * intros Hin. apply elem_of_app in Hin as [Hin|Hin].
        -- apply (Hfresh x); [by right|done].
        -- apply list_elem_of_singleton in Hin as ->. done.
    + rewrite Hc1, <- app_assoc in Hc, Hu'. split; [exact Hc|].
      eapply unchanged_trans; [|exact Hu'].
      eapply unchanged_mono; [|exact Hu]. intros x Hx.
      apply elem_of_app in Hx as [Hx|Hx]; apply elem_of_app; [by left|right].
      apply list_elem_of_singleton in Hx as ->. by left.
Qed.

End BreakLinesBlocks.


(** ** A hard break in [breakLines] *)

Section HardBreak.
Variable properties : Props.
Variable startPos : QPointF R.


Lemma extends_refl (l : list LB) : extends l l.
Proof. exists []. by rewrite app_nil_r. Qed.

Lemma extends_trans (a b c : list LB) : extends a b -> extends b c -> extends a c.
Proof. intros [x ->] [y ->]. exists (x ++ y). by rewrite app_assoc. Qed.

Lemma addWord_general (s : BS) :
  let s' := addWord properties s in
  bs_wordIndices s' = []
  /\ bs_lineBoxes s' = bs_lineBoxes s
  /\ lastLine (bs_currentLine s') = lastLine (bs_currentLine s)
  /\ (forall j, j ∈ bs_wordIndices s -> j ∈ lineIndicesOf (bs_currentLine s')).
Proof.
  unfold addWord.
  pose proof (addWordToLine_spec (bs_result s) (bs_currentPos s) (bs_wordIndices s)
                (bs_currentLine s)
                (bool_decide (DirectionId properties = DirectionLeftToRight))) as Hadd.
  destruct (addWordToLine _ _ _ _ _) as [[[result' pos'] word'] line'].
  destruct Hadd as (Hw & _ & Hlast & _ & Hin). by bs_simpl.
Qed.

Lemma overflowWrap_step_general (s : BS) (partialWord : list nat) (i : nat) :
  let st' := overflowWrap_step properties (s, partialWord) i in
  lastLine (bs_currentLine (fst st')) = lastLine (bs_currentLine s)
  /\ extends (bs_lineBoxes s) (bs_lineBoxes (fst st'))
  /\ i ∈ snd st'.
Proof.
  unfold overflowWrap_step. case_match.
  - bs_simpl. split; [done|]. split; [apply extends_refl|].
    apply elem_of_app. right. by left.
  - bs_simpl.
    pose proof (addWordToLine_spec (bs_result s) (bs_currentPos s) partialWord
                  (bs_currentLine s)
                  (bool_decide (DirectionId properties = DirectionLeftToRight))) as Hadd.
    destruct (addWordToLine _ _ _ _ _) as [[[result' pos'] word'] line'].
    destruct Hadd as (Hw & _ & Hlast & _ & _). bs_simpl.
    match goal with
    | |- context [finalizeAndStartLine properties ?ind ?st] =>
        destruct (finalizeAndStartLine_spec properties ind st)
          as (Hl & _ & _ & _ & Hlast' & _ & _)
    end.
    bs_simpl. split; [congruence|]. split; [rewrite Hl; by eexists|].
    apply elem_of_app. right. by left.
Qed.

Lemma overflowWrap_fold_general (l : list nat) (s : BS) (partialWord : list nat) :
  let st' := fold_left (overflowWrap_step properties) l (s, partialWord) in
  lastLine (bs_currentLine (fst st')) = lastLine (bs_currentLine s)
  /\ extends (bs_lineBoxes s) (bs_lineBoxes (fst st'))
  /\ (forall x, last l = Some x -> x ∈ snd st').
Proof.
  revert s partialWord. induction l as [|i l IH]; intros s pw; cbn [fold_left].
  - split; [done|]. split; [apply extends_refl|]. intros x Hx. done.
  - destruct (overflowWrap_step_general s pw i) as (H1 & H2 & H3).
    destruct (overflowWrap_step properties (s, pw) i) as [s1 pw1].
    cbn [fst snd] in *.
    destruct (IH s1 pw1) as (I1 & I2 & I3).
    split; [congruence|]. split; [eapply extends_trans; eauto|].
    intros x Hx. destruct l as [|i' l'].
    + simpl in Hx. simplify_eq. done.
    + apply I3. by rewrite last_cons_cons in Hx.
Qed.

Lemma softBreakBlock_general (charResult : CR) (s : BS) (index : nat) :
  last (bs_wordIndices s) = Some index ->
  let s' := softBreakBlock properties charResult s in
  bs_wordIndices s' = []
  /\ lastLine (bs_currentLine s') = lastLine (bs_currentLine s)
  /\ extends (bs_lineBoxes s) (bs_lineBoxes s')
  /\ index ∈ lineIndicesOf (bs_currentLine s').
Proof.
  intros Hlast. unfold softBreakBlock.
  set (indent := if hanging _ then _ else _).
  set (s1 := if negb (isEmpty (bs_currentLine s)) then _ else s).
  assert (H1 : bs_wordIndices s1 = bs_wordIndices s
               /\ lastLine (bs_currentLine s1) = lastLine (bs_currentLine s)
               /\ extends (bs_lineBoxes s) (bs_lineBoxes s1)).
  { subst s1. case_match.
    - destruct (finalizeAndStartLine_spec properties indent s)
        as (Hl & _ & _ & _ & Hlast' & Hw & _).
      split; [done|]. split; [done|]. rewrite Hl. by eexists.
    - split; [done|]. split; [done|]. apply extends_refl. }
  destruct H1 as (Hw1 & Hl1 & He1).
  set (s2 := if overflowWrap charResult then _ else s1).
  assert (H2 : index ∈ bs_wordIndices s2
               /\ lastLine (bs_currentLine s2) = lastLine (bs_currentLine s1)
               /\ extends (bs_lineBoxes s1) (bs_lineBoxes s2)).
  { assert (Hin1 : index ∈ bs_wordIndices s1)
      by (rewrite Hw1; by apply last_Some_elem_of).
    subst s2. destruct (overflowWrap charResult); [case_match|].
    - match goal with
      | |- context [fold_left (overflowWrap_step properties) ?l (?st, ?pw)] =>
          destruct (overflowWrap_fold_general l st pw) as (F1 & F2 & F3)
      end.
      destruct (fold_left _ _ _) as [s3 pw3]. bs_simpl.
      split; [apply F3; congruence|]. by split.
    - split; [done|]. split; [done|apply extends_refl].
    - split; [done|]. split; [done|apply extends_refl]. }
  destruct H2 as (Hin2 & Hl2 & He2).
  destruct (addWord_general s2) as (Hw3 & Hb3 & Hl3 & Hin3).
  split; [done|]. split; [congruence|]. split.
  - rewrite Hb3. eapply extends_trans; eauto.
  - by apply Hin3.
Qed.

Lemma wordBlock_general (index : nat) (hasNext : bool) (charResult : CR) (s : BS) :
  breakType charResult ≠ NoBreak ->
  match wordBlock properties startPos index hasNext charResult s with
  | (s', softBreak) =>
      lastLine (bs_currentLine s') = negb hasNext
      /\ bs_lineBoxes s' = bs_lineBoxes s
      /\ if softBreak then last (bs_wordIndices s') = Some index
         else bs_wordIndices s' = [] /\ index ∈ lineIndicesOf (bs_currentLine s')
  end.
Proof.
  intros Hbt. unfold wordBlock.
  rewrite (bool_decide_eq_true_2 _ Hbt). cbn [orb].
  match goal with
  | |- context [addWord properties ?st] => set (s0 := st)
  end.
  destruct (addWord_general s0) as (Hw & Hb & Hl & Hin).
  assert (Hadd : lastLine (bs_currentLine (addWord properties s0)) = negb hasNext
                 /\ bs_lineBoxes (addWord properties s0) = bs_lineBoxes s
                 /\ bs_wordIndices (addWord properties s0) = []
                    /\ index ∈ lineIndicesOf (bs_currentLine (addWord properties s0))).
  { split; [by rewrite Hl|]. split; [by rewrite Hb|]. split; [done|].
    apply Hin. subst s0. bs_simpl. apply elem_of_app. right. by left. }
  repeat case_match; simplify_eq; try exact Hadd.
  all: bs_simpl.
  all: split; [done|]; split; [done|]; apply last_snoc.
Qed.


End HardBreak.


(** ** [breakLines] as a whole *)

Lemma QMap_keys_elem (m : gmap nat Z) (k : nat) :
  k ∈ QMap_keys le m <-> is_Some (m !! k).
Proof.
  unfold QMap_keys. rewrite merge_sort_Permutation, elem_of_elements.
  apply elem_of_dom.
Qed.

Lemma QMap_keys_NoDup (m : gmap nat Z) : NoDup (QMap_keys le m).
Proof.
  unfold QMap_keys. rewrite merge_sort_Permutation. apply NoDup_elements.
Qed.

Lemma QMap_keys_nil (m : gmap nat Z) : QMap_keys le m = [] -> m = ∅.
Proof.
  intros Hnil. apply map_empty. intros k.
  destruct (m !! k) eqn:Hk; [|done].
  assert (Hin : k ∈ QMap_keys le m) by (apply QMap_keys_elem; eauto).
  rewrite Hnil in Hin. by apply elem_of_nil in Hin.
Qed.


Section BreakLinesWhole.
Variable properties : Props.
Variable startPos : QPointF R.

Lemma breakLines_init_spec (result : list CR) :
  single (bs_currentLine (breakLines_init properties startPos result))
  /\ consumed (breakLines_init properties startPos result) = []
  /\ bs_result (breakLines_init properties startPos result) = result
  /\ bs_lineBoxes (breakLines_init properties startPos result) = [].
Proof.
  unfold breakLines_init, consumed, placed, lineIndicesOf.
  destruct (negb _ && negb _); simpl; (split; [by eexists|done]).
Qed.

Lemma breakLines_step_auto (index : nat) (hasNext : bool) (s : BS) :
  isAuto (InlineSizeId properties) = true ->
  single (bs_currentLine s) ->
  addressable (at_ (bs_result s) index) = true ->
  breakType (at_ (bs_result s) index) ≠ HardBreak ->
  let s' := breakLines_step properties startPos index hasNext s in
  if hasNext then bs_lineBoxes s' = bs_lineBoxes s
  else exists L, bs_lineBoxes s' = bs_lineBoxes s ++ [L].
Proof.
  intros Hauto Hs Haddr Hbt. unfold breakLines_step. rewrite Haddr. cbn [negb].
  pose proof (wordBlock_spec properties startPos index hasNext
                (at_ (bs_result s) index) s Hs) as Hw.
  destruct (wordBlock _ _ _ _ _ _) as [s1 softBreak].
  destruct Hw as (Hs1 & _ & Hl1 & _ & Hb1 & Hsb). rewrite (Hsb Hauto).
  rewrite (bool_decide_eq_false_2 _ Hbt). rewrite Hl1.
  destruct hasNext; cbn [negb]; [done|].
  destruct (lastLineBlock_spec properties s1 Hs1) as ((L & HL) & _ & _).
  exists L. by rewrite <- Hb1.
Qed.

Lemma breakLines_loop_auto (keys : list nat) (s : BS) :
  isAuto (InlineSizeId properties) = true ->
  keys ≠ [] ->
  single (bs_currentLine s) ->
  NoDup keys ->
  (forall k, k ∈ keys -> k ∉ consumed s) ->
  (forall k, k ∈ keys -> addressable (at_ (bs_result s) k) = true
                         /\ breakType (at_ (bs_result s) k) ≠ HardBreak) ->
  exists L, bs_lineBoxes (breakLines_loop properties startPos keys s)
            = bs_lineBoxes s ++ [L].
Proof.
  intros Hauto. revert s.
  induction keys as [|k keys IH]; intros s Hne Hs Hnd Hfresh Hok; [done|].
  cbn [breakLines_loop].
  destruct (Hok k) as [Haddr Hbt]; [by left|].
  pose proof (breakLines_step_auto k (match keys with [] => false | _ => true end) s
                Hauto Hs Haddr Hbt) as Hcount.
  destruct (breakLines_step_spec properties startPos k
              (match keys with [] => false | _ => true end) s Hs Haddr) as [Hu Hstep].
  destruct keys as [|k' keys'].
  - cbn [breakLines_loop]. exact Hcount.
  - destruct Hstep as [Hs1 Hc1]. simpl in Hcount.
    set (s1 := breakLines_step properties startPos k true s) in *.
    apply NoDup_cons in Hnd as [Hk Hnd].
    assert (Hout : forall x, x ∈ k' :: keys' -> x ∉ consumed s ++ [k]).
    { intros x Hx Hin. apply elem_of_app in Hin as [Hin|Hin].
      - apply (Hfresh x); [by right|done].
      - apply list_elem_of_singleton in Hin as ->. done. }
    destruct (IH s1) as [L HL]; [done|done|done| | |].
    + intros x Hx. rewrite Hc1. by apply Hout.
    + intros x Hx. rewrite (Hu x (Hout x Hx)). apply Hok. by right.
    + exists L. by rewrite HL, Hcount.
Qed.

(** C2, as the code has it.  With [inline-size] unset, line breaking a
    text that has at least one shaped character, whose shaped characters
    are all addressable and none of which is a hard break, gives exactly
    one line box. *)
Theorem breakLines_auto_one_line (logicalToVisual : gmap nat Z) (result : list CR) :
  isAuto (InlineSizeId properties) = true ->
  logicalToVisual ≠ ∅ ->
  (forall k v, logicalToVisual !! k = Some v ->
               addressable (at_ result k) = true
               /\ breakType (at_ result k) ≠ HardBreak) ->
  length (fst (breakLines properties startPos logicalToVisual result)) = 1%nat.
Proof.
  intros Hauto Hne Hok. unfold breakLines. cbn [fst].
  destruct (breakLines_init_spec result) as (Hs & Hc & Hr & Hb).
  destruct (breakLines_loop_auto (QMap_keys le logicalToVisual)
              (breakLines_init properties startPos result)) as [L HL]; try done.
  - intros Hnil. by apply Hne, QMap_keys_nil.
  - apply QMap_keys_NoDup.
  - intros k _. rewrite Hc. apply not_elem_of_nil.
  - intros k Hk. apply QMap_keys_elem in Hk as [v Hv]. rewrite Hr. eauto.
  - rewrite HL, Hb. reflexivity.
Qed.

(** Simple line breaking: when the shaped characters are the addressable
    ones on entry, the chunks of the line boxes list every one of them
    exactly once, in order, and every character that is addressable
    afterwards is among them. *)
Lemma breakLines_chunks (logicalToVisual : gmap nat Z) (result : list CR) :
  (forall k, k ∈ QMap_keys le logicalToVisual -> addressable (at_ result k) = true) ->
  (forall i, (i < length result)%nat -> addressable (at_ result i) = true ->
             i ∈ QMap_keys le logicalToVisual) ->
  let out := breakLines properties startPos logicalToVisual result in
  allChunkIndices (fst out) = QMap_keys le logicalToVisual
  /\ NoDup (allChunkIndices (fst out))
  /\ (forall i, (i < length result)%nat -> addressable (at_ (snd out) i) = true ->
                i ∈ allChunkIndices (fst out)).
Proof.
  intros Hkeys Haddr. unfold breakLines. cbn [fst snd].
  destruct (breakLines_init_spec result) as (Hs & Hc & Hr & Hb).
  set (keys := QMap_keys le logicalToVisual) in *.
  assert (Hloop : allChunkIndices
                    (bs_lineBoxes (breakLines_loop properties startPos keys
                                     (breakLines_init properties startPos result)))
                  = keys
                  /\ unchanged_outside keys result
                       (bs_result (breakLines_loop properties startPos keys
                                     (breakLines_init properties startPos result)))).
  { destruct keys as [|k keys'] eqn:Hk.
    - cbn [breakLines_loop]. rewrite Hb, Hr. split; [done|apply unchanged_refl].
    - rewrite <- Hk in *.
      destruct (breakLines_loop_spec properties startPos keys
                  (breakLines_init properties startPos result)) as [H1 H2]; try done.
      + by rewrite Hk.
      + apply QMap_keys_NoDup.
      + intros x _. rewrite Hc. apply not_elem_of_nil.
      + intros x Hx. rewrite Hr. by apply Hkeys.
      + rewrite Hc, Hr in *. by split. }
  destruct Hloop as [Hall Hu]. rewrite Hall.
  split; [done|]. split; [apply QMap_keys_NoDup|].
  intros i Hi Ha. destruct (decide (i ∈ keys)) as [|Hout]; [done|].
  rewrite (Hu i Hout) in Ha. by apply Haddr.
Qed.

End BreakLinesWhole.


(** ** [characterResultOnPath] *)

(** C5. On a closed path, for a character anchored in the middle, the
    coordinate returned is the midpoint taken modulo the length of the
    path, after the length was added once to a negative midpoint; and the
    character is marked hidden exactly when its midpoint less the offset
    lies outside the interval from minus half the length to half the
    length. *)
Theorem characterResultOnPath_closed_middle (cr : CR) (length_ offset : R)
    (isHorizontal : bool) :
  anchor cr = AnchorMiddle ->
  let mid := onPathMid cr offset isHorizontal in
  characterResultOnPath cr length_ offset isHorizontal true
  = (r_fmod (if (mid <? r0)%qr then (mid + length_)%qr else mid) length_,
     if outsideInterval (- (length_ * rhalf))%qr (length_ * rhalf)%qr (mid - offset)%qr
     then set_hidden true cr else cr).
Proof.
  intros Hanchor. unfold characterResultOnPath, onPathMid, outsideInterval.
  rewrite Hanchor. simpl. reflexivity.
Qed.

(** ** [applyTextLength] *)

Lemma applyTextLength_children (shapes : list KoShape) (isHorizontal : bool)
    (result : list CR) (currentIndex : nat) (resolved : Z) :
  Forall (fun child => forall result currentIndex resolved,
            exists currentIndex',
              applyTextLength child isHorizontal (result, currentIndex, resolved)
              = (result, currentIndex', resolved)) shapes ->
  exists currentIndex',
    fold_left (fun st child => applyTextLength child isHorizontal st) shapes
              (result, currentIndex, resolved)
    = (result, currentIndex', resolved).
Proof.
  intros Hall. revert currentIndex.
  induction Hall as [|child shapes Hchild _ IH]; intros currentIndex; simpl.
  - by eexists.
  - destruct (Hchild result currentIndex resolved) as [idx ->]. apply IH.
Qed.

(** When [textLength] is unset on a shape and on every run below it, the
    stage gives back [result] as it got it. *)
Lemma applyTextLength_unset_below (rootShape : KoShape) (isHorizontal : bool)
    (result : list CR) (currentIndex : nat) (resolvedDescendentNodes : Z) :
  textLengthUnset rootShape = true ->
  exists currentIndex',
    applyTextLength rootShape isHorizontal (result, currentIndex, resolvedDescendentNodes)
    = (result, currentIndex', resolvedDescendentNodes).
Proof.
  revert rootShape result currentIndex resolvedDescendentNodes.
  fix IH 1. intros [|numChars textLength lengthAdjust shapes] result currentIndex resolved Hunset.
  - by eexists.
  - simpl in Hunset. apply andb_true_iff in Hunset as [Hauto Hchildren].
    cbn [applyTextLength].
    destruct (applyTextLength_children shapes isHorizontal result currentIndex 0%Z)
      as [idx Hfold].
    { clear -IH Hchildren. induction shapes as [|child shapes IHs]; [constructor|].
      simpl in Hchildren. apply andb_true_iff in Hchildren as [Hc Hcs].
      constructor; [|by apply IHs].
      intros r i z. by apply IH. }
    rewrite Hfold, Hauto. simpl. by eexists.
Qed.

(** C6, as the code has it.  For a run whose own [textLength] is auto
    the stage is the stage of the runs nested in it and nothing more:
    [result] comes back as the nested runs leave it, the index moves past
    the run and the count of resolved runs is the caller's.  When
    [textLength] is auto on every run nested in it as well, [result]
    comes back as it went in: no position, advance, path or bounding box
    of any character is changed. *)
Theorem applyTextLength_unset (numChars : nat) (textLength : AutoValue)
    (lengthAdjust : LengthAdjust) (shapes : list KoShape) (isHorizontal : bool)
    (result : list CR) (currentIndex : nat) (resolvedDescendentNodes : Z) :
  isAuto textLength = true ->
  let rootShape := TextChunkShape numChars textLength lengthAdjust shapes in
  let nested :=
    fold_left (fun st child => applyTextLength child isHorizontal st)
              shapes (result, currentIndex, 0%Z) in
  applyTextLength rootShape isHorizontal (result, currentIndex, resolvedDescendentNodes)
  = (fst (fst nested), (currentIndex + numChars)%nat, resolvedDescendentNodes)
  /\ (textLengthUnset rootShape = true -> fst (fst nested) = result).
Proof.
  intros Hauto rootShape nested. subst rootShape. split.
  - cbn [applyTextLength]. fold nested. destruct nested as [[res idx] n].
    rewrite Hauto. done.
  - intros Hunset. simpl in Hunset. apply andb_true_iff in Hunset as [_ Hchildren].
    destruct (applyTextLength_children shapes isHorizontal result currentIndex 0%Z)
      as [idx Hfold].
    { clear -Hchildren. induction shapes as [|child shapes IHs]; [constructor|].
      simpl in Hchildren. apply andb_true_iff in Hchildren as [Hc Hcs].
      constructor; [|by apply IHs].
      intros r i z. by apply applyTextLength_unset_below. }
    subst nested. by rewrite Hfold.
Qed.

(** ** Italic synthesis *)

Lemma needsSyntheticItalic_true (fontStyle_ : FontStyle) (style_flags : Z) :
  needsSyntheticItalic fontStyle_ style_flags = true
  <-> fontStyle_ ≠ StyleNormal /\ ¬ nativeItalic style_flags.
Proof.
  unfold needsSyntheticItalic, nativeItalic.
  rewrite andb_true_iff, negb_true_iff, bool_decide_eq_true, bool_decide_eq_false.
  done.
Qed.

(** C8, as the code has it.  A shear is applied to a glyph only when
    the style asked for is
    not normal and the face has no native italic style, so the two are
    never combined; the shear is [SLANT_14DEG] for an outline glyph and
    [SLANT_BITMAP], 0.25, for a bitmap glyph, along the inline axis; and
    0.25 is the larger of the two constants, so the bitmap shear is the
    steeper one, not the flatter. *)
Theorem synthesizeItalic_shear (format : GlyphFormat) (fontStyle_ : FontStyle)
    (style_flags : Z) (isHorizontal : bool) (x_offset y_offset : R)
    (ftTF : @QTransform R) (bitmap_top imageWidth : Z) :
  let syn := synthesizeItalic format fontStyle_ style_flags isHorizontal
               x_offset y_offset ftTF bitmap_top imageWidth in
  (* only when *)
  (sheared (glyphObliqueTf syn) = true \/ is_Some (bitmapTf syn) ->
   fontStyle_ ≠ StyleNormal /\ ¬ nativeItalic style_flags)
  (* the outline shear *)
  /\ (format = FT_GLYPH_FORMAT_OUTLINE ->
      fontStyle_ ≠ StyleNormal -> ¬ nativeItalic style_flags ->
      glyphObliqueTf syn
      = (if isHorizontal then TfShear (r_ofQ SLANT_14DEG) r0 TfIdentity
         else TfShear r0 (- r_ofQ SLANT_14DEG)%qr TfIdentity)
      /\ outlineGlyphTf syn
         = TfMul (TfMul (TfTranslate x_offset y_offset) (glyphObliqueTf syn)) ftTF)
  (* the bitmap shear, about the baseline *)
  /\ (format = FT_GLYPH_FORMAT_BITMAP ->
      fontStyle_ ≠ StyleNormal -> ¬ nativeItalic style_flags ->
      exists shearAtX shearAtY : Z,
        bitmapTf syn
        = Some (TfMul (TfMul (TfTranslate (r_ofZ (- shearAtX)) (r_ofZ (- shearAtY)))
                             (if isHorizontal
                              then TfShear (- r_ofQ SLANT_BITMAP)%qr r0 TfIdentity
                              else TfShear r0 (r_ofQ SLANT_BITMAP) TfIdentity))
                      (TfTranslate (r_ofZ shearAtX) (r_ofZ shearAtY))))
  (* a native italic face is left as it is *)
  /\ (nativeItalic style_flags ->
      sheared (glyphObliqueTf syn) = false /\ bitmapTf syn = None)
  (* the two constants *)
  /\ (SLANT_14DEG < SLANT_BITMAP)%Q.
Proof.
  set (syn := synthesizeItalic _ _ _ _ _ _ _ _ _).
  assert (Hslant : (SLANT_14DEG < SLANT_BITMAP)%Q) by (by vm_compute).
  pose proof (needsSyntheticItalic_true fontStyle_ style_flags) as Hneeds.
  assert (Hsyn : syn = synthesizeItalic format fontStyle_ style_flags isHorizontal
                         x_offset y_offset ftTF bitmap_top imageWidth) by done.
  clearbody syn. unfold synthesizeItalic in Hsyn.
  destruct (needsSyntheticItalic fontStyle_ style_flags) eqn:Hn.
  - (* synthetic italic is needed *)
    destruct (proj1 Hneeds eq_refl) as [Hstyle Hnative].
    split; [done|].
    split.
    { intros -> _ _. subst syn. by destruct isHorizontal. }
    split.
    { intros -> _ _. subst syn. destruct isHorizontal; by eexists _, _. }
    split; [|done]. intros Hit. done.
  - (* it is not *)
    assert (Hnot : ¬ (fontStyle_ ≠ StyleNormal /\ ¬ nativeItalic style_flags)).
    { intros Hc. apply Hneeds in Hc. done. }
    assert (Hplain : sheared (glyphObliqueTf syn) = false /\ bitmapTf syn = None).
    { subst syn. by destruct format. }
    destruct Hplain as (Hg & Hb).
    split.
    { intros [Hs | [t Ht]]; [congruence|]. rewrite Hb in Ht. done. }
    split; [intros _ Hs Hi; destruct Hnot; done|].
    split; [intros _ Hs Hi; destruct Hnot; done|].
    split; [|done]. intros _. by split.
Qed.

(** ** [relayout]: hard breaks as spaces *)

Section SetupProps.
Variables MUST ALLOW GB : Z.
Variable collapseLastSpace : QChar -> bool.
Variable characterCanHang : QChar -> HangingPunctuation -> bool.
Variable wrap : TextWrap.
Variable linebreakStrictness : LineBreak.
Variable lineBreaks graphemeBreaks : list Z.
Variable justify : list (bool * bool).

Lemma replaceHardBreaks_fold (l : list nat) (text : list QChar) :
  let text' :=
    fold_left
      (fun text i =>
         if bool_decide (lineBreaks !! i = Some MUST)
         then <[i := QChar_Space]> text else text) l text in
  length text' = length text
  /\ (forall q, lineBreaks !! q ≠ Some MUST -> text' !! q = text !! q)
  /\ (forall p, lineBreaks !! p = Some MUST -> (p < length text)%nat ->
        p ∈ l \/ text !! p = Some QChar_Space -> text' !! p = Some QChar_Space).
Proof.
  revert text. induction l as [|i l IH]; intros text; cbn [fold_left].
  - split; [done|]. split; [done|].
    intros p _ _ [Hin|Hsp]; [by apply elem_of_nil in Hin | done].
  - set (text1 := if bool_decide _ then _ else _).
    assert (Hlen : length text1 = length text).
    { subst text1. case_bool_decide; [by rewrite length_insert | done]. }
    destruct (IH text1) as (IHlen & IHother & IHhard).
    split; [by rewrite IHlen|]. split.
    + intros q Hq. rewrite IHother by done. subst text1.
      case_bool_decide as Hi; [|done].
      rewrite list_lookup_insert_ne; [done | by intros ->].
    + intros p Hp Hlt Hcase. apply IHhard; [done | by rewrite Hlen |].
      destruct Hcase as [Hin|Hsp].
      * apply elem_of_cons in Hin as [->|Hin]; [|by left].
        right. subst text1. rewrite bool_decide_true by done.
        by rewrite list_lookup_insert_eq.
      * right. subst text1. case_bool_decide as Hi; [|done].
        destruct (decide (p = i)) as [->|Hne].
        -- by rewrite list_lookup_insert_eq.
        -- by rewrite list_lookup_insert_ne.
Qed.

Lemma replaceHardBreaks_spec (text : list QChar) :
  let text' := replaceHardBreaks MUST text lineBreaks in
  length text' = length text
  /\ (forall q, lineBreaks !! q ≠ Some MUST -> text' !! q = text !! q)
  /\ (forall p, lineBreaks !! p = Some MUST -> (p < length text)%nat ->
        text' !! p = Some QChar_Space).
Proof.
  destruct (replaceHardBreaks_fold (seq 0 (length text)) text) as (Hlen & Hother & Hhard).
  split; [done|]. split; [done|].
  intros p Hp Hlt. apply Hhard; [done..|].
  left. apply list_elem_of_In, in_seq. lia.
Qed.

Local Abbreviation setupCharacter_ text :=
  (setupCharacter MUST ALLOW GB collapseLastSpace characterCanHang wrap
     linebreakStrictness text lineBreaks graphemeBreaks justify).
Local Abbreviation setupChunk_ text :=
  (setupChunk MUST ALLOW GB collapseLastSpace characterCanHang wrap
     linebreakStrictness text lineBreaks graphemeBreaks justify).
Local Abbreviation setupResult_ text :=
  (setupResult MUST ALLOW GB collapseLastSpace characterCanHang wrap
     linebreakStrictness text lineBreaks graphemeBreaks justify).

(** The loop body classes a character with a mandatory break as a hard
    break, whatever the text holds for it. *)
Lemma setupCharacter_hard text (chunk_ : SubChunk) (start i : nat) (cr : CR) :
  lineBreaks !! (start + i)%nat = Some MUST ->
  breakType (setupCharacter_ text chunk_ start i cr) = HardBreak.
Proof.
  intros Hmust. unfold setupCharacter.
  rewrite (bool_decide_true _ Hmust).
  set (cr1 := set_lineStart Collapse _).
  assert (H1 : breakType cr1 = HardBreak) by done.
  clearbody cr1.
  rewrite (bool_decide_false (breakType cr1 = NoBreak)) by by rewrite H1.
  rewrite andb_false_r.
  set (cr2 := if _ && bool_decide (wrap ≠ NoWrap) then cr1 else cr1).
  assert (H2 : breakType cr2 = HardBreak) by (subst cr2; by case_match).
  clearbody cr2.
  repeat (case_match; try done).
Qed.

(** The loop over the characters of a sub chunk. *)
Lemma setupChunk_characters text (chunk_ : @SubChunk R) (start : nat) (tabInfo : @TabSizeInfo R)
    (l : list nat) (res : list CR) (tabs : gmap nat (@TabSizeInfo R)) (p : nat) :
  let out :=
    fold_left
      (fun '(res, tabs) i =>
         let tabs :=
           if bool_decide (text !! (start + i)%nat = Some QChar_Tabulation)
           then <[(start + i)%nat := tabInfo]> tabs else tabs in
         (upd (start + i) (setupCharacter_ text chunk_ start i) res, tabs))
      l (res, tabs) in
  length (fst out) = length res
  /\ (lineBreaks !! p = Some MUST -> (p < length res)%nat ->
      (exists i, i ∈ l /\ (start + i)%nat = p) \/ breakType (at_ res p) = HardBreak ->
      breakType (at_ (fst out) p) = HardBreak).
Proof.
  revert res tabs. induction l as [|i l IH]; intros res tabs; cbn [fold_left].
  - split; [done|]. intros _ _ [(i & Hin & _)|Hhard]; [by apply elem_of_nil in Hin | done].
  - match goal with |- context [fold_left _ l (?r, ?t)] => destruct (IH r t) as [IHlen IHhard] end.
    rewrite length_upd in IHlen, IHhard.
    split; [done|]. intros Hmust Hlt Hcase. apply IHhard; [done..|].
    destruct (decide ((start + i)%nat = p)) as [<-|Hne].
    + right. rewrite at_upd_eq by done. by apply setupCharacter_hard.
    + destruct Hcase as [(i' & Hin & Hi')|Hhard].
      * apply elem_of_cons in Hin as [->|Hin]; [done|]. left. by exists i'.
      * right. by rewrite at_upd_ne.
Qed.

(** The loop over the faces of a sub chunk writes the font metrics only. *)
Lemma setupFace_metrics (f : CR -> CR) (l : list nat) (res : list CR) (p : nat) :
  (forall c, breakType (f c) = breakType c) ->
  let res' := fold_left (fun res j => upd j f res) l res in
  length res' = length res /\ breakType (at_ res' p) = breakType (at_ res p).
Proof.
  intros Hf. revert res. induction l as [|j l IHl]; intros res; cbn [fold_left]; [done|].
  destruct (IHl (upd j f res)) as [Hl Hb].
  rewrite length_upd in Hl. split; [done|].
  rewrite Hb. by apply (at_upd_keeps breakType).
Qed.

Lemma setupFace_spec (chunk_ : @SubChunk R) (faces : list (nat * @FaceMetrics R))
    (res : list CR) (start p : nat) :
  let out := fold_left (setupFace chunk_) faces (res, start) in
  length (fst out) = length res
  /\ snd out = (start + sum_list (map fst faces))%nat
  /\ breakType (at_ (fst out) p) = breakType (at_ res p).
Proof.
  revert res start. induction faces as [|[length_ m] faces IH]; intros res start;
    cbn [fold_left].
  - cbn. split; [done|]. split; [lia | done].
  - unfold setupFace at 2.
    match goal with |- context [fold_left _ faces (fold_left ?g ?l res, ?t)] =>
      destruct (IH (fold_left g l res) t) as (IHlen & IHstart & IHbreak);
      destruct (setupFace_metrics
                  (fun c : CR =>
                     set_fontWeight (sc_fontWeight chunk_)
                       (set_fontStyle (sc_fontStyle chunk_)
                          (set_halfLeading (fm_leading m * rhalf)%qr
                             (set_descent (fm_descender m)
                                (set_ascent (fm_ascender m) c)))))
                  l res p) as [Hlen Hbreak]; [done|]
    end.
    split; [exact (eq_trans IHlen Hlen)|]. split; [|exact (eq_trans IHbreak Hbreak)].
    etrans; [exact IHstart|]. cbn. lia.
Qed.

(** One sub chunk: [start] moves on by the lengths of the faces, and a
    mandatory break among the characters of the chunk, or classed
    before, is a hard break after it. *)
Lemma setupChunk_spec text (chunk_ : @SubChunk R) (res : list CR) (start : nat)
    (tabs : gmap nat (@TabSizeInfo R)) (p : nat) :
  let out := setupChunk_ text (res, start, tabs) chunk_ in
  length (fst (fst out)) = length res
  /\ snd (fst out) = (start + sum_list (map fst (sc_faces chunk_)))%nat
  /\ (lineBreaks !! p = Some MUST -> (p < length res)%nat ->
      (start <= p < start + sc_size chunk_)%nat \/ breakType (at_ res p) = HardBreak ->
      breakType (at_ (fst (fst out)) p) = HardBreak).
Proof.
  unfold setupChunk.
  match goal with |- context [fold_left ?f (seq 0 (sc_size chunk_)) (res, tabs)] =>
    match f with
    | context [<[_ := ?tabInfo]> _] =>
        pose proof (setupChunk_characters text chunk_ start tabInfo
                      (seq 0 (sc_size chunk_)) res tabs p) as Hchars
    end;
    cbv zeta in Hchars;
    destruct (fold_left f (seq 0 (sc_size chunk_)) (res, tabs)) as [res1 tabs1] eqn:E1
  end.
  cbn [fst snd] in Hchars. destruct Hchars as [Hlen1 Hhard1].
  pose proof (setupFace_spec chunk_ (sc_faces chunk_) res1 start p) as Hfaces.
  cbv zeta in Hfaces.
  destruct (fold_left (setupFace chunk_) (sc_faces chunk_) (res1, start))
    as [res2 start2] eqn:E2.
  cbn [fst snd] in *. destruct Hfaces as (Hlen2 & Hstart2 & Hbreak2).
  split; [congruence|]. split; [done|].
  intros Hmust Hlt Hcase. rewrite Hbreak2. apply Hhard1; [done..|].
  destruct Hcase as [Hin|Hhard]; [|by right].
  left. exists (p - start)%nat. split; [|lia].
  apply list_elem_of_In, in_seq. lia.
Qed.

(** The loop over the sub chunks. *)
Lemma setupChunks_spec text (textChunks : list (@SubChunk R)) (res : list CR) (start : nat)
    (tabs : gmap nat (@TabSizeInfo R)) (p : nat) :
  Forall facesCover textChunks ->
  let out := fold_left (setupChunk_ text) textChunks (res, start, tabs) in
  length (fst (fst out)) = length res
  /\ (lineBreaks !! p = Some MUST -> (p < length res)%nat ->
      (start <= p < start + chunksSize textChunks)%nat
      \/ breakType (at_ res p) = HardBreak ->
      breakType (at_ (fst (fst out)) p) = HardBreak).
Proof.
  intros Hcover. revert res start tabs.
  induction Hcover as [|chunk_ textChunks Hc _ IH]; intros res start tabs; cbn [fold_left].
  - split; [done|]. unfold chunksSize. cbn. intros _ _ [?|?]; [lia | done].
  - pose proof (setupChunk_spec text chunk_ res start tabs p) as Hchunk.
    cbv zeta in Hchunk.
    destruct (setupChunk_ text (res, start, tabs) chunk_) as [[res1 start1] tabs1].
    cbn [fst snd] in Hchunk. destruct Hchunk as (Hlen1 & Hstart1 & Hhard1).
    destruct (IH res1 start1 tabs1) as [IHlen IHhard].
    split; [congruence|].
    intros Hmust Hlt Hcase. apply IHhard; [done | congruence |].
    rewrite Hstart1, Hc.
    destruct (decide (p < start + sc_size chunk_)%nat) as [Hp|Hp].
    + right. apply Hhard1; [done..|]. destruct Hcase as [?|?]; [left; lia | by right].
    + destruct Hcase as [Hin|Hhard]; [|right; apply Hhard1; [done..|by right]].
      left. unfold chunksSize in *. cbn in Hin. lia.
Qed.

(** The whole setup of [result]. *)
Lemma setupResult_hard text (textChunks : list (@SubChunk R)) (p : nat) :
  Forall facesCover textChunks ->
  lineBreaks !! p = Some MUST ->
  (p < length text)%nat -> (p < chunksSize textChunks)%nat ->
  breakType (at_ (fst (setupResult_ text true textChunks)) p) = HardBreak.
Proof.
  intros Hcover Hmust Hlt Hsize. unfold setupResult.
  pose proof (setupChunks_spec text textChunks
                (replicate (length text) CharacterResult0) 0 ∅ p Hcover) as Hchunks.
  cbv zeta in Hchunks.
  destruct (fold_left _ textChunks _) as [[res start] tabs].
  cbn [fst snd] in *. destruct Hchunks as [Hlen Hhard].
  rewrite length_replicate in Hlen, Hhard.
  assert (Hres : breakType (at_ res p) = HardBreak).
  { apply Hhard; [done..|]. left. lia. }
  destruct res as [|c res]; [done|].
  by rewrite (at_upd_keeps breakType).
Qed.

End SetupProps.

(** The loop that marks the middle of a cluster leaves a hard break as
    it is. *)
Lemma markMiddle_step_hard (st : list CR * nat * bool) (i p : nat) :
  breakType (at_ (fst (fst st)) p) = HardBreak ->
  breakType (at_ (fst (fst (markMiddle_step st i))) p) = HardBreak.
Proof.
  destruct st as [[result firstCluster] setAnchoredChunk]. cbn [fst snd].
  intros Hhard. unfold markMiddle_step.
  destruct (addressable (at_ result i) && _).
  - destruct setAnchoredChunk; cbn [fst]; [|done].
    by rewrite (at_upd_keeps breakType).
  - cbn [fst]. rewrite !(at_upd_keeps breakType) by done.
    set (r1 := if bool_decide (breakType (at_ result firstCluster) ≠ HardBreak) then _ else _).
    assert (H1 : breakType (at_ r1 p) = HardBreak).
    { subst r1. case_bool_decide as Hfc; [|done].
      rewrite at_upd_ne; [done|]. by intros ->. }
    clearbody r1.
    repeat case_bool_decide; rewrite ?(at_upd_keeps breakType); done.
Qed.

Lemma markMiddle_hard (result : list CR) (p : nat) :
  breakType (at_ result p) = HardBreak ->
  breakType (at_ (markMiddle result) p) = HardBreak.
Proof.
  intros Hhard. unfold markMiddle.
  generalize (seq 0 (length result)).
  assert (Hst : breakType (at_ (fst (fst (result, 0%nat, false))) p) = HardBreak) by done.
  revert Hst. generalize (result, 0%nat, false). intros st Hst l. revert st Hst.
  induction l as [|i l IH]; intros st Hst; cbn [fold_left]; [done|].
  apply IH. by apply markMiddle_step_hard.
Qed.

(** ** [relayout]: the cached layout *)

Section RelayoutProps.
Context {Tree Shape Glyph : Type}.
Variable env : @Collaborators R Path Image Brush Tree Shape Glyph.
Variables MUST ALLOW GB : Z.

(** Without a glyph array [relayout] returns with the outlines cleared
    and its private data as they were. *)
Lemma relayout_None (self : @KoSvgTextShape R Path Image Brush Tree Shape) :
  glyphsOf env MUST self = None ->
  relayout env MUST ALLOW GB self
  = mkKoSvgTextShape (clearAssociatedOutlines env (tree self)) (d self).
Proof.
  unfold glyphsOf, relayout. cbv zeta. intros Hnone.
  destruct (match fst (collectedText env _) with [] => _ | _ => _ end) as [graphemeBreaks justify].
  destruct (setupResult _ _ _ _ _ _ _ _ _ _ _ _ _) as [result tabSizeInfo].
  by rewrite Hnone.
Qed.




(** C10, as the code has it.  When the shaper returns no glyph array
    the pass returns before anything is stored: the per-character
    results and the line boxes kept in the private data, and the rest of
    it, are as before.  The tree is not: the outlines associated to its
    shapes were cleared when the pass began. *)
Theorem relayout_without_glyphs_keeps_layout
    (self : @KoSvgTextShape R Path Image Brush Tree Shape) :
  glyphsOf env MUST self = None ->
  d_result (d (relayout env MUST ALLOW GB self)) = d_result (d self)
  /\ d_lineBoxes (d (relayout env MUST ALLOW GB self)) = d_lineBoxes (d self)
  /\ d (relayout env MUST ALLOW GB self) = d self
  /\ tree (relayout env MUST ALLOW GB self) = clearAssociatedOutlines env (tree self).
Proof.
  intros Hnone. by rewrite (relayout_None self Hnone).
Qed.


End RelayoutProps.

(** ** Shape flowing: a word that fits nowhere *)

(** Hiding the characters of a word. *)
Lemma hide_word (l : list nat) (res : list CR) :
  let res' := fold_left (fun res j => upd j (set_hidden true) res) l res in
  length res' = length res
  /\ forall j, j ∈ l \/ hidden (at_ res j) = true -> (j < length res)%nat ->
       hidden (at_ res' j) = true.
Proof.
  revert res. induction l as [|i l IH]; intros res; cbn [fold_left].
  - split; [done|]. intros j [Hin|Hh] _; [by apply elem_of_nil in Hin | done].
  - destruct (IH (upd i (set_hidden true) res)) as [IHlen IHhid].
    rewrite length_upd in IHlen, IHhid. split; [done|].
    intros j Hcase Hlt. apply IHhid; [|done].
    destruct Hcase as [Hin|Hh].
    + apply elem_of_cons in Hin as [->|Hin]; [right; by rewrite at_upd_eq | by left].
    + right. destruct (decide (j = i)) as [->|Hne];
        [by rewrite at_upd_eq | by rewrite at_upd_ne].
Qed.

(** [getFirstPosition] finds no position in a shape no translate of the
    word box lies in. *)
Lemma addCandidate_none (p : Path) (wordBox : QRectF R) (line line2 : QLineF R)
    (candidatePositions : list (QPointF R)) :
  fitsNowhere p wordBox ->
  addCandidate p (wordAtOrigin wordBox) line line2 candidatePositions = candidatePositions.
Proof.
  intros Hfit. unfold addCandidate.
  destruct (line_intersects line line2) as [intersect intersectPoint].
  rewrite Hfit. cbn [negb].
  by repeat case_match.
Qed.

Lemma intersectOffsetLines_none (p : Path) (wordBox : QRectF R)
    (offsetPoly : list (QLineF R)) (candidatePositions : list (QPointF R)) :
  fitsNowhere p wordBox ->
  intersectOffsetLines p (wordAtOrigin wordBox) offsetPoly candidatePositions
  = candidatePositions.
Proof.
  intros Hfit. revert candidatePositions.
  induction offsetPoly as [|line rest IH]; intros cands; cbn [intersectOffsetLines]; [done|].
  rewrite IH. generalize (line :: rest). intros l. revert cands.
  induction l as [|line2 l IHl]; intros cands; cbn [fold_left]; [done|].
  by rewrite addCandidate_none.
Qed.

Lemma getFirstPosition_none (p : Path) (wordBox : QRectF R) (terminator : QPointF R)
    (writingMode : WritingMode) (ltr : bool) :
  fitsNowhere p wordBox ->
  getFirstPosition p wordBox terminator writingMode ltr = None.
Proof.
  intros Hfit. unfold getFirstPosition. cbv zeta.
  fold (wordAtOrigin wordBox).
  assert (Hfold : forall polygons st,
             snd (fold_left (getFirstPosition_polygon p (wordAtOrigin wordBox) r1
                               terminator writingMode) polygons st) = snd st).
  { induction polygons as [|polygon polygons IH]; intros st; cbn [fold_left]; [done|].
    rewrite IH. destruct st as [t cands]. unfold getFirstPosition_polygon.
    destruct writingMode; cbn [snd]; by rewrite intersectOffsetLines_none. }
  specialize (Hfold (path_toFillPolygons p) (terminator, [])).
  destruct (fold_left _ _ _) as [terminatorAdjusted candidatePositions].
  cbn [snd] in Hfold. by subst candidatePositions.
Qed.

(** The search through the shapes fails when the word box fits in none
    of them. *)
Lemma seekFirstPosition_none (properties : Props) (wordBox : QRectF R) (indentLine : bool)
    (shapesIt : list Path) (st : SeekState) :
  Forall (fun p => fitsNowhere p wordBox) (ss_currentShape st :: shapesIt) ->
  fst (seekFirstPosition properties wordBox indentLine shapesIt st) = false.
Proof.
  revert st. induction shapesIt as [|shape shapesIt IH]; intros st Hall;
    apply Forall_cons in Hall as [Hcur Hrest]; cbn [seekFirstPosition];
    rewrite getFirstPosition_none by done; [done|].
  apply IH. done.
Qed.

(** [addWordToLine] hides no character but the first of the word, when
    it collapses at the start of a line. *)
Lemma addWordToLine_step_hidden (wordIndices : list nat) (ltr : bool)
    (s : WordState) (j k : nat) :
  let s' := addWordToLine_step wordIndices ltr s j in
  lineStart (at_ (ws_result s') k) = lineStart (at_ (ws_result s) k)
  /\ (hidden (at_ (ws_result s') k) = hidden (at_ (ws_result s) k)
      \/ (lineStart (at_ (ws_result s) k) = Collapse /\ is_first k wordIndices = true)).
Proof.
  unfold addWordToLine_step. cbv zeta.
  destruct (rect_isEmpty (chunkBoundingBox (ws_chunk s)) && is_first j wordIndices)
    eqn:HatStart.
  - destruct (bool_decide (lineStart (at_ (ws_result s) j) = Collapse)) eqn:Hcollapse;
      cbn [andb ws_result].
    + split; [by apply (at_upd_keeps lineStart)|].
      destruct (decide (k = j)) as [->|Hne].
      * right. apply bool_decide_eq_true in Hcollapse.
        apply andb_true_iff in HatStart as [_ Hfirst]. done.
      * left. by rewrite at_upd_ne.
    + destruct (bool_decide _ && firstLine (ws_line s)); cbn [ws_result];
        (destruct (decide (k = j)) as [->|Hne];
         [destruct (decide (j < length (ws_result s))%nat);
          [rewrite at_insert_eq by done; split; [done | by left]
          |unfold at_; rewrite list_insert_ge by lia; split; [done | by left]]
         |rewrite at_insert_ne by done; split; [done | by left]]).
  - cbn [andb ws_result].
    destruct (decide (k = j)) as [->|Hne];
      [destruct (decide (j < length (ws_result s))%nat);
       [rewrite at_insert_eq by done; split; [done | by left]
       |unfold at_; rewrite list_insert_ge by lia; split; [done | by left]]
      |rewrite at_insert_ne by done; split; [done | by left]].
Qed.

Lemma addWordToLine_fold_hidden (wordIndices : list nat) (ltr : bool) (visit : list nat)
    (s : WordState) (k : nat) :
  let s' := fold_left (addWordToLine_step wordIndices ltr) visit s in
  lineStart (at_ (ws_result s') k) = lineStart (at_ (ws_result s) k)
  /\ (hidden (at_ (ws_result s') k) = hidden (at_ (ws_result s) k)
      \/ (lineStart (at_ (ws_result s) k) = Collapse /\ is_first k wordIndices = true)).
Proof.
  revert s. induction visit as [|j visit IH]; intros s; cbn [fold_left].
  - split; [done | by left].
  - destruct (addWordToLine_step_hidden wordIndices ltr s j k) as [Hs1 Hh1].
    destruct (IH (addWordToLine_step wordIndices ltr s j)) as [Hs2 Hh2].
    split; [congruence|].
    destruct Hh2 as [Hh2|[Hc Hf]].
    + destruct Hh1 as [Hh1|Hh1]; [left; congruence | by right].
    + right. split; [congruence | done].
Qed.

Lemma flow_addWord_placed (properties : Props) (s0 s : FS) :
  fs_result s = fs_result s0 -> fs_wordIndices s = fs_wordIndices s0 ->
  fs_lineBoxes s = fs_lineBoxes s0 ->
  wordPlaced s0 (flow_addWord properties s).
Proof.
  unfold wordPlaced. intros <- <- <-. unfold flow_addWord.
  pose proof (addWordToLine_spec (fs_result s) (fs_currentPos s) (fs_wordIndices s)
                (fs_currentLine s)
                (bool_decide (DirectionId properties = DirectionLeftToRight))) as Hspec.
  pose proof (fun k =>
                addWordToLine_fold_hidden (fs_wordIndices s)
                  (bool_decide (DirectionId properties = DirectionLeftToRight))
                  (fs_wordIndices s)
                  (mkWordState (fs_result s) (fs_currentPos s) (fs_currentPos s)
                     (chunk (fs_currentLine s)) (fs_currentLine s)) k) as Hhid.
  unfold addWordToLine in *. cbv zeta in *.
  cbn [fs_result fs_lineBoxes fs_currentLine fs_wordIndices ws_result] in *.
  destruct Hspec as (_ & _ & _ & (c & Hc & _ & Hchunks & _) & _).
  split; [done|]. split; [done|]. split.
  - exists c, (chunkIndices (chunk (fs_currentLine s))). split; [|done].
    rewrite Hchunks. apply setCurrentChunk_elem.
  - intros j. by destruct (Hhid j) as [_ ?].
Qed.

(** The two ways the search for a new line ends, by whether it finds a
    line. *)
Lemma flow_softBreakBlock_found (properties : Props) (index : nat) (s : FS) :
  let s1 := closeLine properties s in
  let s' := flow_softBreakBlock properties index s in
  (lineFound properties index s = true -> wordPlaced s1 s')
  /\ (lineFound properties index s = false -> wordHidden s1 s')
  /\ (firstTry properties index s = None ->
      Forall (fun p => fitsNowhere p (seekWordBox properties index s))
             (fs_currentShape s1 :: fs_shapesIt s1) ->
      lineFound properties index s = false).
Proof.
  intros s1 s'. subst s1 s'.
  unfold lineFound, seekStart, flow_softBreakBlock, firstTry, seekWordBox, closeLine. cbv zeta.
  set (s1 := if negb (isEmpty (fs_currentLine s)) then _ else s).
  clearbody s1.
  set (wordBox := getEstimatedHeight _ _ _ _ _).
  assert (Hhide : forall currentPos lineOffset textIndent shapesIt currentShape,
             wordHidden s1
               (mkFlowState
                  (fold_left (fun res j => upd j (set_hidden true) res)
                     (fs_wordIndices s1) (fs_result s1))
                  (fs_lineBoxes s1) LineBox0 (fs_wordIndices s1) wordBox
                  (fs_wordAdvance s1) (fs_firstLine s1) (fs_indentLine s1)
                  currentPos lineOffset textIndent shapesIt currentShape)).
  { intros. unfold wordHidden. cbn [fs_currentLine fs_wordIndices fs_lineBoxes fs_result].
    split; [done|]. split; [done|]. split; [done|].
    intros j Hj Hlt. destruct (hide_word (fs_wordIndices s1) (fs_result s1)) as [_ Hh].
    apply Hh; [by left | done]. }
  destruct (path_isEmpty (fs_currentShape s1)) eqn:Hempty; cbn [negb].
  - (* no current shape yet *)
    destruct (seekFirstPosition _ _ _ _ _) as [found st] eqn:Hseek.
    cbn [fst].
    destruct found.
    + split; [intros _; by apply flow_addWord_placed|]. split; [done|].
      intros _ Hall. apply (seekFirstPosition_none properties) with
        (indentLine := fs_indentLine s1) (st := mkSeekState (fs_currentPos s1)
           (fs_lineOffset s1) (fs_textIndent s1)
           (if (if hanging (TextIndentId properties) then negb (fs_indentLine s1)
                else fs_indentLine s1) then fs_textIndent s1 else QPointF0)
           (fs_shapesIt s1) (fs_currentShape s1)) in Hall.
      by rewrite Hseek in Hall.
    + split; [done|]. split; [intros _; apply Hhide | done].
  - destruct (firstLongerChunk _ _ _) as [i|] eqn:Hfirst.
    + split; [intros _; by apply flow_addWord_placed|]. split; done.
    + destruct (seekFirstPosition _ _ _ _ _) as [found st] eqn:Hseek.
      cbn [fst].
      destruct found.
      * split; [intros _; by apply flow_addWord_placed|]. split; [done|].
        intros _ Hall.
        match type of Hseek with
        | seekFirstPosition _ _ ?il ?it ?st0 = _ =>
            apply (seekFirstPosition_none properties wordBox il it st0) in Hall
        end.
        by rewrite Hseek in Hall.
      * split; [done|]. split; [intros _; apply Hhide | done].
Qed.

(** C9, as the code has it.  The search for a new line ends in one of
    two ways.  When it finds a line (the first attempt finds a chunk
    longer than the word, or [getFirstPosition] a position for the word
    box in the current shape or one of those left) the word is placed
    whole at the end of one chunk of that line, whatever the length of
    the chunk.  When it finds none the word is hidden whole and the
    current line left without a chunk.  It finds none when no chunk
    found in the current shape is longer than the word and the word box
    fits in none of the shapes left, so a word wider than every shape is
    hidden, not kept. *)
Theorem flow_softBreakBlock_word (properties : Props) (index : nat) (s : FS) :
  let s1 := closeLine properties s in
  let s' := flow_softBreakBlock properties index s in
  (lineFound properties index s = true -> wordPlaced s1 s')
  /\ (lineFound properties index s = false -> wordHidden s1 s')
  /\ (firstTry properties index s = None ->
      Forall (fun p => fitsNowhere p (seekWordBox properties index s))
             (fs_currentShape s1 :: fs_shapesIt s1) ->
      lineFound properties index s = false).
Proof. apply flow_softBreakBlock_found. Qed.

(** ** The length of [result] *)

Lemma length_fold_left {S A} (get : S -> list CR) (step : S -> A -> S) (visit : list A) :
  (forall s j, length (get (step s j)) = length (get s)) ->
  forall s, length (get (fold_left step visit s)) = length (get s).
Proof.
  intros Hstep. induction visit as [|j visit IH]; intros s; cbn [fold_left]; [done|].
  by rewrite IH, Hstep.
Qed.

Ltac length_simpl :=
  repeat first [ rewrite length_upd | rewrite length_insert ].

Lemma addWordToLine_step_length (wordIndices : list nat) (ltr : bool)
    (s : WordState) (j : nat) :
  length (ws_result (addWordToLine_step wordIndices ltr s j)) = length (ws_result s).
Proof.
  unfold addWordToLine_step. repeat case_match; cbn [ws_result]; by length_simpl.
Qed.

Lemma addWordToLine_length (result : list CR) (currentPos : QPointF R)
    (wordIndices : list nat) (currentLine : LB) (ltr : bool) :
  length (fst (fst (fst (addWordToLine result currentPos wordIndices currentLine ltr))))
  = length result.
Proof.
  unfold addWordToLine. cbn [fst].
  rewrite (length_fold_left ws_result); [done|].
  intros s j. apply addWordToLine_step_length.
Qed.

Lemma handleCollapseAndHang_loop_length (endPos : QPointF R) (inlineSize ltr atEnd : bool)
    (backwards : list nat) (result : list CR) :
  length (handleCollapseAndHang_loop endPos inlineSize ltr atEnd backwards result)
  = length result.
Proof.
  revert result. induction backwards as [|j more IH]; intros result;
    cbn [handleCollapseAndHang_loop]; [done|].
  cbv zeta.
  set (result' := if bool_decide (lineEnd (at_ result j) = Collapse) then _ else _).
  assert (Hstep : length result' = length result).
  { subst result'. repeat case_match; by length_simpl. }
  case_match; [done|]. by rewrite IH.
Qed.

Lemma applyInlineSizeAnchoring_length (result : list CR) (chunk_ : LineChunk)
    (anchor_ : TextAnchor) (anchorPoint : QPointF R) (ltr isHorizontal : bool)
    (textIndent_ : QPointF R) :
  length (applyInlineSizeAnchoring result chunk_ anchor_ anchorPoint ltr isHorizontal
            textIndent_)
  = length result.
Proof.
  unfold applyInlineSizeAnchoring.
  repeat case_match;
    (apply (length_fold_left (fun r => r)); intros s j;
     repeat case_match; by length_simpl).
Qed.

Lemma finalizeChunk_length (currentLine : LB) (lineOffset : QPointF R)
    (anchor_ : TextAnchor) (ltr isHorizontal inlineSize textInShape : bool)
    (st : list CR * QPointF R) (c : LineChunk) :
  length (fst (finalizeChunk currentLine lineOffset anchor_ ltr isHorizontal inlineSize
                 textInShape st c))
  = length (fst st).
Proof.
  destruct st as [result pos0]. unfold finalizeChunk. cbn [fst].
  set (v2l := fold_left _ (chunkIndices c) ∅).
  set (result1 := handleCollapseAndHang _ _ _ _ _).
  set (justifyOffset := if justifyLine currentLine then _ else _).
  set (posLoop := fold_left _ (QMap_values Z.le v2l) (result1, lineOffset)).
  assert (H1 : length result1 = length result)
    by apply handleCollapseAndHang_loop_length.
  assert (H2 : length (fst posLoop) = length result1).
  { subst posLoop.
    apply (length_fold_left (S:=list CR * QPointF R) fst).
    intros [res pos] j. cbn [fst]. case_match; cbn [fst]; by length_simpl. }
  destruct posLoop as [result2 pos2]. cbn [fst] in *.
  case_match; cbn [fst].
  - rewrite applyInlineSizeAnchoring_length. congruence.
  - congruence.
Qed.

Lemma lineHeightOffset_length (writingMode : WritingMode) (result : list CR)
    (currentLine : LB) (firstLine_ : bool) :
  length (snd (fst (lineHeightOffset writingMode result currentLine firstLine_)))
  = length result.
Proof.
  unfold lineHeightOffset.
  destruct (chunks currentLine) as [|c0 rest]; [done|].
  destruct writingMode; cbn [negb]; destruct firstLine_; cbn [negb fst snd];
    (apply (length_fold_left (fun r => r)); intros s j; by length_simpl).
Qed.

Lemma finalizeLine_length (result : list CR) (currentPos : QPointF R) (currentLine : LB)
    (lineOffset : QPointF R) (anchor_ : TextAnchor) (writingMode : WritingMode)
    (ltr inlineSize textInShape : bool) :
  length (fst (fst (fst (finalizeLine result currentPos currentLine lineOffset anchor_
                           writingMode ltr inlineSize textInShape))))
  = length result.
Proof.
  unfold finalizeLine.
  set (loop := fold_left _ (chunks currentLine) (result, currentPos)).
  assert (Hloop : length (fst loop) = length result).
  { subst loop. apply (length_fold_left (S:=list CR * QPointF R) fst).
    intros st c. apply finalizeChunk_length. }
  destruct loop as [result1 pos1]. cbn [fst] in Hloop.
  pose proof (lineHeightOffset_length writingMode result1 currentLine
                (if textInShape then true else firstLine currentLine)) as Hoff.
  destruct (lineHeightOffset _ _ _ _) as [[off result2] line2].
  cbn [fst snd] in *. congruence.
Qed.

(** ** Shape flowing: where the characters go *)

Lemma line_same (a b : LB) :
  chunks b = chunks a -> currentChunk b = currentChunk a ->
  lineIndicesOf b = lineIndicesOf a /\ chunk b = chunk a /\ isEmpty b = isEmpty a
  /\ (wf_line a -> wf_line b) /\ (line_ok a -> line_ok b).
Proof.
  intros Hc Hcur. unfold line_ok, wf_line, lineIndicesOf, chunk, isEmpty.
  rewrite Hc, Hcur. naive_solver.
Qed.

Lemma insert_concat_perm (l : list (@LineChunk R)) (n : nat) (c0 c : LineChunk)
    (w : list nat) :
  l !! n = Some c0 -> chunkIndices c = chunkIndices c0 ++ w ->
  concat (map chunkIndices (<[n := c]> l)) ≡ₚ concat (map chunkIndices l) ++ w.
Proof.
  revert n. induction l as [|x l IH]; intros n Hn Hc; [done|].
  destruct n as [|n]; cbn in *.
  - simplify_eq. rewrite Hc. by rewrite <- !(assoc (++)), (comm (++) w).
  - rewrite (IH n Hn Hc). by rewrite (assoc (++)).
Qed.

(** Writing back the current chunk with a word added to it. *)
Lemma setCurrentChunk_indices (c : LineChunk) (lb : LB) (w : list nat) :
  wf_line lb -> chunkIndices c = chunkIndices (chunk lb) ++ w ->
  lineIndicesOf (setCurrentChunk c lb) ≡ₚ lineIndicesOf lb ++ w
  /\ chunk (setCurrentChunk c lb) = c
  /\ wf_line (setCurrentChunk c lb)
  /\ chunks (setCurrentChunk c lb) ≠ [].
Proof.
  intros [Hrange Hnone] Hc.
  destruct (setCurrentChunk_spec c lb) as (Hcur & _ & Hchunks).
  cbv zeta in *.
  unfold lineIndicesOf, chunk, wf_line. rewrite Hcur, Hchunks.
  unfold chunk, value_ in Hc.
  destruct (Z.max (currentChunk lb) 0 <? Z.of_nat (length (chunks lb)))%Z eqn:Hlt.
  - apply Z.ltb_lt in Hlt.
    assert (Hcc : (0 <= currentChunk lb)%Z).
    { destruct (decide (currentChunk lb = -1)%Z) as [Heq|Hne]; [|lia].
      rewrite (Hnone Heq) in Hlt. cbn in Hlt. lia. }
    rewrite Z.max_l in * by lia.
    assert (Hin : (0 <=? currentChunk lb)%Z && (currentChunk lb <? Z.of_nat (length (chunks lb)))%Z
                  = true).
    { apply andb_true_iff. split; [by apply Z.leb_le | by apply Z.ltb_lt]. }
    rewrite Hin in Hc.
    assert (Hlook : chunks lb !! Z.to_nat (currentChunk lb)
                    = Some (nth (Z.to_nat (currentChunk lb)) (chunks lb) LineChunk0)).
    { rewrite nth_lookup. destruct (lookup_lt_is_Some_2 (chunks lb) (Z.to_nat (currentChunk lb)))
        as [x Hx]; [lia|]. by rewrite Hx. }
    split; [by eapply insert_concat_perm|].
    split.
    { unfold value_. rewrite length_insert, Hin, nth_lookup.
      rewrite list_lookup_insert_eq by lia. done. }
    split; [rewrite length_insert; split; [lia | intros; lia]|].
    intros Hnil. apply (f_equal length) in Hnil. rewrite length_insert in Hnil.
    cbn in Hnil. lia.
  - apply Z.ltb_ge in Hlt.
    assert (Hout : (0 <=? currentChunk lb)%Z && (currentChunk lb <? Z.of_nat (length (chunks lb)))%Z
                   = false).
    { apply andb_false_iff. destruct (decide (currentChunk lb < 0)%Z).
      - left. by apply Z.leb_gt.
      - right. apply Z.ltb_ge. lia. }
    rewrite Hout in Hc. cbn in Hc.
    split; [by rewrite map_app, concat_app; cbn; rewrite app_nil_r, Hc|].
    assert (Hmax : Z.max (currentChunk lb) 0 = Z.of_nat (length (chunks lb))) by lia.
    split.
    { unfold value_. rewrite length_app. cbn [length].
      rewrite Hmax.
      assert (Hin : (0 <=? Z.of_nat (length (chunks lb)))%Z
                    && (Z.of_nat (length (chunks lb)) <? Z.of_nat (length (chunks lb) + 1))%Z
                    = true).
      { apply andb_true_iff. split; [apply Z.leb_le | apply Z.ltb_lt]; lia. }
      rewrite Hin, Nat2Z.id, nth_lookup.
      rewrite lookup_app_r by lia. by rewrite Nat.sub_diag. }
    split; [rewrite length_app; cbn [length]; split; [lia | intros; lia]|].
    by destruct (chunks lb).
Qed.

Lemma isEmpty_false (lb : LB) :
  isEmpty lb = false <-> chunks lb ≠ [] /\ chunkIndices (chunk lb) ≠ [].
Proof.
  unfold isEmpty, chunk. destruct (chunks lb) eqn:Hc.
  - split; [done | by intros [? _]].
  - destruct (chunkIndices _); split; try done. by intros [_ ?].
Qed.

Lemma app_not_nil (a b : list nat) : a ≠ [] \/ b ≠ [] -> a ++ b ≠ [].
Proof. intros [Ha|Hb] Hnil; apply app_eq_nil in Hnil as [? ?]; done. Qed.

Lemma perm_nil_app (a b c : list nat) :
  a ≡ₚ b ++ c -> a ≠ [] -> b ≠ [] \/ c ≠ [].
Proof.
  intros Hp Ha. destruct b; [|by left]. right. intros ->.
  apply Permutation_nil_r in Hp. done.
Qed.

(** [addWordToLine] in the loop of [flowTextInShapes]. *)
Lemma flow_addWord_spec (properties : Props) (s : FS) :
  wf_line (fs_currentLine s) ->
  let s' := flow_addWord properties s in
  fs_wordIndices s' = [] /\ fs_lineBoxes s' = fs_lineBoxes s
  /\ lineIndicesOf (fs_currentLine s') ≡ₚ lineIndicesOf (fs_currentLine s) ++ fs_wordIndices s
  /\ (line_ok (fs_currentLine s) \/ fs_wordIndices s ≠ [] -> line_ok (fs_currentLine s'))
  /\ unchanged_outside (fs_wordIndices s) (fs_result s) (fs_result s')
  /\ length (fs_result s') = length (fs_result s).
Proof.
  intros Hwf. unfold flow_addWord.
  pose proof (addWordToLine_spec (fs_result s) (fs_currentPos s) (fs_wordIndices s)
                (fs_currentLine s)
                (bool_decide (DirectionId properties = DirectionLeftToRight))) as Hspec.
  pose proof (addWordToLine_length (fs_result s) (fs_currentPos s) (fs_wordIndices s)
                (fs_currentLine s)
                (bool_decide (DirectionId properties = DirectionLeftToRight))) as Hlen.
  destruct (addWordToLine _ _ _ _ _) as [[[result' pos'] word'] line'].
  cbn [fst snd fs_wordIndices fs_lineBoxes fs_currentLine fs_result] in *.
  destruct Hspec as (-> & Hun & _ & (c & Hc & _ & Hchunks & Hcur) & _).
  destruct (setCurrentChunk_indices c (fs_currentLine s) (fs_wordIndices s) Hwf Hc)
    as (Hperm & Hchunk & Hwf' & Hne).
  destruct (line_same (setCurrentChunk c (fs_currentLine s)) line' Hchunks Hcur)
    as (Hidx & Hchunk' & Hempty & Hwfs & _).
  split; [done|]. split; [done|]. rewrite Hidx.
  split; [done|]. split; [|done].
  intros Hcase. split; [by apply Hwfs|].
  intros Hnonempty. rewrite Hempty. apply isEmpty_false. split; [done|].
  rewrite Hchunk, Hc.
  rewrite Hidx in Hnonempty.
  apply app_not_nil.
  destruct (perm_nil_app _ _ _ Hperm Hnonempty) as [Hline|Hword]; [|by right].
  destruct Hcase as [[_ Hok]|Hword]; [|by right].
  left. by apply Hok, isEmpty_false in Hline as [_ Hline].
Qed.

(** [finalizeLine] and the append that follows it. *)
Lemma flow_finalizeAndAppend_spec (properties : Props) (s : FS) :
  let s' := flow_finalizeAndAppend properties s in
  fs_lineBoxes s' = fs_lineBoxes s ++ [fs_currentLine s']
  /\ same_chunks (fs_currentLine s) (fs_currentLine s')
  /\ fs_wordIndices s' = fs_wordIndices s
  /\ unchanged_outside (lineIndicesOf (fs_currentLine s)) (fs_result s) (fs_result s')
  /\ length (fs_result s') = length (fs_result s).
Proof.
  unfold flow_finalizeAndAppend.
  match goal with |- context [finalizeLine ?r ?p ?l ?o ?a ?w ?d ?i ?t] =>
    pose proof (finalizeLine_spec r p l o a w d i t) as Hspec;
    pose proof (finalizeLine_length r p l o a w d i t) as Hlen;
    destruct (finalizeLine r p l o a w d i t) as [[[result' pos'] line'] off']
  end.
  cbn [fst snd fs_wordIndices fs_lineBoxes fs_currentLine fs_result] in *.
  destruct Hspec as [Hsame Hun].
  split; [done|]. split; [done|]. split; [done|]. split; done.
Qed.

Lemma unchanged_perm (l l' : list nat) (r r' : list CR) :
  (forall x, x ∈ l -> x ∈ l') -> unchanged_outside l r r' -> unchanged_outside l' r r'.
Proof. intros Hsub Hun. eapply unchanged_mono; [|exact Hun]. done. Qed.

Lemma flowInv_line_seen (result0 : list CR) (seen : list nat) (s : FS) (x : nat) :
  flowInv result0 seen s -> x ∈ lineIndicesOf (fs_currentLine s) -> x ∈ seen.
Proof.
  intros (_ & Hperm & _) Hx. rewrite <- Hperm. unfold fplaced.
  apply elem_of_app. left. apply elem_of_app. by right.
Qed.

Lemma flowInv_word_seen (result0 : list CR) (seen : list nat) (s : FS) (x : nat) :
  flowInv result0 seen s -> x ∈ fs_wordIndices s -> x ∈ seen.
Proof.
  intros (_ & Hperm & _) Hx. rewrite <- Hperm. apply elem_of_app. by right.
Qed.

(** The start of the search for a new line: a line that holds characters
    is among the line boxes. *)
Lemma closeLine_spec (properties : Props) (result0 : list CR) (seen : list nat) (s : FS) :
  flowInv result0 seen s ->
  let s1 := closeLine properties s in
  allChunkIndices (fs_lineBoxes s1) = fplaced s
  /\ fs_wordIndices s1 = fs_wordIndices s
  /\ unchanged_outside (lineIndicesOf (fs_currentLine s)) (fs_result s) (fs_result s1)
  /\ length (fs_result s1) = length (fs_result s).
Proof.
  intros Hinv. pose proof Hinv as ([Hwf Hok] & Hperm & Hun & Hlen).
  unfold closeLine. destruct (isEmpty (fs_currentLine s)) eqn:Hempty; cbn [negb].
  - assert (Hnil : lineIndicesOf (fs_currentLine s) = []).
    { destruct (lineIndicesOf (fs_currentLine s)) eqn:E; [done|].
      exfalso. by discriminate Hok. }
    unfold fplaced. rewrite Hnil, app_nil_r.
    split; [done|]. split; [done|]. split; [apply unchanged_refl | done].
  - destruct (flow_finalizeAndAppend_spec properties s) as (Hboxes & Hsame & Hword & Hun' & Hlen').
    cbv zeta in *. cbn [fs_lineBoxes fs_wordIndices fs_result].
    split; [|by repeat split].
    rewrite Hboxes. unfold fplaced, allChunkIndices.
    rewrite map_app, concat_app. cbn [map concat]. rewrite app_nil_r.
    by rewrite (same_chunks_lineIndicesOf _ _ Hsame).
Qed.

(** A line as [LineBox(lineWidths, ltr, indent)] makes it holds no
    character. *)
Lemma LineBox_of_lines_spec (lineWidths : list (QLineF R)) (ltr : bool) (indent : QPointF R) :
  let lb := LineBox_of_lines lineWidths ltr indent in
  lineIndicesOf lb = [] /\ wf_line lb.
Proof.
  unfold LineBox_of_lines, lineIndicesOf, wf_line.
  cbn [chunks currentChunk set_currentChunk set_chunks set_textIndent].
  split.
  - destruct ltr.
    + induction lineWidths as [|l ls IH]; [done|]. cbn. exact IH.
    + rewrite <- map_rev. induction (rev lineWidths) as [|l ls IH]; [done|]. cbn. exact IH.
  - assert (Hlen : length (if ltr
                           then map (fun line => mkLineChunk line [] QRectF0) lineWidths
                           else rev (map (fun line => mkLineChunk (mkQLineF (p2 line) (p1 line))
                                                        [] QRectF0) lineWidths))
                   = length lineWidths).
    { destruct ltr; rewrite ?length_rev, ?length_map; done. }
    rewrite Hlen. destruct lineWidths; cbn; split; try lia; try done.
    intros _. by destruct ltr.
Qed.

Lemma firstLongerChunk_range (length_ : R) (cs : list (@LineChunk R)) (i0 i : Z) :
  firstLongerChunk length_ cs i0 = Some i -> (i0 <= i < i0 + Z.of_nat (length cs))%Z.
Proof.
  revert i0. induction cs as [|c cs IH]; intros i0 Hfind; cbn in *; [done|].
  case_match.
  - simplify_eq. lia.
  - apply IH in Hfind. lia.
Qed.

Lemma findChunkForPos_range (pos : QPointF R) (isHorizontal : bool)
    (cs : list (@LineChunk R)) (i0 i : Z) :
  findChunkForPos pos isHorizontal cs i0 = Some i -> (i0 <= i < i0 + Z.of_nat (length cs))%Z.
Proof.
  revert i0. induction cs as [|c cs IH]; intros i0 Hfind; cbn in *; [done|].
  case_match.
  - simplify_eq. lia.
  - apply IH in Hfind. lia.
Qed.

(** A line with no character stays one when its current chunk is set to
    one of its chunks. *)
Lemma fresh_line_set (lb lb' : LB) :
  lineIndicesOf lb = [] -> wf_line lb ->
  chunks lb' = chunks lb ->
  currentChunk lb' = currentChunk lb
  \/ (0 <= currentChunk lb' < Z.of_nat (length (chunks lb)))%Z ->
  lineIndicesOf lb' = [] /\ wf_line lb'.
Proof.
  intros Hnil [Hrange Hnone] Hc Hcur. unfold lineIndicesOf, wf_line in *. rewrite Hc.
  split; [done|]. destruct Hcur as [->|Hi]; [done|].
  split; [lia | intros; lia].
Qed.

Lemma hide_word_unchanged (l : list nat) (res : list CR) :
  unchanged_outside l res (fold_left (fun res j => upd j (set_hidden true) res) l res).
Proof.
  apply (unchanged_fold_left (fun r => r)). intros r j Hj. by apply unchanged_upd.
Qed.

(** The search for a new line keeps the characters where they are, or
    hides the word. *)
Lemma flow_softBreakBlock_inv (properties : Props) (result0 : list CR) (seen : list nat)
    (index : nat) (s : FS) :
  flowInv result0 seen s ->
  let s' := flow_softBreakBlock properties index s in
  flowInv result0 seen s' /\ pendingHidden s'.
Proof.
  intros Hinv.
  destruct (closeLine_spec properties result0 seen s Hinv) as (Hboxes & Hword & Hun1 & Hlen1).
  pose proof Hinv as (_ & Hperm & Hun & Hlen).
  revert Hboxes Hword Hun1 Hlen1.
  unfold flow_softBreakBlock, closeLine. cbv zeta.
  set (s1 := if negb (isEmpty (fs_currentLine s)) then _ else s).
  clearbody s1. intros Hboxes Hword Hun1 Hlen1.
  set (wordBox := getEstimatedHeight _ _ _ _ _).
  assert (Hres1 : unchanged_outside seen result0 (fs_result s1)).
  { eapply unchanged_trans; [exact Hun|].
    eapply unchanged_perm; [|exact Hun1]. intros x. apply (flowInv_line_seen result0 seen s x Hinv). }
  assert (Hhide : forall currentPos lineOffset textIndent shapesIt currentShape,
             let s' := mkFlowState
                         (fold_left (fun res j => upd j (set_hidden true) res)
                            (fs_wordIndices s1) (fs_result s1))
                         (fs_lineBoxes s1) LineBox0 (fs_wordIndices s1) wordBox
                         (fs_wordAdvance s1) (fs_firstLine s1) (fs_indentLine s1)
                         currentPos lineOffset textIndent shapesIt currentShape in
             flowInv result0 seen s' /\ pendingHidden s').
  { intros. subst s'. unfold flowInv, pendingHidden, fplaced.
    cbn [fs_currentLine fs_wordIndices fs_lineBoxes fs_result].
    destruct (hide_word (fs_wordIndices s1) (fs_result s1)) as [Hl Hh].
    split; [split; [|split; [|split]]|].
    - split; [split; [cbn; lia | done] | done].
    - rewrite Hboxes, Hword. cbn. by rewrite app_nil_r.
    - eapply unchanged_trans; [exact Hres1|].
      eapply unchanged_perm; [|apply hide_word_unchanged].
      intros x Hx. rewrite Hword in Hx. exact (flowInv_word_seen result0 seen s x Hinv Hx).
    - cbv zeta in Hl. congruence.
    - intros j Hj Hlt. apply Hh; [by left|]. cbv zeta in Hl. by rewrite Hl in Hlt. }
  assert (Hplace : forall line wordBox' currentPos lineOffset textIndent shapesIt currentShape,
             lineIndicesOf line = [] /\ wf_line line ->
             let s' := flow_addWord properties
                         (mkFlowState (fs_result s1) (fs_lineBoxes s1) line (fs_wordIndices s1)
                            wordBox' (fs_wordAdvance s1) (fs_firstLine s1) (fs_indentLine s1)
                            currentPos lineOffset textIndent shapesIt currentShape) in
             flowInv result0 seen s' /\ pendingHidden s').
  { intros line wb pos off ti it cs [Hnil Hwf].
    match goal with |- let s' := flow_addWord _ ?st in _ =>
      destruct (flow_addWord_spec properties st Hwf) as (Hw & Hb & Hp & Hok & Hu & Hl)
    end.
    cbv zeta in *. cbn [fs_currentLine fs_wordIndices fs_lineBoxes fs_result] in *.
    unfold flowInv, pendingHidden, fplaced. rewrite Hw, Hb, Hl.
    split; [split; [|split; [|split]]|].
    - apply Hok. left. split; [done|]. by rewrite Hnil.
    - rewrite app_nil_r, Hp, Hnil, Hboxes, Hword. done.
    - eapply unchanged_trans; [exact Hres1|].
      eapply unchanged_perm; [|exact Hu].
      intros x Hx. rewrite Hword in Hx. exact (flowInv_word_seen result0 seen s x Hinv Hx).
    - congruence.
    - intros j Hj. by apply elem_of_nil in Hj. }
  assert (Hfresh : forall lineWidths ltr indent (lb' : LB),
             chunks lb' = chunks (LineBox_of_lines lineWidths ltr indent) ->
             currentChunk lb' = currentChunk (LineBox_of_lines lineWidths ltr indent)
             \/ (0 <= currentChunk lb'
                  < Z.of_nat (length (chunks (LineBox_of_lines lineWidths ltr indent))))%Z ->
             lineIndicesOf lb' = [] /\ wf_line lb').
  { intros lineWidths ltr indent lb' Hc Hcur.
    destruct (LineBox_of_lines_spec lineWidths ltr indent) as [Hnil Hwf].
    by eapply fresh_line_set. }
  assert (Hseek : forall pos isHorizontal lineWidths ltr indent,
             let lb := setCurrentChunkForPos pos isHorizontal
                         (LineBox_of_lines lineWidths ltr indent) in
             chunks lb = chunks (LineBox_of_lines lineWidths ltr indent)
             /\ (currentChunk lb = currentChunk (LineBox_of_lines lineWidths ltr indent)
                 \/ (0 <= currentChunk lb
                      < Z.of_nat (length (chunks (LineBox_of_lines lineWidths ltr indent))))%Z)).
  { intros. subst lb. unfold setCurrentChunkForPos.
    destruct (findChunkForPos _ _ _ _) as [i|] eqn:Hfind; [|by split; [|left]].
    apply findChunkForPos_range in Hfind. split; [done|]. right. cbn [currentChunk set_currentChunk].
    lia. }
  destruct (path_isEmpty (fs_currentShape s1)) eqn:Hempty; cbn [negb].
  - destruct (seekFirstPosition _ _ _ _ _) as [found st] eqn:Hseekres.
    destruct found; [|apply Hhide].
    apply Hplace. eapply Hfresh; cbn [chunks currentChunk set_justifyLine set_expectedLineTop
                                        set_firstLine]; apply Hseek.
  - destruct (firstLongerChunk _ _ _) as [i|] eqn:Hfirst.
    + apply Hplace. apply firstLongerChunk_range in Hfirst.
      eapply Hfresh; cbn [chunks currentChunk set_justifyLine set_expectedLineTop
                            set_firstLine set_currentChunk]; [reflexivity|].
      right. lia.
    + destruct (seekFirstPosition _ _ _ _ _) as [found st] eqn:Hseekres.
      destruct found; [|apply Hhide].
      apply Hplace. eapply Hfresh; cbn [chunks currentChunk set_justifyLine set_expectedLineTop
                                          set_firstLine]; apply Hseek.
Qed.

Lemma flowInv_line (result0 : list CR) (seen : list nat) (s s' : FS) :
  flowInv result0 seen s ->
  fs_result s' = fs_result s -> fs_lineBoxes s' = fs_lineBoxes s ->
  fs_wordIndices s' = fs_wordIndices s ->
  chunks (fs_currentLine s') = chunks (fs_currentLine s) ->
  currentChunk (fs_currentLine s') = currentChunk (fs_currentLine s)
  \/ (chunks (fs_currentLine s) = [] /\ currentChunk (fs_currentLine s') = 0%Z) ->
  flowInv result0 seen s'.
Proof.
  intros ([[Hrange Hnone] Hok] & Hperm & Hun & Hlen) Hr Hb Hw Hc Hcur.
  unfold flowInv, fplaced, line_ok, wf_line, lineIndicesOf, isEmpty in *.
  rewrite Hr, Hb, Hw, Hc.
  destruct Hcur as [->|[Hnil ->]]; [done|].
  rewrite Hnil in *. cbn in *. split; [|done].
  split; [split; [lia | done] | done].
Qed.

(** The word is added to the chunk [i] of the current line. *)
Lemma flow_place_inv (properties : Props) (result0 : list CR) (seen : list nat)
    (i : Z) (s : FS) :
  flowInv result0 seen s -> fs_wordIndices s ≠ [] ->
  (0 <= i <= Z.of_nat (length (chunks (fs_currentLine s))))%Z ->
  flowInv result0 seen
    (flow_addWord properties (flow_setLine (set_currentChunk i (fs_currentLine s)) s)).
Proof.
  intros Hinv Hword Hi. pose proof Hinv as (_ & Hperm & Hun & Hlen).
  assert (Hwf : wf_line (set_currentChunk i (fs_currentLine s))).
  { unfold wf_line. cbn [chunks currentChunk set_currentChunk]. split; [lia | intros; lia]. }
  match goal with |- flowInv _ _ (flow_addWord _ ?st) =>
    destruct (flow_addWord_spec properties st Hwf) as (Hw & Hb & Hp & Hok & Hu & Hl)
  end.
  cbv zeta in *.
  cbn [flow_setLine fs_currentLine fs_wordIndices fs_lineBoxes fs_result] in *.
  unfold flowInv, fplaced. rewrite Hw, Hb, Hl.
  split; [|split; [|split]].
  - apply Hok. by right.
  - rewrite app_nil_r, Hp. rewrite <- Hperm. unfold fplaced.
    by rewrite (assoc (++)).
  - eapply unchanged_trans; [exact Hun|].
    eapply unchanged_perm; [|exact Hu].
    intros x Hx. exact (flowInv_word_seen result0 seen s x Hinv Hx).
  - done.
Qed.

(** The loop over the chunks of the current line. *)
Lemma fitInChunks_inv (properties : Props) (result0 : list CR) (seen : list nat)
    (n : nat) (i : Z) (s : FS) (softBreak : bool) :
  flowInv result0 seen s -> fs_wordIndices s ≠ [] ->
  (i = (-1)%Z /\ chunks (fs_currentLine s) = [] /\ (n <= 1)%nat)
  \/ ((0 <= i)%Z
      /\ (n = 0%nat
          \/ (i + Z.of_nat n <= Z.of_nat (length (chunks (fs_currentLine s))))%Z)) ->
  let out := fitInChunks properties n i s softBreak in
  flowInv result0 seen (fst out) /\ (softBreak = true -> snd out = true).
Proof.
  revert i s. induction n as [|n IH]; intros i s Hinv Hword Hpre; cbn [fitInChunks].
  - done.
  - cbv zeta.
    set (is2 := if (i =? -1)%Z then _ else (i, s)).
    assert (H2 : flowInv result0 seen (snd is2) /\ fs_wordIndices (snd is2) ≠ []
                 /\ chunks (fs_currentLine (snd is2)) = chunks (fs_currentLine s)
                 /\ (0 <= fst is2 <= Z.of_nat (length (chunks (fs_currentLine s))))%Z
                 /\ (n = 0%nat
                     \/ (fst is2 + 1 + Z.of_nat n
                          <= Z.of_nat (length (chunks (fs_currentLine s))))%Z)).
    { subst is2. destruct (i =? -1)%Z eqn:Hi; cbn [fst snd].
      - apply Z.eqb_eq in Hi. destruct Hpre as [(_ & Hnil & Hn)|[Hge _]]; [|lia].
        split; [eapply flowInv_line; [exact Hinv|done..|by right]|].
        split; [done|]. split; [done|]. rewrite Hnil. cbn.
        split; [lia|]. left. lia.
      - apply Z.eqb_neq in Hi. destruct Hpre as [(Heq & _)|[Hge Hn]]; [done|].
        split; [done|]. split; [done|]. split; [done|].
        destruct Hn as [?|?]; [done|]. split; [lia|]. right. lia. }
    destruct is2 as [i2 s2]. cbn [fst snd] in H2.
    destruct H2 as (Hinv2 & Hword2 & Hchunks2 & Hi2 & Hrange2).
    destruct (0 <? _)%Z.
    + destruct (i2 =? _)%Z eqn:Hlast; [done|].
      apply IH.
      * eapply flowInv_line; [exact Hinv2|done..|by left].
      * done.
      * right. split; [lia|]. cbn [flow_setPos fs_currentLine]. rewrite Hchunks2.
        destruct Hrange2 as [?|?]; [by left | right; lia].
    + cbn [fst snd]. split; [|done].
      apply flow_place_inv; [done..|]. by rewrite Hchunks2.
Qed.

(** The first part of an iteration: the character joins the word. *)
Lemma flow_wordBlock_inv (properties : Props) (result0 : list CR) (seen : list nat)
    (index : nat) (hasNext : bool) (charResult : CR) (s : FS) :
  flowInv result0 seen s ->
  let out := flow_wordBlock properties index hasNext charResult s in
  flowInv result0 (seen ++ [index]) (fst out) /\ (hasNext = false -> snd out = true).
Proof.
  intros Hinv. pose proof Hinv as ([Hwf Hok] & Hperm & Hun & Hlen).
  unfold flow_wordBlock. cbv zeta.
  destruct (if negb _ then _ else (fs_wordBox s, fs_wordAdvance s)) as [wordBox wordAdvance].
  set (line2 := if lastLine (set_lastLine (negb hasNext) (fs_currentLine s)) then _ else _).
  assert (Hline2 : chunks line2 = chunks (fs_currentLine s)
                   /\ currentChunk line2 = currentChunk (fs_currentLine s)
                   /\ lastLine line2 = negb hasNext).
  { subst line2. by destruct (lastLine _) eqn:E. }
  destruct Hline2 as (Hc2 & Hcur2 & Hlast2).
  set (s2 := mkFlowState _ _ line2 _ _ _ _ _ _ _ _ _ _).
  assert (Hinv2 : flowInv result0 (seen ++ [index]) s2).
  { destruct (line_same (fs_currentLine s) line2 Hc2 Hcur2) as (Hidx & _ & _ & _ & Hok2).
    subst s2. unfold flowInv, fplaced.
    cbn [fs_currentLine fs_wordIndices fs_lineBoxes fs_result].
    split; [by apply Hok2|]. split; [|split; [|done]].
    - rewrite Hidx, (assoc (++)). unfold fplaced in Hperm. by rewrite Hperm.
    - eapply unchanged_perm; [|exact Hun]. intros x Hx. apply elem_of_app. by left. }
  rewrite Hlast2.
  destruct (bool_decide (breakType charResult ≠ NoBreak) || negb hasNext) eqn:Hcond.
  - pose proof Hinv2 as ([[Hrange2 Hnone2] _] & _).
    subst s2. cbn [fs_currentLine] in Hrange2, Hnone2.
    match goal with |- context [fitInChunks _ ?n ?i ?st ?sb] =>
      destruct (fitInChunks_inv properties result0 (seen ++ [index]) n i st sb) as [Hfit Hsb]
    end.
    + done.
    + cbn [fs_wordIndices]. by destruct (fs_wordIndices s).
    + cbn [fs_currentLine]. rewrite Hc2, Hcur2 in *.
      destruct (decide (currentChunk (fs_currentLine s) = -1)%Z) as [Heq|Hne].
      * left. rewrite Heq. split; [done|]. split; [by apply Hnone2|].
        rewrite (Hnone2 Heq). cbn. lia.
      * right. split; [lia|]. right.
        apply Z.eqb_neq in Hne. rewrite Hne. lia.
    + split; [done|]. intros ->. apply Hsb. by destruct (chunks line2).
  - cbn [fst snd]. split; [done|]. intros ->. by rewrite orb_true_r in Hcond.
Qed.

Lemma flowInv_NoDup (result0 : list CR) (seen : list nat) (s : FS) :
  flowInv result0 seen s -> NoDup seen ->
  forall j, j ∈ fs_wordIndices s -> j ∉ lineIndicesOf (fs_currentLine s).
Proof.
  intros (_ & Hperm & _) Hnodup j Hj Hin.
  rewrite <- Hperm in Hnodup. apply NoDup_app in Hnodup as (_ & Hdisj & _).
  apply (Hdisj j); [|done]. unfold fplaced. apply elem_of_app. by right.
Qed.

(** The block for a hard break. *)
Lemma flow_hardBreakBlock_inv (properties : Props) (result0 : list CR) (seen : list nat)
    (s : FS) :
  flowInv result0 seen s -> NoDup seen ->
  let s' := flow_hardBreakBlock properties s in
  flowInv result0 seen s' /\ (pendingHidden s -> pendingHidden s').
Proof.
  intros Hinv Hnodup. pose proof Hinv as (_ & Hperm & Hun & Hlen).
  destruct (flow_finalizeAndAppend_spec properties s) as (Hboxes & Hsame & Hword & Hun' & Hlen').
  unfold flow_hardBreakBlock. cbv zeta in *.
  unfold flowInv, pendingHidden, fplaced.
  cbn [fs_currentLine fs_wordIndices fs_lineBoxes fs_result].
  rewrite Hboxes, Hword, Hlen'. split; [split; [|split; [|split]]|].
  - split; [split; [cbn; lia | done] | done].
  - unfold allChunkIndices. rewrite map_app, concat_app. cbn. rewrite !app_nil_r.
    rewrite <- (same_chunks_lineIndicesOf _ _ Hsame). exact Hperm.
  - eapply unchanged_trans; [exact Hun|].
    eapply unchanged_perm; [|exact Hun']. intros x. apply (flowInv_line_seen result0 seen s x Hinv).
  - done.
  - intros Hhid j Hj Hlt. rewrite Hun'; [by apply Hhid|].
    by eapply flowInv_NoDup.
Qed.

(** One iteration, for a character that is addressable. *)
Lemma flow_step_inv (properties : Props) (result0 : list CR) (seen : list nat)
    (index : nat) (hasNext : bool) (s : FS) :
  flowInv result0 seen s -> NoDup (seen ++ [index]) ->
  addressable (at_ result0 index) = true ->
  let s' := flow_step properties index hasNext s in
  flowInv result0 (seen ++ [index]) s' /\ (hasNext = false -> pendingHidden s').
Proof.
  intros Hinv Hnodup Haddr. pose proof Hinv as (_ & _ & Hun & _).
  unfold flow_step. cbv zeta.
  assert (Hnew : index ∉ seen).
  { apply NoDup_app in Hnodup as (_ & Hdisj & _). intros Hin.
    apply (Hdisj index Hin). by left. }
  rewrite (Hun index Hnew), Haddr. cbn [negb].
  destruct (flow_wordBlock_inv properties result0 seen index hasNext (at_ result0 index) s Hinv)
    as [Hinv1 Hsb].
  destruct (flow_wordBlock _ _ _ _ _) as [s1 softBreak]. cbn [fst snd] in *.
  set (s2 := if softBreak then _ else s1).
  assert (H2 : flowInv result0 (seen ++ [index]) s2 /\ (hasNext = false -> pendingHidden s2)).
  { subst s2. destruct softBreak.
    - destruct (flow_softBreakBlock_inv properties result0 (seen ++ [index]) index s1 Hinv1).
      by split.
    - split; [done|]. intros Hlast. by specialize (Hsb Hlast). }
  destruct H2 as [Hinv2 Hhid2]. clearbody s2.
  case_bool_decide; [|done].
  destruct (flow_hardBreakBlock_inv properties result0 (seen ++ [index]) s2 Hinv2 Hnodup)
    as [Hinv3 Hhid3].
  split; [done|]. intros Hlast. by apply Hhid3, Hhid2.
Qed.

(** The whole loop. *)
Lemma flow_loop_inv (properties : Props) (result0 : list CR) (keys seen : list nat) (s : FS) :
  flowInv result0 seen s -> NoDup (seen ++ keys) ->
  (forall k, k ∈ keys -> addressable (at_ result0 k) = true) ->
  let s' := flow_loop properties keys s in
  flowInv result0 (seen ++ keys) s' /\ (keys ≠ [] -> pendingHidden s').
Proof.
  revert seen s. induction keys as [|index rest IH]; intros seen s Hinv Hnodup Haddr;
    cbn [flow_loop].
  - rewrite app_nil_r. done.
  - assert (Hnodup1 : NoDup (seen ++ [index])).
    { rewrite (assoc (++) seen [index] rest) in Hnodup.
      by apply NoDup_app in Hnodup as (? & _). }
    destruct (flow_step_inv properties result0 seen index
                (match rest with [] => false | _ => true end) s Hinv Hnodup1) as [Hinv1 Hhid1].
    { apply Haddr. by left. }
    destruct (IH (seen ++ [index]) _ Hinv1) as [Hinv2 Hhid2].
    { by rewrite <- (assoc (++)). }
    { intros k Hk. apply Haddr. by right. }
    cbv zeta in *. rewrite <- (assoc (++)) in Hinv2. cbn in Hinv2.
    split; [done|]. intros _.
    destruct rest as [|k rest]; [by apply Hhid1 | by apply Hhid2].
Qed.

Lemma flow_init_inv (properties : Props) (result : list CR) (shape0 : Path)
    (shapes : list Path) :
  flowInv result [] (flow_init properties result shape0 shapes).
Proof.
  unfold flowInv, flow_init, fplaced, line_ok, wf_line.
  cbn [fs_currentLine fs_wordIndices fs_lineBoxes fs_result].
  split; [split; [split; [cbn; lia | done] | done]|].
  split; [done|]. split; [apply unchanged_refl | done].
Qed.

(** Shape flowing: when the shaped characters are the addressable ones
    on entry, each of them is in one chunk, or it belongs to a last word
    that no shape admitted, is in no chunk and is hidden. *)
Lemma flowTextInShapes_chunks (properties : Props) (logicalToVisual : gmap nat Z)
    (result : list CR) (shapes : list Path) :
  shapes ≠ [] ->
  (forall k, k ∈ QMap_keys le logicalToVisual -> addressable (at_ result k) = true) ->
  let out := flowTextInShapes properties logicalToVisual result shapes in
  exists pending,
    allChunkIndices (fst out) ++ pending ≡ₚ QMap_keys le logicalToVisual
    /\ (forall j, j ∈ pending -> (j < length result)%nat -> hidden (at_ (snd out) j) = true)
    /\ unchanged_outside (QMap_keys le logicalToVisual) result (snd out).
Proof.
  intros Hshapes Haddr. destruct shapes as [|shape0 rest]; [done|].
  unfold flowTextInShapes. cbv zeta.
  set (keys := QMap_keys le logicalToVisual) in *.
  assert (Hnodup : NoDup keys) by apply QMap_keys_NoDup.
  destruct (flow_loop_inv properties result keys []
              (flow_init properties result shape0 (shape0 :: rest))
              (flow_init_inv properties result shape0 (shape0 :: rest)) Hnodup Haddr)
    as [Hinv Hhid].
  cbv zeta in *. cbn [app] in Hinv.
  set (s := flow_loop properties keys _) in *. clearbody s.
  pose proof Hinv as (_ & Hperm & Hun & Hlen).
  destruct (flow_finalizeAndAppend_spec properties s) as (Hboxes & Hsame & Hword & Hun' & Hlen').
  cbv zeta in *. cbn [fst snd].
  exists (fs_wordIndices s). split; [|split].
  - rewrite Hboxes. unfold allChunkIndices. rewrite map_app, concat_app. cbn.
    rewrite app_nil_r, <- (same_chunks_lineIndicesOf _ _ Hsame). exact Hperm.
  - intros j Hj Hlt.
    rewrite Hun'; [|by eapply flowInv_NoDup].
    apply Hhid; [|done|by rewrite Hlen].
    intros Hnil. rewrite Hnil in Hperm. apply Permutation_nil_r in Hperm.
    apply app_eq_nil in Hperm as [_ Hw]. rewrite Hw in Hj. by apply elem_of_nil in Hj.
  - eapply unchanged_trans; [exact Hun|].
    eapply unchanged_perm; [|exact Hun'].
    intros x. apply (flowInv_line_seen result keys s x Hinv).
Qed.

(** ** Shape flowing: the pending word *)

Lemma flow_addWord_word (properties : Props) (s : FS) :
  fs_wordIndices (flow_addWord properties s) = [].
Proof.
  unfold flow_addWord, addWordToLine. done.
Qed.

Lemma fitInChunks_word (properties : Props) (n : nat) (i : Z) (s : FS) (softBreak : bool) :
  fs_wordIndices (fst (fitInChunks properties n i s softBreak)) = []
  \/ fs_wordIndices (fst (fitInChunks properties n i s softBreak)) = fs_wordIndices s.
Proof.
  revert i s. induction n as [|n IH]; intros i s; cbn [fitInChunks]; [by right|].
  cbv zeta.
  set (is2 := if (i =? -1)%Z then _ else (i, s)).
  assert (H2 : fs_wordIndices (snd is2) = fs_wordIndices s).
  { subst is2. by destruct (i =? -1)%Z. }
  destruct is2 as [i2 s2]. cbn [snd] in H2.
  repeat case_match; cbn [fst];
    first [ right; exact H2
          | left; apply flow_addWord_word
          | match goal with |- context [fitInChunks properties n ?j ?st softBreak] =>
              destruct (IH j st) as [Hn|Hs];
              [by left | right; rewrite Hs; exact H2]
            end ].
Qed.

Lemma flow_wordBlock_word (properties : Props) (index : nat) (hasNext : bool)
    (charResult : CR) (s : FS) :
  let out := flow_wordBlock properties index hasNext charResult s in
  fs_wordIndices (fst out) = [] \/ fs_wordIndices (fst out) = fs_wordIndices s ++ [index].
Proof.
  unfold flow_wordBlock. cbv zeta.
  destruct (if negb _ then _ else (fs_wordBox s, fs_wordAdvance s)) as [wordBox wordAdvance].
  case_match; [|by right].
  match goal with |- context [fitInChunks properties ?n ?i ?st ?sb] =>
    destruct (fitInChunks_word properties n i st sb) as [Hn|Hs]; [by left | right; by rewrite Hs]
  end.
Qed.

Lemma closeLine_word (properties : Props) (s : FS) :
  fs_wordIndices (closeLine properties s) = fs_wordIndices s.
Proof.
  unfold closeLine. case_match; [|done].
  by destruct (flow_finalizeAndAppend_spec properties s) as (_ & _ & Hword & _).
Qed.

Lemma flow_hardBreakBlock_word (properties : Props) (s : FS) :
  fs_wordIndices (flow_hardBreakBlock properties s) = fs_wordIndices s.
Proof.
  unfold flow_hardBreakBlock.
  by destruct (flow_finalizeAndAppend_spec properties s) as (_ & _ & Hword & _).
Qed.

Lemma flow_softBreakBlock_pending (properties : Props) (index : nat) (s : FS) :
  let s' := flow_softBreakBlock properties index s in
  (lineFound properties index s = true -> fs_wordIndices s' = [])
  /\ (lineFound properties index s = false -> fs_wordIndices s' = fs_wordIndices s).
Proof.
  destruct (flow_softBreakBlock_found properties index s) as (Hplaced & Hhidden & _).
  cbv zeta in *. split.
  - intros Hf. by destruct (Hplaced Hf) as (Hw & _).
  - intros Hf. destruct (Hhidden Hf) as (_ & Hw & _). by rewrite Hw, closeLine_word.
Qed.

(** After an iteration the pending word is empty, or it is the one
    before with the character added. *)
Lemma flow_step_word (properties : Props) (index : nat) (hasNext : bool) (s : FS) :
  addressable (at_ (fs_result s) index) = true ->
  let s' := flow_step properties index hasNext s in
  fs_wordIndices s' = [] \/ fs_wordIndices s' = fs_wordIndices s ++ [index].
Proof.
  intros Haddr. unfold flow_step. cbv zeta. rewrite Haddr. cbn [negb].
  pose proof (flow_wordBlock_word properties index hasNext (at_ (fs_result s) index) s) as Hw.
  destruct (flow_wordBlock _ _ _ _ _) as [s1 softBreak]. cbn [fst] in Hw.
  set (s2 := if softBreak then _ else s1).
  assert (H2 : fs_wordIndices s2 = [] \/ fs_wordIndices s2 = fs_wordIndices s ++ [index]).
  { subst s2. destruct softBreak; [|done].
    destruct (flow_softBreakBlock_pending properties index s1) as [Hp Hh].
    destruct (lineFound properties index s1); [left; by apply Hp|].
    cbv zeta in Hh. by rewrite Hh. }
  clearbody s2. case_bool_decide; [|done].
  by rewrite flow_hardBreakBlock_word.
Qed.

Lemma flow_loop_snoc (properties : Props) (l : list nat) (k : nat) (s : FS) :
  flow_loop properties (l ++ [k]) s
  = flow_step properties k false (flow_loop_open properties l s).
Proof.
  revert s. induction l as [|i l IH]; intros s; [done|].
  cbn [app flow_loop]. rewrite IH. unfold flow_loop_open. cbn [fold_left].
  by destruct l.
Qed.

Lemma flow_loop_open_inv (properties : Props) (result0 : list CR) (keys seen : list nat)
    (s : FS) :
  flowInv result0 seen s -> NoDup (seen ++ keys) ->
  (forall k, k ∈ keys -> addressable (at_ result0 k) = true) ->
  (exists front, seen = front ++ fs_wordIndices s) ->
  let s' := flow_loop_open properties keys s in
  flowInv result0 (seen ++ keys) s'
  /\ exists front, seen ++ keys = front ++ fs_wordIndices s'.
Proof.
  revert seen s. induction keys as [|index rest IH]; intros seen s Hinv Hnodup Haddr Htail;
    unfold flow_loop_open; cbn [fold_left].
  - rewrite app_nil_r. done.
  - assert (Hnodup1 : NoDup (seen ++ [index])).
    { rewrite (assoc (++) seen [index] rest) in Hnodup.
      by apply NoDup_app in Hnodup as (? & _). }
    assert (Hnew : index ∉ seen).
    { apply NoDup_app in Hnodup1 as (_ & Hdisj & _). intros Hin.
      apply (Hdisj index Hin). by left. }
    destruct (flow_step_inv properties result0 seen index true s Hinv Hnodup1) as [Hinv1 _].
    { apply Haddr. by left. }
    assert (Htail1 : exists front,
               seen ++ [index] = front ++ fs_wordIndices (flow_step properties index true s)).
    { destruct Htail as [front Hfront].
      destruct (flow_step_word properties index true s) as [Hw|Hw].
      - pose proof Hinv as (_ & _ & Hun & _). rewrite (Hun index Hnew). apply Haddr. by left.
      - exists (seen ++ [index]). cbv zeta in Hw. by rewrite Hw, app_nil_r.
      - exists front. cbv zeta in Hw. by rewrite Hw, (assoc (++)), <- Hfront. }
    destruct (IH (seen ++ [index]) _ Hinv1) as [Hinv2 Htail2]; [|by intros k Hk; apply Haddr; right|done|].
    { by rewrite <- (assoc (++)). }
    cbv zeta in *. unfold flow_loop_open in *. rewrite <- (assoc (++)) in Hinv2, Htail2.
    done.
Qed.

(** The last iteration: a word still pending after it was refused by
    every shape. *)
Lemma flow_last_step (properties : Props) (result0 : list CR) (before : list nat)
    (k : nat) (s : FS) :
  flowInv result0 before s -> k ∉ before -> addressable (at_ result0 k) = true ->
  (exists front, before = front ++ fs_wordIndices s) ->
  let s1 := fst (flow_wordBlock properties k false (at_ (fs_result s) k) s) in
  let s' := flow_step properties k false s in
  (exists front, before ++ [k] = front ++ fs_wordIndices s')
  /\ (fs_wordIndices s' ≠ [] ->
      fs_wordIndices s' = fs_wordIndices s1 /\ lineFound properties k s1 = false).
Proof.
  intros Hinv Hnew Haddr [front Hfront] s1 s'.
  pose proof Hinv as (_ & _ & Hun & _).
  assert (Ha : addressable (at_ (fs_result s) k) = true) by (by rewrite (Hun k Hnew)).
  split.
  - destruct (flow_step_word properties k false s Ha) as [Hw|Hw]; fold s' in Hw.
    + exists (before ++ [k]). by rewrite Hw, app_nil_r.
    + exists front. by rewrite Hw, (assoc (++)), <- Hfront.
  - subst s' s1. unfold flow_step. cbv zeta. rewrite Ha. cbn [negb].
    destruct (flow_wordBlock_inv properties result0 before k false (at_ (fs_result s) k) s Hinv)
      as [_ Hsb].
    destruct (flow_wordBlock _ _ _ _ _) as [s1 softBreak]. cbn [fst snd] in *.
    rewrite (Hsb eq_refl).
    destruct (flow_softBreakBlock_pending properties k s1) as [Hp Hh]. cbv zeta in *.
    assert (Hw : fs_wordIndices
                   (if bool_decide (breakType (at_ (fs_result s) k) = HardBreak)
                    then flow_hardBreakBlock properties (flow_softBreakBlock properties k s1)
                    else flow_softBreakBlock properties k s1)
                 = fs_wordIndices (flow_softBreakBlock properties k s1)).
    { case_bool_decide; [apply flow_hardBreakBlock_word | done]. }
    rewrite Hw. intros Hne.
    destruct (lineFound properties k s1); [by rewrite Hp in Hne|].
    split; [by apply Hh | done].
Qed.

(** Shape flowing: the shaped characters are those in the chunks,
    followed by the pending word, which is hidden and was refused by
    every shape when the search ran at the last character. *)
Lemma flowTextInShapes_pending (properties : Props) (logicalToVisual : gmap nat Z)
    (result : list CR) (shape0 : Path) (rest : list Path) :
  (forall k, k ∈ QMap_keys le logicalToVisual -> addressable (at_ result k) = true) ->
  let out := flowTextInShapes properties logicalToVisual result (shape0 :: rest) in
  exists front pending,
    QMap_keys le logicalToVisual = front ++ pending
    /\ allChunkIndices (fst out) ≡ₚ front
    /\ (forall j, j ∈ pending -> (j < length result)%nat -> hidden (at_ (snd out) j) = true)
    /\ unchanged_outside (QMap_keys le logicalToVisual) result (snd out)
    /\ (pending ≠ [] ->
        exists before k,
          QMap_keys le logicalToVisual = before ++ [k]
          /\ pending
             = fs_wordIndices (flow_lastWord properties result shape0 (shape0 :: rest) before k)
          /\ lineFound properties k
               (flow_lastWord properties result shape0 (shape0 :: rest) before k) = false).
Proof.
  intros Haddr. unfold flowTextInShapes. cbv zeta.
  set (keys := QMap_keys le logicalToVisual) in *.
  assert (Hnodup : NoDup keys) by apply QMap_keys_NoDup.
  set (init := flow_init properties result shape0 (shape0 :: rest)).
  pose proof (flow_init_inv properties result shape0 (shape0 :: rest)) as Hinit.
  fold init in Hinit.
  destruct (flow_loop_inv properties result keys [] init Hinit Hnodup Haddr) as [Hinv Hhid].
  cbv zeta in *. cbn [app] in Hinv.
  assert (Hlast : (exists front, keys = front ++ fs_wordIndices (flow_loop properties keys init))
                  /\ (fs_wordIndices (flow_loop properties keys init) ≠ [] ->
                      exists before k,
                        keys = before ++ [k]
                        /\ fs_wordIndices (flow_loop properties keys init)
                           = fs_wordIndices
                               (flow_lastWord properties result shape0 (shape0 :: rest) before k)
                        /\ lineFound properties k
                             (flow_lastWord properties result shape0 (shape0 :: rest) before k)
                           = false)).
  { clear Hinv Hhid. clearbody keys.
    destruct keys as [|k before _] using rev_ind.
    - cbn [flow_loop]. split; [by exists []|]. intros Hne. by destruct Hne.
    - rewrite flow_loop_snoc.
      destruct (flow_loop_open_inv properties result before [] init Hinit) as [Hinv0 Htail0].
      { cbn [app]. by apply NoDup_app in Hnodup as (? & _). }
      { intros x Hx. apply Haddr. apply elem_of_app. by left. }
      { by exists []. }
      cbv zeta in *. cbn [app] in *.
      destruct (flow_last_step properties result before k
                  (flow_loop_open properties before init) Hinv0) as [Htail Hfound].
      { apply NoDup_app in Hnodup as (_ & Hdisj & _). intros Hin.
        apply (Hdisj k Hin). by left. }
      { apply Haddr. apply elem_of_app. right. by left. }
      { done. }
      cbv zeta in *. split; [done|].
      intros Hne. exists before, k. split; [done|]. by apply Hfound. }
  destruct Hlast as [[front Hfront] Hfound].
  set (s := flow_loop properties keys init) in *. clearbody s.
  pose proof Hinv as (_ & Hperm & Hun & Hlen).
  destruct (flow_finalizeAndAppend_spec properties s) as (Hboxes & Hsame & Hword & Hun' & Hlen').
  cbv zeta in *. cbn [fst snd].
  exists front, (fs_wordIndices s). split; [done|]. split; [|split; [|split; [|done]]].
  - assert (Hall : allChunkIndices (fs_lineBoxes (flow_finalizeAndAppend properties s))
                   = fplaced s).
    { rewrite Hboxes. unfold allChunkIndices, fplaced. rewrite map_app, concat_app. cbn.
      by rewrite app_nil_r, <- (same_chunks_lineIndicesOf _ _ Hsame). }
    rewrite Hall. rewrite Hfront in Hperm.
    by apply Permutation_app_inv_r in Hperm.
  - intros j Hj Hlt.
    rewrite Hun'; [|by eapply flowInv_NoDup].
    apply Hhid; [|done|by rewrite Hlen].
    intros Hnil. rewrite Hnil in Hperm. apply Permutation_nil_r in Hperm.
    apply app_eq_nil in Hperm as [_ Hw]. rewrite Hw in Hj. by apply elem_of_nil in Hj.
  - eapply unchanged_trans; [exact Hun|].
    eapply unchanged_perm; [|exact Hun'].
    intros x. apply (flowInv_line_seen result keys s x Hinv).
Qed.

(** C3, as the code has it.  When the shaped characters (the keys of
    [logicalToVisual]) are the addressable ones on entry: after simple
    line breaking the chunks of the line boxes list every one of them
    exactly once, in order.  After shape flowing the shaped characters
    are those the chunks list, each once, followed by the word pending
    at the end of the text, which is in no chunk and is hidden; a word
    is pending only when the search for its line, run at the last
    shaped character, found no line: no chunk of the current shape
    longer than the word and no position for it in the current shape or
    a shape left.  In both every character that is addressable
    afterwards is a shaped one. *)
Theorem chunks_hold_shaped_characters (properties : Props) (startPos : QPointF R)
    (logicalToVisual : gmap nat Z) (result : list CR) (shapes : list Path) :
  (forall k, k ∈ QMap_keys le logicalToVisual -> addressable (at_ result k) = true) ->
  (forall i, (i < length result)%nat -> addressable (at_ result i) = true ->
             i ∈ QMap_keys le logicalToVisual) ->
  (let out := breakLines properties startPos logicalToVisual result in
   allChunkIndices (fst out) = QMap_keys le logicalToVisual
   /\ NoDup (allChunkIndices (fst out))
   /\ (forall i, (i < length result)%nat -> addressable (at_ (snd out) i) = true ->
                 i ∈ allChunkIndices (fst out)))
  /\ (shapes ≠ [] ->
      let out := flowTextInShapes properties logicalToVisual result shapes in
      exists front pending,
        QMap_keys le logicalToVisual = front ++ pending
        /\ allChunkIndices (fst out) ≡ₚ front
        /\ NoDup (allChunkIndices (fst out) ++ pending)
        /\ (forall j, j ∈ pending -> (j < length result)%nat ->
                      hidden (at_ (snd out) j) = true)
        /\ (forall i, (i < length result)%nat -> addressable (at_ (snd out) i) = true ->
                      i ∈ allChunkIndices (fst out) \/ i ∈ pending)
        /\ (pending ≠ [] ->
            exists before k shape0,
              head shapes = Some shape0
              /\ QMap_keys le logicalToVisual = before ++ [k]
              /\ pending
                 = fs_wordIndices (flow_lastWord properties result shape0 shapes before k)
              /\ lineFound properties k
                   (flow_lastWord properties result shape0 shapes before k) = false)).
Proof.
  intros Hkeys Haddr. split.
  - by apply breakLines_chunks.
  - intros Hshapes. destruct shapes as [|shape0 rest]; [done|].
    destruct (flowTextInShapes_pending properties logicalToVisual result shape0 rest Hkeys)
      as (front & pending & Hsplit & Hperm & Hhid & Hun & Hfound).
    cbv zeta in *. exists front, pending.
    assert (Hall : allChunkIndices
                     (fst (flowTextInShapes properties logicalToVisual result (shape0 :: rest)))
                   ++ pending ≡ₚ QMap_keys le logicalToVisual).
    { by rewrite Hsplit, Hperm. }
    split; [done|]. split; [done|]. split; [|split; [done|split]].
    + rewrite Hall. apply QMap_keys_NoDup.
    + intros i Hi Ha. apply elem_of_app. rewrite Hall.
      destruct (decide (i ∈ QMap_keys le logicalToVisual)) as [|Hout]; [done|].
      rewrite (Hun i Hout) in Ha. by apply Haddr.
    + intros Hne. destruct (Hfound Hne) as (before & k & Hk & Hp & Hf).
      by exists before, k, shape0.
Qed.

(** ** [breakLines]: the number of lines *)

Lemma hardBreaks_ext (r r' : list CR) (keys : list nat) :
  (forall k, k ∈ keys -> at_ r' k = at_ r k) -> hardBreaks r' keys = hardBreaks r keys.
Proof.
  unfold hardBreaks. induction keys as [|k keys IH]; intros Hsame; [done|].
  rewrite !filter_cons, (Hsame k) by by left.
  case_decide; cbn [length]; rewrite IH; try done; intros x Hx; apply Hsame; by right.
Qed.

Section BreakLinesCount.
Variable properties : Props.
Variable startPos : QPointF R.

(** One iteration without [inline-size]: a line box is added for a hard
    break, and one for the last character. *)
Lemma breakLines_step_count (index : nat) (hasNext : bool) (s : BS) :
  isAuto (InlineSizeId properties) = true ->
  single (bs_currentLine s) ->
  addressable (at_ (bs_result s) index) = true ->
  let s' := breakLines_step properties startPos index hasNext s in
  exists added,
    bs_lineBoxes s' = bs_lineBoxes s ++ added
    /\ length added
       = ((if bool_decide (breakType (at_ (bs_result s) index) = HardBreak)
           then 1 else 0)
          + (if hasNext then 0 else 1))%nat.
Proof.
  intros Hauto Hs Haddr. unfold breakLines_step. rewrite Haddr. cbn [negb].
  pose proof (wordBlock_spec properties startPos index hasNext
                (at_ (bs_result s) index) s Hs) as Hw.
  destruct (wordBlock _ _ _ _ _ _) as [s1 softBreak].
  destruct Hw as (Hs1 & _ & Hl1 & _ & Hb1 & Hsb). rewrite (Hsb Hauto).
  set (s3 := if bool_decide _ then _ else s1).
  assert (H3 : single (bs_currentLine s3)
               /\ lastLine (bs_currentLine s3) = negb hasNext
               /\ exists added,
                    bs_lineBoxes s3 = bs_lineBoxes s ++ added
                    /\ length added
                       = if bool_decide (breakType (at_ (bs_result s) index) = HardBreak)
                         then 1%nat else 0%nat).
  { subst s3. destruct (bool_decide (breakType _ = HardBreak)).
    - unfold hardBreakBlock.
      match goal with |- context [finalizeAndStartLine _ ?ind s1] =>
        destruct (finalizeAndStartLine_spec properties ind s1)
          as (Hb & _ & _ & Hsingle & Hlast & _)
      end.
      cbv zeta in *. split; [done|]. split; [congruence|].
      eexists. rewrite Hb, Hb1. split; [reflexivity | done].
    - split; [done|]. split; [done|]. exists []. by rewrite app_nil_r. }
  destruct H3 as (Hs3 & Hl3 & added & Hb3 & Hn3). rewrite Hl3.
  destruct hasNext; cbn [negb].
  - exists added. split; [done | lia].
  - destruct (lastLineBlock_spec properties s3 Hs3) as ((L & HL) & _ & _).
    exists (added ++ [L]). rewrite HL, Hb3, length_app. cbn.
    split; [by rewrite (assoc (++)) | lia].
Qed.

Lemma breakLines_loop_count (keys : list nat) (s : BS) :
  isAuto (InlineSizeId properties) = true ->
  keys ≠ [] ->
  single (bs_currentLine s) ->
  NoDup keys ->
  (forall k, k ∈ keys -> k ∉ consumed s) ->
  (forall k, k ∈ keys -> addressable (at_ (bs_result s) k) = true) ->
  length (bs_lineBoxes (breakLines_loop properties startPos keys s))
  = (length (bs_lineBoxes s) + S (hardBreaks (bs_result s) keys))%nat.
Proof.
  intros Hauto. revert s.
  induction keys as [|k keys IH]; intros s Hne Hs Hnd Hfresh Hok; [done|].
  cbn [breakLines_loop].
  assert (Haddr : addressable (at_ (bs_result s) k) = true) by (apply Hok; by left).
  destruct (breakLines_step_count k (match keys with [] => false | _ => true end) s
              Hauto Hs Haddr) as (added & Hadded & Hlen).
  destruct (breakLines_step_spec properties startPos k
              (match keys with [] => false | _ => true end) s Hs Haddr) as [Hu Hstep].
  cbv zeta in *. unfold hardBreaks. rewrite filter_cons.
  destruct keys as [|k' keys'].
  - cbn [breakLines_loop]. rewrite Hadded, length_app, Hlen.
    rewrite filter_nil. case_bool_decide; case_decide; try done; cbn; lia.
  - destruct Hstep as [Hs1 Hc1].
    set (s1 := breakLines_step properties startPos k true s) in *.
    apply NoDup_cons in Hnd as [Hk Hnd].
    assert (Hout : forall x, x ∈ k' :: keys' -> x ∉ consumed s ++ [k]).
    { intros x Hx Hin. apply elem_of_app in Hin as [Hin|Hin].
      - apply (Hfresh x); [by right|done].
      - apply list_elem_of_singleton in Hin as ->. done. }
    rewrite (IH s1); [|done|done|done| |].
    + rewrite Hadded, length_app, Hlen.
      fold (hardBreaks (bs_result s) (k' :: keys')).
      rewrite (hardBreaks_ext (bs_result s) (bs_result s1) (k' :: keys'))
        by (intros x Hx; apply (Hu x (Hout x Hx))).
      unfold hardBreaks. case_bool_decide; case_decide; try done; cbn [length]; lia.
    + intros x Hx. rewrite Hc1. by apply Hout.
    + intros x Hx. rewrite (Hu x (Hout x Hx)). apply Hok. by right.
Qed.

(** X1. Without [inline-size], for a text with at least one shaped
    character, all of them addressable on entry, [breakLines] returns
    one line box more than there are hard breaks among the shaped
    characters. *)
Theorem breakLines_auto_line_count (logicalToVisual : gmap nat Z) (result : list CR) :
  isAuto (InlineSizeId properties) = true ->
  logicalToVisual ≠ ∅ ->
  (forall k, k ∈ QMap_keys le logicalToVisual -> addressable (at_ result k) = true) ->
  length (fst (breakLines properties startPos logicalToVisual result))
  = S (hardBreaks result (QMap_keys le logicalToVisual)).
Proof.
  intros Hauto Hne Hok. unfold breakLines. cbn [fst].
  destruct (breakLines_init_spec properties startPos result) as (Hs & Hc & Hr & Hb).
  rewrite breakLines_loop_count; try done.
  - by rewrite Hb, Hr.
  - intros Hnil. by apply Hne, QMap_keys_nil.
  - apply QMap_keys_NoDup.
  - intros k _. rewrite Hc. apply not_elem_of_nil.
  - intros k Hk. rewrite Hr. by apply Hok.
Qed.

End BreakLinesCount.

(** ** [breakLines]: one chunk in every line *)

Section BreakLinesShape.
Variable properties : Props.
Variable startPos : QPointF R.

Lemma oneChunkEach_line (n : nat) (s s' : BS) :
  oneChunkEach n s ->
  chunks (bs_currentLine s') = chunks (bs_currentLine s) ->
  currentChunk (bs_currentLine s') = currentChunk (bs_currentLine s) ->
  bs_lineBoxes s' = bs_lineBoxes s -> bs_result s' = bs_result s ->
  oneChunkEach n s'.
Proof.
  intros ((c & Hc & Hcur) & Hboxes & Hlen) Hc' Hcur' Hb Hr.
  unfold oneChunkEach. rewrite Hb, Hr. split; [|done].
  exists c. by rewrite Hc', Hcur'.
Qed.

Lemma oneChunkEach_addWordToLine (n : nat) (s : BS) (word : list nat) (ltr : bool)
    (wordIndices : list nat) (wordAdvance lineOffset : QPointF R) :
  oneChunkEach n s ->
  match addWordToLine (bs_result s) (bs_currentPos s) word (bs_currentLine s) ltr with
  | (result, currentPos, _, currentLine) =>
      oneChunkEach n (mkBreakState result (bs_lineBoxes s) currentLine wordIndices
                        wordAdvance currentPos lineOffset)
  end.
Proof.
  intros (Hs & Hboxes & Hlen).
  pose proof (addWordToLine_single (bs_result s) (bs_currentPos s) word
                (bs_currentLine s) ltr Hs) as Hadd.
  pose proof (addWordToLine_length (bs_result s) (bs_currentPos s) word
                (bs_currentLine s) ltr) as Hl.
  destruct (addWordToLine _ _ _ _ _) as [[[result' pos'] word'] line'].
  cbn [fst] in Hl. destruct Hadd as (_ & Hsingle & _).
  unfold oneChunkEach. bs_simpl. split; [done|]. split; [done|]. congruence.
Qed.

Lemma oneChunkEach_addWord (n : nat) (s : BS) :
  oneChunkEach n s -> oneChunkEach n (addWord properties s).
Proof.
  intros Hs. unfold addWord.
  pose proof (oneChunkEach_addWordToLine n s (bs_wordIndices s)
                (bool_decide (DirectionId properties = DirectionLeftToRight))
                [] (bs_wordAdvance s) (bs_lineOffset s) Hs) as Hadd.
  destruct (addWordToLine _ _ _ _ _) as [[[result' pos'] word'] line'].
  eapply oneChunkEach_line; [exact Hadd|done..].
Qed.

Lemma oneChunkEach_finalizeAndStartLine (n : nat) (indent : QPointF R) (s : BS) :
  oneChunkEach n s -> oneChunkEach n (finalizeAndStartLine properties indent s).
Proof.
  intros (Hs & Hboxes & Hlen).
  destruct (finalizeAndStartLine_spec properties indent s)
    as (Hb & Hsame & _ & Hsingle & _).
  cbv zeta in *. unfold oneChunkEach. rewrite Hb.
  split; [done|]. split.
  - apply Forall_app. split; [done|]. apply Forall_singleton.
    by eapply same_chunks_single.
  - unfold finalizeAndStartLine.
    match goal with |- context [finalizeLine ?r ?p ?l ?o ?a ?w ?d ?i ?t] =>
      pose proof (finalizeLine_length r p l o a w d i t) as Hl;
      destruct (finalizeLine r p l o a w d i t) as [[[result' pos'] line'] off']
    end.
    cbn [fst] in Hl. bs_simpl. congruence.
Qed.

Lemma oneChunkEach_overflowWrap (n : nat) (l : list nat) (s : BS) (partialWord : list nat) :
  oneChunkEach n s ->
  oneChunkEach n (fst (fold_left (overflowWrap_step properties) l (s, partialWord))).
Proof.
  revert s partialWord. induction l as [|i l IH]; intros s partialWord Hs;
    cbn [fold_left]; [done|].
  assert (Hstep : oneChunkEach n (fst (overflowWrap_step properties (s, partialWord) i))).
  { unfold overflowWrap_step. case_match; cbn [fst].
    - eapply oneChunkEach_line; [exact Hs|done..].
    - bs_simpl.
      pose proof (oneChunkEach_addWordToLine n s partialWord
                    (bool_decide (DirectionId properties = DirectionLeftToRight))
                    (bs_wordIndices s)
                    (padd (bs_wordAdvance s) (advance (at_ (bs_result s) i)))
                    (bs_lineOffset s) Hs) as Hadd.
      destruct (addWordToLine _ _ _ _ _) as [[[result' pos'] word'] line'].
      bs_simpl.
      match goal with |- context [finalizeAndStartLine properties ?ind ?st] =>
        pose proof (oneChunkEach_finalizeAndStartLine n ind st Hadd) as Hfin
      end.
      eapply oneChunkEach_line; [exact Hfin|done..]. }
  destruct (overflowWrap_step properties (s, partialWord) i) as [s1 pw1].
  by apply IH.
Qed.

Lemma oneChunkEach_softBreakBlock (n : nat) (charResult : CR) (s : BS) :
  oneChunkEach n s -> oneChunkEach n (softBreakBlock properties charResult s).
Proof.
  intros Hs. unfold softBreakBlock. cbv zeta.
  apply oneChunkEach_addWord.
  set (s1 := if negb (isEmpty (bs_currentLine s)) then _ else s).
  assert (H1 : oneChunkEach n s1).
  { subst s1. case_match; [by apply oneChunkEach_finalizeAndStartLine | done]. }
  clearbody s1.
  destruct (overflowWrap charResult); [|done].
  case_match; [|done].
  match goal with |- context [fold_left _ ?l (?st, [])] =>
    pose proof (oneChunkEach_overflowWrap n l st []) as Hfold
  end.
  destruct (fold_left _ _ _) as [s3 pw3]. cbn [fst] in Hfold.
  eapply oneChunkEach_line; [apply Hfold|done..].
  eapply oneChunkEach_line; [exact H1|done..].
Qed.

Lemma oneChunkEach_lastLineBlock (n : nat) (s : BS) :
  oneChunkEach n s ->
  Forall single (bs_lineBoxes (lastLineBlock properties s))
  /\ length (bs_result (lastLineBlock properties s)) = n.
Proof.
  intros Hs. unfold lastLineBlock.
  set (s1 := match bs_wordIndices s with [] => s | _ => addWord properties s end).
  assert (H1 : oneChunkEach n s1).
  { subst s1. destruct (bs_wordIndices s); [done | by apply oneChunkEach_addWord]. }
  clearbody s1. destruct H1 as (Hsingle & Hboxes & Hlen).
  match goal with |- context [finalizeLine ?r ?p ?l ?o ?a ?w ?d ?i ?t] =>
    pose proof (finalizeLine_length r p l o a w d i t) as Hl;
    pose proof (finalizeLine_spec r p l o a w d i t) as Hspec;
    destruct (finalizeLine r p l o a w d i t) as [[[result' pos'] line'] off']
  end.
  cbn [fst] in Hl. destruct Hspec as [Hsame _]. bs_simpl.
  split; [|congruence].
  apply Forall_app. split; [done|]. apply Forall_singleton.
  by eapply same_chunks_single.
Qed.

Lemma oneChunkEach_step (n : nat) (index : nat) (hasNext : bool) (s : BS) :
  oneChunkEach n s ->
  let s' := breakLines_step properties startPos index hasNext s in
  Forall single (bs_lineBoxes s') /\ length (bs_result s') = n
  /\ (hasNext = true -> single (bs_currentLine s')).
Proof.
  intros Hs. unfold breakLines_step. cbv zeta.
  destruct (addressable (at_ (bs_result s) index)); cbn [negb];
    [|by destruct Hs as (? & ? & ?)].
  set (w := wordBlock _ _ _ _ _ _).
  assert (Hw : oneChunkEach n (fst w)
               /\ lastLine (bs_currentLine (fst w)) = negb hasNext).
  { subst w. unfold wordBlock. cbv zeta.
    set (s0 := mkBreakState _ _ (set_lastLine _ _) _ _ _ _).
    assert (H0 : oneChunkEach n s0) by (eapply oneChunkEach_line; [exact Hs|done..]).
    assert (Hadd : oneChunkEach n (addWord properties s0)
                   /\ lastLine (bs_currentLine (addWord properties s0)) = negb hasNext).
    { split; [by apply oneChunkEach_addWord|].
      destruct (addWord_places properties s0) as ((_ & _ & Hlast & _) & _);
        [apply H0 | by rewrite Hlast]. }
    repeat case_match; cbn [fst]; done. }
  destruct w as [s1 softBreak]. cbn [fst] in Hw. destruct Hw as [H1 Hl1].
  set (s2 := if softBreak then _ else s1).
  assert (H2 : oneChunkEach n s2 /\ lastLine (bs_currentLine s2) = negb hasNext).
  { subst s2. destruct softBreak; [|done].
    split; [by apply oneChunkEach_softBreakBlock|].
    destruct (softBreakBlock_places properties (at_ (bs_result s) index) s1)
      as ((_ & _ & Hlast & _) & _); [apply H1 | by rewrite Hlast]. }
  clearbody s2. destruct H2 as [H2 Hl2].
  set (s3 := if bool_decide _ then _ else s2).
  assert (H3 : oneChunkEach n s3 /\ lastLine (bs_currentLine s3) = negb hasNext).
  { subst s3. case_bool_decide; [|done].
    split; [by apply oneChunkEach_finalizeAndStartLine|].
    destruct (hardBreakBlock_places properties s2) as ((_ & _ & Hlast & _) & _).
    by rewrite Hlast. }
  clearbody s3. destruct H3 as [H3 Hl3]. rewrite Hl3.
  destruct hasNext; cbn [negb].
  - destruct H3 as (? & ? & ?). by repeat split.
  - destruct (oneChunkEach_lastLineBlock n s3 H3). by repeat split.
Qed.

Lemma oneChunkEach_loop (n : nat) (keys : list nat) (s : BS) :
  oneChunkEach n s ->
  let s' := breakLines_loop properties startPos keys s in
  Forall single (bs_lineBoxes s') /\ length (bs_result s') = n.
Proof.
  revert s. induction keys as [|k keys IH]; intros s Hs; cbn [breakLines_loop].
  - by destruct Hs as (? & ? & ?).
  - destruct (oneChunkEach_step n k (match keys with [] => false | _ => true end) s Hs)
      as (Hboxes & Hlen & Hsingle).
    destruct keys as [|k' keys']; [done|].
    apply IH. split; [by apply Hsingle | done].
Qed.

(** X2. Every line box [breakLines] returns has exactly one chunk, which
    is its current chunk, and [result] keeps its length, whatever the
    text and the properties. *)
Theorem breakLines_one_chunk_per_line (logicalToVisual : gmap nat Z) (result : list CR) :
  let out := breakLines properties startPos logicalToVisual result in
  Forall single (fst out) /\ length (snd out) = length result.
Proof.
  unfold breakLines. cbn [fst snd]. apply oneChunkEach_loop.
  destruct (breakLines_init_spec properties startPos result) as (Hs & _ & Hr & Hb).
  unfold oneChunkEach. rewrite Hr, Hb. by repeat split.
Qed.

End BreakLinesShape.

(** ** The line engines: what they leave alone *)

(** X3. When the shaped characters are addressable on entry, neither
    line engine touches a character that is not shaped (a collapsed
    character, the middle of a cluster), and shape flowing keeps the
    length of [result]. *)
Theorem line_engines_leave_unshaped (properties : Props) (startPos : QPointF R)
    (logicalToVisual : gmap nat Z) (result : list CR) (shapes : list Path) :
  (forall k, k ∈ QMap_keys le logicalToVisual -> addressable (at_ result k) = true) ->
  unchanged_outside (QMap_keys le logicalToVisual) result
    (snd (breakLines properties startPos logicalToVisual result))
  /\ unchanged_outside (QMap_keys le logicalToVisual) result
       (snd (flowTextInShapes properties logicalToVisual result shapes))
  /\ length (snd (flowTextInShapes properties logicalToVisual result shapes))
     = length result.
Proof.
  intros Hkeys. set (keys := QMap_keys le logicalToVisual) in *. split; [|split].
  - unfold breakLines. cbn [snd]. fold keys.
    destruct (breakLines_init_spec properties startPos result) as (Hs & Hc & Hr & Hb).
    destruct keys as [|k keys'] eqn:Hk.
    + cbn [breakLines_loop]. rewrite Hr. apply unchanged_refl.
    + rewrite <- Hk in *.
      destruct (breakLines_loop_spec properties startPos keys
                  (breakLines_init properties startPos result)) as [_ Hun]; try done.
      * by rewrite Hk.
      * apply QMap_keys_NoDup.
      * intros x _. rewrite Hc. apply not_elem_of_nil.
      * intros x Hx. rewrite Hr. by apply Hkeys.
      * by rewrite Hc, Hr in Hun.
  - destruct shapes as [|shape0 rest]; [apply unchanged_refl|].
    by destruct (flowTextInShapes_chunks properties logicalToVisual result
                   (shape0 :: rest)) as (_ & _ & _ & Hun).
  - destruct shapes as [|shape0 rest]; [done|].
    unfold flowTextInShapes. cbv zeta. cbn [snd]. fold keys.
    destruct (flow_loop_inv properties result keys []
                (flow_init properties result shape0 (shape0 :: rest))
                (flow_init_inv properties result shape0 (shape0 :: rest))
                (QMap_keys_NoDup logicalToVisual) Hkeys) as [(_ & _ & _ & Hlen) _].
    destruct (flow_finalizeAndAppend_spec properties
                (flow_loop properties keys
                   (flow_init properties result shape0 (shape0 :: rest))))
      as (_ & _ & _ & _ & Hlen').
    cbv zeta in *. congruence.
Qed.

(** ** [relayout]: marking the middle of clusters *)

Section MarkMiddle.
Variable result0 : list CR.
Local Abbreviation markInv := (markInv result0).

Lemma markMiddle_step_inv (k : nat) (st : list CR * nat * bool) :
  (k < length result0)%nat -> markInv k st -> markInv (S k) (markMiddle_step st k).
Proof.
  destruct st as [[result firstCluster] setAnchoredChunk].
  unfold markInv. cbn [fst snd]. intros Hk [Hlen Hinv].
  assert (Hg : addressable (at_ result k) && bool_decide (visualIndex (at_ result k) ≠ (-1)%Z)
               = hasGlyph (at_ result0 k)).
  { unfold hasGlyph. destruct (Hinv k) as (-> & _ & Hge).
    by destruct (Hge (le_n k)) as [-> _]. }
  unfold markMiddle_step. rewrite Hg. clear Hg.
  destruct (hasGlyph (at_ result0 k)) eqn:Hglyph.
  - assert (Hinv' : forall r, length r = length result0 ->
              (forall i, visualIndex (at_ r i) = visualIndex (at_ result i)
                         /\ addressable (at_ r i) = addressable (at_ result i)
                         /\ middle (at_ r i) = middle (at_ result i)) ->
              length r = length result0
              /\ forall i,
                   visualIndex (at_ r i) = visualIndex (at_ result0 i)
                   /\ ((i < S k)%nat ->
                       addressable (at_ r i) = hasGlyph (at_ result0 i)
                       /\ middle (at_ r i)
                          = middle (at_ result0 i) || negb (hasGlyph (at_ result0 i)))
                   /\ ((S k <= i)%nat ->
                       addressable (at_ r i) = addressable (at_ result0 i)
                       /\ middle (at_ r i) = middle (at_ result0 i))).
    { intros r Hr Hsame. split; [done|]. intros i.
      destruct (Hsame i) as (-> & -> & ->). destruct (Hinv i) as (Hv & Hlt & Hge).
      split; [done|]. split.
      - intros Hi. destruct (decide (i = k)) as [->|Hne].
        + destruct (Hge (le_n k)) as [-> ->]. rewrite Hglyph.
          unfold hasGlyph in Hglyph. apply andb_prop in Hglyph as [-> _].
          by rewrite orb_false_r.
        + apply Hlt. lia.
      - intros Hi. apply Hge. lia. }
    destruct setAnchoredChunk; cbn [fst].
    + apply Hinv'; [by rewrite length_upd|].
      intros i. by rewrite !(at_upd_keeps _ result k i (set_anchored_chunk true)).
    + by apply Hinv'.
  - cbn [fst].
    set (r1 := if bool_decide (breakType (at_ result firstCluster) ≠ HardBreak) then _ else _).
    assert (H1 : length r1 = length result
                 /\ forall i, visualIndex (at_ r1 i) = visualIndex (at_ result i)
                    /\ addressable (at_ r1 i) = addressable (at_ result i)
                    /\ middle (at_ r1 i) = middle (at_ result i)).
    { unfold r1. case_bool_decide; [|split; [done|by intros i]].
      split; [by rewrite length_upd|].
      intros i. by rewrite !(at_upd_keeps _ result firstCluster i (set_breakType _)). }
    destruct H1 as [Hl1 H1]. clearbody r1.
    set (r2 := if bool_decide (lineStart (at_ r1 firstCluster) = NoChange) then _ else _).
    assert (H2 : length r2 = length result
                 /\ forall i, visualIndex (at_ r2 i) = visualIndex (at_ result i)
                    /\ addressable (at_ r2 i) = addressable (at_ result i)
                    /\ middle (at_ r2 i) = middle (at_ result i)).
    { unfold r2. case_bool_decide; [|split; [done|by intros i]].
      split; [by rewrite length_upd|].
      intros i. rewrite !(at_upd_keeps _ r1 firstCluster i (set_lineStart _)) by done.
      apply H1. }
    destruct H2 as [Hl2 H2]. clearbody r2.
    set (r3 := if bool_decide (lineEnd (at_ r2 firstCluster) = NoChange) then _ else _).
    assert (H3 : length r3 = length result
                 /\ forall i, visualIndex (at_ r3 i) = visualIndex (at_ result i)
                    /\ addressable (at_ r3 i) = addressable (at_ result i)
                    /\ middle (at_ r3 i) = middle (at_ result i)).
    { unfold r3. case_bool_decide; [|split; [done|by intros i]].
      split; [by rewrite length_upd|].
      intros i. rewrite !(at_upd_keeps _ r2 firstCluster i (set_lineEnd _)) by done.
      apply H2. }
    destruct H3 as [Hl3 H3]. clearbody r3. clear r1 r2 Hl1 H1 Hl2 H2.
    split; [rewrite !length_upd; congruence|].
    intros i. destruct (Hinv i) as (Hv & Hlt & Hge). destruct (H3 i) as (Hv3 & Ha3 & Hm3).
    split; [|split].
    + rewrite (at_upd_keeps visualIndex) by done.
      rewrite (at_upd_keeps visualIndex) by done. congruence.
    + intros Hi. destruct (decide (i = k)) as [->|Hne].
      * rewrite at_upd_eq by (rewrite length_upd; lia).
        rewrite at_upd_eq by lia. cbn. by rewrite Hglyph, orb_true_r.
      * rewrite !at_upd_ne by done. rewrite Ha3, Hm3. apply Hlt. lia.
    + intros Hi. rewrite !at_upd_ne by lia. rewrite Ha3, Hm3. apply Hge. lia.
Qed.

Lemma markMiddle_fold_inv (m k : nat) (st : list CR * nat * bool) :
  (k + m <= length result0)%nat -> markInv k st ->
  markInv (k + m) (fold_left markMiddle_step (seq k m) st).
Proof.
  revert k st. induction m as [|m IH]; intros k st Hle Hinv; cbn [seq fold_left].
  - by rewrite Nat.add_0_r.
  - replace (k + S m)%nat with (S k + m)%nat by lia.
    apply IH; [lia|]. apply markMiddle_step_inv; [lia|done].
Qed.

End MarkMiddle.

(** X4. After the loop that marks cluster middles, a character is
    addressable exactly when it was addressable and has a glyph of its
    own (a visual index other than -1), every other character is marked
    as the middle of a cluster, and the length of [result] and the
    visual indices are as before. *)
Theorem markMiddle_addressable_iff_glyph (result : list CR) :
  length (markMiddle result) = length result
  /\ forall i, (i < length result)%nat ->
       visualIndex (at_ (markMiddle result) i) = visualIndex (at_ result i)
       /\ addressable (at_ (markMiddle result) i) = hasGlyph (at_ result i)
       /\ middle (at_ (markMiddle result) i)
          = middle (at_ result i) || negb (hasGlyph (at_ result i)).
Proof.
  destruct (markMiddle_fold_inv result (length result) 0 (result, 0%nat, false))
    as [Hlen Hinv].
  - done.
  - split; [done|]. intros i. split; [done|]. split; [lia|done].
  - split; [done|]. intros i Hi. destruct (Hinv i) as (Hv & Hlt & _).
    split; [done|]. by apply Hlt.
Qed.

Section MarkAnchor.
Variable result0 : list CR.

Lemma anchorPending_glyph (i k : nat) :
  hasGlyph (at_ result0 k) = true -> ~ anchorPending result0 i (S k).
Proof.
  intros Hg (Hlt & _ & Hi & Hm). destruct (decide (i = k)) as [->|Hne].
  - congruence.
  - rewrite Hm in Hg; [done|lia].
Qed.

Lemma anchorPending_step (i k : nat) :
  anchorPending result0 i (S k) ->
  (i = k /\ anchored_chunk (at_ result0 k) = true) \/ anchorPending result0 i k.
Proof.
  intros (Hlt & Ha & Hi & Hm). destruct (decide (i = k)) as [->|Hne]; [by left|].
  right. split; [lia|]. split; [done|]. split; [done|]. intros m Hlm. apply Hm. lia.
Qed.

Lemma markMiddle_step_anchor (k : nat) (st : list CR * nat * bool) :
  (k < length result0)%nat -> markInv result0 k st -> anchorInv result0 k st ->
  anchorInv result0 (S k) (markMiddle_step st k).
Proof.
  destruct st as [[result firstCluster] setAnchoredChunk].
  unfold markInv, anchorInv. cbn [fst snd].
  intros Hk [Hlen Hinv] (Hkeep & Hrest & Hflag & Hpairs).
  assert (Hg : addressable (at_ result k) && bool_decide (visualIndex (at_ result k) ≠ (-1)%Z)
               = hasGlyph (at_ result0 k)).
  { unfold hasGlyph. destruct (Hinv k) as (-> & _ & Hge).
    by destruct (Hge (le_n k)) as [-> _]. }
  unfold markMiddle_step. rewrite Hg. clear Hg.
  destruct (hasGlyph (at_ result0 k)) eqn:Hglyph.
  - destruct setAnchoredChunk; cbn [fst snd].
    + split; [|split; [|split]].
      * intros i Hi. destruct (decide (i = k)) as [->|Hne].
        -- by rewrite at_upd_eq by lia.
        -- rewrite at_upd_ne by done. by apply Hkeep.
      * intros i Hi. rewrite at_upd_ne by lia. apply Hrest. lia.
      * intros [i Hp]. by apply anchorPending_glyph in Hp.
      * intros i j Hj Hp Hgj. destruct (decide (j = k)) as [->|Hne].
        -- by rewrite at_upd_eq by lia.
        -- rewrite at_upd_ne by done. apply (Hpairs i); [lia|done..].
    + split; [done|]. split; [intros i Hi; apply Hrest; lia|]. split.
      * intros [i Hp]. by apply anchorPending_glyph in Hp.
      * intros i j Hj Hp Hgj. destruct (decide (j = k)) as [->|Hne].
        -- assert (true = false) by (symmetry; apply Hflag; by exists i). done.
        -- apply (Hpairs i); [lia|done..].
  - cbn [fst snd].
    set (r1 := if bool_decide (breakType (at_ result firstCluster) ≠ HardBreak) then _ else _).
    assert (H1 : forall i, anchored_chunk (at_ r1 i) = anchored_chunk (at_ result i)).
    { unfold r1. case_bool_decide; [|done].
      intros i. by rewrite (at_upd_keeps anchored_chunk). }
    clearbody r1.
    set (r2 := if bool_decide (lineStart (at_ r1 firstCluster) = NoChange) then _ else _).
    assert (H2 : forall i, anchored_chunk (at_ r2 i) = anchored_chunk (at_ result i)).
    { unfold r2. case_bool_decide; [|done].
      intros i. by rewrite (at_upd_keeps anchored_chunk). }
    clearbody r2.
    set (r3 := if bool_decide (lineEnd (at_ r2 firstCluster) = NoChange) then _ else _).
    assert (H3 : forall i, anchored_chunk (at_ r3 i) = anchored_chunk (at_ result i)).
    { unfold r3. case_bool_decide; [|done].
      intros i. by rewrite (at_upd_keeps anchored_chunk). }
    clearbody r3. clear r1 r2 H1 H2.
    assert (H4 : forall i,
               anchored_chunk (at_ (upd k (set_addressable false)
                                      (upd k (set_middle true) r3)) i)
               = anchored_chunk (at_ result i)).
    { intros i. rewrite (at_upd_keeps anchored_chunk) by done.
      by rewrite (at_upd_keeps anchored_chunk). }
    split; [|split; [|split]].
    + intros i Hi. rewrite H4. by apply Hkeep.
    + intros i Hi. rewrite H4. apply Hrest. lia.
    + intros [i Hp]. rewrite H3, (Hrest k) by lia.
      apply anchorPending_step in Hp as [[-> ->]|Hp]; [done|].
      rewrite Hflag by (by exists i). by destruct (anchored_chunk _).
    + intros i j Hj Hp Hgj. rewrite H4. destruct (decide (j = k)) as [->|Hne].
      * congruence.
      * apply (Hpairs i); [lia|done..].
Qed.

Lemma markMiddle_fold_anchor (m k : nat) (st : list CR * nat * bool) :
  (k + m <= length result0)%nat -> markInv result0 k st -> anchorInv result0 k st ->
  anchorInv result0 (k + m) (fold_left markMiddle_step (seq k m) st).
Proof.
  revert k st. induction m as [|m IH]; intros k st Hle Hinv Hanchor; cbn [seq fold_left].
  - by rewrite Nat.add_0_r.
  - replace (k + S m)%nat with (S k + m)%nat by lia.
    apply IH; [lia| |].
    + apply markMiddle_step_inv; [lia|done].
    + apply markMiddle_step_anchor; [lia|done..].
Qed.

End MarkAnchor.

(** X5. The marking loop does not lose the start of an anchored chunk:
    when character [i] starts one but has no glyph of its own, the first
    character after it that has a glyph starts the chunk afterwards, and
    no character that started a chunk stops doing so. *)
Theorem markMiddle_passes_anchor (result : list CR) (i j : nat) :
  (j < length result)%nat ->
  anchorPending result i j ->
  hasGlyph (at_ result j) = true ->
  anchored_chunk (at_ (markMiddle result) j) = true
  /\ anchored_chunk (at_ (markMiddle result) i) = true.
Proof.
  intros Hj Hp Hgj.
  destruct (markMiddle_fold_anchor result (length result) 0 (result, 0%nat, false))
    as (Hkeep & _ & _ & Hpairs).
  - done.
  - split; [done|]. intros k. split; [done|]. split; [lia|done].
  - split; [done|]. split; [done|]. split.
    + intros [k (Hk & _)]. lia.
    + intros k l Hl. lia.
  - split.
    + by apply (Hpairs i j).
    + apply Hkeep. by destruct Hp as (_ & Ha & _).
Qed.

(** ** [relayout]: how the setup loop classes the characters *)

Section SetupClasses.
Variables MUST ALLOW GB : Z.
Variable collapseLastSpace : QChar -> bool.
Variable characterCanHang : QChar -> HangingPunctuation -> bool.
Variable wrap : TextWrap.
Variable linebreakStrictness : LineBreak.
Variable text : list QChar.
Variable lineBreaks graphemeBreaks : list Z.
Variable justify : list (bool * bool).

Local Abbreviation setupCharacter_ :=
  (setupCharacter MUST ALLOW GB collapseLastSpace characterCanHang wrap
     linebreakStrictness text lineBreaks graphemeBreaks justify).
Local Abbreviation setupChunk_ :=
  (setupChunk MUST ALLOW GB collapseLastSpace characterCanHang wrap
     linebreakStrictness text lineBreaks graphemeBreaks justify).
Local Abbreviation setupResult_ :=
  (setupResult MUST ALLOW GB collapseLastSpace characterCanHang wrap
     linebreakStrictness text lineBreaks graphemeBreaks justify).

(** What the loop body does to the break class and the line edges. *)
Lemma setupCharacter_must (chunk_ : @SubChunk R) (start i : nat) (cr : CR) :
  lineBreaks !! (start + i)%nat = Some MUST ->
  lineStart (setupCharacter_ chunk_ start i cr) = Collapse
  /\ lineEnd (setupCharacter_ chunk_ start i cr) = Collapse.
Proof.
  intros Hmust. unfold setupCharacter.
  rewrite (bool_decide_true _ Hmust).
  set (cr1 := set_lineStart Collapse _).
  assert (H1 : breakType cr1 = HardBreak /\ lineStart cr1 = Collapse /\ lineEnd cr1 = Collapse)
    by done.
  clearbody cr1. destruct H1 as (Hb & Hs & He).
  rewrite (bool_decide_false (breakType cr1 = NoBreak)) by by rewrite Hb.
  rewrite andb_false_r.
  set (cr2 := if _ && bool_decide (wrap ≠ NoWrap) then cr1 else cr1).
  assert (H2 : lineStart cr2 = Collapse /\ lineEnd cr2 = Collapse)
    by (subst cr2; by case_match).
  clearbody cr2. destruct H2 as [Hs2 He2].
  rewrite (bool_decide_false (lineStart cr2 ≠ Collapse)) by (by intros []).
  cbn [andb].
  rewrite (bool_decide_false (lineEnd cr2 ≠ Collapse)) by (by intros []).
  by case_match.
Qed.

Lemma setupCharacter_not_must (chunk_ : @SubChunk R) (start i : nat) (cr : CR) :
  lineBreaks !! (start + i)%nat ≠ Some MUST ->
  (breakType cr ≠ HardBreak -> breakType (setupCharacter_ chunk_ start i cr) ≠ HardBreak)
  /\ (wrap = NoWrap -> breakType (setupCharacter_ chunk_ start i cr) = breakType cr).
Proof.
  intros Hmust. unfold setupCharacter.
  rewrite (bool_decide_false _ Hmust).
  set (cr0 := set_overflowWrap _ _).
  assert (H0 : breakType cr0 = breakType cr) by done.
  clearbody cr0. rewrite <- H0. clear H0.
  set (cr1 := if _ && bool_decide (wrap ≠ NoWrap) then _ else cr0).
  assert (H1 : (breakType cr0 ≠ HardBreak -> breakType cr1 ≠ HardBreak)
               /\ (wrap = NoWrap -> breakType cr1 = breakType cr0)).
  { subst cr1. split.
    - intros Hne. repeat case_match; done.
    - intros ->. rewrite (bool_decide_false (NoWrap ≠ NoWrap)) by (by intros []).
      by rewrite andb_false_r. }
  clearbody cr1.
  set (cr2 := if (_ || _) && bool_decide (wrap ≠ NoWrap) then _ else cr1).
  assert (H2 : (breakType cr0 ≠ HardBreak -> breakType cr2 ≠ HardBreak)
               /\ (wrap = NoWrap -> breakType cr2 = breakType cr0)).
  { subst cr2. destruct H1 as [H1 H1']. split.
    - intros Hne. repeat case_match; try done; by apply H1.
    - intros ->. rewrite (bool_decide_false (NoWrap ≠ NoWrap)) by (by intros []).
      rewrite andb_false_r. by apply H1'. }
  clearbody cr2. clear H1.
  match goal with
  | |- (_ -> breakType ?out ≠ _) /\ _ =>
      assert (H3 : breakType out = breakType cr2) by (repeat (case_match; try done))
  end.
  by rewrite H3.
Qed.

(** A property of the character at each index that the loop body, the
    font metrics and the start of an anchored chunk keep. *)
Variable P : nat -> CR -> Prop.
Hypothesis P_init : forall p, P p CharacterResult0.
Hypothesis P_character : forall chunk_ start i cr,
  P (start + i)%nat cr -> P (start + i)%nat (setupCharacter_ chunk_ start i cr).
Hypothesis P_metrics : forall p w s h d a cr,
  P p cr ->
  P p (set_fontWeight w (set_fontStyle s (set_halfLeading h (set_descent d (set_ascent a cr))))).
Hypothesis P_anchored : forall p cr, P p cr -> P p (set_anchored_chunk true cr).

Lemma upd_pointwise (j : nat) (f : CR -> CR) (res : list CR) :
  (forall p, P p (at_ res p)) ->
  (P j (at_ res j) -> P j (f (at_ res j))) ->
  forall p, P p (at_ (upd j f res) p).
Proof.
  intros Hres Hf p. destruct (decide (p = j)) as [->|Hne].
  - destruct (decide (j < length res)%nat).
    + rewrite at_upd_eq by done. by apply Hf.
    + rewrite at_upd_oob by lia. apply Hres.
  - by rewrite at_upd_ne.
Qed.

Lemma setupChunk_pointwise (st : list CR * nat * gmap nat (@TabSizeInfo R))
    (chunk_ : @SubChunk R) :
  (forall p, P p (at_ (fst (fst st)) p)) ->
  forall p, P p (at_ (fst (fst (setupChunk_ st chunk_))) p).
Proof using Type*.
  destruct st as [[res start] tabs]. cbn [fst]. intros Hres. unfold setupChunk.
  match goal with |- context [fold_left ?f (seq 0 (sc_size chunk_)) (res, tabs)] =>
    assert (H1 : forall p, P p (at_ (fst (fold_left f (seq 0 (sc_size chunk_)) (res, tabs))) p));
    [|destruct (fold_left f (seq 0 (sc_size chunk_)) (res, tabs)) as [res1 tabs1]]
  end.
  { generalize (seq 0 (sc_size chunk_)). intros l. revert res tabs Hres.
    induction l as [|i l IH]; intros res tabs Hres; cbn [fold_left]; [done|].
    apply IH. apply upd_pointwise; [done|]. apply P_character. }
  cbn [fst] in H1.
  assert (H2 : forall p,
             P p (at_ (fst (fold_left (setupFace chunk_) (sc_faces chunk_) (res1, start))) p)).
  { generalize (sc_faces chunk_). intros faces. clear Hres. revert res1 start H1.
    induction faces as [|[length_ m] faces IH]; intros res1 start H1; cbn [fold_left]; [done|].
    unfold setupFace at 2. apply IH.
    generalize (seq start length_). intros l. revert res1 H1.
    induction l as [|j l IHl]; intros res1 H1; cbn [fold_left]; [done|].
    apply IHl. apply upd_pointwise; [done|]. apply P_metrics. }
  by destruct (fold_left (setupFace chunk_) (sc_faces chunk_) (res1, start)).
Qed.

Lemma setupResult_pointwise (raqm_set_text_ok : bool) (textChunks : list (@SubChunk R)) :
  forall p, P p (at_ (fst (setupResult_ raqm_set_text_ok textChunks)) p).
Proof using Type*.
  unfold setupResult.
  assert (H0 : forall p, P p (at_ (replicate (length text) (CharacterResult0 : CR)) p)).
  { intros p. unfold at_. rewrite nth_lookup.
    destruct (replicate _ _ !! p) as [c|] eqn:E; [|done].
    apply lookup_replicate in E as [-> _]. apply P_init. }
  assert (H1 : forall st,
             (forall p, P p (at_ (fst (fst st)) p)) ->
             forall p, P p (at_ (fst (fst (fold_left setupChunk_ textChunks st))) p)).
  { induction textChunks as [|c l IH]; intros st Hst; cbn [fold_left]; [done|].
    apply IH. by apply setupChunk_pointwise. }
  specialize (H1 (replicate (length text) CharacterResult0, 0%nat, ∅) H0).
  destruct raqm_set_text_ok.
  - destruct (fold_left _ textChunks _) as [[res start] tabs]. cbn [fst] in *.
    destruct res as [|c res]; [done|].
    apply upd_pointwise; [done|]. apply P_anchored.
  - cbn [fst]. destruct (replicate _ _) as [|c res]; [done|].
    apply upd_pointwise; [done|]. apply P_anchored.
Qed.

End SetupClasses.

(** X6. With [text-wrap: nowrap] the setup loop classes no character as
    a soft break, whatever libunibreak allows and whatever the word
    break and line break properties say, and the marking of cluster
    middles introduces none either: the only breaks left are the
    mandatory ones. *)
Theorem setupResult_nowrap_no_soft_break (MUST ALLOW GB : Z)
    (collapseLastSpace : QChar -> bool)
    (characterCanHang : QChar -> HangingPunctuation -> bool)
    (linebreakStrictness : LineBreak)
    (text : list QChar) (lineBreaks graphemeBreaks : list Z)
    (justify : list (bool * bool)) (raqm_set_text_ok : bool)
    (textChunks : list (@SubChunk R)) (p : nat) :
  let result : list CR :=
    fst (setupResult MUST ALLOW GB collapseLastSpace characterCanHang NoWrap
           linebreakStrictness text lineBreaks graphemeBreaks justify
           raqm_set_text_ok textChunks) in
  breakType (at_ result p) ≠ SoftBreak
  /\ breakType (at_ (markMiddle result) p) ≠ SoftBreak.
Proof.
  intros result.
  assert (Hres : forall q, breakType (at_ result q) ≠ SoftBreak).
  { apply (setupResult_pointwise MUST ALLOW GB collapseLastSpace characterCanHang NoWrap
             linebreakStrictness text lineBreaks graphemeBreaks justify
             (fun _ cr => breakType cr ≠ SoftBreak)); try done.
    intros chunk_ start i cr Hcr.
    destruct (decide (lineBreaks !! (start + i)%nat = Some MUST)) as [Hmust|Hmust].
    - by rewrite (setupCharacter_hard MUST ALLOW GB collapseLastSpace characterCanHang
                    NoWrap linebreakStrictness lineBreaks graphemeBreaks justify).
    - destruct (setupCharacter_not_must MUST ALLOW GB collapseLastSpace characterCanHang
                  NoWrap linebreakStrictness text lineBreaks graphemeBreaks justify
                  chunk_ start i cr Hmust) as [_ ->]; done. }
  split; [done|]. unfold markMiddle.
  generalize (seq 0 (length result)).
  assert (Hst : forall q, breakType (at_ (fst (fst (result, 0%nat, false))) q) ≠ SoftBreak)
    by done.
  revert Hst. generalize (result, 0%nat, false). clear Hres. intros st Hst l. revert st Hst.
  induction l as [|i l IH]; intros st Hst; cbn [fold_left]; [done|].
  apply IH. clear IH. destruct st as [[res firstCluster] setAnchoredChunk].
  cbn [fst] in *. intros q. unfold markMiddle_step.
  destruct (addressable (at_ res i) && _).
  - destruct setAnchoredChunk; cbn [fst]; [|done].
    by rewrite (at_upd_keeps breakType).
  - cbn [fst]. rewrite !(at_upd_keeps breakType) by done.
    set (r1 := if bool_decide (breakType (at_ res firstCluster) ≠ HardBreak) then _ else _).
    assert (H1 : forall q, breakType (at_ r1 q) ≠ SoftBreak).
    { intros q'. unfold r1. case_bool_decide; [|done].
      destruct (decide (q' = firstCluster)) as [->|Hne]; [|by rewrite at_upd_ne].
      destruct (decide (firstCluster < length res)%nat).
      - rewrite at_upd_eq by done. cbn. apply Hst.
      - rewrite at_upd_oob by lia. apply Hst. }
    clearbody r1.
    repeat case_bool_decide; rewrite ?(at_upd_keeps breakType); done.
Qed.

(** X7. A character that the setup loop classes as a hard break is a
    mandatory break of libunibreak, and it collapses at the start and at
    the end of a line, whatever the hanging punctuation of its chunk. *)
Theorem setupResult_hard_break_collapses (MUST ALLOW GB : Z)
    (collapseLastSpace : QChar -> bool)
    (characterCanHang : QChar -> HangingPunctuation -> bool)
    (wrap : TextWrap) (linebreakStrictness : LineBreak)
    (text : list QChar) (lineBreaks graphemeBreaks : list Z)
    (justify : list (bool * bool)) (raqm_set_text_ok : bool)
    (textChunks : list (@SubChunk R)) (p : nat) :
  let result : list CR :=
    fst (setupResult MUST ALLOW GB collapseLastSpace characterCanHang wrap
           linebreakStrictness text lineBreaks graphemeBreaks justify
           raqm_set_text_ok textChunks) in
  breakType (at_ result p) = HardBreak ->
  lineBreaks !! p = Some MUST
  /\ lineStart (at_ result p) = Collapse
  /\ lineEnd (at_ result p) = Collapse.
Proof.
  intros result. revert p.
  apply (setupResult_pointwise MUST ALLOW GB collapseLastSpace characterCanHang wrap
           linebreakStrictness text lineBreaks graphemeBreaks justify
           (fun p cr => breakType cr = HardBreak ->
                        lineBreaks !! p = Some MUST
                        /\ lineStart cr = Collapse /\ lineEnd cr = Collapse)); try done.
  intros chunk_ start i cr Hcr Hhard.
  destruct (decide (lineBreaks !! (start + i)%nat = Some MUST)) as [Hmust|Hmust].
  - split; [done|]. by apply setupCharacter_must.
  - destruct (setupCharacter_not_must MUST ALLOW GB collapseLastSpace characterCanHang
                wrap linebreakStrictness text lineBreaks graphemeBreaks justify
                chunk_ start i cr Hmust) as [Hne _].
    exfalso. apply Hne; [|done]. intros Hcr'. by destruct (Hcr Hcr') as [? _].
Qed.

(** ** [handleCollapseAndHang]: the trailing characters that collapse *)

Lemma collapseAll_spec (back : list nat) (result : list CR) :
  length (collapseAll back result) = length result
  /\ (forall k, lineEnd (at_ (collapseAll back result) k) = lineEnd (at_ result k))
  /\ (forall k, k ∈ back -> (k < length result)%nat ->
        hidden (at_ (collapseAll back result) k) = true
        /\ addressable (at_ (collapseAll back result) k) = false)
  /\ (forall k, k ∉ back -> at_ (collapseAll back result) k = at_ result k).
Proof.
  unfold collapseAll. revert result.
  induction back as [|i back IH] using rev_ind; intros result.
  { cbn. split; [done|]. split; [done|]. split; [|done].
    intros k Hk. by apply elem_of_nil in Hk. }
  rewrite fold_left_app. cbn [fold_left].
  destruct (IH result) as (Hlen & Hedge & Hin & Hout).
  set (r := fold_left _ back result) in *. clearbody r.
  split; [by rewrite !length_upd|]. split; [|split].
  - intros k. rewrite (at_upd_keeps lineEnd) by done.
    by rewrite (at_upd_keeps lineEnd).
  - intros k Hk Hlt. destruct (decide (k = i)) as [->|Hne].
    + rewrite at_upd_eq by (rewrite length_upd; lia).
      rewrite at_upd_eq by lia. done.
    + rewrite !at_upd_ne by done. apply Hin; [|done].
      apply elem_of_app in Hk as [Hk|Hk]; [done|].
      by apply list_elem_of_singleton in Hk.
  - intros k Hk. rewrite !at_upd_ne.
    + apply Hout. intros Hb. apply Hk, elem_of_app. by left.
    + intros ->. apply Hk, elem_of_app. right. by apply list_elem_of_singleton.
    + intros ->. apply Hk, elem_of_app. right. by apply list_elem_of_singleton.
Qed.

(** The loop walks over the characters that collapse and hides them. *)
Lemma handleCollapseAndHang_loop_collapse (endPos : QPointF R) (inlineSize ltr atEnd : bool)
    (back rest : list nat) (result : list CR) :
  Forall (fun k => lineEnd (at_ result k) = Collapse) back ->
  handleCollapseAndHang_loop endPos inlineSize ltr atEnd (back ++ rest) result
  = handleCollapseAndHang_loop endPos inlineSize ltr atEnd rest (collapseAll back result).
Proof.
  revert result. induction back as [|i back IH]; intros result Hall; [done|].
  apply Forall_cons in Hall as [Hi Hall].
  cbn [app handleCollapseAndHang_loop]. rewrite (bool_decide_true _ Hi).
  set (r := upd i (set_hidden true) _).
  assert (Hedge : forall k, lineEnd (at_ r k) = lineEnd (at_ result k)).
  { intros k. unfold r. rewrite (at_upd_keeps lineEnd) by done.
    by rewrite (at_upd_keeps lineEnd). }
  rewrite (bool_decide_false (lineEnd (at_ r i) ≠ Collapse)) by (rewrite Hedge; by intros []).
  rewrite IH; [done|].
  eapply Forall_impl; [exact Hall|]. intros k Hk. cbn. by rewrite Hedge.
Qed.

(** X8. [handleCollapseAndHang] hides the characters at the end of the
    chunk that collapse at a line end, up to the last character that
    does not: those after it become hidden and not addressable, that
    character keeps both flags (and is untouched when there is no
    [inline-size]), and no other character changes. *)
Theorem handleCollapseAndHang_trailing (result : list CR) (chunk_ : LineChunk)
    (inlineSize ltr atEnd : bool) (before : list nat) (j : nat) (after : list nat) :
  chunkIndices chunk_ = before ++ j :: after ->
  lineEnd (at_ result j) ≠ Collapse ->
  Forall (fun k => lineEnd (at_ result k) = Collapse) after ->
  let out := handleCollapseAndHang result chunk_ inlineSize ltr atEnd in
  (forall k, k ∈ after -> (k < length result)%nat ->
     hidden (at_ out k) = true /\ addressable (at_ out k) = false)
  /\ (forall k, k ∉ after -> k ≠ j -> at_ out k = at_ result k)
  /\ hidden (at_ out j) = hidden (at_ result j)
  /\ addressable (at_ out j) = addressable (at_ result j)
  /\ (inlineSize = false -> at_ out j = at_ result j).
Proof.
  intros Hidx Hj Hafter out.
  assert (Hjout : j ∉ after).
  { intros Hin. apply Hj. by apply (proj1 (Forall_forall _ _) Hafter). }
  destruct (collapseAll_spec (rev after) result) as (Hlen & Hedge & Hin & Hout).
  assert (Hloop : out = handleCollapseAndHang_loop (p2 (chunkLength chunk_)) inlineSize ltr
                          atEnd (j :: rev before) (collapseAll (rev after) result)).
  { unfold out, handleCollapseAndHang. cbv zeta. rewrite Hidx, rev_app_distr.
    cbn [rev]. rewrite <- app_assoc. cbn [app].
    apply handleCollapseAndHang_loop_collapse.
    by apply Forall_rev. }
  set (r := collapseAll (rev after) result) in *. clearbody r.
  cbn [handleCollapseAndHang_loop] in Hloop.
  rewrite (bool_decide_false (lineEnd (at_ r j) = Collapse)) in Hloop by by rewrite Hedge.
  set (hang := upd j (set_isHanging true) _) in Hloop.
  assert (Hhang : (forall k, k ≠ j -> at_ hang k = at_ r k)
                  /\ hidden (at_ hang j) = hidden (at_ r j)
                  /\ addressable (at_ hang j) = addressable (at_ r j)
                  /\ lineEnd (at_ hang j) = lineEnd (at_ r j)).
  { unfold hang. split; [|split; [|split]].
    - intros k Hne. by rewrite !at_upd_ne.
    - by rewrite !(at_upd_keeps hidden).
    - by rewrite !(at_upd_keeps addressable).
    - by rewrite !(at_upd_keeps lineEnd). }
  clearbody hang. destruct Hhang as (Hh1 & Hh2 & Hh3 & Hh4).
  set (r' := if bool_decide (lineEnd (at_ r j) = ForceHang) && inlineSize then hang
             else if bool_decide (lineEnd (at_ r j) = HangBehaviour) && inlineSize && atEnd
                  then hang else r) in *.
  assert (Hr' : (forall k, k ≠ j -> at_ r' k = at_ r k)
                /\ hidden (at_ r' j) = hidden (at_ r j)
                /\ addressable (at_ r' j) = addressable (at_ r j)
                /\ lineEnd (at_ r' j) = lineEnd (at_ r j)
                /\ (inlineSize = false -> r' = r)).
  { unfold r'. split; [|split; [|split; [|split]]].
    - intros k Hne. repeat case_match; by try apply Hh1.
    - repeat case_match; done.
    - repeat case_match; done.
    - repeat case_match; done.
    - intros ->. by rewrite !andb_false_r. }
  clearbody r'. destruct Hr' as (Hr1 & Hr2 & Hr3 & Hr4 & Hr5).
  rewrite (bool_decide_true (lineEnd (at_ r' j) ≠ Collapse)) in Hloop
    by (by rewrite Hr4, Hedge).
  assert (Hrev : forall k, k ∈ rev after <-> k ∈ after).
  { intros k. rewrite !list_elem_of_In. symmetry. apply in_rev. }
  rewrite Hloop. split; [|split; [|split; [|split]]].
  - intros k Hk Hlt. rewrite Hr1 by (by intros ->). apply Hin; [by apply Hrev|done].
  - intros k Hk Hne. rewrite Hr1 by done. apply Hout. by rewrite Hrev.
  - rewrite Hr2. f_equal. apply Hout. by rewrite Hrev.
  - rewrite Hr3. f_equal. apply Hout. by rewrite Hrev.
  - intros Hno. rewrite (Hr5 Hno). apply Hout. by rewrite Hrev.
Qed.

(** ** [applyTextLength]: what it leaves alone *)

Section TextLengthFrame.
Context {X : Type}.
Variable N : CR -> X.
Hypothesis N_position : forall v c, N (set_finalPosition v c) = N c.
Hypothesis N_applied : forall v c, N (set_textLengthApplied v c) = N c.

Local Abbreviation keepsN := (keepsN N).

Lemma keepsN_refl (result : list CR) : keepsN result result.
Proof. done. Qed.

Lemma keepsN_trans (r1 r2 r3 : list CR) : keepsN r1 r2 -> keepsN r2 r3 -> keepsN r1 r3.
Proof.
  intros [Hl1 H1] [Hl2 H2]. split; [congruence|]. intros k. by rewrite H2, H1.
Qed.

Lemma keepsN_insert (result : list CR) (idx : nat) (x : CR) :
  N x = N (at_ result idx) -> keepsN result (<[idx := x]> result).
Proof.
  intros Hx. split; [by rewrite length_insert|]. intros k.
  destruct (decide (k = idx)) as [->|Hne]; [|by rewrite at_insert_ne].
  destruct (decide (idx < length result)%nat).
  - by rewrite at_insert_eq.
  - by rewrite list_insert_ge by lia.
Qed.

Lemma keepsN_upd (result : list CR) (idx : nat) (f : CR -> CR) :
  (forall c, N (f c) = N c) -> keepsN result (upd idx f result).
Proof. intros Hf. by apply keepsN_insert. Qed.

Lemma keepsN_fold_left {A} (f : list CR -> A -> list CR) (l : list A) (result : list CR) :
  (forall res a, keepsN res (f res a)) -> keepsN result (fold_left f l result).
Proof.
  intros Hf.
  assert (H : forall r, keepsN result r -> keepsN result (fold_left f l r)).
  { induction l as [|a l IH]; intros r H0; cbn [fold_left]; [done|].
    apply IH. eapply keepsN_trans; [exact H0|]. apply Hf. }
  apply H, keepsN_refl.
Qed.

Lemma textLength_adjust_keeps (spacingAndGlyphs : bool) (d : QPointF R)
    (visualToLogical : gmap Z nat) (lastKey : option Z)
    (st : list CR * QPointF R * bool) (k : Z) :
  spacingAndGlyphs = false
  \/ (forall p a b c, N (set_boundingBox b (set_advance a (set_path p c))) = N c) ->
  keepsN (fst (fst st))
    (fst (fst (textLength_adjust spacingAndGlyphs d visualToLogical lastKey st k))).
Proof using N_position N_applied.
  destruct st as [[result shift] second]. cbn [fst]. intros Hcase.
  unfold textLength_adjust.
  destruct (addressable _); cbn [fst]; [|by apply keepsN_insert].
  apply keepsN_insert. rewrite N_applied.
  destruct Hcase as [->|Hglyph].
  - by rewrite N_position.
  - destruct spacingAndGlyphs; [|by rewrite N_position].
    by rewrite Hglyph, N_position.
Qed.

Lemma applyTextLength_own_keeps (textLength : @AutoValue R) (lengthAdjust : LengthAdjust)
    (isHorizontal : bool) (i j : nat) (resolvedChildren : Z) (result : list CR) :
  lengthAdjust = LengthAdjustSpacing
  \/ (forall p a b c, N (set_boundingBox b (set_advance a (set_path p c))) = N c) ->
  keepsN result
    (applyTextLength_own textLength lengthAdjust isHorizontal i j resolvedChildren result).
Proof using N_position N_applied.
  intros Hcase. unfold applyTextLength_own.
  destruct (fold_left (textLength_measure isHorizontal result i) _ _) as [[[v2l a] b] n].
  set (sg := bool_decide (lengthAdjust = LengthAdjustSpacingAndGlyphs)).
  assert (Hsg : sg = false
                \/ (forall p a b c, N (set_boundingBox b (set_advance a (set_path p c))) = N c)).
  { destruct Hcase as [->|?]; [by left | by right]. }
  clearbody sg.
  match goal with
  | |- context [fold_left (textLength_adjust sg ?d v2l ?lk) ?keys (result, ?p0, false)] =>
      assert (Hadj : keepsN result
                (fst (fst (fold_left (textLength_adjust sg d v2l lk) keys
                             (result, p0, false)))));
      [|destruct (fold_left (textLength_adjust sg d v2l lk) keys (result, p0, false))
          as [[result1 shift] second]]
  end.
  { generalize (QMap_keys Z.le v2l) at 2. intros keys.
    assert (H0 : keepsN result (fst (fst (result, QPointF0 : QPointF R, false))))
      by apply keepsN_refl.
    revert H0. generalize (result, QPointF0 : QPointF R, false). intros st H0.
    revert st H0. induction keys as [|k keys IH]; intros st H0; cbn [fold_left]; [done|].
    apply IH. eapply keepsN_trans; [exact H0|]. by apply textLength_adjust_keeps. }
  cbn [fst] in Hadj. eapply keepsN_trans; [exact Hadj|].
  apply keepsN_fold_left. intros res k. case_match; [|apply keepsN_refl].
  apply keepsN_upd. intros c. apply N_position.
Qed.

Lemma applyTextLength_keeps (rootShape : KoShape) (isHorizontal : bool)
    (st : list CR * nat * Z) :
  spacingOnly rootShape = true
  \/ (forall p a b c, N (set_boundingBox b (set_advance a (set_path p c))) = N c) ->
  keepsN (fst (fst st)) (fst (fst (applyTextLength rootShape isHorizontal st))).
Proof using N_position N_applied.
  revert rootShape st.
  fix IH 1. intros [|numChars textLength lengthAdjust shapes] [[result ci] rd] Hcase.
  - apply keepsN_refl.
  - cbn [applyTextLength fst].
    assert (Hch : forall st0,
               keepsN (fst (fst st0))
                 (fst (fst (fold_left (fun st child => applyTextLength child isHorizontal st)
                              shapes st0)))).
    { assert (Hshapes : spacingOnly (TextChunkShape numChars textLength lengthAdjust shapes) = true
                        -> forallb spacingOnly shapes = true).
      { cbn. intros H. by apply andb_true_iff in H as [_ ?]. }
      assert (Hcase' : forallb spacingOnly shapes = true
                \/ (forall p a b c, N (set_boundingBox b (set_advance a (set_path p c))) = N c)).
      { destruct Hcase as [H|H]; [left; by apply Hshapes | by right]. }
      clear Hcase Hshapes. induction shapes as [|child shapes IHs]; intros st0; cbn [fold_left].
      - apply keepsN_refl.
      - eapply keepsN_trans; [|apply IHs].
        + apply IH. destruct Hcase' as [H|H]; [|by right].
          left. cbn in H. by apply andb_true_iff in H as [? _].
        + destruct Hcase' as [H|H]; [|by right].
          left. cbn in H. by apply andb_true_iff in H as [_ ?]. }
    specialize (Hch (result, ci, 0%Z)).
    destruct (fold_left _ shapes _) as [[result1 ci1] rc]. cbn [fst] in Hch.
    destruct (negb (isAuto textLength)) eqn:Hauto; cbn [fst]; [|done].
    eapply keepsN_trans; [exact Hch|]. apply applyTextLength_own_keeps.
    destruct Hcase as [H|H]; [|by right]. left.
    cbn in H. apply andb_true_iff in H as [H _].
    apply negb_true_iff in Hauto. rewrite Hauto in H. cbn in H.
    by apply bool_decide_eq_true in H.
Qed.

End TextLengthFrame.

(** X9. Whatever the tree of runs, [applyTextLength] keeps the length
    of [result] and changes nothing of a character but its final
    position, its [textLengthApplied] flag and, where glyphs are
    stretched, its outline, advance and bounding box: the addressable
    and hidden flags, the CSS position, the anchoring and the line
    classes are as before. *)
Theorem applyTextLength_frame (rootShape : KoShape) (isHorizontal : bool)
    (result : list CR) (currentIndex : nat) (resolvedDescendentNodes : Z) (k : nat) :
  let out :=
    fst (fst (applyTextLength rootShape isHorizontal
                (result, currentIndex, resolvedDescendentNodes))) in
  length out = length result
  /\ blankGlyph (at_ out k) = blankGlyph (at_ result k).
Proof.
  intros out.
  destruct (applyTextLength_keeps blankGlyph (fun v c => ltac:(by destruct c))
              (fun v c => ltac:(by destruct c)) rootShape isHorizontal
              (result, currentIndex, resolvedDescendentNodes)) as [Hlen Hk].
  - right. intros p a b c. by destruct c.
  - done.
Qed.

(** X10. When no run of the tree stretches its glyphs ([lengthAdjust]
    is [spacing] wherever [textLength] is set), [applyTextLength] only
    moves characters: nothing but the final position and the
    [textLengthApplied] flag of a character changes, so outlines,
    advances and bounding boxes are as they were. *)
Theorem applyTextLength_spacing_only_moves (rootShape : KoShape) (isHorizontal : bool)
    (result : list CR) (currentIndex : nat) (resolvedDescendentNodes : Z) (k : nat) :
  spacingOnly rootShape = true ->
  let out :=
    fst (fst (applyTextLength rootShape isHorizontal
                (result, currentIndex, resolvedDescendentNodes))) in
  blankPosition (at_ out k) = blankPosition (at_ result k)
  /\ path (at_ out k) = path (at_ result k)
  /\ advance (at_ out k) = advance (at_ result k)
  /\ boundingBox (at_ out k) = boundingBox (at_ result k).
Proof.
  intros Hspacing out.
  destruct (applyTextLength_keeps blankPosition (fun v c => ltac:(by destruct c))
              (fun v c => ltac:(by destruct c)) rootShape isHorizontal
              (result, currentIndex, resolvedDescendentNodes)) as [Hlen Hk].
  - by left.
  - assert (Hb : blankPosition (at_ out k) = blankPosition (at_ result k)) by apply Hk.
    split; [done|].
    split; [exact (f_equal path Hb)|].
    split; [exact (f_equal advance Hb) | exact (f_equal boundingBox Hb)].
Qed.

(** ** [applyAnchoring] *)

Lemma drop_at (result : list CR) (i : nat) :
  (drop i result = [] /\ (length result <= i)%nat)
  \/ (drop i result = at_ result i :: drop (S i) result /\ (i < length result)%nat).
Proof.
  destruct (result !! i) as [cr|] eqn:E.
  - right. split; [|by eapply lookup_lt_Some].
    rewrite (drop_S _ _ _ E). f_equal. unfold at_. by rewrite nth_lookup, E.
  - left. apply lookup_ge_None in E. split; [by apply drop_ge | done].
Qed.

(** The scan stops after [start], in front of the next start of a chunk
    or at the end of [result]. *)
Lemma applyAnchoring_scan_spec (isHorizontal : bool) (start : nat) (result : list CR)
    (n i : nat) (a b : R) :
  (length result - i <= n)%nat -> (start <= i)%nat ->
  let i' := fst (fst (Members.applyAnchoring_scan isHorizontal start (drop i result) i a b)) in
  (i <= i')%nat
  /\ (i < length result -> i' <= length result)%nat
  /\ (forall m, (i <= m < i')%nat -> (start < m)%nat -> chunkStart result m = false)
  /\ ((i' < length result)%nat -> chunkStart result i' = true)
  /\ (i = start -> (start < length result)%nat -> (start < i')%nat).
Proof.
  revert i a b. induction n as [|n IH]; intros i a b Hn Hi.
  - destruct (drop_at result i) as [[-> Hlen]|[_ Hlen]]; [|lia].
    cbn. repeat split; intros; lia.
  - destruct (drop_at result i) as [[-> Hlen]|[-> Hlen]].
    { cbn. repeat split; intros; lia. }
    cbn [Members.applyAnchoring_scan].
    assert (Hrec : forall a' b',
               let i' := fst (fst (Members.applyAnchoring_scan isHorizontal start
                                     (drop (S i) result) (S i) a' b')) in
               chunkStart result i = false \/ i = start ->
               (i <= i')%nat
               /\ (i < length result -> i' <= length result)%nat
               /\ (forall m, (i <= m < i')%nat -> (start < m)%nat ->
                             chunkStart result m = false)
               /\ ((i' < length result)%nat -> chunkStart result i' = true)
               /\ (i = start -> (start < length result)%nat -> (start < i')%nat)).
    { intros a' b' i' Hcs.
      destruct (IH (S i) a' b') as (H1 & H2 & H3 & H4 & H5); [lia..|].
      fold i' in H1, H2, H3, H4, H5.
      split; [lia|]. split.
      { intros _. destruct (decide (S i < length result)%nat); [by apply H2|].
        destruct (drop_at result (S i)) as [[Hd _]|[_ ?]]; [|lia].
        unfold i'. rewrite Hd. cbn. lia. }
      split; [|split; [done|lia]].
      intros m Hm Hsm. destruct (decide (m = i)) as [->|Hne].
      - destruct Hcs as [?| ->]; [done|lia].
      - apply H3; [lia|done]. }
    destruct (negb (addressable (at_ result i))) eqn:Haddr.
    { apply Hrec. left. unfold chunkStart.
      apply negb_true_iff in Haddr. by rewrite Haddr. }
    apply negb_false_iff in Haddr.
    destruct (anchored_chunk (at_ result i) && (start <? i)%nat) eqn:Hbreak.
    { cbn [fst]. apply andb_true_iff in Hbreak as [Hanch Hlt].
      apply Nat.ltb_lt in Hlt.
      split; [lia|]. split; [lia|]. split; [intros m Hm; lia|]. split; [|lia].
      intros _. unfold chunkStart. by rewrite Haddr, Hanch. }
    match goal with
    | |- context [let '(a0, b0) := ?ab in _] => destruct ab as [a' b']
    end.
    apply Hrec. apply andb_false_iff in Hbreak as [Hanch|Hlt].
    + left. unfold chunkStart. by rewrite Hanch, andb_false_r.
    + right. apply Nat.ltb_ge in Hlt. lia.
Qed.

(** The loop that shifts the characters of a chunk. *)
Lemma applyAnchoring_shift_spec (shiftP : QPointF R) (n start : nat) (result : list CR) :
  (start + n <= length result)%nat ->
  let out := fold_left (fun res j => upd j (shiftBy shiftP) res) (seq start n) result in
  length out = length result
  /\ (forall k, (start <= k < start + n)%nat -> at_ out k = shiftBy shiftP (at_ result k))
  /\ (forall k, ~ (start <= k < start + n)%nat -> at_ out k = at_ result k).
Proof.
  revert start result. induction n as [|n IH]; intros start result Hle; cbn [seq fold_left].
  - split; [done|]. split; [intros k Hk; lia | done].
  - destruct (IH (S start) (upd start (shiftBy shiftP) result)) as (Hlen & Hin & Hout).
    { rewrite length_upd. lia. }
    rewrite length_upd in Hlen. split; [done|]. split.
    + intros k Hk. destruct (decide (k = start)) as [->|Hne].
      * rewrite Hout by lia. by rewrite at_upd_eq by lia.
      * rewrite Hin by lia. by rewrite at_upd_ne.
    + intros k Hk. rewrite Hout by lia. rewrite at_upd_ne; [done|lia].
Qed.

(** One iteration of the [while] loop. *)
Lemma applyAnchoring_chunk_spec (isHorizontal : bool) (result : list CR) (start : nat) :
  (start < length result)%nat ->
  let out := Members.applyAnchoring_chunk isHorizontal result start in
  (start < snd out <= length result)%nat
  /\ length (fst out) = length result
  /\ (forall m, (start < m < snd out)%nat -> chunkStart result m = false)
  /\ ((snd out < length result)%nat -> chunkStart result (snd out) = true)
  /\ exists shiftP,
       (forall k, (start <= k < snd out)%nat ->
                  at_ (fst out) k = shiftBy shiftP (at_ result k))
       /\ (forall k, ~ (start <= k < snd out)%nat -> at_ (fst out) k = at_ result k).
Proof.
  intros Hstart. unfold Members.applyAnchoring_chunk.
  pose proof (applyAnchoring_scan_spec isHorizontal start result (length result) start
                r0 r0 ltac:(lia) ltac:(lia)) as Hscan.
  cbv zeta in Hscan.
  destruct (Members.applyAnchoring_scan isHorizontal start (drop start result) start r0 r0)
    as [[i a] b].
  cbn [fst snd] in *. destruct Hscan as (H1 & H2 & H3 & H4 & H5).
  specialize (H5 eq_refl Hstart). specialize (H2 Hstart).
  match goal with
  | |- context [fold_left _ (seq start (i - start)) result] =>
      match goal with
      | |- context [upd _ (fun c => set_finalPosition (padd (finalPosition c) ?sp) c)] =>
          destruct (applyAnchoring_shift_spec sp (i - start) start result)
            as (Hlen & Hin & Hout); [lia|]
      end
  end.
  split; [lia|]. split; [exact Hlen|].
  split; [intros m Hm; apply H3; lia|]. split; [done|].
  eexists. split.
  - intros k Hk. apply Hin. lia.
  - intros k Hk. apply Hout. lia.
Qed.

(** The [while] loop ends, with enough iterations. *)
Lemma applyAnchoring_loop_spec (isHorizontal : bool) (result : list CR)
    (fuel start : nat) (cur : list CR) :
  (length result - start <= fuel)%nat ->
  anchoringInv result start cur ->
  exists out,
    Members.applyAnchoring_loop fuel isHorizontal cur start = Some out
    /\ anchoringInv result (length result) out.
Proof.
  revert start cur. induction fuel as [|fuel IH];
    intros start cur Hfuel (Hlen & Hle & Hstart & Hrest & Hblank & Hrigid).
  - assert (start = length result) as -> by lia.
    exists cur. cbn [Members.applyAnchoring_loop]. rewrite Hlen, Nat.ltb_irrefl.
    by repeat split.
  - cbn [Members.applyAnchoring_loop]. rewrite Hlen.
    destruct (start <? length result)%nat eqn:Hlt.
    2:{ apply Nat.ltb_ge in Hlt. assert (start = length result) as -> by lia.
        exists cur. by repeat split. }
    apply Nat.ltb_lt in Hlt.
    assert (Hcs : forall m, (start <= m)%nat -> chunkStart cur m = chunkStart result m).
    { intros m Hm. unfold chunkStart. by rewrite Hrest. }
    pose proof (applyAnchoring_chunk_spec isHorizontal cur start ltac:(lia)) as Hchunk.
    cbv zeta in Hchunk.
    destruct (Members.applyAnchoring_chunk isHorizontal cur start) as [cur' i].
    cbn [fst snd] in Hchunk.
    destruct Hchunk as (Hi & Hlen' & Hno & Hnext & shiftP & Hin & Hout).
    rewrite Hlen in Hi, Hlen', Hnext.
    apply IH; [lia|].
    split; [done|]. split; [lia|]. split; [|split; [|split]].
    + destruct (decide (i = length result)) as [->|Hne]; [by right; left|].
      right. right. rewrite <- Hcs by lia. apply Hnext. lia.
    + intros k Hk. rewrite Hout by lia. apply Hrest. lia.
    + intros k. destruct (decide (start <= k < i)%nat) as [Hk|Hk].
      * rewrite Hin by done. rewrite <- Hblank. by destruct (at_ cur k).
      * by rewrite Hout.
    + intros j1 j2 Hj Hbetween.
      destruct (decide (j2 < start)%nat) as [Hj2|Hj2].
      { rewrite !Hout by lia. apply Hrigid; [lia|done]. }
      destruct (decide (start <= j1)%nat) as [Hj1|Hj1].
      { exists shiftP. rewrite !Hin by lia. rewrite !Hrest by lia. done. }
      exfalso. destruct Hstart as [->|[->|Hs]]; [lia..|].
      rewrite Hbetween in Hs; [done|lia].
Qed.

Lemma applyAnchoring_inv (result : list CR) (isHorizontal : bool) :
  exists out,
    Members.applyAnchoring result isHorizontal = Some out
    /\ anchoringInv result (length result) out.
Proof.
  apply applyAnchoring_loop_spec; [lia|].
  split; [done|]. split; [lia|]. split; [by left|]. split; [done|]. split; [done|].
  intros j1 j2 Hj. lia.
Qed.

(** X11. [applyAnchoring] always comes to an end, one pass of its
    [while] loop per character being enough; it keeps the length of
    [result] and changes nothing of a character but its final
    position. *)
Theorem applyAnchoring_only_moves (result : list CR) (isHorizontal : bool) :
  exists out,
    Members.applyAnchoring result isHorizontal = Some out
    /\ length out = length result
    /\ forall k, blankFinal (at_ out k) = blankFinal (at_ result k).
Proof.
  destruct (applyAnchoring_inv result isHorizontal)
    as (out & Hout & Hlen & _ & _ & _ & Hblank & _).
  by exists out.
Qed.

(** X12. [applyAnchoring] moves an anchored chunk as a whole: two
    characters with no addressable start of an anchored chunk after the
    first and up to the second are moved by the same vector. *)
Theorem applyAnchoring_moves_chunk_together (result : list CR) (isHorizontal : bool)
    (j1 j2 : nat) :
  (j1 <= j2 < length result)%nat ->
  (forall m, (j1 < m <= j2)%nat -> chunkStart result m = false) ->
  exists out shiftP,
    Members.applyAnchoring result isHorizontal = Some out
    /\ finalPosition (at_ out j1) = padd (finalPosition (at_ result j1)) shiftP
    /\ finalPosition (at_ out j2) = padd (finalPosition (at_ result j2)) shiftP.
Proof.
  intros Hj Hbetween.
  destruct (applyAnchoring_inv result isHorizontal)
    as (out & Hout & _ & _ & _ & _ & _ & Hrigid).
  destruct (Hrigid j1 j2 Hj Hbetween) as (shiftP & H1 & H2).
  by exists out, shiftP.
Qed.

(** ** The text rendering mode as a string *)

(** X13. The text rendering mode survives the round trip through its
    string: setting a shape's mode from the string the shape gives for
    it leaves the shape as it is, and whatever string is set, the shape
    gives back that string or "auto". *)
Theorem textRendering_round_trip {Tree Shape : Type}
    (self : @KoSvgTextShape R Path Image Brush Tree Shape) (s : string) :
  Members.setTextRenderingFromString (Members.textRenderingString self) self = self
  /\ (Members.textRenderingString (Members.setTextRenderingFromString s self) = s
      \/ Members.textRenderingString (Members.setTextRenderingFromString s self) = "auto").
Proof.
  split.
  - destruct self as [t [mode x y inside subtract res lines]].
    by destruct mode.
  - unfold Members.setTextRenderingFromString, Members.textRenderingString. cbn.
    destruct (String.eqb s "optimizeSpeed") eqn:E1.
    { left. symmetry. by apply String.eqb_eq. }
    destruct (String.eqb s "optimizeLegibility") eqn:E2.
    { left. symmetry. by apply String.eqb_eq. }
    destruct (String.eqb s "geometricPrecision") eqn:E3.
    { left. symmetry. by apply String.eqb_eq. }
    by right.
Qed.

(** ** [NodeSnapStrategy::snap] *)

Lemma snap_step_inv (mousePosition : QPointF R) (maxDistance : R)
    (seen : list (QPointF R)) (st : QPointF R * option R) (point : QPointF R) :
  snapInv mousePosition maxDistance seen st ->
  snapInv mousePosition maxDistance (seen ++ [point])
    (NodeSnapStrategy.snap_step mousePosition maxDistance st point).
Proof.
  destruct st as [sp md]. unfold snapInv, NodeSnapStrategy.snap_step. cbn [fst snd].
  set (dist := NodeSnapStrategy.squareDistance mousePosition point).
  assert (Hseen : forall p, p ∈ seen ++ [point] <-> p ∈ seen \/ p = point).
  { intros p. rewrite elem_of_app, list_elem_of_singleton. done. }
  destruct md as [m|].
  - intros (Hin & Hm & Hrange & Hmin).
    destruct (dist <? maxDistance)%qr eqn:Hd; cbn [andb].
    + destruct (dist <? m)%qr eqn:Hdm; cbn [fst snd].
      * split; [apply Hseen; by right|]. split; [done|]. split; [done|].
        intros Hirr Htrans p Hp Hpr. apply Hseen in Hp as [Hp| ->]; [|apply Hirr].
        destruct (NodeSnapStrategy.squareDistance mousePosition p <? dist)%qr eqn:Hpd;
          [|done].
        rewrite <- (Hmin Hirr Htrans p Hp Hpr). symmetry. by eapply Htrans.
      * split; [apply Hseen; by left|]. split; [done|]. split; [done|].
        intros Hirr Htrans p Hp Hpr. apply Hseen in Hp as [Hp| ->]; [by apply Hmin|done].
    + cbn [fst snd]. split; [apply Hseen; by left|]. split; [done|]. split; [done|].
      intros Hirr Htrans p Hp Hpr. apply Hseen in Hp as [Hp| ->]; [by apply Hmin|].
      fold dist in Hpr. congruence.
  - intros [Hsp Hnone].
    destruct (dist <? maxDistance)%qr eqn:Hd; cbn [andb fst snd].
    + split; [apply Hseen; by right|]. split; [done|]. split; [done|].
      intros Hirr Htrans p Hp Hpr. apply Hseen in Hp as [Hp| ->]; [|apply Hirr].
      rewrite Hnone in Hpr; done.
    + split; [done|]. intros p Hp. apply Hseen in Hp as [Hp| ->]; [by apply Hnone|done].
Qed.

Lemma snap_fold_inv (mousePosition : QPointF R) (maxDistance : R)
    (points seen : list (QPointF R)) (st : QPointF R * option R) :
  snapInv mousePosition maxDistance seen st ->
  snapInv mousePosition maxDistance (seen ++ points)
    (fold_left (NodeSnapStrategy.snap_step mousePosition maxDistance) points st).
Proof.
  revert seen st. induction points as [|p points IH]; intros seen st Hinv; cbn [fold_left].
  - by rewrite app_nil_r.
  - replace (seen ++ p :: points) with ((seen ++ [p]) ++ points)
      by (by rewrite <- app_assoc).
    apply IH. by apply snap_step_inv.
Qed.

(** X14. [NodeSnapStrategy::snap] returns true exactly when one of the
    points the proxy gives is closer to the mouse than the snap
    distance; then the snapped position is one of these points and is in
    range, otherwise (no point at all, or none in range) it is the
    mouse position. *)
Theorem NodeSnapStrategy_snap_in_range (pointsInRect : QRectF R -> bool -> list (QPointF R))
    (mousePosition : QPointF R) (maxSnapDistance : R) :
  let points :=
    pointsInRect
      (NodeSnapStrategy.moveCenter
         (mkQRectF (- maxSnapDistance) (- maxSnapDistance) maxSnapDistance maxSnapDistance)%qr
         mousePosition) false in
  let maxDistance := (maxSnapDistance * maxSnapDistance)%qr in
  let out := NodeSnapStrategy.snap pointsInRect mousePosition maxSnapDistance in
  (fst (fst out) = true <->
     exists p, p ∈ points
       /\ (NodeSnapStrategy.squareDistance mousePosition p <? maxDistance)%qr = true)
  /\ (fst (fst out) = true ->
        snd (fst out) ∈ points
        /\ (NodeSnapStrategy.squareDistance mousePosition (snd (fst out)) <? maxDistance)%qr
           = true)
  /\ (fst (fst out) = false -> snd (fst out) = mousePosition)
  /\ snd out = NodeSnapStrategy.ToPoint.
Proof.
  intros points maxDistance out.
  pose proof (snap_fold_inv mousePosition maxDistance points [] (mousePosition, None)) as Hinv.
  cbn [app] in Hinv. unfold out, NodeSnapStrategy.snap. cbv zeta.
  fold points. fold maxDistance.
  destruct (fold_left _ points _) as [sp md].
  specialize (Hinv ltac:(split; [done|]; intros p Hp; by apply elem_of_nil in Hp)).
  unfold snapInv in Hinv. cbn [fst snd] in *.
  destruct md as [m|].
  - destruct Hinv as (Hin & -> & Hrange & _).
    rewrite bool_decide_true by done.
    split; [|split; [|split]]; try done.
    split; [|done]. intros _. by exists sp.
  - destruct Hinv as [-> Hnone].
    rewrite bool_decide_false by (by intros []).
    split; [|split; [|split]]; try done.
    split; [done|]. intros (p & Hp & Hpr). by rewrite Hnone in Hpr.
Qed.

(** X15. When [<] on [qreal] is a strict order, the point that
    [NodeSnapStrategy::snap] snaps to is a nearest one: no point in
    range is closer to the mouse. *)
Theorem NodeSnapStrategy_snap_nearest (pointsInRect : QRectF R -> bool -> list (QPointF R))
    (mousePosition : QPointF R) (maxSnapDistance : R) (p : QPointF R) :
  (forall x : R, (x <? x)%qr = false) ->
  (forall x y z : R, (x <? y)%qr = true -> (y <? z)%qr = true -> (x <? z)%qr = true) ->
  let points :=
    pointsInRect
      (NodeSnapStrategy.moveCenter
         (mkQRectF (- maxSnapDistance) (- maxSnapDistance) maxSnapDistance maxSnapDistance)%qr
         mousePosition) false in
  let out := NodeSnapStrategy.snap pointsInRect mousePosition maxSnapDistance in
  p ∈ points ->
  (NodeSnapStrategy.squareDistance mousePosition p <? maxSnapDistance * maxSnapDistance)%qr
  = true ->
  fst (fst out) = true
  /\ (NodeSnapStrategy.squareDistance mousePosition p
      <? NodeSnapStrategy.squareDistance mousePosition (snd (fst out)))%qr = false.
Proof.
  intros Hirr Htrans points out Hp Hpr.
  pose proof (snap_fold_inv mousePosition (maxSnapDistance * maxSnapDistance)%qr
                points [] (mousePosition, None)) as Hinv.
  cbn [app] in Hinv. unfold out, NodeSnapStrategy.snap. cbv zeta. fold points.
  destruct (fold_left _ points _) as [sp md].
  specialize (Hinv ltac:(split; [done|]; intros q Hq; by apply elem_of_nil in Hq)).
  unfold snapInv in Hinv. cbn [fst snd] in *.
  destruct md as [m|].
  - destruct Hinv as (Hin & -> & Hrange & Hmin).
    rewrite bool_decide_true by done. split; [done|]. by apply Hmin.
  - destruct Hinv as [_ Hnone]. rewrite Hnone in Hpr; done.
Qed.

(** ** The line engines: what they write *)

Section LayoutFrame.

Local Abbreviation keeps := (keepsN blankLayout).

Lemma keeps_upd_r (r r' : list CR) (j : nat) (f : CR -> CR) :
  keeps r r' -> (forall c, blankLayout (f c) = blankLayout c) -> keeps r (upd j f r').
Proof.
  intros Hr Hf. eapply keepsN_trans; [exact Hr|]. by apply keepsN_upd.
Qed.

Lemma keeps_insert_r (r r' : list CR) (j : nat) (x : CR) :
  keeps r r' -> blankLayout x = blankLayout (at_ r' j) -> keeps r (<[j := x]> r').
Proof.
  intros Hr Hx. eapply keepsN_trans; [exact Hr|]. by apply keepsN_insert.
Qed.

Lemma keeps_fold_left {S A} (get : S -> list CR) (step : S -> A -> S) (visit : list A) :
  (forall s j, keeps (get s) (get (step s j))) ->
  forall s, keeps (get s) (get (fold_left step visit s)).
Proof.
  intros Hstep. induction visit as [|j visit IH]; intros s; cbn [fold_left].
  - apply keepsN_refl.
  - eapply keepsN_trans; [apply Hstep | apply IH].
Qed.

Ltac keeps_simpl :=
  repeat first
    [ apply keepsN_refl
    | apply keeps_upd_r; [|by intros []]
    | apply keeps_insert_r;
      [|match goal with |- context [at_ ?r ?j] => by destruct (at_ r j) end] ].

Lemma addWordToLine_step_keeps (wordIndices : list nat) (ltr : bool)
    (s : WordState) (j : nat) :
  keeps (ws_result s) (ws_result (addWordToLine_step wordIndices ltr s j)).
Proof.
  unfold addWordToLine_step. repeat case_match; cbn [ws_result]; simplify_eq; keeps_simpl.
Qed.

Lemma addWordToLine_keeps (result : list CR) (currentPos : QPointF R)
    (wordIndices : list nat) (currentLine : LB) (ltr : bool) :
  keeps result (fst (fst (fst (addWordToLine result currentPos wordIndices currentLine ltr)))).
Proof.
  unfold addWordToLine. cbn [fst].
  refine (keeps_fold_left ws_result _ _ _
            (mkWordState result currentPos currentPos (chunk currentLine) currentLine)).
  intros s j. apply addWordToLine_step_keeps.
Qed.

Lemma handleCollapseAndHang_loop_keeps (endPos : QPointF R) (inlineSize ltr atEnd : bool)
    (backwards : list nat) (result : list CR) :
  keeps result (handleCollapseAndHang_loop endPos inlineSize ltr atEnd backwards result).
Proof.
  revert result. induction backwards as [|j more IH]; intros result;
    cbn [handleCollapseAndHang_loop]; [apply keepsN_refl|].
  cbv zeta.
  set (result' := if bool_decide (lineEnd (at_ result j) = Collapse) then _ else _).
  assert (Hstep : keeps result result').
  { subst result'. repeat case_match; keeps_simpl. }
  case_match; [done|]. eapply keepsN_trans; [exact Hstep | apply IH].
Qed.

Lemma applyInlineSizeAnchoring_keeps (result : list CR) (chunk_ : LineChunk)
    (anchor_ : TextAnchor) (anchorPoint : QPointF R) (ltr isHorizontal : bool)
    (textIndent_ : QPointF R) :
  keeps result (applyInlineSizeAnchoring result chunk_ anchor_ anchorPoint ltr isHorizontal
                  textIndent_).
Proof.
  unfold applyInlineSizeAnchoring.
  repeat case_match;
    (apply (keeps_fold_left (fun r => r)); intros s j;
     repeat case_match; keeps_simpl).
Qed.

Lemma finalizeChunk_keeps (currentLine : LB) (lineOffset : QPointF R)
    (anchor_ : TextAnchor) (ltr isHorizontal inlineSize textInShape : bool)
    (st : list CR * QPointF R) (c : LineChunk) :
  keeps (fst st)
    (fst (finalizeChunk currentLine lineOffset anchor_ ltr isHorizontal inlineSize
            textInShape st c)).
Proof.
  destruct st as [result pos0]. unfold finalizeChunk. cbn [fst].
  set (v2l := fold_left _ (chunkIndices c) ∅).
  set (result1 := handleCollapseAndHang _ _ _ _ _).
  set (justifyOffset := if justifyLine currentLine then _ else _).
  set (posLoop := fold_left _ (QMap_values Z.le v2l) (result1, lineOffset)).
  assert (H1 : keeps result result1)
    by apply handleCollapseAndHang_loop_keeps.
  assert (H2 : keeps result1 (fst posLoop)).
  { subst posLoop.
    refine (keeps_fold_left (S:=list CR * QPointF R) fst _ _ _ (result1, lineOffset)).
    intros [res pos] j. cbn [fst]. case_match; cbn [fst]; keeps_simpl. }
  destruct posLoop as [result2 pos2]. cbn [fst] in *.
  case_match; cbn [fst].
  - eapply keepsN_trans; [|apply applyInlineSizeAnchoring_keeps].
    eapply keepsN_trans; eauto.
  - eapply keepsN_trans; eauto.
Qed.

Lemma lineHeightOffset_keeps (writingMode : WritingMode) (result : list CR)
    (currentLine : LB) (firstLine_ : bool) :
  keeps result (snd (fst (lineHeightOffset writingMode result currentLine firstLine_))).
Proof.
  unfold lineHeightOffset.
  destruct (chunks currentLine) as [|c0 rest]; [apply keepsN_refl|].
  destruct writingMode; cbn [negb]; destruct firstLine_; cbn [negb fst snd];
    (apply (keeps_fold_left (fun r => r)); intros s j; keeps_simpl).
Qed.

Lemma finalizeLine_keeps (result : list CR) (currentPos : QPointF R) (currentLine : LB)
    (lineOffset : QPointF R) (anchor_ : TextAnchor) (writingMode : WritingMode)
    (ltr inlineSize textInShape : bool) :
  keeps result
    (fst (fst (fst (finalizeLine result currentPos currentLine lineOffset anchor_
                      writingMode ltr inlineSize textInShape)))).
Proof.
  unfold finalizeLine.
  set (loop := fold_left _ (chunks currentLine) (result, currentPos)).
  assert (Hloop : keeps result (fst loop)).
  { subst loop.
    refine (keeps_fold_left (S:=list CR * QPointF R) fst _ _ _ (result, currentPos)).
    intros st c. apply finalizeChunk_keeps. }
  destruct loop as [result1 pos1]. cbn [fst] in Hloop.
  pose proof (lineHeightOffset_keeps writingMode result1 currentLine
                (if textInShape then true else firstLine currentLine)) as Hoff.
  destruct (lineHeightOffset _ _ _ _) as [[off result2] line2].
  cbn [fst snd] in *. eapply keepsN_trans; eauto.
Qed.


Variable properties : Props.
Variable startPos : QPointF R.

Lemma finalizeAndStartLine_keeps (indent : QPointF R) (s : BS) :
  keeps (bs_result s) (bs_result (finalizeAndStartLine properties indent s)).
Proof.
  unfold finalizeAndStartLine.
  match goal with |- context [finalizeLine ?r ?p ?l ?o ?a ?w ?d ?i ?t] =>
    pose proof (finalizeLine_keeps r p l o a w d i t) as Hl;
    destruct (finalizeLine r p l o a w d i t) as [[[result' pos'] line'] off']
  end.
  done.
Qed.

Lemma addWord_keeps (s : BS) :
  keeps (bs_result s) (bs_result (addWord properties s)).
Proof.
  unfold addWord.
  match goal with |- context [addWordToLine ?r ?p ?w ?l ?d] =>
    pose proof (addWordToLine_keeps r p w l d) as Hl;
    destruct (addWordToLine r p w l d) as [[[result' pos'] word'] line']
  end.
  done.
Qed.

Lemma overflowWrap_keeps (l : list nat) (s : BS) (partialWord : list nat) :
  keeps (bs_result s)
    (bs_result (fst (fold_left (overflowWrap_step properties) l (s, partialWord)))).
Proof.
  refine (keeps_fold_left (S:=BS * list nat) (fun st => bs_result (fst st)) _ _ _
            (s, partialWord)).
  clear. intros [s partialWord] i. cbn [fst]. unfold overflowWrap_step.
  case_match; cbn [fst]; [apply keepsN_refl|]. bs_simpl.
  match goal with |- context [addWordToLine ?r ?p ?w ?l ?d] =>
    pose proof (addWordToLine_keeps r p w l d) as Hl;
    destruct (addWordToLine r p w l d) as [[[result' pos'] word'] line']
  end.
  cbn [fst] in Hl. bs_simpl.
  eapply keepsN_trans; [exact Hl|].
  match goal with |- context [finalizeAndStartLine properties ?ind ?st] =>
    exact (finalizeAndStartLine_keeps ind st)
  end.
Qed.

Lemma softBreakBlock_keeps (charResult : CR) (s : BS) :
  keeps (bs_result s) (bs_result (softBreakBlock properties charResult s)).
Proof.
  unfold softBreakBlock. cbv zeta.
  eapply keepsN_trans; [|apply addWord_keeps].
  set (s1 := if negb (isEmpty (bs_currentLine s)) then _ else s).
  assert (H1 : keeps (bs_result s) (bs_result s1)).
  { subst s1. case_match; [apply finalizeAndStartLine_keeps | apply keepsN_refl]. }
  clearbody s1.
  destruct (overflowWrap charResult); [|done].
  case_match; [|done].
  match goal with |- context [fold_left _ ?l (?st, [])] =>
    pose proof (overflowWrap_keeps l st []) as Hfold
  end.
  destruct (fold_left _ _ _) as [s3 pw3]. cbn [fst] in Hfold. bs_simpl.
  eapply keepsN_trans; eauto.
Qed.

Lemma lastLineBlock_keeps (s : BS) :
  keeps (bs_result s) (bs_result (lastLineBlock properties s)).
Proof.
  unfold lastLineBlock.
  set (s1 := match bs_wordIndices s with [] => s | _ => addWord properties s end).
  assert (H1 : keeps (bs_result s) (bs_result s1)).
  { subst s1. destruct (bs_wordIndices s); [apply keepsN_refl | apply addWord_keeps]. }
  clearbody s1.
  match goal with |- context [finalizeLine ?r ?p ?l ?o ?a ?w ?d ?i ?t] =>
    pose proof (finalizeLine_keeps r p l o a w d i t) as Hl;
    destruct (finalizeLine r p l o a w d i t) as [[[result' pos'] line'] off']
  end.
  cbn [fst] in Hl. bs_simpl. eapply keepsN_trans; eauto.
Qed.

Lemma breakLines_step_keeps (index : nat) (hasNext : bool) (s : BS) :
  keeps (bs_result s) (bs_result (breakLines_step properties startPos index hasNext s)).
Proof.
  unfold breakLines_step. cbv zeta.
  destruct (addressable (at_ (bs_result s) index)); cbn [negb]; [|apply keepsN_refl].
  set (w := wordBlock _ _ _ _ _ _).
  assert (Hw : keeps (bs_result s) (bs_result (fst w))).
  { subst w. unfold wordBlock. cbv zeta.
    set (s0 := mkBreakState _ _ (set_lastLine _ _) _ _ _ _).
    pose proof (addWord_keeps s0) as Hadd.
    repeat case_match; cbn [fst]; first [exact Hadd | apply keepsN_refl]. }
  destruct w as [s1 softBreak]. cbn [fst] in Hw.
  set (s2 := if softBreak then _ else s1).
  assert (H2 : keeps (bs_result s) (bs_result s2)).
  { subst s2. destruct softBreak; [|done].
    eapply keepsN_trans; [exact Hw | apply softBreakBlock_keeps]. }
  clearbody s2.
  set (s3 := if bool_decide _ then _ else s2).
  assert (H3 : keeps (bs_result s) (bs_result s3)).
  { subst s3. case_bool_decide; [|done].
    eapply keepsN_trans; [exact H2 | apply finalizeAndStartLine_keeps]. }
  clearbody s3.
  case_match; [|done].
  eapply keepsN_trans; [exact H3 | apply lastLineBlock_keeps].
Qed.

Lemma breakLines_loop_keeps (keys : list nat) (s : BS) :
  keeps (bs_result s) (bs_result (breakLines_loop properties startPos keys s)).
Proof.
  revert s. induction keys as [|k keys IH]; intros s; cbn [breakLines_loop].
  - apply keepsN_refl.
  - eapply keepsN_trans; [apply breakLines_step_keeps | apply IH].
Qed.

Lemma flow_finalizeAndAppend_keeps (s : FS) :
  keeps (fs_result s) (fs_result (flow_finalizeAndAppend properties s)).
Proof.
  unfold flow_finalizeAndAppend.
  match goal with |- context [finalizeLine ?r ?p ?l ?o ?a ?w ?d ?i ?t] =>
    pose proof (finalizeLine_keeps r p l o a w d i t) as Hl;
    destruct (finalizeLine r p l o a w d i t) as [[[result' pos'] line'] off']
  end.
  done.
Qed.

Lemma flow_addWord_keeps (s : FS) :
  keeps (fs_result s) (fs_result (flow_addWord properties s)).
Proof.
  unfold flow_addWord.
  match goal with |- context [addWordToLine ?r ?p ?w ?l ?d] =>
    pose proof (addWordToLine_keeps r p w l d) as Hl;
    destruct (addWordToLine r p w l d) as [[[result' pos'] word'] line']
  end.
  done.
Qed.

Lemma fitInChunks_keeps (n : nat) (i : Z) (s : FS) (softBreak : bool) :
  keeps (fs_result s) (fs_result (fst (fitInChunks properties n i s softBreak))).
Proof.
  revert i s. induction n as [|n IH]; intros i s; cbn [fitInChunks fst];
    [apply keepsN_refl|].
  set (p := if (i =? -1)%Z then _ else (i, s)).
  assert (Hp : fs_result (snd p) = fs_result s) by (subst p; by case_match).
  destruct p as [i1 s1]. cbn [snd] in Hp. rewrite <- Hp. clear Hp.
  cbv zeta.
  repeat case_match; cbn [fst];
    first
      [ apply keepsN_refl
      | match goal with |- context [fitInChunks properties n ?j ?st softBreak] =>
          exact (IH j st)
        end
      | match goal with |- context [flow_addWord properties ?st] =>
          exact (flow_addWord_keeps st)
        end ].
Qed.

Lemma flow_softBreakBlock_keeps (index : nat) (s : FS) :
  keeps (fs_result s) (fs_result (flow_softBreakBlock properties index s)).
Proof.
  unfold flow_softBreakBlock. cbv zeta.
  set (s1 := if negb (isEmpty (fs_currentLine s)) then _ else s).
  assert (H1 : keeps (fs_result s) (fs_result s1)).
  { subst s1. case_match; [apply flow_finalizeAndAppend_keeps | apply keepsN_refl]. }
  clearbody s1. eapply keepsN_trans; [exact H1|]. clear H1.
  assert (Hplace : forall st, fs_result st = fs_result s1 ->
             keeps (fs_result s1) (fs_result (flow_addWord properties st))).
  { intros st <-. apply flow_addWord_keeps. }
  assert (Hhide : keeps (fs_result s1)
                    (fold_left (fun res j => upd j (set_hidden true) res)
                       (fs_wordIndices s1) (fs_result s1))).
  { refine (keeps_fold_left (fun r => r) _ _ _ (fs_result s1)).
    intros r j. keeps_simpl. }
  repeat case_match; cbn [fs_result]; first [by apply Hplace | exact Hhide].
Qed.

Lemma flow_step_keeps (index : nat) (hasNext : bool) (s : FS) :
  keeps (fs_result s) (fs_result (flow_step properties index hasNext s)).
Proof.
  unfold flow_step. cbv zeta.
  destruct (addressable (at_ (fs_result s) index)); cbn [negb]; [|apply keepsN_refl].
  set (w := flow_wordBlock _ _ _ _ _).
  assert (Hw : keeps (fs_result s) (fs_result (fst w))).
  { subst w. unfold flow_wordBlock. cbv zeta.
    repeat case_match; cbn [fst];
      first
        [ apply keepsN_refl
        | match goal with |- context [fitInChunks properties ?n ?i ?st ?sb] =>
            exact (fitInChunks_keeps n i st sb)
          end ]. }
  destruct w as [s1 softBreak]. cbn [fst] in Hw.
  set (s2 := if softBreak then _ else s1).
  assert (H2 : keeps (fs_result s) (fs_result s2)).
  { subst s2. destruct softBreak; [|done].
    eapply keepsN_trans; [exact Hw | apply flow_softBreakBlock_keeps]. }
  clearbody s2.
  case_bool_decide; [|done].
  eapply keepsN_trans; [exact H2|]. unfold flow_hardBreakBlock. cbn [fs_result].
  apply flow_finalizeAndAppend_keeps.
Qed.

Lemma flow_loop_keeps (keys : list nat) (s : FS) :
  keeps (fs_result s) (fs_result (flow_loop properties keys s)).
Proof.
  revert s. induction keys as [|k keys IH]; intros s; cbn [flow_loop].
  - apply keepsN_refl.
  - eapply keepsN_trans; [apply flow_step_keeps | apply IH].
Qed.

(** X16. Whatever the text, the properties and the shapes, the two
    line engines only place characters: nothing of a character changes
    but its CSS and final position and its flags [hidden],
    [addressable], [anchored_chunk] and [isHanging], so advances,
    bounding boxes, outlines, break classes and visual indices are as
    the shaper left them. *)
Theorem line_engines_only_place (logicalToVisual : gmap nat Z) (result : list CR)
    (shapes : list Path) (k : nat) :
  blankLayout (at_ (snd (breakLines properties startPos logicalToVisual result)) k)
  = blankLayout (at_ result k)
  /\ blankLayout (at_ (snd (flowTextInShapes properties logicalToVisual result shapes)) k)
     = blankLayout (at_ result k).
Proof.
  split.
  - unfold breakLines. cbn [snd].
    destruct (breakLines_loop_keeps (QMap_keys le logicalToVisual)
                (breakLines_init properties startPos result)) as [_ Hk].
    rewrite Hk.
    by destruct (breakLines_init_spec properties startPos result) as (_ & _ & -> & _).
  - unfold flowTextInShapes. destruct shapes as [|shape0 rest]; [done|].
    cbv zeta. cbn [snd].
    destruct (flow_finalizeAndAppend_keeps
                (flow_loop properties (QMap_keys le logicalToVisual)
                   (flow_init properties result shape0 (shape0 :: rest)))) as [_ ->].
    by destruct (flow_loop_keeps (QMap_keys le logicalToVisual)
                   (flow_init properties result shape0 (shape0 :: rest))) as [_ ->].
Qed.

End LayoutFrame.

(** ** Edges of the line engines *)

Lemma QMap_keys_empty : QMap_keys le (∅ : gmap nat Z) = [].
Proof. unfold QMap_keys. by rewrite dom_empty_L, elements_empty. Qed.

(** X17. Text without a shaped character: [breakLines] returns no line
    box at all, [flowTextInShapes] returns one line box without a chunk
    when there is a shape to flow in, and both leave [result] as it
    is. *)
Theorem line_engines_without_shaped_characters (properties : Props) (startPos : QPointF R)
    (result : list CR) (shape0 : Path) (rest : list Path) :
  breakLines properties startPos ∅ result = ([], result)
  /\ exists lb,
       flowTextInShapes properties ∅ result (shape0 :: rest) = ([lb], result)
       /\ chunks lb = [].
Proof.
  split.
  - unfold breakLines. rewrite QMap_keys_empty. cbn [breakLines_loop].
    by destruct (breakLines_init_spec properties startPos result) as (_ & _ & -> & ->).
  - exists LineBox0. unfold flowTextInShapes. rewrite QMap_keys_empty.
    cbn [flow_loop]. split; [|done].
    unfold flow_finalizeAndAppend, flow_init, finalizeLine, lineHeightOffset.
    by cbn.
Qed.

(** ** [LineBox::setCurrentChunk] and [LineBox::chunk] *)

(** X18. When [currentChunk] is at most the number of chunks,
    [chunk()] after [setCurrentChunk(c)] gives [c] back, and every chunk
    at another index is as before; an index below zero counts as
    zero. *)
Theorem setCurrentChunk_round_trip (c : LineChunk) (lb : LB) (i : Z) :
  (currentChunk lb <= Z.of_nat (length (chunks lb)))%Z ->
  chunk (setCurrentChunk c lb) = c
  /\ (i ≠ Z.max (currentChunk lb) 0 ->
      value_ LineChunk0 (chunks (setCurrentChunk c lb)) i
      = value_ LineChunk0 (chunks lb) i).
Proof.
  intros Hle. unfold chunk.
  destruct (setCurrentChunk_spec c lb) as (-> & _ & ->). cbv zeta.
  set (cur := Z.max (currentChunk lb) 0).
  assert (Hcur : (0 <= cur <= Z.of_nat (length (chunks lb)))%Z) by lia.
  clearbody cur. unfold value_.
  destruct (cur <? Z.of_nat (length (chunks lb)))%Z eqn:Hlt.
  - apply Z.ltb_lt in Hlt. rewrite length_insert. split.
    + rewrite (proj2 (Z.leb_le 0 cur)) by lia.
      rewrite (proj2 (Z.ltb_lt cur _)) by lia. cbn [andb].
      rewrite nth_lookup, list_lookup_insert_eq by lia. done.
    + intros Hne. case_match; [|done].
      rewrite !nth_lookup, list_lookup_insert_ne; [done|].
      apply andb_true_iff in H as [H0 _]. apply Z.leb_le in H0. lia.
  - apply Z.ltb_ge in Hlt. assert (cur = Z.of_nat (length (chunks lb))) as -> by lia.
    rewrite length_app. cbn [length]. split.
    + rewrite (proj2 (Z.leb_le 0 _)) by lia.
      rewrite (proj2 (Z.ltb_lt _ _)) by lia. cbn [andb].
      rewrite Nat2Z.id, nth_lookup, lookup_app_r by lia.
      by rewrite Nat.sub_diag.
    + intros Hne.
      destruct (0 <=? i)%Z eqn:H0; cbn [andb]; [|done]. apply Z.leb_le in H0.
      destruct (i <? Z.of_nat (length (chunks lb)))%Z eqn:Hi.
      * apply Z.ltb_lt in Hi. rewrite (proj2 (Z.ltb_lt i _)) by lia.
        rewrite !nth_lookup, lookup_app_l by lia. done.
      * apply Z.ltb_ge in Hi. rewrite (proj2 (Z.ltb_ge i _)) by lia. done.
Qed.

(** ** [getFirstPosition] without a place for the word *)

(** X19. [getFirstPosition] finds no position when the shape has no
    fill polygon, and when no translate of the word box lies inside the
    shape. *)
Theorem getFirstPosition_nowhere (p : Path) (wordBox : QRectF R)
    (terminator : QPointF R) (writingMode : WritingMode) (ltr : bool) :
  path_toFillPolygons p = [] \/ fitsNowhere p wordBox ->
  getFirstPosition p wordBox terminator writingMode ltr = None.
Proof.
  intros [Hnil|Hfit].
  - unfold getFirstPosition. by rewrite Hnil.
  - by apply getFirstPosition_none.
Qed.

(** ** [relayout] without shapes to flow in *)

Lemma breakLines_single (properties : Props) (startPos : QPointF R)
    (logicalToVisual : gmap nat Z) (result : list CR) :
  Forall single (fst (breakLines properties startPos logicalToVisual result)).
Proof.
  unfold breakLines. cbn [fst].
  apply (oneChunkEach_loop properties startPos (length result)).
  destruct (breakLines_init_spec properties startPos result) as (Hs & _ & Hr & Hb).
  unfold oneChunkEach. rewrite Hr, Hb. by repeat split.
Qed.

(** X20. When the shaper returns a glyph array and the text has no
    shape to flow in, every line box of the layout [relayout] stores
    has exactly one chunk. *)
Theorem relayout_one_chunk_per_line {Tree Shape Glyph : Type}
    (env : @Collaborators R Path Image Brush Tree Shape Glyph) (MUST ALLOW GB : Z)
    (self : @KoSvgTextShape R Path Image Brush Tree Shape) :
  is_Some (glyphsOf env MUST self) ->
  shapesInside (d self) = [] ->
  Forall single (d_lineBoxes (d (relayout env MUST ALLOW GB self))).
Proof.
  intros [glyphs Hsome] Hinside. revert Hsome.
  unfold glyphsOf, relayout. cbv zeta. rewrite Hinside.
  intros Hsome.
  destruct (match fst (collectedText env _) with [] => _ | _ => _ end) as [graphemeBreaks justify].
  destruct (setupResult _ _ _ _ _ _ _ _ _ _ _ _ _) as [result tabSizeInfo].
  rewrite Hsome.
  destruct (placeGlyphs env _ _ _ _ _ _ _) as [result1 logicalToVisual].
  match goal with
  | |- context [breakLines ?pr ?sp ?ltv ?res] =>
      pose proof (breakLines_single pr sp ltv res) as Hsingle;
      destruct (breakLines pr sp ltv res) as [lineBoxes result2]
  end.
  cbn [fst] in Hsingle.
  cbn [tree d textRendering xRes yRes shapesInside shapesSubtract d_result d_lineBoxes].
  destruct (if _ && _ then _ else _) as [result3 tree3].
  done.
Qed.

(** ** [OrthogonalSnapStrategy::snap] *)

Section OrthogonalSnap.
Variable mousePosition : QPointF R.
Variable maxSnapDistance : R.

Local Abbreviation dx := (fun p : QPointF R => r_fabs (px p - px mousePosition)%qr).
Local Abbreviation dy := (fun p : QPointF R => r_fabs (py p - py mousePosition)%qr).

Lemma axisInv_step (dist : QPointF R -> R) (seen : list (QPointF R))
    (kept : QPointF R) (min : option R) (point : QPointF R) :
  axisInv dist maxSnapDistance seen kept min ->
  let hit := OrthogonalSnapStrategy.below (dist point) min
             && (dist point <? maxSnapDistance)%qr in
  axisInv dist maxSnapDistance (seen ++ [point])
    (if hit then point else kept) (if hit then Some (dist point) else min).
Proof.
  intros Hinv hit.
  assert (Hseen : forall p, p ∈ seen ++ [point] <-> p ∈ seen \/ p = point).
  { intros p. by rewrite elem_of_app, list_elem_of_singleton. }
  unfold hit. destruct min as [m|]; cbn [OrthogonalSnapStrategy.below axisInv] in *.
  - destruct Hinv as (Hin & Hm & Hrange).
    destruct ((dist point <? m)%qr && (dist point <? maxSnapDistance)%qr) eqn:Hhit.
    + apply andb_true_iff in Hhit as [_ Hr]. split; [apply Hseen; by right|done].
    + split; [apply Hseen; by left|done].
  - destruct (dist point <? maxSnapDistance)%qr eqn:Hr; cbn [andb].
    + split; [apply Hseen; by right|done].
    + intros p Hp. apply Hseen in Hp as [Hp| ->]; [by apply Hinv|done].
Qed.

Lemma snap_point_inv (seen : list (QPointF R)) (st : OrthogonalSnapStrategy.SnapState)
    (point : QPointF R) :
  axisInv dx maxSnapDistance seen (OrthogonalSnapStrategy.horzSnap st)
    (OrthogonalSnapStrategy.minHorzDist st) ->
  axisInv dy maxSnapDistance seen (OrthogonalSnapStrategy.vertSnap st)
    (OrthogonalSnapStrategy.minVertDist st) ->
  let st' := OrthogonalSnapStrategy.snap_point mousePosition maxSnapDistance st point in
  axisInv dx maxSnapDistance (seen ++ [point]) (OrthogonalSnapStrategy.horzSnap st')
    (OrthogonalSnapStrategy.minHorzDist st')
  /\ axisInv dy maxSnapDistance (seen ++ [point]) (OrthogonalSnapStrategy.vertSnap st')
       (OrthogonalSnapStrategy.minVertDist st').
Proof.
  intros Hh Hv st'. unfold st', OrthogonalSnapStrategy.snap_point. cbv zeta.
  pose proof (axisInv_step dx seen _ _ point Hh) as Hh'.
  pose proof (axisInv_step dy seen _ _ point Hv) as Hv'.
  cbv zeta in Hh', Hv'. cbv beta in Hh', Hv'.
  destruct (OrthogonalSnapStrategy.below _ (OrthogonalSnapStrategy.minHorzDist st) && _);
    cbn [OrthogonalSnapStrategy.horzSnap OrthogonalSnapStrategy.vertSnap
         OrthogonalSnapStrategy.minHorzDist OrthogonalSnapStrategy.minVertDist];
    destruct (OrthogonalSnapStrategy.below _ (OrthogonalSnapStrategy.minVertDist st) && _);
    cbn [OrthogonalSnapStrategy.horzSnap OrthogonalSnapStrategy.vertSnap
         OrthogonalSnapStrategy.minHorzDist OrthogonalSnapStrategy.minVertDist];
    done.
Qed.

Lemma snap_points_inv (points seen : list (QPointF R))
    (st : OrthogonalSnapStrategy.SnapState) :
  axisInv dx maxSnapDistance seen (OrthogonalSnapStrategy.horzSnap st)
    (OrthogonalSnapStrategy.minHorzDist st) ->
  axisInv dy maxSnapDistance seen (OrthogonalSnapStrategy.vertSnap st)
    (OrthogonalSnapStrategy.minVertDist st) ->
  let st' := fold_left (OrthogonalSnapStrategy.snap_point mousePosition maxSnapDistance)
               points st in
  axisInv dx maxSnapDistance (seen ++ points) (OrthogonalSnapStrategy.horzSnap st')
    (OrthogonalSnapStrategy.minHorzDist st')
  /\ axisInv dy maxSnapDistance (seen ++ points) (OrthogonalSnapStrategy.vertSnap st')
       (OrthogonalSnapStrategy.minVertDist st').
Proof.
  revert seen st. induction points as [|p points IH]; intros seen st Hh Hv; cbn [fold_left].
  - by rewrite app_nil_r.
  - replace (seen ++ p :: points) with ((seen ++ [p]) ++ points)
      by (by rewrite <- app_assoc).
    destruct (snap_point_inv seen st p Hh Hv) as [Hh' Hv']. by apply IH.
Qed.

Lemma snap_shapes_inv {Shape : Type} (pointsFromShape : Shape -> list (QPointF R))
    (shapes : list Shape) (seen : list (QPointF R))
    (st : OrthogonalSnapStrategy.SnapState) :
  axisInv dx maxSnapDistance seen (OrthogonalSnapStrategy.horzSnap st)
    (OrthogonalSnapStrategy.minHorzDist st) ->
  axisInv dy maxSnapDistance seen (OrthogonalSnapStrategy.vertSnap st)
    (OrthogonalSnapStrategy.minVertDist st) ->
  let st' :=
    fold_left
      (fun st shape =>
         fold_left (OrthogonalSnapStrategy.snap_point mousePosition maxSnapDistance)
           (pointsFromShape shape) st)
      shapes st in
  axisInv dx maxSnapDistance (seen ++ flat_map pointsFromShape shapes)
    (OrthogonalSnapStrategy.horzSnap st') (OrthogonalSnapStrategy.minHorzDist st')
  /\ axisInv dy maxSnapDistance (seen ++ flat_map pointsFromShape shapes)
       (OrthogonalSnapStrategy.vertSnap st') (OrthogonalSnapStrategy.minVertDist st').
Proof.
  revert seen st. induction shapes as [|shape shapes IH]; intros seen st Hh Hv;
    cbn [fold_left flat_map].
  - by rewrite app_nil_r.
  - rewrite app_assoc.
    destruct (snap_points_inv (pointsFromShape shape) seen st Hh Hv) as [Hh' Hv'].
    by apply IH.
Qed.

(** X21. [OrthogonalSnapStrategy::snap] treats the two axes apart: the
    snapped position takes its x from a point of the shapes that is
    closer than the snap distance along x, and is the mouse's x when
    there is none, and likewise for y; it returns true when either axis
    has such a point, and the snap is to a point only when both have. *)
Theorem OrthogonalSnapStrategy_snap_axes {Shape : Type} (shapes : list Shape)
    (pointsFromShape : Shape -> list (QPointF R)) :
  let points := flat_map pointsFromShape shapes in
  let out := OrthogonalSnapStrategy.snap shapes pointsFromShape mousePosition
               maxSnapDistance in
  (OrthogonalSnapStrategy.found out = true
   <-> inRange dx maxSnapDistance points \/ inRange dy maxSnapDistance points)
  /\ (OrthogonalSnapStrategy.snappedType out = NodeSnapStrategy.ToPoint
      <-> inRange dx maxSnapDistance points /\ inRange dy maxSnapDistance points)
  /\ (inRange dx maxSnapDistance points ->
        exists q, q ∈ points /\ (dx q <? maxSnapDistance)%qr = true
          /\ px (OrthogonalSnapStrategy.snappedPosition out) = px q)
  /\ (~ inRange dx maxSnapDistance points ->
        px (OrthogonalSnapStrategy.snappedPosition out) = px mousePosition)
  /\ (inRange dy maxSnapDistance points ->
        exists q, q ∈ points /\ (dy q <? maxSnapDistance)%qr = true
          /\ py (OrthogonalSnapStrategy.snappedPosition out) = py q)
  /\ (~ inRange dy maxSnapDistance points ->
        py (OrthogonalSnapStrategy.snappedPosition out) = py mousePosition).
Proof.
  intros points out.
  set (inRangeX := inRange dx maxSnapDistance points).
  set (inRangeY := inRange dy maxSnapDistance points).
  destruct (snap_shapes_inv pointsFromShape shapes []
              (OrthogonalSnapStrategy.mkSnapState QPointF0 QPointF0 None None))
    as [Hh Hv].
  { intros p Hp. by apply elem_of_nil in Hp. }
  { intros p Hp. by apply elem_of_nil in Hp. }
  cbn [app] in Hh, Hv. fold points in Hh, Hv.
  unfold out, OrthogonalSnapStrategy.snap. cbv zeta.
  destruct (fold_left _ shapes _) as [hs vs mv mh].
  cbn [OrthogonalSnapStrategy.horzSnap OrthogonalSnapStrategy.vertSnap
       OrthogonalSnapStrategy.minHorzDist OrthogonalSnapStrategy.minVertDist] in *.
  assert (HX : match mh with
               | Some _ => inRangeX /\ (hs ∈ points /\ (dx hs <? maxSnapDistance)%qr = true)
               | None => ~ inRangeX
               end).
  { destruct mh as [m|]; cbn [axisInv] in Hh.
    - destruct Hh as (Hin & -> & Hr). split; [by exists hs | done].
    - intros (p & Hp & Hr). by rewrite Hh in Hr. }
  assert (HY : match mv with
               | Some _ => inRangeY /\ (vs ∈ points /\ (dy vs <? maxSnapDistance)%qr = true)
               | None => ~ inRangeY
               end).
  { destruct mv as [m|]; cbn [axisInv] in Hv.
    - destruct Hv as (Hin & -> & Hr). split; [by exists vs | done].
    - intros (p & Hp & Hr). by rewrite Hv in Hr. }
  clear Hh Hv.
  destruct mh as [m1|], mv as [m2|];
    rewrite ?(bool_decide_true (Some _ ≠ None)) by done;
    rewrite ?(bool_decide_false (None ≠ None)) by (by intros []);
    cbn [orb OrthogonalSnapStrategy.found OrthogonalSnapStrategy.snappedType
         OrthogonalSnapStrategy.snappedPosition setX setY px py];
    repeat split; try done; try tauto; intros; try tauto; try discriminate;
    try (exists hs; tauto); try (exists vs; tauto).
Qed.

End OrthogonalSnap.

(** ** [relayout]: the size of [result] and the tab sizes *)

Section SetupSize.
Variables MUST ALLOW GB : Z.
Variable collapseLastSpace : QChar -> bool.
Variable characterCanHang : QChar -> HangingPunctuation -> bool.
Variable wrap : TextWrap.
Variable linebreakStrictness : LineBreak.
Variable text : list QChar.
Variable lineBreaks graphemeBreaks : list Z.
Variable justify : list (bool * bool).

Local Abbreviation setupCharacter_ :=
  (setupCharacter MUST ALLOW GB collapseLastSpace characterCanHang wrap
     linebreakStrictness text lineBreaks graphemeBreaks justify).
Local Abbreviation setupChunk_ :=
  (setupChunk MUST ALLOW GB collapseLastSpace characterCanHang wrap
     linebreakStrictness text lineBreaks graphemeBreaks justify).
Local Abbreviation setupResult_ :=
  (setupResult MUST ALLOW GB collapseLastSpace characterCanHang wrap
     linebreakStrictness text lineBreaks graphemeBreaks justify).

(** The tab size map holds tab characters only. *)
Local Abbreviation tabsOnly :=
  (fun tabs : gmap nat (@TabSizeInfo R) =>
     forall k, is_Some (tabs !! k) -> text !! k = Some QChar_Tabulation).

Lemma setupChunk_size (st : list CR * nat * gmap nat (@TabSizeInfo R))
    (chunk_ : @SubChunk R) :
  tabsOnly (snd st) ->
  length (fst (fst (setupChunk_ st chunk_))) = length (fst (fst st))
  /\ tabsOnly (snd (setupChunk_ st chunk_)).
Proof.
  destruct st as [[res start] tabs]. cbn [fst snd]. intros Htabs.
  pose proof (setupChunk_spec MUST ALLOW GB collapseLastSpace characterCanHang wrap
                linebreakStrictness lineBreaks graphemeBreaks justify text chunk_
                res start tabs 0) as (Hlen & _).
  cbn [fst] in Hlen. split; [exact Hlen|]. clear Hlen.
  unfold setupChunk.
  match goal with |- context [fold_left ?f (seq 0 (sc_size chunk_)) (res, tabs)] =>
    assert (H1 : tabsOnly (snd (fold_left f (seq 0 (sc_size chunk_)) (res, tabs))));
    [|destruct (fold_left f (seq 0 (sc_size chunk_)) (res, tabs)) as [res1 tabs1]]
  end.
  { generalize (seq 0 (sc_size chunk_)). intros l. revert res tabs Htabs.
    induction l as [|i l IH]; intros res tabs Htabs; cbn [fold_left]; [done|].
    apply IH. case_bool_decide as Htab; [|done].
    intros k [v Hk]. destruct (decide (k = (start + i)%nat)) as [->|Hne]; [done|].
    rewrite lookup_insert_ne in Hk by done. apply Htabs. by exists v. }
  cbn [snd] in H1.
  by destruct (fold_left (setupFace chunk_) (sc_faces chunk_) (res1, start)).
Qed.

Lemma setupChunks_size (textChunks : list (@SubChunk R))
    (st : list CR * nat * gmap nat (@TabSizeInfo R)) :
  tabsOnly (snd st) ->
  length (fst (fst (fold_left setupChunk_ textChunks st))) = length (fst (fst st))
  /\ tabsOnly (snd (fold_left setupChunk_ textChunks st)).
Proof.
  revert st. induction textChunks as [|c l IH]; intros st Htabs; cbn [fold_left]; [done|].
  destruct (setupChunk_size st c Htabs) as [Hlen Htabs'].
  destruct (IH _ Htabs') as [IHlen IHtabs]. split; [congruence|done].
Qed.

End SetupSize.

(** X22. Whatever the sub chunks and the faces found for them, and
    whether or not raqm accepts the text, the setup of [relayout] gives
    [result] one entry for every UTF-16 unit of the text, makes the
    first character the start of an anchored chunk, and enters tab
    sizes for tab characters only. *)
Theorem setupResult_size (MUST ALLOW GB : Z)
    (collapseLastSpace : QChar -> bool)
    (characterCanHang : QChar -> HangingPunctuation -> bool)
    (wrap : TextWrap) (linebreakStrictness : LineBreak)
    (text : list QChar) (lineBreaks graphemeBreaks : list Z)
    (justify : list (bool * bool)) (raqm_set_text_ok : bool)
    (textChunks : list (@SubChunk R)) (k : nat) :
  let out : list CR * gmap nat (@TabSizeInfo R) :=
    setupResult MUST ALLOW GB collapseLastSpace characterCanHang wrap
      linebreakStrictness text lineBreaks graphemeBreaks justify
      raqm_set_text_ok textChunks in
  length (fst out) = length text
  /\ (text ≠ [] -> anchored_chunk (at_ (fst out) 0) = true)
  /\ (is_Some (snd out !! k) -> text !! k = Some QChar_Tabulation).
Proof.
  intros out. unfold out, setupResult.
  pose proof (setupChunks_size MUST ALLOW GB collapseLastSpace characterCanHang wrap
                linebreakStrictness text lineBreaks graphemeBreaks justify textChunks
                (replicate (length text) CharacterResult0, 0%nat, ∅)) as Hsize.
  cbn [fst snd] in Hsize. rewrite length_replicate in Hsize.
  destruct Hsize as [Hlen Htabs].
  { intros j [v Hj]. by rewrite lookup_empty in Hj. }
  assert (Hout : forall (res : list CR) (tabs : gmap nat (@TabSizeInfo R)),
             length res = length text ->
             (forall j, is_Some (tabs !! j) -> text !! j = Some QChar_Tabulation) ->
             let res' := match res with
                         | [] => res
                         | _ => upd 0 (set_anchored_chunk true) res
                         end in
             length res' = length text
             /\ (text ≠ [] -> anchored_chunk (at_ res' 0) = true)
             /\ (is_Some (tabs !! k) -> text !! k = Some QChar_Tabulation)).
  { intros res tabs Hl Ht res'. split; [|split; [|apply Ht]].
    - unfold res'. destruct res; [done|]. by rewrite length_upd.
    - intros Hne. unfold res'. destruct res as [|c res].
      + destruct text; [done|discriminate].
      + rewrite at_upd_eq by (cbn; lia). done. }
  destruct raqm_set_text_ok.
  - destruct (fold_left _ textChunks _) as [[res start] tabs]. cbn [fst snd] in *.
    by apply Hout.
  - cbn [fst snd]. apply Hout; [by rewrite length_replicate|].
    intros j [v Hj]. by rewrite lookup_empty in Hj.
Qed.

(** ** A hard break in [breakLines]: what finalizing does *)

Section Finalizing.

Lemma staysAway_refl (r : list CR) : staysAway r r.
Proof. done. Qed.

Lemma staysAway_trans (r1 r2 r3 : list CR) :
  staysAway r1 r2 -> staysAway r2 r3 -> staysAway r1 r3.
Proof. intros [L1 H1] [L2 H2]. split; [congruence|]. intros k Hk. by apply H2, H1. Qed.

Lemma staysAway_insert (r : list CR) (j : nat) (x : CR) :
  (collapsedAway (at_ r j) -> collapsedAway x) -> staysAway r (<[j := x]> r).
Proof.
  intros Hx. split; [by rewrite length_insert|]. intros k Hk.
  destruct (decide (k = j)) as [->|Hne]; [|by rewrite at_insert_ne].
  destruct (decide (j < length r)%nat).
  - rewrite at_insert_eq by done. by apply Hx.
  - by rewrite list_insert_ge by lia.
Qed.

Lemma staysAway_upd (r : list CR) (j : nat) (f : CR -> CR) :
  (forall c, collapsedAway c -> collapsedAway (f c)) -> staysAway r (upd j f r).
Proof. intros Hf. apply staysAway_insert. apply Hf. Qed.

Lemma staysAway_upd_r (r r' : list CR) (j : nat) (f : CR -> CR) :
  staysAway r r' -> (forall c, collapsedAway c -> collapsedAway (f c)) ->
  staysAway r (upd j f r').
Proof. intros Hr Hf. eapply staysAway_trans; [exact Hr|]. by apply staysAway_upd. Qed.

Lemma staysAway_fold_left {S A} (get : S -> list CR) (step : S -> A -> S) (visit : list A) :
  (forall s j, staysAway (get s) (get (step s j))) ->
  forall s, staysAway (get s) (get (fold_left step visit s)).
Proof.
  intros Hstep. induction visit as [|j visit IH]; intros s; cbn [fold_left].
  - apply staysAway_refl.
  - eapply staysAway_trans; [apply Hstep | apply IH].
Qed.

Ltac away_simpl :=
  repeat first
    [ apply staysAway_refl
    | apply staysAway_upd_r; [|by intros [] [? ?]] ].

Lemma handleCollapseAndHang_loop_stays (endPos : QPointF R) (inlineSize ltr atEnd : bool)
    (backwards : list nat) (result : list CR) :
  staysAway result (handleCollapseAndHang_loop endPos inlineSize ltr atEnd backwards result).
Proof.
  revert result. induction backwards as [|j more IH]; intros result;
    cbn [handleCollapseAndHang_loop]; [apply staysAway_refl|].
  cbv zeta.
  set (result' := if bool_decide (lineEnd (at_ result j) = Collapse) then _ else _).
  assert (Hstep : staysAway result result').
  { subst result'. repeat case_match; away_simpl. }
  case_match; [done|]. eapply staysAway_trans; [exact Hstep | apply IH].
Qed.

Lemma applyInlineSizeAnchoring_stays (result : list CR) (chunk_ : LineChunk)
    (anchor_ : TextAnchor) (anchorPoint : QPointF R) (ltr isHorizontal : bool)
    (textIndent_ : QPointF R) :
  staysAway result (applyInlineSizeAnchoring result chunk_ anchor_ anchorPoint ltr isHorizontal
                      textIndent_).
Proof.
  unfold applyInlineSizeAnchoring.
  repeat case_match;
    (apply (staysAway_fold_left (fun r => r)); intros s j;
     repeat case_match; away_simpl).
Qed.

(** The part of [finalizeChunk] after [handleCollapseAndHang]. *)
Lemma finalizeChunk_stays (currentLine : LB) (lineOffset : QPointF R)
    (anchor_ : TextAnchor) (ltr isHorizontal inlineSize textInShape : bool)
    (st : list CR * QPointF R) (c : LineChunk) :
  staysAway (handleCollapseAndHang (fst st) c inlineSize ltr (lastLine currentLine))
    (fst (finalizeChunk currentLine lineOffset anchor_ ltr isHorizontal inlineSize
            textInShape st c))
  /\ staysAway (fst st)
       (fst (finalizeChunk currentLine lineOffset anchor_ ltr isHorizontal inlineSize
               textInShape st c)).
Proof.
  destruct st as [result pos0]. unfold finalizeChunk. cbn [fst].
  set (v2l := fold_left _ (chunkIndices c) ∅).
  set (result1 := handleCollapseAndHang _ _ _ _ _).
  set (justifyOffset := if justifyLine currentLine then _ else _).
  set (posLoop := fold_left _ (QMap_values Z.le v2l) (result1, lineOffset)).
  assert (H1 : staysAway result result1)
    by apply handleCollapseAndHang_loop_stays.
  assert (H2 : staysAway result1 (fst posLoop)).
  { subst posLoop.
    refine (staysAway_fold_left (S:=list CR * QPointF R) fst _ _ _ (result1, lineOffset)).
    intros [res pos] j. cbn [fst]. case_match; cbn [fst]; away_simpl. }
  destruct posLoop as [result2 pos2]. cbn [fst] in *.
  assert (H3 : staysAway result1
                 (fst (if inlineSize
                       then (applyInlineSizeAnchoring result2 c anchor_
                               (if textInShape
                                then match anchor_ with
                                     | AnchorMiddle => line_center (chunkLength c)
                                     | AnchorEnd => p2 (chunkLength c)
                                     | AnchorStart => p1 (chunkLength c)
                                     end
                                else p1 (chunkLength c)) ltr isHorizontal
                               (textIndent currentLine), pos2)
                       else (result2, pos2)))).
  { case_match; cbn [fst]; [|done].
    eapply staysAway_trans; [exact H2 | apply applyInlineSizeAnchoring_stays]. }
  split; [|eapply staysAway_trans; [exact H1|]]; by destruct inlineSize.
Qed.

Lemma lineHeightOffset_stays (writingMode : WritingMode) (result : list CR)
    (currentLine : LB) (firstLine_ : bool) :
  staysAway result (snd (fst (lineHeightOffset writingMode result currentLine firstLine_))).
Proof.
  unfold lineHeightOffset.
  destruct (chunks currentLine) as [|c0 rest]; [apply staysAway_refl|].
  destruct writingMode; cbn [negb]; destruct firstLine_; cbn [negb fst snd];
    (apply (staysAway_fold_left (fun r => r)); intros s j; away_simpl).
Qed.


Lemma keeps_lineEnd (r r' : list CR) (k : nat) :
  keepsN blankLayout r r' -> lineEnd (at_ r' k) = lineEnd (at_ r k).
Proof.
  intros [_ H]. specialize (H k). apply (f_equal lineEnd) in H.
  by destruct (at_ r' k), (at_ r k).
Qed.

(** [handleCollapseAndHang] starts at the last character of the chunk:
    when it collapses at a line end it is hidden and no longer
    addressable. *)
Lemma handleCollapseAndHang_last (result : list CR) (c : LineChunk)
    (inlineSize ltr atEnd : bool) (x : nat) :
  last (chunkIndices c) = Some x ->
  lineEnd (at_ result x) = Collapse -> (x < length result)%nat ->
  collapsedAway (at_ (handleCollapseAndHang result c inlineSize ltr atEnd) x).
Proof.
  intros Hlast Hend Hlt. unfold handleCollapseAndHang.
  apply last_Some in Hlast as [pre Hpre]. rewrite Hpre, rev_app_distr. cbn [rev app].
  cbn [handleCollapseAndHang_loop]. cbv zeta.
  rewrite (bool_decide_eq_true_2 _ Hend).
  set (result' := upd x (set_hidden true) (upd x (set_addressable false) result)).
  assert (Hgone : collapsedAway (at_ result' x)).
  { subst result'. rewrite at_upd_eq by (by rewrite length_upd).
    rewrite at_upd_eq by done. by destruct (at_ result x). }
  assert (Hend' : lineEnd (at_ result' x) = Collapse).
  { subst result'. by rewrite !(at_upd_keeps lineEnd). }
  rewrite bool_decide_eq_false_2 by (by rewrite Hend'; intros ?).
  by apply handleCollapseAndHang_loop_stays.
Qed.

Lemma finalizeLine_last (result : list CR) (currentPos : QPointF R) (currentLine : LB)
    (lineOffset : QPointF R) (anchor_ : TextAnchor) (writingMode : WritingMode)
    (ltr inlineSize textInShape : bool) (c : LineChunk) (x : nat) :
  c ∈ chunks currentLine -> last (chunkIndices c) = Some x ->
  lineEnd (at_ result x) = Collapse -> (x < length result)%nat ->
  collapsedAway
    (at_ (fst (fst (fst (finalizeLine result currentPos currentLine lineOffset anchor_
                           writingMode ltr inlineSize textInShape)))) x).
Proof.
  intros Hc Hlast Hend Hlt. unfold finalizeLine.
  apply list_elem_of_split in Hc as (l1 & l2 & Hsplit). rewrite Hsplit.
  rewrite fold_left_app. cbn [fold_left].
  set (step := finalizeChunk currentLine lineOffset anchor_ ltr
                 (bool_decide (writingMode = HorizontalTB)) inlineSize textInShape).
  set (st1 := fold_left step l1 (result, currentPos)).
  assert (H1 : keepsN blankLayout result (fst st1)).
  { subst st1.
    refine (keeps_fold_left (S:=list CR * QPointF R) fst _ _ _ (result, currentPos)).
    intros st c'. apply finalizeChunk_keeps. }
  assert (Hgone : collapsedAway (at_ (fst (step st1 c)) x)).
  { destruct (finalizeChunk_stays currentLine lineOffset anchor_ ltr
                (bool_decide (writingMode = HorizontalTB)) inlineSize textInShape st1 c)
      as [[_ Hs] _].
    apply Hs. apply handleCollapseAndHang_last; [done| |].
    - by rewrite (keeps_lineEnd _ _ x H1).
    - destruct H1 as [Hl _]. by rewrite Hl. }
  assert (H2 : staysAway (fst (step st1 c)) (fst (fold_left step l2 (step st1 c)))).
  { refine (staysAway_fold_left (S:=list CR * QPointF R) fst _ _ _ (step st1 c)).
    intros st c'. apply finalizeChunk_stays. }
  destruct (fold_left step l2 (step st1 c)) as [result2 pos2]. cbn [fst] in H2.
  pose proof (lineHeightOffset_stays writingMode result2 currentLine
                (if textInShape then true else firstLine currentLine)) as Hoff.
  destruct (lineHeightOffset _ _ _ _) as [[off result3] line3].
  cbn [fst snd] in *. by apply Hoff, H2.
Qed.

(** After [lineHeightOffset] the final position of every character of
    the line is its CSS position. *)
Lemma lineHeightOffset_final (writingMode : WritingMode) (result : list CR)
    (currentLine : LB) (firstLine_ : bool) (j : nat) :
  j ∈ lineIndicesOf currentLine -> (j < length result)%nat ->
  let result' := snd (fst (lineHeightOffset writingMode result currentLine firstLine_)) in
  finalPosition (at_ result' j) = cssPosition (at_ result' j).
Proof.
  intros Hj Hlt.
  assert (Hfold : forall (move : CR -> QPointF R) (l : list nat) (res : list CR),
             length res = length result ->
             let res' :=
               fold_left (fun res j =>
                            let res := upd j (fun c => set_cssPosition (move c) c) res in
                            upd j (fun c => set_finalPosition (cssPosition c) c) res)
                         l res in
             length res' = length result
             /\ (j ∈ l \/ finalPosition (at_ res j) = cssPosition (at_ res j) ->
                 finalPosition (at_ res' j) = cssPosition (at_ res' j))).
  { intros move l. induction l as [|i l IH]; intros res Hlen; cbn [fold_left].
    - split; [done|]. intros [Hin|Heq]; [by apply elem_of_nil in Hin | done].
    - cbv zeta.
      set (res1 := upd i (fun c => set_finalPosition (cssPosition c) c)
                     (upd i (fun c => set_cssPosition (move c) c) res)).
      assert (Hlen1 : length res1 = length result) by (subst res1; by rewrite !length_upd).
      destruct (IH res1 Hlen1) as [IHlen IHj]. split; [done|].
      intros Hcase. apply IHj.
      destruct (decide (j = i)) as [<-|Hne].
      + right. subst res1. rewrite at_upd_eq by (rewrite length_upd; lia).
        by destruct (at_ (upd j _ res) j).
      + destruct Hcase as [Hin|Heq].
        * apply elem_of_cons in Hin as [?|Hin]; [done | by left].
        * right. subst res1. by rewrite !at_upd_ne. }
  unfold lineHeightOffset.
  destruct (chunks currentLine) as [|c0 rest] eqn:Hchunks.
  { unfold lineIndicesOf in Hj. rewrite Hchunks in Hj. by apply elem_of_nil in Hj. }
  set (line1 := if _ && _ && _ then _ else currentLine).
  assert (Hidx1 : lineIndicesOf line1 = lineIndicesOf currentLine).
  { subst line1. unfold lineIndicesOf. by repeat case_match. }
  clearbody line1.
  assert (Happly : forall (move : CR -> QPointF R) (lb : LB),
             lineIndicesOf lb = lineIndicesOf currentLine ->
             let res' :=
               fold_left (fun res j =>
                            let res := upd j (fun c => set_cssPosition (move c) c) res in
                            upd j (fun c => set_finalPosition (cssPosition c) c) res)
                         (lineIndicesOf lb) result in
             finalPosition (at_ res' j) = cssPosition (at_ res' j)).
  { intros move lb Hlb. destruct (Hfold move (lineIndicesOf lb) result eq_refl) as [_ H].
    apply H. left. by rewrite Hlb. }
  destruct writingMode; destruct firstLine_; cbn [negb fst snd]; by apply Happly.
Qed.

Variable properties : Props.
Variable startPos : QPointF R.

(** A line with a chunk has its baselines set when it is finalized. *)
Lemma finalizedLine_baselines (s : BS) :
  chunks (bs_currentLine s) ≠ [] ->
  baselinesSet (WritingModeId properties) (finalizedLine properties s).
Proof.
  intros Hne. unfold finalizedLine, finalizeLine.
  destruct (fold_left _ _ _) as [result1 pos1].
  unfold lineHeightOffset.
  destruct (chunks (bs_currentLine s)) as [|c0 rest]; [done|].
  set (line1 := if _ && _ && _ then _ else bs_currentLine s). clearbody line1.
  unfold baselinesSet.
  destruct (WritingModeId properties); destruct (firstLine (bs_currentLine s));
    cbn [negb fst snd]; by destruct line1.
Qed.

(** The word [addWordToLine] adds is at the end of a chunk of the line. *)
Lemma addWord_last (s : BS) (x : nat) :
  last (bs_wordIndices s) = Some x ->
  exists c, c ∈ chunks (bs_currentLine (addWord properties s))
            /\ last (chunkIndices c) = Some x.
Proof.
  intros Hlast. unfold addWord, addWordToLine. cbv zeta. cbn [bs_currentLine].
  eexists. split; [apply setCurrentChunk_elem|].
  cbn [chunkIndices]. by rewrite last_app, Hlast.
Qed.

Lemma overflowWrap_fold_last (l : list nat) (s : BS) (partialWord : list nat) (x : nat) :
  last l = Some x ->
  last (snd (fold_left (overflowWrap_step properties) l (s, partialWord))) = Some x.
Proof.
  revert s partialWord. induction l as [|i l IH]; intros s pw Hlast; [done|].
  cbn [fold_left].
  assert (Hstep : last (snd (overflowWrap_step properties (s, pw) i)) = Some i).
  { unfold overflowWrap_step. case_match; cbn [snd]; [apply last_snoc|].
    destruct (addWordToLine _ _ _ _ _) as [[[result' pos'] word'] line'].
    cbn [snd]. apply last_snoc. }
  destruct (overflowWrap_step properties (s, pw) i) as [s1 pw1]. cbn [snd] in Hstep.
  destruct l as [|i' l'].
  - cbn [fold_left snd]. simpl in Hlast. congruence.
  - apply IH. by rewrite last_cons_cons in Hlast.
Qed.

Lemma softBreakBlock_last (charResult : CR) (s : BS) (x : nat) :
  last (bs_wordIndices s) = Some x ->
  exists c, c ∈ chunks (bs_currentLine (softBreakBlock properties charResult s))
            /\ last (chunkIndices c) = Some x.
Proof.
  intros Hlast. unfold softBreakBlock. cbv zeta.
  apply addWord_last.
  set (s1 := if negb (isEmpty (bs_currentLine s)) then _ else s).
  assert (H1 : bs_wordIndices s1 = bs_wordIndices s).
  { subst s1. case_match; [|done].
    match goal with |- context [finalizeAndStartLine properties ?ind s] =>
      by destruct (finalizeAndStartLine_spec properties ind s) as (_ & _ & _ & _ & _ & Hw & _)
    end. }
  clearbody s1.
  destruct (overflowWrap charResult); [|congruence].
  case_match; [|congruence].
  match goal with |- context [fold_left (overflowWrap_step properties) ?l (?st, ?pw)] =>
    pose proof (overflowWrap_fold_last l st pw x) as Hfold;
    destruct (fold_left (overflowWrap_step properties) l (st, pw)) as [s3 pw3]
  end.
  cbn [snd bs_wordIndices] in *. apply Hfold. congruence.
Qed.

Lemma wordBlock_keeps (index : nat) (hasNext : bool) (charResult : CR) (s : BS) :
  keepsN blankLayout (bs_result s)
    (bs_result (fst (wordBlock properties startPos index hasNext charResult s))).
Proof.
  unfold wordBlock. cbv zeta.
  set (s0 := mkBreakState _ _ (set_lastLine _ _) _ _ _ _).
  pose proof (addWord_keeps properties s0) as Hadd.
  repeat case_match; cbn [fst]; first [exact Hadd | apply keepsN_refl].
Qed.

(** The state in which the block for hard breaks is entered. *)
Lemma before_hardBreakBlock (index : nat) (hasNext : bool) (s : BS) :
  breakType (at_ (bs_result s) index) ≠ NoBreak ->
  let w := wordBlock properties startPos index hasNext (at_ (bs_result s) index) s in
  let s1 := if snd w then softBreakBlock properties (at_ (bs_result s) index) (fst w)
            else fst w in
  bs_wordIndices s1 = []
  /\ lastLine (bs_currentLine s1) = negb hasNext
  /\ extends (bs_lineBoxes s) (bs_lineBoxes s1)
  /\ (exists c, c ∈ chunks (bs_currentLine s1) /\ last (chunkIndices c) = Some index)
  /\ keepsN blankLayout (bs_result s) (bs_result s1).
Proof.
  intros Hbt w s1.
  pose proof (wordBlock_general properties startPos index hasNext (at_ (bs_result s) index) s Hbt)
    as Hw.
  pose proof (wordBlock_keeps index hasNext (at_ (bs_result s) index) s) as Hk.
  assert (Hlastw : snd w = false ->
            exists c, c ∈ chunks (bs_currentLine (fst w)) /\ last (chunkIndices c) = Some index).
  { subst w. unfold wordBlock. cbv zeta.
    rewrite (bool_decide_eq_true_2 _ Hbt). cbn [orb].
    set (s0 := mkBreakState _ _ (set_lastLine _ _) _ _ _ _).
    pose proof (addWord_last s0 index) as Hadd.
    assert (Hs0 : last (bs_wordIndices s0) = Some index) by (subst s0; apply last_snoc).
    specialize (Hadd Hs0).
    repeat case_match; cbn [fst snd]; intros; done. }
  fold w in Hw, Hk. subst s1. destruct w as [s0 softBreak]. cbn [fst snd] in *.
  destruct Hw as (Hl0 & Hb0 & Hrest). destruct softBreak.
  - destruct (softBreakBlock_general properties (at_ (bs_result s) index) s0 index Hrest)
      as (Hw & Hl & He & _).
    split; [done|]. split; [congruence|]. split; [by rewrite <- Hb0|].
    split; [by apply softBreakBlock_last|].
    eapply keepsN_trans; [exact Hk | apply softBreakBlock_keeps].
  - destruct Hrest as [Hw _]. split; [done|]. split; [done|].
    split; [rewrite Hb0; apply extends_refl|]. split; [by apply Hlastw | done].
Qed.

(** C1.  In [breakLines], whenever a character whose break type is
    [HardBreak] is consumed, the current line box is finalized and
    appended to the line boxes and a fresh line box is started; this
    holds for every state and all properties, whether [inline-size] is
    set or not and whatever its value.  Finalized means what
    [finalizeLine] does to the line and its characters: the baselines of
    the line are set from its ascent and descent, every character of the
    line has its final position, the hard break is collapsed away when
    it collapses at line ends, and the next character is placed at the
    offset of the new line. *)
Theorem breakLines_hard_break_finalizes (index : nat) (hasNext : bool) (s : BS) :
  addressable (at_ (bs_result s) index) = true ->
  breakType (at_ (bs_result s) index) = HardBreak ->
  hard_break_finalizes properties startPos index hasNext s.
Proof.
  intros Haddr Hbt. unfold hard_break_finalizes.
  assert (Hnb : breakType (at_ (bs_result s) index) ≠ NoBreak) by (by rewrite Hbt).
  destruct (before_hardBreakBlock index hasNext s Hnb)
    as (Hw1 & Hl1 & He1 & (c & Hc & Hlastc) & Hk1).
  cbv zeta in *.
  set (s1 := if snd (wordBlock properties startPos index hasNext (at_ (bs_result s) index) s)
             then _ else _) in *.
  exists s1. cbv zeta.
  assert (Hstep : breakLines_step properties startPos index hasNext s
                  = (if hasNext then hardBreakBlock properties s1
                     else lastLineBlock properties (hardBreakBlock properties s1))).
  { unfold breakLines_step. rewrite Haddr. cbn [negb]. rewrite Hbt.
    rewrite (bool_decide_eq_true_2 (HardBreak = HardBreak) eq_refl).
    subst s1. destruct (wordBlock _ _ _ _ _ _) as [s0 softBreak]. cbn [fst snd] in *.
    match goal with |- context [hardBreakBlock properties ?st] =>
      destruct (finalizeAndStartLine_spec properties
                  (if (if hanging (TextIndentId properties) then false
                       else eachLine (TextIndentId properties))
                   then breakLines_textIndent properties else QPointF0) st)
        as (_ & _ & _ & _ & Hlast & _)
    end.
    fold (hardBreakBlock properties
            (if softBreak then softBreakBlock properties (at_ (bs_result s) index) s0 else s0))
      in Hlast.
    rewrite Hlast, Hl1. by destruct hasNext. }
  clearbody s1.
  destruct (finalizeAndStartLine_spec properties
              (if (if hanging (TextIndentId properties) then false
                   else eachLine (TextIndentId properties))
               then breakLines_textIndent properties else QPointF0) s1)
    as (Hl & Hsame & Hchunks2 & _ & Hlast2 & Hw2 & _).
  fold (hardBreakBlock properties s1) in *.
  assert (Hidx : index ∈ lineIndicesOf (finalizedLine properties s1)).
  { rewrite <- (same_chunks_lineIndicesOf _ _ Hsame).
    eapply elem_of_lineIndicesOf; [exact Hc|]. by apply last_Some_elem_of. }
  (* the characters after the block *)
  assert (Hres2 : bs_result (hardBreakBlock properties s1)
                  = fst (fst (fst (finalizeLine (bs_result s1) (bs_currentPos s1)
                                     (bs_currentLine s1) (bs_lineOffset s1)
                                     (TextAnchorId properties) (WritingModeId properties)
                                     (bool_decide (DirectionId properties = DirectionLeftToRight))
                                     (negb (isAuto (InlineSizeId properties))) false)))).
  { unfold hardBreakBlock, finalizeAndStartLine.
    by destruct (finalizeLine _ _ _ _ _ _ _ _ _) as [[[result' pos'] line'] off']. }
  assert (Hk2 : keepsN blankLayout (bs_result s1) (bs_result (hardBreakBlock properties s1))).
  { unfold hardBreakBlock. apply finalizeAndStartLine_keeps. }
  (* the last line, when the text ends here, holds no character *)
  assert (Hsame' : forall k,
             at_ (bs_result (breakLines_step properties startPos index hasNext s)) k
             = at_ (bs_result (hardBreakBlock properties s1)) k).
  { rewrite Hstep. destruct hasNext; [done|]. intros k.
    unfold lastLineBlock. rewrite Hw2, Hw1.
    match goal with |- context [finalizeLine ?r ?p ?l ?o ?a ?wm ?d ?i ?t] =>
      pose proof (finalizeLine_spec r p l o a wm d i t) as Hfin;
      destruct (finalizeLine r p l o a wm d i t) as [[[result' pos'] line'] off']
    end.
    destruct Hfin as [_ Hun]. bs_simpl. apply Hun.
    unfold lineIndicesOf. rewrite Hchunks2. apply not_elem_of_nil. }
  assert (Hlen : length (bs_result (breakLines_step properties startPos index hasNext s))
                 = length (bs_result s)).
  { by destruct (breakLines_step_keeps properties startPos index hasNext s) as [Hlen _]. }
  split; [exact Hstep|]. split; [done|]. split; [done|]. split; [done|].
  split; [done|]. split; [congruence|].
  split.
  { apply finalizedLine_baselines. intros Hnil. rewrite Hnil in Hc. by apply elem_of_nil in Hc. }
  split; [done|]. split; [|split].
  - intros j Hj Hlt. rewrite !Hsame', Hres2.
    unfold finalizeLine.
    destruct (fold_left _ _ _) as [result1 pos1] eqn:Hfold.
    assert (Hlen1 : length result1 = length (bs_result s1)).
    { change result1 with (fst (result1, pos1)). rewrite <- Hfold.
      rewrite (length_fold_left (S:=list CR * QPointF R) fst); [done|].
      intros st c'. apply finalizeChunk_length. }
    pose proof (lineHeightOffset_final (WritingModeId properties) result1 (bs_currentLine s1)
                  (firstLine (bs_currentLine s1)) j) as Hfinal.
    destruct (lineHeightOffset _ _ _ _) as [[off result3] line3]. cbn [fst snd] in *.
    apply Hfinal.
    + by rewrite (same_chunks_lineIndicesOf _ _ Hsame).
    + destruct Hk1 as [Hlk1 _]. lia.
  - intros Hend Hlt. rewrite Hsame', Hres2.
    apply (finalizeLine_last _ _ _ _ _ _ _ _ _ c index); [done..| |].
    + by rewrite (keeps_lineEnd _ _ index Hk1).
    + destruct Hk1 as [Hlk1 _]. lia.
  - unfold hardBreakBlock, finalizeAndStartLine, finalizeLine.
    destruct (fold_left _ _ _) as [result1 pos1].
    destruct (lineHeightOffset _ _ _ _) as [[off result3] line3].
    bs_simpl. by destruct (isAuto (InlineSizeId properties)).
Qed.

End Finalizing.

(** ** [relayout]: the text handed to raqm *)

Section ShapedText.
Context {Tree Shape Glyph : Type}.
Variable env : @Collaborators R Path Image Brush Tree Shape Glyph.
Variables MUST ALLOW GB : Z.

(** [relayout] calls raqm with the text in which the mandatory breaks
    are spaces, and with no other: two shapers that agree on this text
    give the same pass. *)
Lemma relayout_shaper (self : @KoSvgTextShape R Path Image Brush Tree Shape)
    (set_text set_text' : list QChar -> bool)
    (get_glyphs get_glyphs' : TextRendering -> Z -> Props -> list QChar ->
                              list (@SubChunk R) -> option (list Glyph)) :
  let text := shapedText env MUST (clearAssociatedOutlines env (tree self)) in
  set_text text = set_text' text ->
  (forall textRendering_ finalRes properties textChunks,
     get_glyphs textRendering_ finalRes properties text textChunks
     = get_glyphs' textRendering_ finalRes properties text textChunks) ->
  relayout (withShaper env set_text get_glyphs) MUST ALLOW GB self
  = relayout (withShaper env set_text' get_glyphs') MUST ALLOW GB self.
Proof.
  intros text Hset Hget. subst text.
  unfold relayout, shapedText, lineBreaksOf, collectedText in *. cbv zeta.
  cbn [withShaper clearAssociatedOutlines textProperties textWrap lineBreakStrictness
       collectSubChunks collapseSpaces collapseLastSpace_ characterCanHang_
       set_linebreaks_utf16 set_graphemebreaks_utf16 justificationOpportunities
       raqm_set_text_utf16 raqm_get_glyphs placeGlyphs resolveTransforms absolutePos
       hasRelativeOffset relativeOffset startsNewChunk getShapes computeFontMetrics
       rootShape applyAnchoring computeTextDecorations applyTextPath addCharacterRects].
  by rewrite Hset, Hget.
Qed.

(** The line boxes [relayout] stores are those line breaking makes of
    the results set up from that text, once the glyph loop has filled
    them in and the middles of clusters are marked. *)
Lemma relayout_lineBoxes (self : @KoSvgTextShape R Path Image Brush Tree Shape)
    (glyphs : list Glyph) :
  glyphsOf env MUST self = Some glyphs ->
  d_lineBoxes (d (relayout env MUST ALLOW GB self))
  = fst (lineBreakingOf env MUST self (lineBreakingInput env MUST ALLOW GB self glyphs)).
Proof.
  unfold glyphsOf, relayout, lineBreakingOf, lineBreakingInput, setupOf. cbv zeta.
  intros Hsome.
  destruct (match fst (collectedText env _) with [] => _ | _ => _ end) as [graphemeBreaks justify].
  destruct (setupResult _ _ _ _ _ _ _ _ _ _ _ _ _) as [result tabSizeInfo].
  rewrite Hsome. cbn [fst snd].
  destruct (placeGlyphs env _ _ _ _ _ _ _) as [result1 logicalToVisual]. cbn [fst snd].
  destruct (match shapesInside (d self) with [] => _ | _ => _ end) as [lineBoxes result2].
  cbn [tree d textRendering xRes yRes shapesInside shapesSubtract d_result d_lineBoxes].
  destruct (if _ && _ then _ else _) as [result3 tree3].
  done.
Qed.

Lemma withShaper_own (self : @KoSvgTextShape R Path Image Brush Tree Shape) :
  relayout (withShaper env (raqm_set_text_utf16 env) (raqm_get_glyphs env)) MUST ALLOW GB self
  = relayout env MUST ALLOW GB self.
Proof. by destruct env. Qed.

(** C7.  The text [relayout] hands to raqm has a space for every
    character that is a mandatory break, is as collected everywhere
    else, and is the only text raqm is called with: a shaper that does
    on this text what raqm does gives the same pass.  The character is
    classed as a hard break all the same: by the setup loop, which
    classes it from the break classes of libunibreak, and in the results
    line breaking gets, from which the stored line boxes are made, as
    the glyph loop and the marking of cluster middles keep the class.
    The setup loop runs when raqm accepts the text and covers the
    character when the face lengths of every sub chunk add up to the
    size of its text. *)
Theorem relayout_hard_break_as_space
    (self : @KoSvgTextShape R Path Image Brush Tree Shape) (p : nat) :
  let tree_ := clearAssociatedOutlines env (tree self) in
  let text := fst (collectedText env tree_) in
  let shaped := shapedText env MUST tree_ in
  lineBreaksOf env tree_ !! p = Some MUST ->
  (p < length text)%nat ->
  (* the text for raqm *)
  shaped !! p = Some QChar_Space
  /\ length shaped = length text
  /\ (forall q, lineBreaksOf env tree_ !! q ≠ Some MUST -> shaped !! q = text !! q)
  (* raqm is called with this text *)
  /\ glyphsOf env MUST self
     = raqm_get_glyphs env (textRendering (d self)) (Z.min (xRes (d self)) (yRes (d self)))
         (textProperties env tree_) shaped (collectSubChunks env tree_)
  /\ (forall set_text get_glyphs,
        set_text shaped = raqm_set_text_utf16 env shaped ->
        (forall textRendering_ finalRes properties textChunks,
           get_glyphs textRendering_ finalRes properties shaped textChunks
           = raqm_get_glyphs env textRendering_ finalRes properties shaped textChunks) ->
        relayout (withShaper env set_text get_glyphs) MUST ALLOW GB self
        = relayout env MUST ALLOW GB self)
  (* the class of the character *)
  /\ (raqm_set_text_utf16 env shaped = true ->
      Forall facesCover (collectSubChunks env tree_) ->
      (p < chunksSize (collectSubChunks env tree_))%nat ->
      breakType (at_ (fst (setupOf env MUST ALLOW GB tree_)) p) = HardBreak
      /\ forall glyphs,
           glyphsOf env MUST self = Some glyphs ->
           d_lineBoxes (d (relayout env MUST ALLOW GB self))
           = fst (lineBreakingOf env MUST self
                    (lineBreakingInput env MUST ALLOW GB self glyphs))
           /\ (glyphLoopKeepsBreaks env ->
               breakType (at_ (fst (lineBreakingInput env MUST ALLOW GB self glyphs)) p)
               = HardBreak)).
Proof.
  intros tree_ text shaped Hmust Hlt.
  assert (Hspec : length shaped = length text
                  /\ (forall q, lineBreaksOf env tree_ !! q ≠ Some MUST ->
                                shaped !! q = text !! q)
                  /\ (forall p, lineBreaksOf env tree_ !! p = Some MUST ->
                                (p < length text)%nat -> shaped !! p = Some QChar_Space))
    by exact (replaceHardBreaks_spec MUST (lineBreaksOf env tree_) text).
  destruct Hspec as (Hlen & Hother & Hspace).
  split; [by apply Hspace|]. split; [done|]. split; [done|]. split; [done|]. split.
  { intros set_text get_glyphs Hset Hget.
    rewrite <- (withShaper_own self). by apply relayout_shaper. }
  intros Hraqm Hcover Hsize.
  assert (Hsetup : breakType (at_ (fst (setupOf env MUST ALLOW GB tree_)) p) = HardBreak).
  { unfold setupOf. fold shaped. rewrite Hraqm.
    destruct (match fst (collectedText env tree_) with [] => _ | _ => _ end)
      as [graphemeBreaks justify].
    apply setupResult_hard; [done..| |done]. by rewrite Hlen. }
  split; [done|]. intros glyphs Hglyphs. split; [by apply relayout_lineBoxes|].
  intros Hkeeps. unfold lineBreakingInput. cbn [fst].
  apply markMiddle_hard. fold tree_.
  match goal with |- context [placeGlyphs env ?tr ?res ?h ?g ?cc ?tabs ?r] =>
    destruct (Hkeeps tr res h g cc tabs r) as [_ Hb]; by rewrite Hb
  end.
Qed.

End ShapedText.

End Properties.

(** * The properties at work

    The theorems above on the texts of the small world. *)

(** C1 on the line feed of "AB", line feed, "CD", each character with an
    ascent of 8 and a descent of 2: the line of "AB" and the line feed
    is appended with its baselines at -8 and 2, the three characters
    have their final positions, the line feed is hidden and no longer
    addressable, and the next line starts at the offset 2. *)
Lemma breakLines_hard_break_finalizes_ex :
  hard_break_finalizes (ex_props ex_auto) (mkQPointF 0%Q 0%Q) 2 true ex_afterTallAB
  /\ (let s' := breakLines_step (ex_props ex_auto) (mkQPointF 0%Q 0%Q) 2 true ex_afterTallAB in
      bs_lineBoxes ex_afterTallAB = []
      /\ bs_wordIndices ex_afterTallAB = [0; 1]%nat
      /\ map finalPosition (bs_result ex_afterTallAB)
         = replicate 5 (mkQPointF 0%Q 0%Q)
      /\ map lineIndicesOf (bs_lineBoxes s') = [[0; 1; 2]%nat]
      /\ map (fun lb => (baselineTop lb, baselineBottom lb)) (bs_lineBoxes s')
         = [(mkQPointF 0%Q (-8)%Q, mkQPointF 0%Q 2%Q)]
      /\ map finalPosition (bs_result s')
         = [mkQPointF 0%Q 0%Q; mkQPointF 10%Q 0%Q; mkQPointF 20%Q 0%Q;
            mkQPointF 0%Q 0%Q; mkQPointF 0%Q 0%Q]
      /\ map hidden (bs_result s') = [false; false; true; false; false]
      /\ map addressable (bs_result s') = [true; true; false; true; true]
      /\ map chunkIndices (chunks (bs_currentLine s')) = [[]]
      /\ bs_currentPos s' = mkQPointF 0%Q 2%Q).
Proof.
  split.
  - apply (breakLines_hard_break_finalizes (ex_props ex_auto) (mkQPointF 0%Q 0%Q)
             2 true ex_afterTallAB).
    + vm_compute. reflexivity.
    + vm_compute. reflexivity.
  - vm_compute. repeat split.
Defined.

(** C2 fails for a text none of whose characters has a glyph, the empty
    text for one: [breakLines] returns no line box. *)
Lemma breakLines_auto_no_glyph_no_line :
  isAuto (InlineSizeId (ex_props ex_auto)) = true
  /\ length (fst (breakLines (ex_props ex_auto) (mkQPointF 0%Q 0%Q) ∅ [])) = 0%nat.
Proof. split; reflexivity. Qed.

(** The keys of the map of the examples. *)
Lemma ex_logicalToVisual_lookup (n k : nat) (v : Z) :
  ex_logicalToVisual n !! k = Some v -> (k < n)%nat.
Proof.
  unfold ex_logicalToVisual. intros Hk.
  apply elem_of_list_to_map_2, list_elem_of_In, in_map_iff in Hk as (i & Hi & Hin).
  apply in_seq in Hin. inversion Hi. lia.
Qed.

(** C2 on the word "ABC". *)
Lemma breakLines_auto_one_line_ex :
  length (fst (breakLines (ex_props ex_auto) (mkQPointF 0%Q 0%Q)
                 (ex_logicalToVisual 3) ex_ABC)) = 1%nat.
Proof.
  apply (breakLines_auto_one_line (ex_props ex_auto) (mkQPointF 0%Q 0%Q)
           (ex_logicalToVisual 3) ex_ABC).
  - reflexivity.
  - intros Hempty. apply (f_equal (fun m => m !! 0%nat)) in Hempty.
    vm_compute in Hempty. discriminate.
  - intros k v Hk. apply ex_logicalToVisual_lookup in Hk.
    destruct k as [|[|[|k]]]; [split; [reflexivity | discriminate]..|lia].
Defined.

(** C3 fails in both strategies.  The line feed of "AB", line feed, "CD"
    collapses at the end of its line: it is listed in the chunk and no
    longer addressable.  The word "ABC" flowed into the square that is
    too narrow for it is in no chunk, and its characters are still
    addressable. *)
Lemma chunks_differ_from_addressable :
  (let out := breakLines (ex_props ex_auto) (mkQPointF 0%Q 0%Q)
                (ex_logicalToVisual 5) ex_ABnCD in
   allChunkIndices (fst out) = [0; 1; 2; 3; 4]%nat
   /\ addressable (at_ (snd out) 2) = false)
  /\ (let out := flowTextInShapes (ex_props ex_auto) (ex_logicalToVisual 3) ex_ABC
                   [ex_square] in
      allChunkIndices (fst out) = []
      /\ map addressable (snd out) = [true; true; true]).
Proof. vm_compute. repeat split. Qed.

(** C3, as the code has it, on "AB", line feed, "CD", broken into lines
    and flowed into the wide square: the chunks hold the five
    characters and no word is pending.  And on the word "ABC" flowed
    into the square of side 20: no chunk holds a character, so the
    whole word is pending, and the search at its last character found
    no line. *)
Lemma chunks_hold_shaped_characters_ex :
  (let out := breakLines (ex_props ex_auto) (mkQPointF 0%Q 0%Q)
                (ex_logicalToVisual 5) ex_ABnCD in
   allChunkIndices (fst out) = QMap_keys le (ex_logicalToVisual 5)
   /\ NoDup (allChunkIndices (fst out))
   /\ (forall i, (i < length ex_ABnCD)%nat -> addressable (at_ (snd out) i) = true ->
         i ∈ allChunkIndices (fst out)))
  /\ (let out := flowTextInShapes (ex_props ex_auto) (ex_logicalToVisual 5) ex_ABnCD
                   [ex_wide] in
      exists front pending,
        QMap_keys le (ex_logicalToVisual 5) = front ++ pending
        /\ allChunkIndices (fst out) ≡ₚ front
        /\ NoDup (allChunkIndices (fst out) ++ pending)
        /\ (forall j, j ∈ pending -> (j < length ex_ABnCD)%nat ->
                      hidden (at_ (snd out) j) = true)
        /\ (forall i, (i < length ex_ABnCD)%nat -> addressable (at_ (snd out) i) = true ->
                      i ∈ allChunkIndices (fst out) \/ i ∈ pending)
        /\ (pending ≠ [] ->
            exists before k shape0,
              head [ex_wide] = Some shape0
              /\ QMap_keys le (ex_logicalToVisual 5) = before ++ [k]
              /\ pending
                 = fs_wordIndices
                     (flow_lastWord (ex_props ex_auto) ex_ABnCD shape0 [ex_wide] before k)
              /\ lineFound (ex_props ex_auto) k
                   (flow_lastWord (ex_props ex_auto) ex_ABnCD shape0 [ex_wide] before k)
                 = false))
  /\ map lineIndicesOf
       (fst (flowTextInShapes (ex_props ex_auto) (ex_logicalToVisual 5) ex_ABnCD [ex_wide]))
     = [[0; 1; 2]; [3; 4]]%nat
  /\ (exists before k,
        [0; 1; 2]%nat = before ++ [k]
        /\ fs_wordIndices
             (flow_lastWord (ex_props ex_auto) ex_ABC ex_square [ex_square] before k)
           = [0; 1; 2]%nat
        /\ lineFound (ex_props ex_auto) k
             (flow_lastWord (ex_props ex_auto) ex_ABC ex_square [ex_square] before k)
           = false).
Proof.
  assert (Hkeys : QMap_keys le (ex_logicalToVisual 5) = [0; 1; 2; 3; 4]%nat)
    by (vm_compute; reflexivity).
  assert (Hkeys3 : QMap_keys le (ex_logicalToVisual 3) = [0; 1; 2]%nat)
    by (vm_compute; reflexivity).
  destruct (chunks_hold_shaped_characters (ex_props ex_auto) (mkQPointF 0%Q 0%Q)
              (ex_logicalToVisual 5) ex_ABnCD [ex_wide]) as [Hbreak Hflow].
  { intros k Hk. rewrite Hkeys in Hk.
    repeat (apply elem_of_cons in Hk as [->|Hk]; [reflexivity|]).
    by apply elem_of_nil in Hk. }
  { intros i Hi _. rewrite Hkeys.
    destruct i as [|[|[|[|[|i]]]]]; [repeat constructor..|cbn in Hi; lia]. }
  destruct (chunks_hold_shaped_characters (ex_props ex_auto) (mkQPointF 0%Q 0%Q)
              (ex_logicalToVisual 3) ex_ABC [ex_square]) as [_ Hnarrow].
  { intros k Hk. rewrite Hkeys3 in Hk.
    repeat (apply elem_of_cons in Hk as [->|Hk]; [reflexivity|]).
    by apply elem_of_nil in Hk. }
  { intros i Hi _. rewrite Hkeys3.
    destruct i as [|[|[|i]]]; [repeat constructor..|cbn in Hi; lia]. }
  split; [exact Hbreak|]. split; [apply Hflow; discriminate|].
  split; [vm_compute; reflexivity|].
  destruct Hnarrow as (front & pending & Hsplit & Hperm & _ & _ & _ & Hfound);
    [discriminate|].
  assert (Hnone : allChunkIndices
                    (fst (flowTextInShapes (ex_props ex_auto) (ex_logicalToVisual 3) ex_ABC
                            [ex_square])) = []) by (vm_compute; reflexivity).
  rewrite Hnone in Hperm. apply Permutation_nil_l in Hperm. subst front.
  rewrite Hkeys3 in Hsplit, Hfound. cbn [app] in Hsplit. subst pending.
  destruct Hfound as (before & k & shape0 & Hhead & Hk & Hword & Hnot); [discriminate|].
  cbn [head] in Hhead. injection Hhead as <-.
  exists before, k. split; [exact Hk|]. split; [by rewrite <- Hword | exact Hnot].
Defined.





(** C5 on a character ten units wide at the origin, on a closed path of
    length 100: its midpoint 5 lies in the interval, and it stays as it
    is. *)
Lemma characterResultOnPath_closed_middle_ex :
  characterResultOnPath (set_anchor AnchorMiddle (ex_char NoBreak NoChange 0))
    100%Q 0%Q true true
  = (5%Q, set_anchor AnchorMiddle (ex_char NoBreak NoChange 0)).
Proof.
  rewrite (characterResultOnPath_closed_middle
             (set_anchor AnchorMiddle (ex_char NoBreak NoChange 0)) 100%Q 0%Q true);
    reflexivity.
Defined.

(** C6 on the word "ABC" in a run without [textLength], over a nested
    run without [textLength] and a shape that is no run. *)
Lemma applyTextLength_unset_ex :
  applyTextLength
    (TextChunkShape 3 ex_auto LengthAdjustSpacingAndGlyphs
       [TextChunkShape 2 ex_auto LengthAdjustSpacing []; OtherShape]) true
    (ex_ABC, 0%nat, 0%Z)
  = (ex_ABC, 3%nat, 0%Z).
Proof.
  destruct (applyTextLength_unset 3 ex_auto LengthAdjustSpacingAndGlyphs
              [TextChunkShape 2 ex_auto LengthAdjustSpacing []; OtherShape]
              true ex_ABC 0 0 eq_refl) as [Hrun Hbelow].
  rewrite Hrun, (Hbelow eq_refl). reflexivity.
Defined.

(** A run whose own [textLength] is auto, over a nested run with
    [textLength] 40 on the word "ABC", 30 wide: the stage moves the
    second and the third character. *)
Lemma applyTextLength_nested_run_moves :
  isAuto ex_auto = true
  /\ map finalPosition ex_ABC
     = [mkQPointF 0%Q 0%Q; mkQPointF 0%Q 0%Q; mkQPointF 0%Q 0%Q]
  /\ map finalPosition
       (fst (fst (applyTextLength (TextChunkShape 3 ex_auto LengthAdjustSpacing [ex_run])
                    true (ex_ABC, 0%nat, 0%Z))))
     = [mkQPointF 0%Q 0%Q; mkQPointF 15%Q 0%Q; mkQPointF 30%Q 0%Q].
Proof.
  split; [reflexivity|]. split; vm_compute; reflexivity.
Qed.

(** The glyph loop of the example keeps the break classes. *)
Lemma ex_env_glyphLoopKeepsBreaks (shaper : bool) : glyphLoopKeepsBreaks (ex_env shaper).
Proof.
  intros tr res h glyphs cc tabs result. cbn [placeGlyphs ex_env fst].
  split; [by rewrite length_imap|]. intros k.
  unfold at_. rewrite !nth_lookup, list_lookup_imap.
  by destruct (result !! k).
Qed.

(** C7 on "AB", line feed, "CD": the line feed is a space in the text
    for the shaper, so that a shaper that refuses line feeds gives the
    pass of the example, and it is a hard break in the results line
    breaking gets, which makes two lines of them. *)
Lemma relayout_hard_break_as_space_ex :
  fst (collectedText (ex_env true) [ex_subChunk ex_text]) = [65; 66; 10; 67; 68]%Z
  /\ shapedText (ex_env true) 0 [ex_subChunk ex_text] = [65; 66; 32; 67; 68]%Z
  /\ ex_fussyGlyphs Auto 72 (ex_props ex_auto) [65; 66; 10; 67; 68]%Z [ex_subChunk ex_text]
     = None
  /\ relayout (withShaper (ex_env true) ex_noLineFeed ex_fussyGlyphs) 0 1 0 (ex_shape [] [])
     = relayout (ex_env true) 0 1 0 (ex_shape [] [])
  /\ breakType
       (at_ (fst (lineBreakingInput (ex_env true) 0 1 0 (ex_shape [] []) [tt; tt; tt; tt; tt]))
            2)
     = HardBreak
  /\ map lineIndicesOf (d_lineBoxes (d (relayout (ex_env true) 0 1 0 (ex_shape [] []))))
     = [[0; 1; 2]; [3; 4]]%nat.
Proof.
  destruct (relayout_hard_break_as_space (ex_env true) 0 1 0 (ex_shape [] []) 2)
    as (_ & _ & _ & _ & Hshaper & Hclass).
  - vm_compute. reflexivity.
  - vm_compute. lia.
  - split; [reflexivity|]. split; [vm_compute; reflexivity|]. split; [reflexivity|].
    split; [|split].
    + apply Hshaper; [reflexivity|]. intros. reflexivity.
    + destruct Hclass as [_ Hline].
      * reflexivity.
      * repeat constructor.
      * vm_compute. lia.
      * destruct (Hline [tt; tt; tt; tt; tt]) as [_ Hkept]; [reflexivity|].
        apply Hkept, ex_env_glyphLoopKeepsBreaks.
    + vm_compute. reflexivity.
Defined.

(** C8 on an outline glyph of a face without italics, for an italic
    style and horizontal text. *)
Lemma synthesizeItalic_shear_ex :
  glyphObliqueTf
    (synthesizeItalic FT_GLYPH_FORMAT_OUTLINE StyleItalic 0 true 0%Q 0%Q TfIdentity 0 0)
  = TfShear SLANT_14DEG 0%Q TfIdentity.
Proof.
  destruct (synthesizeItalic_shear (R:=Q) FT_GLYPH_FORMAT_OUTLINE StyleItalic 0 true
              0%Q 0%Q TfIdentity 0 0) as (_ & Houtline & _ & _ & _).
  destruct Houtline as [Hshear _]; [reflexivity | discriminate | |exact Hshear].
  unfold nativeItalic. vm_compute. intros Hne. by apply Hne.
Defined.

(** A bitmap glyph of the same face is sheared by 1/4, which is more
    than the shear of an outline glyph. *)
Lemma synthesizeItalic_bitmap_steeper :
  bitmapTf
    (synthesizeItalic FT_GLYPH_FORMAT_BITMAP StyleItalic 0 true 0%Q 0%Q TfIdentity 0 0)
  = Some (TfMul (TfMul (TfTranslate 0%Q 0%Q) (TfShear (- (1 # 4))%Q 0%Q TfIdentity))
                (TfTranslate 0%Q 0%Q))
  /\ ~ (1 # 4 <= SLANT_14DEG)%Q.
Proof.
  split; [vm_compute; reflexivity|]. vm_compute. intros H. by apply H.
Qed.

(** The square is too narrow for the word "ABC". *)
Lemma ex_square_fitsNowhere :
  fitsNowhere ex_square (mkQRectF 0%Q (-8)%Q 30%Q 10%Q).
Proof.
  intros [x y]. apply not_true_is_false. intros Hin.
  change (Qle_bool 0 (Qred (0 + x))
          && Qle_bool (Qred (Qred (0 + x) + 30)) (Qred (0 + 20))
          && Qle_bool 0 (Qred (0 + y))
          && Qle_bool (Qred (Qred (0 + y) + 10)) (Qred (0 + 20)) = true) in Hin.
  repeat (apply andb_true_iff in Hin as [Hin ?]).
  repeat match goal with H : Qle_bool _ _ = true |- _ => apply Qle_bool_iff in H end.
  rewrite ?Qred_correct in *.
  lra.
Qed.

(** C9 fails: the word "ABC", 30 wide, flowed into the square of side
    20: its characters are hidden, and the one line box has no chunk. *)
Lemma flowTextInShapes_hides_wide_word :
  let out := flowTextInShapes (ex_props ex_auto) (ex_logicalToVisual 3) ex_ABC [ex_square] in
  map overflowWrap ex_ABC = [false; false; false]
  /\ map (fun lb => map chunkIndices (chunks lb)) (fst out) = [[]]
  /\ map hidden (snd out) = [true; true; true].
Proof. vm_compute. repeat split. Qed.

(** C9, as the code has it, on the word "ABC" when the search for its
    line starts: in the square of side 20 no line is found and the word
    is hidden; in the square of side 100 a line is found and the word is
    placed in its one chunk, none of its characters hidden. *)
Lemma flow_softBreakBlock_word_ex :
  (lineFound (ex_props ex_auto) 2 ex_flowABC = false
   /\ wordHidden (closeLine (ex_props ex_auto) ex_flowABC)
                 (flow_softBreakBlock (ex_props ex_auto) 2 ex_flowABC))
  /\ (lineFound (ex_props ex_auto) 2 ex_flowABC_wide = true
      /\ wordPlaced (closeLine (ex_props ex_auto) ex_flowABC_wide)
                    (flow_softBreakBlock (ex_props ex_auto) 2 ex_flowABC_wide)
      /\ map chunkIndices
           (chunks (fs_currentLine (flow_softBreakBlock (ex_props ex_auto) 2 ex_flowABC_wide)))
         = [[0; 1; 2]%nat]
      /\ map hidden (fs_result (flow_softBreakBlock (ex_props ex_auto) 2 ex_flowABC_wide))
         = [false; false; false]).
Proof.
  split.
  - destruct (flow_softBreakBlock_word (ex_props ex_auto) 2 ex_flowABC)
      as (_ & Hhidden & Hnone).
    assert (Hfound : lineFound (ex_props ex_auto) 2 ex_flowABC = false).
    { apply Hnone.
      - vm_compute. reflexivity.
      - change (Forall (fun p => fitsNowhere p (mkQRectF 0%Q (-8)%Q 30%Q 10%Q))
                       [NoPath; ex_square]).
        constructor; [|constructor; [|constructor]].
        + intros q. reflexivity.
        + exact ex_square_fitsNowhere. }
    split; [exact Hfound | exact (Hhidden Hfound)].
  - destruct (flow_softBreakBlock_word (ex_props ex_auto) 2 ex_flowABC_wide)
      as (Hplaced & _ & _).
    assert (Hfound : lineFound (ex_props ex_auto) 2 ex_flowABC_wide = true)
      by (vm_compute; reflexivity).
    split; [exact Hfound|]. split; [exact (Hplaced Hfound)|].
    split; vm_compute; reflexivity.
Defined.

(** C10 on "AB", line feed, "CD" with the layout of "ABC" cached. *)
Lemma relayout_without_glyphs_keeps_layout_ex :
  d_result (d (relayout (ex_env_outlines false) 0 1 0
                 (ex_outlined [mkQRectF 0%Q 0%Q 5%Q 5%Q] ex_ABC [])))
  = ex_ABC
  /\ d_lineBoxes (d (relayout (ex_env_outlines false) 0 1 0
                       (ex_outlined [mkQRectF 0%Q 0%Q 5%Q 5%Q] ex_ABC [])))
     = []
  /\ tree (relayout (ex_env_outlines false) 0 1 0
             (ex_outlined [mkQRectF 0%Q 0%Q 5%Q 5%Q] ex_ABC []))
     = tree (ex_outlined [] ex_ABC []).
Proof.
  destruct (relayout_without_glyphs_keeps_layout (ex_env_outlines false) 0 1 0
              (ex_outlined [mkQRectF 0%Q 0%Q 5%Q 5%Q] ex_ABC []))
    as (Hresult & HlineBoxes & _ & Htree).
  - reflexivity.
  - split; [exact Hresult|]. split; [exact HlineBoxes | exact Htree].
Defined.

(** The state is not unchanged when the shaper returns no glyph array:
    the outlines the root and its child carried are gone after the
    pass. *)
Lemma relayout_without_glyphs_clears_outlines :
  glyphsOf (ex_env_outlines false) 0 (ex_outlined [mkQRectF 0%Q 0%Q 5%Q 5%Q] ex_ABC [])
  = None
  /\ ex_outlinesOf (tree (ex_outlined [mkQRectF 0%Q 0%Q 5%Q 5%Q] ex_ABC []))
     = [mkQRectF 0%Q 0%Q 5%Q 5%Q; mkQRectF 0%Q 0%Q 5%Q 5%Q]
  /\ ex_outlinesOf (tree (relayout (ex_env_outlines false) 0 1 0
                            (ex_outlined [mkQRectF 0%Q 0%Q 5%Q 5%Q] ex_ABC [])))
     = []
  /\ relayout (ex_env_outlines false) 0 1 0
       (ex_outlined [mkQRectF 0%Q 0%Q 5%Q 5%Q] ex_ABC [])
     ≠ ex_outlined [mkQRectF 0%Q 0%Q 5%Q 5%Q] ex_ABC [].
Proof.
  split; [reflexivity|]. split; [reflexivity|]. split; [reflexivity|].
  vm_compute. discriminate.
Qed.


(** * The further properties on the small world *)

Lemma ex_keys5 : QMap_keys le (ex_logicalToVisual 5) = [0; 1; 2; 3; 4]%nat.
Proof. vm_compute. reflexivity. Qed.

Lemma ex_ABnCD_addressable (k : nat) :
  k ∈ QMap_keys le (ex_logicalToVisual 5) -> addressable (at_ ex_ABnCD k) = true.
Proof.
  rewrite ex_keys5. intros Hk.
  repeat (apply elem_of_cons in Hk as [->|Hk]; [reflexivity|]).
  by apply elem_of_nil in Hk.
Qed.

(** X1 on "AB", line feed, "CD": one hard break, two lines. *)
Lemma breakLines_auto_line_count_ex :
  length (fst (breakLines (ex_props ex_auto) (mkQPointF 0%Q 0%Q)
                 (ex_logicalToVisual 5) ex_ABnCD))
  = S (hardBreaks ex_ABnCD (QMap_keys le (ex_logicalToVisual 5)))
  /\ hardBreaks ex_ABnCD (QMap_keys le (ex_logicalToVisual 5)) = 1%nat.
Proof.
  split; [|vm_compute; reflexivity].
  apply (breakLines_auto_line_count (ex_props ex_auto) (mkQPointF 0%Q 0%Q)
           (ex_logicalToVisual 5) ex_ABnCD).
  - reflexivity.
  - intros He. assert (H0 : ex_logicalToVisual 5 !! 0%nat = None) by (by rewrite He).
    vm_compute in H0. discriminate.
  - apply ex_ABnCD_addressable.
Defined.

(** X3 on "A", a collapsed space without a glyph, "B", broken into
    lines and flowed into the wide square: both engines place the two
    letters and leave the space as it was. *)
Lemma line_engines_leave_unshaped_ex :
  QMap_keys le ex_glyphsAB = [0; 2]%nat
  /\ at_ (snd (breakLines (ex_props ex_auto) (mkQPointF 0%Q 0%Q) ex_glyphsAB ex_AsB)) 1
     = at_ ex_AsB 1
  /\ at_ (snd (flowTextInShapes (ex_props ex_auto) ex_glyphsAB ex_AsB [ex_wide])) 1
     = at_ ex_AsB 1
  /\ length (snd (flowTextInShapes (ex_props ex_auto) ex_glyphsAB ex_AsB [ex_wide]))
     = length ex_AsB
  /\ map lineIndicesOf
       (fst (flowTextInShapes (ex_props ex_auto) ex_glyphsAB ex_AsB [ex_wide]))
     = [[0; 2]%nat]
  /\ at_ (snd (flowTextInShapes (ex_props ex_auto) ex_glyphsAB ex_AsB [ex_wide])) 2
     ≠ at_ ex_AsB 2.
Proof.
  assert (Hkeys : QMap_keys le ex_glyphsAB = [0; 2]%nat) by (vm_compute; reflexivity).
  destruct (line_engines_leave_unshaped (ex_props ex_auto) (mkQPointF 0%Q 0%Q)
              ex_glyphsAB ex_AsB [ex_wide]) as (Hbreak & Hflow & Hlen).
  { rewrite Hkeys. intros k Hk.
    repeat (apply elem_of_cons in Hk as [->|Hk]; [reflexivity|]).
    by apply elem_of_nil in Hk. }
  assert (Hout : 1%nat ∉ QMap_keys le ex_glyphsAB).
  { rewrite Hkeys. intros Hk.
    repeat (apply elem_of_cons in Hk as [Hk|Hk]; [discriminate|]).
    by apply elem_of_nil in Hk. }
  split; [exact Hkeys|]. split; [exact (Hbreak 1%nat Hout)|].
  split; [exact (Hflow 1%nat Hout)|]. split; [exact Hlen|].
  split; vm_compute; [reflexivity | discriminate].
Defined.

(** X5 on a collapsed space in front of a letter. *)
Lemma markMiddle_passes_anchor_ex :
  anchored_chunk (at_ (markMiddle ex_collapsed) 1) = true
  /\ anchored_chunk (at_ (markMiddle ex_collapsed) 0) = true.
Proof.
  apply (markMiddle_passes_anchor ex_collapsed 0 1).
  - cbn. lia.
  - split; [lia|]. split; [reflexivity|]. split; [reflexivity|]. intros m Hm. lia.
  - reflexivity.
Defined.

(** X7 on "AB", line feed, "CD". *)
Lemma setupResult_hard_break_collapses_ex :
  ex_lineBreaks !! 2%nat = Some 0%Z
  /\ lineStart
       (at_ (fst (setupResult 0 1 0 (fun c => (c =? QChar_Space)%Z) (fun _ _ => false)
                    Wrap LineBreakAuto (replaceHardBreaks 0 ex_text ex_lineBreaks)
                    ex_lineBreaks [0; 0; 0; 0; 0]%Z [] true [ex_subChunk ex_text])
               : list (@CharacterResult Q RectPath unit unit)) 2)
     = Collapse
  /\ lineEnd
       (at_ (fst (setupResult 0 1 0 (fun c => (c =? QChar_Space)%Z) (fun _ _ => false)
                    Wrap LineBreakAuto (replaceHardBreaks 0 ex_text ex_lineBreaks)
                    ex_lineBreaks [0; 0; 0; 0; 0]%Z [] true [ex_subChunk ex_text])
               : list (@CharacterResult Q RectPath unit unit)) 2)
     = Collapse.
Proof.
  apply (setupResult_hard_break_collapses (R:=Q) (Path:=RectPath) (Image:=unit) (Brush:=unit)
           0 1 0 (fun c => (c =? QChar_Space)%Z) (fun _ _ => false)
           Wrap LineBreakAuto (replaceHardBreaks 0 ex_text ex_lineBreaks)
           ex_lineBreaks [0; 0; 0; 0; 0]%Z [] true [ex_subChunk ex_text] 2).
  vm_compute. reflexivity.
Defined.

(** X8 on the line "AB", line feed: the line feed collapses, "B" is the
    last character that does not. *)
Lemma handleCollapseAndHang_trailing_ex :
  (forall k, k ∈ [2%nat] -> (k < length ex_ABnCD)%nat ->
     hidden (at_ (handleCollapseAndHang ex_ABnCD ex_chunkABn false true false) k) = true
     /\ addressable (at_ (handleCollapseAndHang ex_ABnCD ex_chunkABn false true false) k)
        = false)
  /\ (forall k, k ∉ [2%nat] -> k ≠ 1%nat ->
        at_ (handleCollapseAndHang ex_ABnCD ex_chunkABn false true false) k
        = at_ ex_ABnCD k)
  /\ hidden (at_ (handleCollapseAndHang ex_ABnCD ex_chunkABn false true false) 1)
     = hidden (at_ ex_ABnCD 1)
  /\ addressable (at_ (handleCollapseAndHang ex_ABnCD ex_chunkABn false true false) 1)
     = addressable (at_ ex_ABnCD 1)
  /\ (false = false ->
      at_ (handleCollapseAndHang ex_ABnCD ex_chunkABn false true false) 1
      = at_ ex_ABnCD 1).
Proof.
  apply (handleCollapseAndHang_trailing ex_ABnCD ex_chunkABn false true false [0%nat] 1 [2%nat]).
  - reflexivity.
  - discriminate.
  - by constructor.
Defined.

(** X10 on the run of three characters. *)
Lemma applyTextLength_spacing_only_moves_ex :
  blankPosition (at_ (fst (fst (applyTextLength ex_run true (ex_ABC, 0%nat, 0%Z)))) 1)
  = blankPosition (at_ ex_ABC 1)
  /\ path (at_ (fst (fst (applyTextLength ex_run true (ex_ABC, 0%nat, 0%Z)))) 1)
     = path (at_ ex_ABC 1)
  /\ advance (at_ (fst (fst (applyTextLength ex_run true (ex_ABC, 0%nat, 0%Z)))) 1)
     = advance (at_ ex_ABC 1)
  /\ boundingBox (at_ (fst (fst (applyTextLength ex_run true (ex_ABC, 0%nat, 0%Z)))) 1)
     = boundingBox (at_ ex_ABC 1).
Proof.
  apply (applyTextLength_spacing_only_moves ex_run true ex_ABC 0 0 1).
  reflexivity.
Defined.

(** X12 on "AB", line feed, "CD", which is one anchored chunk. *)
Lemma applyAnchoring_moves_chunk_together_ex :
  exists out shiftP,
    Members.applyAnchoring ex_ABnCD true = Some out
    /\ finalPosition (at_ out 0) = padd (finalPosition (at_ ex_ABnCD 0)) shiftP
    /\ finalPosition (at_ out 4) = padd (finalPosition (at_ ex_ABnCD 4)) shiftP.
Proof.
  apply (applyAnchoring_moves_chunk_together ex_ABnCD true 0 4).
  - cbn. lia.
  - intros m Hm. destruct m as [|[|[|[|[|m]]]]]; try reflexivity; lia.
Defined.

Lemma Qltb_irrefl (x : Q) : Qltb x x = false.
Proof.
  unfold Qltb. apply negb_false_iff, Qle_bool_iff. apply Qle_refl.
Qed.

Lemma Qltb_trans (x y z : Q) : Qltb x y = true -> Qltb y z = true -> Qltb x z = true.
Proof.
  unfold Qltb. rewrite !negb_true_iff. intros Hxy Hyz.
  apply not_true_iff_false. apply not_true_iff_false in Hxy, Hyz.
  rewrite Qle_bool_iff in *. intros Hzx.
  apply Qnot_le_lt in Hxy, Hyz. lra.
Qed.

(** X15 on the two nodes, with a snap distance of five: the second
    node is the one snapped to, the first is not closer. *)
Lemma NodeSnapStrategy_snap_nearest_ex :
  fst (fst (NodeSnapStrategy.snap (fun _ _ => ex_nodes) (mkQPointF 0%Q 0%Q) 5%Q)) = true
  /\ (NodeSnapStrategy.squareDistance (mkQPointF 0%Q 0%Q) (mkQPointF 3%Q 0%Q)
      <? NodeSnapStrategy.squareDistance (mkQPointF 0%Q 0%Q)
           (snd (fst (NodeSnapStrategy.snap (fun _ _ => ex_nodes) (mkQPointF 0%Q 0%Q) 5%Q))))%qr
     = false.
Proof.
  apply (NodeSnapStrategy_snap_nearest (R:=Q) (fun _ _ => ex_nodes) (mkQPointF 0%Q 0%Q) 5%Q
           (mkQPointF 3%Q 0%Q)).
  - exact Qltb_irrefl.
  - exact Qltb_trans.
  - by left.
  - vm_compute. reflexivity.
Defined.

(** X18 on a line box without chunks, as [LineBox()] makes it. *)
Lemma setCurrentChunk_round_trip_ex :
  chunk (setCurrentChunk ex_chunkABn (LineBox0 : @LineBox Q)) = ex_chunkABn
  /\ (5%Z ≠ Z.max (currentChunk (LineBox0 : @LineBox Q)) 0 ->
      value_ LineChunk0 (chunks (setCurrentChunk ex_chunkABn (LineBox0 : @LineBox Q))) 5
      = value_ LineChunk0 (chunks (LineBox0 : @LineBox Q)) 5).
Proof.
  apply (setCurrentChunk_round_trip ex_chunkABn (LineBox0 : @LineBox Q) 5).
  cbn. lia.
Defined.

(** X19 on the square that is too narrow for the word "ABC". *)
Lemma getFirstPosition_nowhere_ex :
  getFirstPosition ex_square (mkQRectF 0%Q (-8)%Q 30%Q 10%Q) (mkQPointF 0%Q 0%Q)
    HorizontalTB true = None.
Proof.
  apply (getFirstPosition_nowhere ex_square (mkQRectF 0%Q (-8)%Q 30%Q 10%Q)
           (mkQPointF 0%Q 0%Q) HorizontalTB true).
  right. exact ex_square_fitsNowhere.
Defined.

(** X20 on "AB", line feed, "CD" with the shaper at work. *)
Lemma relayout_one_chunk_per_line_ex :
  Forall single (d_lineBoxes (d (relayout (ex_env true) 0 1 0 (ex_shape [] [])))).
Proof.
  apply (relayout_one_chunk_per_line (ex_env true) 0 1 0 (ex_shape [] [])).
  - eexists. vm_compute. reflexivity.
  - reflexivity.
Defined.
